(** * Parking-lot multi-agent routing: a shallow embedding of the simulation core

    The development follows the Python sources leaves-first:
    [generator/cell.py], [generator/grid.py], [planning/reservation_table.py],
    [planning/single_agent_planner.py], [planning/priority_planner.py],
    [agents/car.py], [core/parking_manager.py], [core/simulation_core.py].

    Python integers are [Z]; car identifiers, which are only ever created by
    counting up from zero, are [nat].  Python sets are [gset], dictionaries
    that are only looked up are [gmap], and dictionaries whose iteration order
    is observable are association lists in insertion order. *)

From Stdlib Require Import ZArith QArith Lia.
From stdpp Require Import gmap list strings.

#[local] Open Scope Z_scope.

(** ** Results of loops and fallible code *)

(** A Python call either returns, raises [KeyError], or (in the model only)
    exhausts the fuel that bounds a [while] loop. *)
Inductive Result (A : Type) : Type :=
  | Done (a : A)
  | KeyError
  | OutOfFuel.
Arguments Done {A} a.
Arguments KeyError {A}.
Arguments OutOfFuel {A}.

(** ** Insertion-ordered dictionaries *)

Section Dict.
Context {K V : Type} `{EqDecision K}.

(** [d.get(k)] *)
Fixpoint dict_get (d : list (K * V)) (k : K) : option V :=
  match d with
  | [] => None
  | (k', v) :: d' => if decide (k' = k) then Some v else dict_get d' k
  end.

(** [d[k] = v]: an existing key keeps its place, a new key goes last. *)
Fixpoint dict_set (d : list (K * V)) (k : K) (v : V) : list (K * V) :=
  match d with
  | [] => [(k, v)]
  | (k', v') :: d' =>
      if decide (k' = k) then (k', v) :: d' else (k', v') :: dict_set d' k v
  end.

(** [del d[k]] (the callers guard it with a membership test). *)
Fixpoint dict_del (d : list (K * V)) (k : K) : list (K * V) :=
  match d with
  | [] => []
  | (k', v') :: d' =>
      if decide (k' = k) then dict_del d' k else (k', v') :: dict_del d' k
  end.

Definition dict_keys (d : list (K * V)) : list K := fst <$> d.
Definition dict_values (d : list (K * V)) : list V := snd <$> d.
Definition dict_mem (d : list (K * V)) (k : K) : bool :=
  bool_decide (is_Some (dict_get d k)).
End Dict.

(** ** generator/cell.py and generator/grid.py *)

Notation Position := (Z * Z)%type (only parsing).
Notation TimedPosition := (Z * Z * Z)%type (only parsing).

Inductive CellType : Type := ROAD | PARKING | WALL | ENTRY | EXIT.

#[global] Instance CellType_eq_dec : EqDecision CellType.
Proof. solve_decision. Defined.

(** [Cell.is_drivable] *)
Definition is_drivable (c : CellType) : bool :=
  match c with
  | ROAD | PARKING | ENTRY | EXIT => true
  | WALL => false
  end.

(** A grid is its dimensions and the type of the cell at [cells[x][y]]; every
    access in the core is guarded by [in_bounds]. *)
Record Grid : Type := {
  width : Z;
  height : Z;
  cell_type : Z -> Z -> CellType
}.

Definition in_bounds (g : Grid) (x y : Z) : bool :=
  bool_decide (0 <= x < width g /\ 0 <= y < height g).

(** ** planning/reservation_table.py *)

Record ReservationTable : Type := {
  vertex_reservations : gset (Z * Z * Z);
  edge_reservations : gset (Z * Z * Z * Z * Z);
  static_cells : gset (Z * Z)
}.

Definition empty_table : ReservationTable :=
  {| vertex_reservations := ∅; edge_reservations := ∅; static_cells := ∅ |}.

Definition is_cell_free (rt : ReservationTable) (x y t : Z) : bool :=
  bool_decide ((x, y) ∉ static_cells rt) &&
  bool_decide ((x, y, t) ∉ vertex_reservations rt).

Definition is_edge_free (rt : ReservationTable) (x1 y1 x2 y2 t : Z) : bool :=
  bool_decide ((x1, y1, x2, y2, t) ∉ edge_reservations rt) &&
  bool_decide ((x2, y2, x1, y1, t) ∉ edge_reservations rt).

Definition add_vertex (rt : ReservationTable) (v : Z * Z * Z) : ReservationTable :=
  {| vertex_reservations := {[ v ]} ∪ vertex_reservations rt;
     edge_reservations := edge_reservations rt;
     static_cells := static_cells rt |}.

Definition add_edge (rt : ReservationTable) (e : Z * Z * Z * Z * Z) : ReservationTable :=
  {| vertex_reservations := vertex_reservations rt;
     edge_reservations := {[ e ]} ∪ edge_reservations rt;
     static_cells := static_cells rt |}.

Definition discard_vertex (rt : ReservationTable) (v : Z * Z * Z) : ReservationTable :=
  {| vertex_reservations := vertex_reservations rt ∖ {[ v ]};
     edge_reservations := edge_reservations rt;
     static_cells := static_cells rt |}.

Definition discard_edge (rt : ReservationTable) (e : Z * Z * Z * Z * Z) : ReservationTable :=
  {| vertex_reservations := vertex_reservations rt;
     edge_reservations := edge_reservations rt ∖ {[ e ]};
     static_cells := static_cells rt |}.

(** The body of [for i, (x, y, t) in enumerate(path)]: [prev] is [path[i-1]]
    when [i > 0] and [None] at [i = 0]. *)
Fixpoint reserve_path_from (prev : option TimedPosition) (path : list TimedPosition)
    (rt : ReservationTable) : ReservationTable :=
  match path with
  | [] => rt
  | (x, y, t) :: rest =>
      let rt1 := add_vertex rt (x, y, t) in
      let rt2 := match prev with
                 | Some (px, py, pt) => add_edge rt1 (px, py, x, y, pt)
                 | None => rt1
                 end in
      reserve_path_from (Some (x, y, t)) rest rt2
  end.

Definition reserve_path (path : list TimedPosition) (rt : ReservationTable) :
    ReservationTable :=
  reserve_path_from None path rt.

Fixpoint unreserve_path_from (prev : option TimedPosition) (path : list TimedPosition)
    (rt : ReservationTable) : ReservationTable :=
  match path with
  | [] => rt
  | (x, y, t) :: rest =>
      let rt1 := discard_vertex rt (x, y, t) in
      let rt2 := match prev with
                 | Some (px, py, pt) => discard_edge rt1 (px, py, x, y, pt)
                 | None => rt1
                 end in
      unreserve_path_from (Some (x, y, t)) rest rt2
  end.

Definition unreserve_path (path : list TimedPosition) (rt : ReservationTable) :
    ReservationTable :=
  unreserve_path_from None path rt.

(** [reserve_goal] and [unreserve_goal] ignore [start_time] and [horizon]. *)
Definition reserve_goal (rt : ReservationTable) (x y : Z) : ReservationTable :=
  {| vertex_reservations := vertex_reservations rt;
     edge_reservations := edge_reservations rt;
     static_cells := {[ (x, y) ]} ∪ static_cells rt |}.

Definition unreserve_goal (rt : ReservationTable) (x y : Z) : ReservationTable :=
  {| vertex_reservations := vertex_reservations rt;
     edge_reservations := edge_reservations rt;
     static_cells := static_cells rt ∖ {[ (x, y) ]} |}.

(** The vertices and the edges a path occupies. *)
Definition path_vertices (path : list TimedPosition) : gset (Z * Z * Z) :=
  list_to_set path.

Fixpoint path_edges_from (prev : option TimedPosition) (path : list TimedPosition) :
    gset (Z * Z * Z * Z * Z) :=
  match path with
  | [] => ∅
  | (x, y, t) :: rest =>
      match prev with
      | Some (px, py, pt) => {[ (px, py, x, y, pt) ]} ∪ path_edges_from (Some (x, y, t)) rest
      | None => path_edges_from (Some (x, y, t)) rest
      end
  end.

Definition path_edges (path : list TimedPosition) : gset (Z * Z * Z * Z * Z) :=
  path_edges_from None path.

(** ** planning/single_agent_planner.py *)

Definition manhattan (a b : Position) : Z :=
  Z.abs (a.1 - b.1) + Z.abs (a.2 - b.2).

(** Entries of the open set are tuples [(f, g, key)]; [heapq] orders them as
    Python orders tuples.  The planner never pushes the same tuple twice, so
    [heappop] is "remove the least entry", whatever the heap's layout. *)
Notation HeapEntry := (Z * Z * Z)%type (only parsing).

Definition entry_ltb (a b : HeapEntry) : bool :=
  let '(fa, ga, ka) := a in
  let '(fb, gb, kb) := b in
  (fa <? fb) || ((fa =? fb) && ((ga <? gb) || ((ga =? gb) && (ka <? kb)))).

Fixpoint heap_min (m : HeapEntry) (h : list HeapEntry) : HeapEntry :=
  match h with
  | [] => m
  | e :: h' => heap_min (if entry_ltb e m then e else m) h'
  end.

Fixpoint remove_first (e : HeapEntry) (h : list HeapEntry) : list HeapEntry :=
  match h with
  | [] => []
  | e' :: h' => if decide (e' = e) then h' else e' :: remove_first e h'
  end.

Definition heappush (h : list HeapEntry) (e : HeapEntry) : list HeapEntry := e :: h.

Definition heappop (h : list HeapEntry) : option (HeapEntry * list HeapEntry) :=
  match h with
  | [] => None
  | e :: h' => let m := heap_min e h' in Some (m, remove_first m h)
  end.

(** The three tables of the search. *)
Record Search : Type := {
  open_set : list HeapEntry;
  g_score : gmap Z Z;
  came_from : gmap Z Z
}.

(** [cur = goal_key; while cur in came_from: cur = came_from[cur]]: the keys
    from the goal back to the root, [None] when the walk outlasts the fuel. *)
Fixpoint path_keys_from (fuel : nat) (cf : gmap Z Z) (cur : Z) : option (list Z) :=
  match fuel with
  | O => None
  | S fuel' =>
      match cf !! cur with
      | None => Some [cur]
      | Some parent => (cons cur) <$> path_keys_from fuel' cf parent
      end
  end.

(** [t, idx = divmod(k, area); x, y = divmod(idx, height)] *)
Definition unpack_key (area height : Z) (k : Z) : TimedPosition :=
  let t := k / area in
  let idx := k mod area in
  (idx / height, idx mod height, t).

Definition _reconstruct_path_packed (fuel : nat) (cf : gmap Z Z) (goal_key : Z)
    (area height : Z) : option (list TimedPosition) :=
  match path_keys_from fuel cf goal_key with
  | None => None
  | Some path_keys => Some (unpack_key area height <$> reverse path_keys)
  end.

(** 4-dir + wait *)
Definition moves : list (Z * Z) := [(0, 1); (0, -1); (1, 0); (-1, 0); (0, 0)].

Section Planner.
Variable start : Position.
Variable start_time : Z.
Variable goal : Position.
Variable grid : Grid.
Variable reservation_table : ReservationTable.
Variable max_time : Z.
(** [additional_obstacles=None] is replaced by the empty set on entry. *)
Variable additional_obstacles : gset Position.
Variable obstacle_persistence : Z.

Definition area : Z := width grid * height grid.
Definition persist_until_t : Z := start_time + obstacle_persistence.

Definition pack_key (x y t : Z) : Z := t * area + (x * height grid + y).

(** [additional_obstacles and (nx, ny) in additional_obstacles and nt < persist_until_t] *)
Definition obstacle_blocks (nx ny nt : Z) : bool :=
  bool_decide (additional_obstacles <> ∅) &&
  bool_decide ((nx, ny) ∈ additional_obstacles) &&
  (nt <? persist_until_t).

(** The chain of [continue] guards a successor [(nx, ny)] of [(x, y, t)]
    has to pass before the relaxation. *)
Definition admissible (x y t nx ny : Z) : bool :=
  let nt := t + 1 in
  if negb (in_bounds grid nx ny) then false
  else
    let ct := cell_type grid nx ny in
    if bool_decide (ct = WALL) then false
    else if bool_decide (ct = EXIT) && bool_decide ((nx, ny) <> goal) then false
    else if bool_decide (ct = ENTRY) && bool_decide ((nx, ny) <> start)
            && bool_decide ((nx, ny) <> goal) then false
    else if obstacle_blocks nx ny nt then false
    else if bool_decide ((nx, ny) ∈ static_cells reservation_table)
            || bool_decide ((nx, ny, nt) ∈ vertex_reservations reservation_table)
         then false
    else if bool_decide ((x, y, nx, ny, t) ∈ edge_reservations reservation_table)
            || bool_decide ((nx, ny, x, y, t) ∈ edge_reservations reservation_table)
         then false
    else true.

(** One turn of [for dx, dy in moves], from the node [(x, y, t)] popped
    with cost [g] under [key]. *)
Definition relax (x y t g key : Z) (st : Search) (d : Z * Z) : Search :=
  let nx := x + d.1 in
  let ny := y + d.2 in
  let nt := t + 1 in
  if admissible x y t nx ny then
    let neighbor_key := nt * area + (nx * height grid + ny) in
    let tentative_g := g + 1 in
    let no_better :=
      match g_score st !! neighbor_key with
      | Some prev_g => tentative_g >=? prev_g
      | None => false
      end in
    if no_better then st
    else
      let f := tentative_g + Z.abs (nx - goal.1) + Z.abs (ny - goal.2) in
      {| open_set := heappush (open_set st) (f, tentative_g, neighbor_key);
         g_score := <[ neighbor_key := tentative_g ]> (g_score st);
         came_from := <[ neighbor_key := key ]> (came_from st) |}
  else st.

(** [while open_set: ...]; the walk back from a goal node at tick [t]
    passes one key per tick since [start_time]. *)
Fixpoint a_star_loop (fuel : nat) (st : Search) : Result (option (list TimedPosition)) :=
  match fuel with
  | O => OutOfFuel
  | S fuel' =>
      match heappop (open_set st) with
      | None => Done None
      | Some ((_, g, key), rest) =>
          let st := {| open_set := rest; g_score := g_score st;
                       came_from := came_from st |} in
          if bool_decide (g_score st !! key = Some g) then
            let '(x, y, t) := unpack_key area (height grid) key in
            if bool_decide ((x, y) = goal) then
              match _reconstruct_path_packed (S (Z.to_nat (t - start_time)))
                      (came_from st) key area (height grid) with
              | Some path => Done (Some path)
              | None => OutOfFuel
              end
            else if t >=? max_time then a_star_loop fuel' st
            else a_star_loop fuel' (fold_left (relax x y t g key) moves st)
          else a_star_loop fuel' st
      end
  end.

Definition single_agent_a_star (fuel : nat) : Result (option (list TimedPosition)) :=
  let '(sx, sy) := start in
  let '(gx, gy) := goal in
  if negb (in_bounds grid sx sy) then Done None
  else if negb (in_bounds grid gx gy) then Done None
  else if negb (is_drivable (cell_type grid sx sy)) then Done None
  else if negb (is_drivable (cell_type grid gx gy)) then Done None
  else if bool_decide ((sx, sy) ∈ additional_obstacles) then Done None
  else
    let start_idx := sx * height grid + sy in
    let start_key := start_time * area + start_idx in
    let start_h := Z.abs (sx - gx) + Z.abs (sy - gy) in
    a_star_loop fuel
      {| open_set := heappush [] (start_h, 0, start_key);
         g_score := {[ start_key := 0 ]};
         came_from := ∅ |}.

(** Every key the search can ever score: one per in-bounds cell and tick
    from [start_time] to [max_time]. *)
Definition all_keys : list Z :=
  t ← seqZ start_time (Z.max (max_time - start_time) 0 + 1);
  x ← seqZ 0 (width grid);
  y ← seqZ 0 (height grid);
  [pack_key x y t].

(** Enough turns of the [while] loop for every key to be popped once. *)
Definition search_fuel : nat := S (S (length all_keys)).
End Planner.

(** A path moves at most one cell per entry and one tick per entry. *)
Definition step_ok (a b : TimedPosition) : Prop :=
  let '(x1, y1, t1) := a in
  let '(x2, y2, t2) := b in
  Z.abs (x1 - x2) + Z.abs (y1 - y2) <= 1 /\ t2 = t1 + 1.

Fixpoint steps_ok (p : list TimedPosition) : Prop :=
  match p with
  | a :: rest =>
      match rest with
      | b :: _ => step_ok a b /\ steps_ok rest
      | [] => True
      end
  | [] => True
  end.

(** *** Vocabulary for the planner's correctness *)

(** What the search maintains about every scored key: it packs an in-bounds
    cell and a tick not before [start_time], its score is the number of ticks
    since [start_time], and it is either the root (the start cell at
    [start_time], without a parent) or has a scored parent one tick earlier
    and at most one cell away. *)
Definition search_inv (start : Position) (start_time : Z) (grid : Grid)
    (st : Search) : Prop :=
  forall k g, g_score st !! k = Some g ->
    exists x y t,
      in_bounds grid x y = true /\ k = pack_key grid x y t /\
      start_time <= t /\ g = t - start_time /\
      ((came_from st !! k = None /\ (x, y) = start /\ t = start_time) \/
       (exists px py,
          came_from st !! k = Some (pack_key grid px py (t - 1)) /\
          in_bounds grid px py = true /\
          is_Some (g_score st !! pack_key grid px py (t - 1)) /\
          Z.abs (px - x) + Z.abs (py - y) <= 1 /\ start_time < t)).

(** Keys of [all_keys] not scored yet. *)
Definition unvisited (start_time : Z) (grid : Grid) (max_time : Z) (st : Search) : nat :=
  length (filter (fun k => g_score st !! k = None) (all_keys start_time grid max_time)).

(** What the planner promises about a path it returns. *)
Definition good_path (start : Position) (start_time : Z) (goal : Position)
    (path : list TimedPosition) : Prop :=
  head path = Some (start.1, start.2, start_time) /\
  (exists t, last path = Some (goal.1, goal.2, t)) /\
  steps_ok path.

(** *** Sample inputs for the planner *)

(** A corridor of three road cells, [(0,0)], [(1,0)], [(2,0)]. *)
Definition lane3 : Grid :=
  {| width := 3; height := 1; cell_type := fun _ _ => ROAD |}.

(** A table in which the cell [(0,0)] is both statically reserved and
    vertex-reserved at tick 0. *)
Definition table_start_reserved : ReservationTable :=
  {| vertex_reservations := {[ (0, 0, 0) ]};
     edge_reservations := ∅;
     static_cells := {[ (0, 0) ]} |}.

(** The search tables on entry to the loop, for a start at [(0,0)], tick 0,
    in [lane3] with goal [(2,0)]. *)
Definition lane3_initial_search : Search :=
  {| open_set := [(2, 0, 0)]; g_score := {[ 0 := 0 ]}; came_from := ∅ |}.

(** ** core/simulation_core.py: conflict resolution in [_advance_cars] *)

(** [current_positions], [intended_moves] and [active_moves] are
    dictionaries [car_id -> (x, y)]. *)
Notation Moves := (list (nat * Position)) (only parsing).

(** [pos_to_cid = {pos: cid for cid, pos in current_positions.items()}] *)
Definition build_pos_to_cid (current_positions : Moves) : gmap Position nat :=
  fold_left (fun m e => <[ e.2 := e.1 ]> m) current_positions ∅.

(** [moves_to_cell]: target cell -> the cars heading there, in dictionary order. *)
Definition build_moves_to_cell (active_moves : Moves) : list (Position * list nat) :=
  fold_left
    (fun mtc e => dict_set mtc e.2 (default [] (dict_get mtc e.2) ++ [e.1]))
    active_moves [].

(** [min(cids)] *)
Definition min_id (cids : list nat) : nat :=
  match cids with
  | [] => O
  | c :: cs => fold_left Nat.min cs c
  end.

(** The first car of [cids] already standing on [pos], else the least id. *)
Definition find_winner (current_positions : Moves) (pos : Position) (cids : list nat) : nat :=
  match List.find (fun cid => bool_decide (dict_get current_positions cid = Some pos)) cids with
  | Some winner_id => winner_id
  | None => min_id cids
  end.

(** [if active_moves[cid] != current_positions[cid]:
       active_moves[cid] = current_positions[cid]; changed = True] *)
Definition revert_to_current (current_positions : Moves) (st : Moves * bool) (cid : nat) :
    Moves * bool :=
  match dict_get current_positions cid with
  | Some p =>
      if bool_decide (dict_get st.1 cid <> Some p) then (dict_set st.1 cid p, true) else st
  | None => st
  end.

(** One turn of [for pos, cids in moves_to_cell.items()]. *)
Definition resolve_cell (current_positions : Moves) (st : Moves * bool)
    (entry : Position * list nat) : Moves * bool :=
  if (1 <? length entry.2)%nat then
    let winner_id := find_winner current_positions entry.1 entry.2 in
    fold_left
      (fun st cid =>
         if bool_decide (cid <> winner_id) then revert_to_current current_positions st cid
         else st)
      entry.2 st
  else st.

Definition vertex_phase (current_positions : Moves) (st : Moves * bool) : Moves * bool :=
  fold_left (resolve_cell current_positions) (build_moves_to_cell st.1) st.

(** One turn of [for cid_a, next_a in active_moves.items()]; the values are
    read from the dictionary as it is when the turn starts. *)
Definition edge_check (current_positions : Moves) (pos_to_cid : gmap Position nat)
    (st : Moves * bool) (cid_a : nat) : Moves * bool :=
  match dict_get st.1 cid_a, dict_get current_positions cid_a with
  | Some next_a, Some curr_a =>
      if bool_decide (next_a = curr_a) then st
      else
        match pos_to_cid !! next_a with
        | Some cid_b =>
            if bool_decide (dict_get st.1 cid_b = Some curr_a) then
              revert_to_current current_positions
                (revert_to_current current_positions st cid_a) cid_b
            else st
        | None => st
        end
  | _, _ => st
  end.

Definition edge_phase (current_positions : Moves) (pos_to_cid : gmap Position nat)
    (st : Moves * bool) : Moves * bool :=
  fold_left (edge_check current_positions pos_to_cid) (dict_keys st.1) st.

(** The body of [while True], from [changed = False] to the test of [changed]. *)
Definition resolution_pass (current_positions : Moves) (pos_to_cid : gmap Position nat)
    (active_moves : Moves) : Moves * bool :=
  edge_phase current_positions pos_to_cid
    (vertex_phase current_positions (active_moves, false)).

Fixpoint resolve_loop (fuel : nat) (current_positions : Moves)
    (pos_to_cid : gmap Position nat) (active_moves : Moves) : Result Moves :=
  match fuel with
  | O => OutOfFuel
  | S fuel' =>
      let st := resolution_pass current_positions pos_to_cid active_moves in
      if st.2 then resolve_loop fuel' current_positions pos_to_cid st.1
      else Done st.1
  end.

(** Step 3 of [_advance_cars].  [current_positions[cid]] is evaluated for
    every key of [active_moves] during the first turn of the loop, so the
    loop raises [KeyError] exactly when some key has no current position. *)
Definition resolve_conflicts (current_positions intended_moves : Moves) : Result Moves :=
  if forallb (fun cid => dict_mem current_positions cid) (dict_keys intended_moves) then
    resolve_loop (S (length intended_moves)) current_positions
      (build_pos_to_cid current_positions) intended_moves
  else KeyError.

(** *** Vocabulary for conflict resolution *)

(** No two cars stand on the same cell. *)
Definition positions_injective (current_positions : Moves) : Prop :=
  forall a b p,
    dict_get current_positions a = Some p -> dict_get current_positions b = Some p -> a = b.

(** The cars whose move targets [pos], in dictionary order. *)
Definition targeting (active_moves : Moves) (pos : Position) : list nat :=
  (filter (fun e => e.2 = pos) active_moves).*1.

(** The number of cars whose move differs from where they stand. *)
Definition moving (current_positions active_moves : Moves) : nat :=
  length (filter (fun e => dict_get current_positions e.1 <> Some e.2) active_moves).

(** [n] turns of the loop body. *)
Fixpoint passes (n : nat) (current_positions : Moves) (pos_to_cid : gmap Position nat)
    (active_moves : Moves) : Moves :=
  match n with
  | O => active_moves
  | S n' =>
      passes n' current_positions pos_to_cid
        (resolution_pass current_positions pos_to_cid active_moves).1
  end.

(** Sample snapshot: car 0 on (0,0), car 1 on (1,0), car 2 on (2,0), car 3 on (1,1). *)
Definition demo_positions : Moves := [(0%nat, (0, 0)); (1%nat, (1, 0)); (2%nat, (2, 0)); (3%nat, (1, 1))].

(** Cars 0 and 1 head for each other's cell; cars 2 and 3 both head for (2,1). *)
Definition demo_intended : Moves := [(0%nat, (1, 0)); (1%nat, (0, 0)); (2%nat, (2, 1)); (3%nat, (2, 1))].

(** [st'] comes from [st] by reverting cars, one after the other, to where
    they stand. *)
Inductive reverted (current_positions : Moves) (st : Moves * bool) : Moves * bool -> Prop :=
  | reverted_refl : reverted current_positions st st
  | reverted_step st' cid :
      reverted current_positions st st' ->
      cid ∈ dict_keys st'.1 ->
      reverted current_positions st (revert_to_current current_positions st' cid).

(** ** The module-level random generator

    All randomness of the core comes from Python's global [random] state.
    It is modelled as an oracle: an arbitrary infinite sequence of draws and
    a cursor; each primitive uses up one draw (one per element for
    [shuffle]).  Every outcome the primitive can have is the image of some
    draw. *)

Record RNG : Type := {
  draws : nat -> N;
  cursor : nat
}.

Definition next_draw (r : RNG) : N * RNG :=
  (draws r (cursor r), {| draws := draws r; cursor := S (cursor r) |}).

(** [random.random()]: a float [k / 2**53] with [0 <= k < 2**53]. *)
Definition random_random (r : RNG) : Q * RNG :=
  let '(n, r') := next_draw r in
  (Qmake (Z.of_N (n mod 2 ^ 53)) (2 ^ 53), r').

(** [random.choice(seq)] for a non-empty [seq = x :: xs]. *)
Definition random_choice {A : Type} (x : A) (xs : list A) (r : RNG) : A * RNG :=
  let '(n, r') := next_draw r in
  (nth (N.to_nat (n mod N.of_nat (S (length xs)))) (x :: xs) x, r').

(** [random.randint(a, b)] *)
Definition random_randint (a b : Z) (r : RNG) : Z * RNG :=
  let '(n, r') := next_draw r in
  (a + Z.of_N n mod (b - a + 1), r').

(** [x[i], x[j] = x[j], x[i]] *)
Definition swap_entries {A : Type} (l : list A) (i j : nat) : list A :=
  match l !! i, l !! j with
  | Some a, Some b => <[ i := b ]> (<[ j := a ]> l)
  | _, _ => l
  end.

(** [random.shuffle(x)]: [for i in reversed(range(1, len(x))):
    j = randbelow(i + 1); x[i], x[j] = x[j], x[i]]; [i] counts down from
    [len(x) - 1]. *)
Fixpoint shuffle_from {A : Type} (i : nat) (l : list A) (r : RNG) : list A * RNG :=
  match i with
  | O => (l, r)
  | S i' =>
      let '(n, r') := next_draw r in
      shuffle_from i' (swap_entries l i (N.to_nat (n mod N.of_nat (S i)))) r'
  end.

Definition random_shuffle {A : Type} (l : list A) (r : RNG) : list A * RNG :=
  shuffle_from (pred (length l)) l r.

(** [a < b] on rationals, as a boolean. *)
Definition Qltb (a b : Q) : bool := (Qnum a * QDen b <? Qnum b * QDen a)%Z.

(** ** agents/car.py *)

Record Car : Type := {
  car_id : nat;
  start : Position;
  goal : option Position;
  intent : option string;
  path : list TimedPosition;
  current_step : nat;
  _position : Position;
  last_plan_fail_time : Z;
  plan_fail_count : Z;
  blocked_count : Z;
  spawn_time : Z;
  is_initial : bool
}.

(** [Car(car_id, start, intent)] *)
Definition new_car (id : nat) (start_pos : Position) (intent0 : option string) : Car :=
  {| car_id := id; start := start_pos; goal := None; intent := intent0;
     path := []; current_step := 0; _position := start_pos;
     last_plan_fail_time := -1000; plan_fail_count := 0; blocked_count := 0;
     spawn_time := -1; is_initial := false |}.

Definition set_goal (c : Car) (v : option Position) : Car :=
  {| car_id := car_id c; start := start c; goal := v; intent := intent c;
     path := path c; current_step := current_step c; _position := _position c;
     last_plan_fail_time := last_plan_fail_time c; plan_fail_count := plan_fail_count c;
     blocked_count := blocked_count c; spawn_time := spawn_time c;
     is_initial := is_initial c |}.

Definition set_intent (c : Car) (v : option string) : Car :=
  {| car_id := car_id c; start := start c; goal := goal c; intent := v;
     path := path c; current_step := current_step c; _position := _position c;
     last_plan_fail_time := last_plan_fail_time c; plan_fail_count := plan_fail_count c;
     blocked_count := blocked_count c; spawn_time := spawn_time c;
     is_initial := is_initial c |}.

Definition set_route (c : Car) (p : list TimedPosition) (i : nat) : Car :=
  {| car_id := car_id c; start := start c; goal := goal c; intent := intent c;
     path := p; current_step := i; _position := _position c;
     last_plan_fail_time := last_plan_fail_time c; plan_fail_count := plan_fail_count c;
     blocked_count := blocked_count c; spawn_time := spawn_time c;
     is_initial := is_initial c |}.

Definition set_position (c : Car) (v : Position) : Car :=
  {| car_id := car_id c; start := start c; goal := goal c; intent := intent c;
     path := path c; current_step := current_step c; _position := v;
     last_plan_fail_time := last_plan_fail_time c; plan_fail_count := plan_fail_count c;
     blocked_count := blocked_count c; spawn_time := spawn_time c;
     is_initial := is_initial c |}.

Definition set_last_plan_fail_time (c : Car) (v : Z) : Car :=
  {| car_id := car_id c; start := start c; goal := goal c; intent := intent c;
     path := path c; current_step := current_step c; _position := _position c;
     last_plan_fail_time := v; plan_fail_count := plan_fail_count c;
     blocked_count := blocked_count c; spawn_time := spawn_time c;
     is_initial := is_initial c |}.

Definition set_plan_fail_count (c : Car) (v : Z) : Car :=
  {| car_id := car_id c; start := start c; goal := goal c; intent := intent c;
     path := path c; current_step := current_step c; _position := _position c;
     last_plan_fail_time := last_plan_fail_time c; plan_fail_count := v;
     blocked_count := blocked_count c; spawn_time := spawn_time c;
     is_initial := is_initial c |}.

Definition set_blocked_count (c : Car) (v : Z) : Car :=
  {| car_id := car_id c; start := start c; goal := goal c; intent := intent c;
     path := path c; current_step := current_step c; _position := _position c;
     last_plan_fail_time := last_plan_fail_time c; plan_fail_count := plan_fail_count c;
     blocked_count := v; spawn_time := spawn_time c;
     is_initial := is_initial c |}.

(** [car.spawn_time = t; car.is_initial = b] *)
Definition set_origin (c : Car) (t : Z) (b : bool) : Car :=
  {| car_id := car_id c; start := start c; goal := goal c; intent := intent c;
     path := path c; current_step := current_step c; _position := _position c;
     last_plan_fail_time := last_plan_fail_time c; plan_fail_count := plan_fail_count c;
     blocked_count := blocked_count c; spawn_time := t;
     is_initial := b |}.

Definition current_position (c : Car) : Position := _position c.
Definition has_goal (c : Car) : bool := bool_decide (goal c <> None).
Definition has_path (c : Car) : bool := (0 <? length (path c))%nat.
Definition is_finished (c : Car) : bool := (length (path c) <=? current_step c)%nat.
Definition set_path (c : Car) (p : list TimedPosition) : Car := set_route c p 0.
Definition clear_path (c : Car) : Car := set_route c [] 0.

(** [while idx < len(path): if path[idx].t < target_time: idx += 1 else: break],
    over the entries from [idx] on. *)
Fixpoint fast_forward (entries : list TimedPosition) (idx : nat) (target_time : Z) : nat :=
  match entries with
  | [] => idx
  | (_, _, t) :: rest =>
      if t <? target_time then fast_forward rest (S idx) target_time else idx
  end.

(** [Car.step(current_time)]: the returned position and the car afterwards. *)
Definition car_step (c : Car) (current_time : Z) : option Position * Car :=
  let target_time := current_time + 1 in
  let idx := fast_forward (drop (current_step c) (path c)) (current_step c) target_time in
  let c1 := set_route c (path c) idx in
  let finished :=
    if has_path c1 && (length (path c1) <=? idx)%nat then (None, c1)
    else (Some (_position c1), c1) in
  match path c !! idx with
  | Some (x, y, t) =>
      if t =? target_time then
        (Some (x, y), set_route (set_position c1 (x, y)) (path c) (S idx))
      else if t >? target_time then (Some (_position c1), c1)
      else finished
  | None => finished
  end.

(** [Car.peek_at_next_step(current_time)] *)
Definition peek_at_next_step (c : Car) (current_time : Z) : option Position :=
  let target_time := current_time + 1 in
  let idx := fast_forward (drop (current_step c) (path c)) (current_step c) target_time in
  match path c !! idx with
  | Some (x, y, t) => if t =? target_time then Some (x, y) else Some (_position c)
  | None => None
  end.

(** ** core/parking_manager.py *)

Record ParkingManager : Type := {
  parking_cells : list Position;
  exit_cells : gset Position;
  entry_cells : gset Position;
  free_spots : gset Position;
  assigned_spots : gmap nat Position;
  occupied_spots : gset Position;
  next_car_id : nat
}.

(** [ParkingManager(grid, parking_cells, exit_cells, entry_cells)] *)
Definition new_parking_manager (parking exits entries : list Position) : ParkingManager :=
  {| parking_cells := parking;
     exit_cells := list_to_set exits;
     entry_cells := list_to_set entries;
     free_spots := list_to_set parking;
     assigned_spots := ∅;
     occupied_spots := ∅;
     next_car_id := 0 |}.

Definition set_slots (pm : ParkingManager) (free : gset Position)
    (assigned : gmap nat Position) (occupied : gset Position) : ParkingManager :=
  {| parking_cells := parking_cells pm; exit_cells := exit_cells pm;
     entry_cells := entry_cells pm; free_spots := free;
     assigned_spots := assigned; occupied_spots := occupied;
     next_car_id := next_car_id pm |}.

Definition bump_car_id (pm : ParkingManager) : ParkingManager :=
  {| parking_cells := parking_cells pm; exit_cells := exit_cells pm;
     entry_cells := entry_cells pm; free_spots := free_spots pm;
     assigned_spots := assigned_spots pm; occupied_spots := occupied_spots pm;
     next_car_id := S (next_car_id pm) |}.

Definition create_active_car (pm : ParkingManager) (start_pos : Position)
    (intent0 : option string) : Car * ParkingManager :=
  (new_car (next_car_id pm) start_pos intent0, bump_car_id pm).

(** [create_parked_car]: [None] stands for the [IndexError] of
    [random.choice] on an empty list; the only caller tests [free_spots]
    first.  A Python set is enumerated in an order the language leaves open;
    the model enumerates it with [elements]. *)
Definition create_parked_car (pm : ParkingManager) (r : RNG) :
    option (Car * ParkingManager * RNG) :=
  match elements (free_spots pm) with
  | [] => None
  | x :: xs =>
      let '(spot, r') := random_choice x xs r in
      let car := set_goal (new_car (next_car_id pm) spot None) (Some spot) in
      let pm1 := bump_car_id pm in
      Some (car,
            set_slots pm1 (free_spots pm1 ∖ {[ spot ]}) (assigned_spots pm1)
              ({[ spot ]} ∪ occupied_spots pm1),
            r')
  end.

(** [min(iterable, key=...)]: the first least element in iteration order. *)
Fixpoint min_by (key : Position -> Z) (best : Position) (l : list Position) : Position :=
  match l with
  | [] => best
  | p :: l' => min_by key (if key p <? key best then p else best) l'
  end.

Definition choose_free_parking_spot (pm : ParkingManager) (car : Car) :
    option Position * ParkingManager :=
  match elements (free_spots pm) with
  | [] => (None, pm)
  | x :: xs =>
      let spot := min_by (fun p => manhattan p (current_position car)) x xs in
      (Some spot,
       set_slots pm (free_spots pm ∖ {[ spot ]})
         (<[ car_id car := spot ]> (assigned_spots pm)) (occupied_spots pm))
  end.

Definition choose_exit_cell (pm : ParkingManager) (car : Car) : option Position :=
  match elements (exit_cells pm) with
  | [] => None
  | x :: xs => Some (min_by (fun p => manhattan p (current_position car)) x xs)
  end.

(** [assign_goal(car, current_time)]; [current_time] is not used. *)
Definition assign_goal (pm : ParkingManager) (car : Car) : option Position * ParkingManager :=
  if bool_decide (intent car = Some "PARK"%string) then choose_free_parking_spot pm car
  else if bool_decide (intent car = Some "EXIT"%string) then (choose_exit_cell pm car, pm)
  else (None, pm).

Definition mark_occupied (pm : ParkingManager) (car : Car) (spot : Position) :
    ParkingManager :=
  set_slots pm (free_spots pm) (delete (car_id car) (assigned_spots pm))
    ({[ spot ]} ∪ occupied_spots pm).

Definition release_assigned_spot (pm : ParkingManager) (id : nat) : ParkingManager :=
  match assigned_spots pm !! id with
  | None => pm
  | Some spot =>
      set_slots pm
        (if bool_decide (spot ∉ occupied_spots pm) then {[ spot ]} ∪ free_spots pm
         else free_spots pm)
        (delete id (assigned_spots pm)) (occupied_spots pm)
  end.

(** ** planning/priority_planner.py *)

(** [plan_for_car]: the verdict, the car and the table afterwards.  Both
    callers make sure the car has a goal before they plan. *)
Definition plan_for_car (grid : Grid) (rt : ReservationTable) (planning_horizon : Z)
    (car : Car) (current_time : Z) (obstacles : gset Position) (obstacle_persistence : Z) :
    bool * Car * ReservationTable :=
  match goal car with
  | None => (false, car, rt)
  | Some g =>
      match single_agent_a_star (current_position car) current_time g grid rt
              (current_time + planning_horizon) obstacles obstacle_persistence
              (search_fuel current_time grid (current_time + planning_horizon)) with
      | Done (Some p) => (true, set_path car p, reserve_path p rt)
      | _ => (false, car, rt)
      end
  end.

Definition cancel_plan (rt : ReservationTable) (car : Car) : Car * ReservationTable :=
  if has_path car then (clear_path car, unreserve_path (path car) rt) else (car, rt).

(** ** core/simulation_core.py: state *)

Record SimulationConfig : Type := {
  planning_horizon : Z;
  goal_reserve_horizon : Z;
  arrival_lambda : Q;
  max_arriving_cars : Z;
  initial_parked_cars : Z;
  initial_active_cars : Z;
  initial_active_exit_rate : Q
}.

(** [self.config.initial_active_cars = v] *)
Definition set_initial_active_cars (c : SimulationConfig) (v : Z) : SimulationConfig :=
  {| planning_horizon := planning_horizon c;
     goal_reserve_horizon := goal_reserve_horizon c;
     arrival_lambda := arrival_lambda c;
     max_arriving_cars := max_arriving_cars c;
     initial_parked_cars := initial_parked_cars c;
     initial_active_cars := v;
     initial_active_exit_rate := initial_active_exit_rate c |}.

(** The planner object: its grid, its table and its horizon. *)
Record PriorityPlanner : Type := {
  planner_grid : Grid;
  reservation_table : ReservationTable;
  planner_horizon : Z
}.

(** The counters that are only ever added to. *)
Record Metrics : Type := {
  total_arrived : Z;
  total_planned : Z;
  total_failed_plans : Z;
  total_parked : Z;
  initial_active_cars_exited_count : Z;
  arriving_cars_parked_count : Z;
  sum_steps_to_park : Z;
  sum_steps_to_exit : Z
}.

Definition no_metrics : Metrics :=
  {| total_arrived := 0; total_planned := 0; total_failed_plans := 0; total_parked := 0;
     initial_active_cars_exited_count := 0; arriving_cars_parked_count := 0;
     sum_steps_to_park := 0; sum_steps_to_exit := 0 |}.

(** [m] with [da] added to [total_arrived], [dp] to [total_planned],
    [df] to [total_failed_plans] and [dk] to [total_parked]. *)
Definition add_totals (m : Metrics) (da dp df dk : Z) : Metrics :=
  {| total_arrived := total_arrived m + da;
     total_planned := total_planned m + dp;
     total_failed_plans := total_failed_plans m + df;
     total_parked := total_parked m + dk;
     initial_active_cars_exited_count := initial_active_cars_exited_count m;
     arriving_cars_parked_count := arriving_cars_parked_count m;
     sum_steps_to_park := sum_steps_to_park m;
     sum_steps_to_exit := sum_steps_to_exit m |}.

(** [arriving_cars_parked_count += 1; sum_steps_to_park += d] *)
Definition add_park_steps (m : Metrics) (d : Z) : Metrics :=
  {| total_arrived := total_arrived m;
     total_planned := total_planned m;
     total_failed_plans := total_failed_plans m;
     total_parked := total_parked m;
     initial_active_cars_exited_count := initial_active_cars_exited_count m;
     arriving_cars_parked_count := arriving_cars_parked_count m + 1;
     sum_steps_to_park := sum_steps_to_park m + d;
     sum_steps_to_exit := sum_steps_to_exit m |}.

(** [initial_active_cars_exited_count += 1; sum_steps_to_exit += d] *)
Definition add_exit_steps (m : Metrics) (d : Z) : Metrics :=
  {| total_arrived := total_arrived m;
     total_planned := total_planned m;
     total_failed_plans := total_failed_plans m;
     total_parked := total_parked m;
     initial_active_cars_exited_count := initial_active_cars_exited_count m + 1;
     arriving_cars_parked_count := arriving_cars_parked_count m;
     sum_steps_to_park := sum_steps_to_park m;
     sum_steps_to_exit := sum_steps_to_exit m + d |}.

(** The simulation object.  Car objects live in one store, [all_cars];
    [active_cars] and [waiting_active_cars] hold their ids in insertion
    order, so that a change to a car is seen through every reference.
    Where Python reads a car object out of one of the two collections, the
    model looks its id up in the store; the [None] branch of such a lookup
    (an id without an object) stands for no behaviour of the program, and
    [store_ok] below rules it out. *)
Record SimulationCore : Type := {
  grid : Grid;
  parking_manager : ParkingManager;
  priority_planner : PriorityPlanner;
  config : SimulationConfig;
  time : Z;
  active_cars : list nat;
  car_positions : list (nat * Position);
  all_cars : gmap nat Car;
  exited_car_ids : gset nat;
  cars_pending_removal : gset nat;
  waiting_active_cars : list nat;
  arriving_cars_created : Z;
  metrics : Metrics;
  rng : RNG
}.

Definition with_parking_manager (s : SimulationCore) (v : ParkingManager) : SimulationCore :=
  {| grid := grid s; parking_manager := v; priority_planner := priority_planner s;
     config := config s; time := time s; active_cars := active_cars s;
     car_positions := car_positions s; all_cars := all_cars s;
     exited_car_ids := exited_car_ids s; cars_pending_removal := cars_pending_removal s;
     waiting_active_cars := waiting_active_cars s;
     arriving_cars_created := arriving_cars_created s; metrics := metrics s; rng := rng s |}.

Definition with_table (s : SimulationCore) (v : ReservationTable) : SimulationCore :=
  {| grid := grid s; parking_manager := parking_manager s;
     priority_planner :=
       {| planner_grid := planner_grid (priority_planner s); reservation_table := v;
          planner_horizon := planner_horizon (priority_planner s) |};
     config := config s; time := time s; active_cars := active_cars s;
     car_positions := car_positions s; all_cars := all_cars s;
     exited_car_ids := exited_car_ids s; cars_pending_removal := cars_pending_removal s;
     waiting_active_cars := waiting_active_cars s;
     arriving_cars_created := arriving_cars_created s; metrics := metrics s; rng := rng s |}.

Definition with_config (s : SimulationCore) (v : SimulationConfig) : SimulationCore :=
  {| grid := grid s; parking_manager := parking_manager s;
     priority_planner := priority_planner s;
     config := v; time := time s; active_cars := active_cars s;
     car_positions := car_positions s; all_cars := all_cars s;
     exited_car_ids := exited_car_ids s; cars_pending_removal := cars_pending_removal s;
     waiting_active_cars := waiting_active_cars s;
     arriving_cars_created := arriving_cars_created s; metrics := metrics s; rng := rng s |}.

Definition with_time (s : SimulationCore) (v : Z) : SimulationCore :=
  {| grid := grid s; parking_manager := parking_manager s;
     priority_planner := priority_planner s;
     config := config s; time := v; active_cars := active_cars s;
     car_positions := car_positions s; all_cars := all_cars s;
     exited_car_ids := exited_car_ids s; cars_pending_removal := cars_pending_removal s;
     waiting_active_cars := waiting_active_cars s;
     arriving_cars_created := arriving_cars_created s; metrics := metrics s; rng := rng s |}.

Definition with_active_cars (s : SimulationCore) (v : list nat) : SimulationCore :=
  {| grid := grid s; parking_manager := parking_manager s;
     priority_planner := priority_planner s;
     config := config s; time := time s; active_cars := v;
     car_positions := car_positions s; all_cars := all_cars s;
     exited_car_ids := exited_car_ids s; cars_pending_removal := cars_pending_removal s;
     waiting_active_cars := waiting_active_cars s;
     arriving_cars_created := arriving_cars_created s; metrics := metrics s; rng := rng s |}.

Definition with_car_positions (s : SimulationCore) (v : list (nat * Position)) :
    SimulationCore :=
  {| grid := grid s; parking_manager := parking_manager s;
     priority_planner := priority_planner s;
     config := config s; time := time s; active_cars := active_cars s;
     car_positions := v; all_cars := all_cars s;
     exited_car_ids := exited_car_ids s; cars_pending_removal := cars_pending_removal s;
     waiting_active_cars := waiting_active_cars s;
     arriving_cars_created := arriving_cars_created s; metrics := metrics s; rng := rng s |}.

Definition with_all_cars (s : SimulationCore) (v : gmap nat Car) : SimulationCore :=
  {| grid := grid s; parking_manager := parking_manager s;
     priority_planner := priority_planner s;
     config := config s; time := time s; active_cars := active_cars s;
     car_positions := car_positions s; all_cars := v;
     exited_car_ids := exited_car_ids s; cars_pending_removal := cars_pending_removal s;
     waiting_active_cars := waiting_active_cars s;
     arriving_cars_created := arriving_cars_created s; metrics := metrics s; rng := rng s |}.

(** [exited_car_ids] and [cars_pending_removal] *)
Definition with_exited (s : SimulationCore) (exited pending : gset nat) : SimulationCore :=
  {| grid := grid s; parking_manager := parking_manager s;
     priority_planner := priority_planner s;
     config := config s; time := time s; active_cars := active_cars s;
     car_positions := car_positions s; all_cars := all_cars s;
     exited_car_ids := exited; cars_pending_removal := pending;
     waiting_active_cars := waiting_active_cars s;
     arriving_cars_created := arriving_cars_created s; metrics := metrics s; rng := rng s |}.

Definition with_waiting (s : SimulationCore) (v : list nat) : SimulationCore :=
  {| grid := grid s; parking_manager := parking_manager s;
     priority_planner := priority_planner s;
     config := config s; time := time s; active_cars := active_cars s;
     car_positions := car_positions s; all_cars := all_cars s;
     exited_car_ids := exited_car_ids s; cars_pending_removal := cars_pending_removal s;
     waiting_active_cars := v;
     arriving_cars_created := arriving_cars_created s; metrics := metrics s; rng := rng s |}.

Definition with_created (s : SimulationCore) (v : Z) : SimulationCore :=
  {| grid := grid s; parking_manager := parking_manager s;
     priority_planner := priority_planner s;
     config := config s; time := time s; active_cars := active_cars s;
     car_positions := car_positions s; all_cars := all_cars s;
     exited_car_ids := exited_car_ids s; cars_pending_removal := cars_pending_removal s;
     waiting_active_cars := waiting_active_cars s;
     arriving_cars_created := v; metrics := metrics s; rng := rng s |}.

Definition with_metrics (s : SimulationCore) (v : Metrics) : SimulationCore :=
  {| grid := grid s; parking_manager := parking_manager s;
     priority_planner := priority_planner s;
     config := config s; time := time s; active_cars := active_cars s;
     car_positions := car_positions s; all_cars := all_cars s;
     exited_car_ids := exited_car_ids s; cars_pending_removal := cars_pending_removal s;
     waiting_active_cars := waiting_active_cars s;
     arriving_cars_created := arriving_cars_created s; metrics := v; rng := rng s |}.

Definition with_rng (s : SimulationCore) (v : RNG) : SimulationCore :=
  {| grid := grid s; parking_manager := parking_manager s;
     priority_planner := priority_planner s;
     config := config s; time := time s; active_cars := active_cars s;
     car_positions := car_positions s; all_cars := all_cars s;
     exited_car_ids := exited_car_ids s; cars_pending_removal := cars_pending_removal s;
     waiting_active_cars := waiting_active_cars s;
     arriving_cars_created := arriving_cars_created s; metrics := metrics s; rng := v |}.

(** A change to a car object. *)
Definition store_car (s : SimulationCore) (car : Car) : SimulationCore :=
  with_all_cars s (<[ car_id car := car ]> (all_cars s)).

(** [self.active_cars[id] = car]: a new id goes last. *)
Definition activate (l : list nat) (id : nat) : list nat :=
  if bool_decide (id ∈ l) then l else l ++ [id].

(** [del self.active_cars[id]]: the keys of a dictionary are distinct. *)
Definition remove_id (l : list nat) (id : nat) : list nat :=
  filter (fun i => i <> id) l.

(** [self.waiting_active_cars.remove(car)]: the first occurrence goes.  The
    only caller removes cars it has just read from the list, so the
    [ValueError] of a missing element does not arise. *)
Fixpoint remove_first_id (l : list nat) (id : nat) : list nat :=
  match l with
  | [] => []
  | i :: l' => if decide (i = id) then l' else i :: remove_first_id l' id
  end.

Definition table (s : SimulationCore) : ReservationTable :=
  reservation_table (priority_planner s).

(** [self.priority_planner.plan_for_car(car, t, obstacles, persistence)] on the
    simulation: the verdict and the simulation with the car and the table
    updated. *)
Definition sim_plan_for_car (s : SimulationCore) (car : Car) (current_time : Z)
    (obstacles : gset Position) (obstacle_persistence : Z) : bool * Car * SimulationCore :=
  let '(ok, car', rt') :=
    plan_for_car (planner_grid (priority_planner s)) (table s)
      (planner_horizon (priority_planner s)) car current_time obstacles
      obstacle_persistence in
  (ok, car', with_table (store_car s car') rt').

(** ** core/simulation_core.py: methods *)

Definition get_positions_snapshot (s : SimulationCore) : list (nat * Position) :=
  car_positions s.

Definition _get_unplanned_obstacles (s : SimulationCore) (exclude_car_id : nat) :
    gset Position :=
  fold_left
    (fun obs cid =>
       if bool_decide (cid = exclude_car_id) then obs
       else
         match all_cars s !! cid with
         | Some c =>
             if negb (bool_decide (cid ∈ waiting_active_cars s)) && negb (has_path c)
             then {[ current_position c ]} ∪ obs
             else obs
         | None => obs
         end)
    (active_cars s) ∅.

(** *** The escalation blocks *)

(** [if car.intent == "EXIT" and count % 5 == 0:
       exits = list(self.parking_manager.exit_cells)
       if exits: car.goal = random.choice(exits)] *)
Definition rerandomize_exit (count : Z) (s : SimulationCore) (car : Car) :
    Car * SimulationCore :=
  if bool_decide (intent car = Some "EXIT"%string) && (count mod 5 =? 0) then
    match elements (exit_cells (parking_manager s)) with
    | [] => (car, s)
    | x :: xs =>
        let '(g, r) := random_choice x xs (rng s) in
        (set_goal car (Some g), with_rng s r)
    end
  else (car, s).

(** [if car.intent == "PARK" and cond:
       self.parking_manager.release_assigned_spot(car.car_id)
       car.goal = None] *)
Definition drop_slot (cond : bool) (s : SimulationCore) (car : Car) : Car * SimulationCore :=
  if bool_decide (intent car = Some "PARK"%string) && cond then
    (set_goal car None,
     with_parking_manager s (release_assigned_spot (parking_manager s) (car_id car)))
  else (car, s).

(** [if car.intent == "PARK" and count >= 12:
       self.parking_manager.release_assigned_spot(car.car_id)
       car.intent = "EXIT"
       car.goal = self.parking_manager.assign_goal(car, t)] *)
Definition give_up_parking (count : Z) (s : SimulationCore) (car : Car) :
    Car * SimulationCore :=
  if bool_decide (intent car = Some "PARK"%string) && (count >=? 12) then
    let pm1 := release_assigned_spot (parking_manager s) (car_id car) in
    let car1 := set_intent car (Some "EXIT"%string) in
    let '(g, pm2) := assign_goal pm1 car1 in
    (set_goal car1 g, with_parking_manager s pm2)
  else (car, s).

(** The three tests after a failed plan in [_advance_cars], as a policy
    keyed on a counter. *)
Definition escalation_policy (count : Z) (s : SimulationCore) (car : Car) :
    Car * SimulationCore :=
  let '(car1, s1) := rerandomize_exit count s car in
  let '(car2, s2) := drop_slot (count mod 3 =? 0) s1 car1 in
  give_up_parking count s2 car2.

(** After a failed plan in [_advance_cars]: keyed on [car.plan_fail_count]. *)
Definition plan_failure_escalation (s : SimulationCore) (car : Car) : Car * SimulationCore :=
  escalation_policy (plan_fail_count car) s car.

(** After a failed plan in [_handle_new_car]: the slot is dropped from the
    third failure on. *)
Definition new_car_failure_escalation (s : SimulationCore) (car : Car) :
    Car * SimulationCore :=
  let '(car1, s1) := rerandomize_exit (plan_fail_count car) s car in
  let '(car2, s2) := drop_slot (plan_fail_count car1 >=? 3) s1 car1 in
  give_up_parking (plan_fail_count car2) s2 car2.

(** After a blocked move in [_advance_cars]: the two tests on
    [car.blocked_count]. *)
Definition block_escalation (s : SimulationCore) (car : Car) : Car * SimulationCore :=
  let '(car1, s1) := drop_slot (blocked_count car mod 3 =? 0) s car in
  give_up_parking (blocked_count car1) s1 car1.

(** *** New cars *)

Definition _handle_new_car (s : SimulationCore) (car : Car) (start_time : Z) :
    SimulationCore :=
  let id := car_id car in
  let s1 :=
    with_metrics
      (store_car
         (with_car_positions (with_active_cars s (activate (active_cars s) id))
            (dict_set (car_positions s) id (current_position car)))
         car)
      (add_totals (metrics s) 1 0 0 0) in
  let '(g, pm) := assign_goal (parking_manager s1) car in
  let car1 := set_goal car g in
  let s2 := store_car (with_parking_manager s1 pm) car1 in
  match g with
  | None => with_metrics s2 (add_totals (metrics s2) 0 0 1 0)
  | Some _ =>
      let obstacles := _get_unplanned_obstacles s2 id in
      let '(ok, car2, s3) := sim_plan_for_car s2 car1 start_time obstacles 20 in
      if ok then
        store_car (with_metrics s3 (add_totals (metrics s3) 0 1 0 0))
          (set_plan_fail_count car2 0)
      else
        let car3 := set_plan_fail_count car2 (plan_fail_count car2 + 1) in
        let s4 := with_metrics s3 (add_totals (metrics s3) 0 0 1 0) in
        let '(car4, s5) := new_car_failure_escalation s4 car3 in
        store_car s5 car4
  end.

(** *** [_advance_cars], step 1: plan for the cars that need it *)

Definition needs_plan (s : SimulationCore) (id : nat) : bool :=
  negb (bool_decide (id ∈ waiting_active_cars s)) &&
  match all_cars s !! id with
  | Some c => negb (has_path c)
  | None => false
  end.

Definition cars_needing_plan (s : SimulationCore) : list nat :=
  filter (fun id => needs_plan s id = true) (active_cars s).

(** [dist_to_goal]; [None] is [float('inf')]. *)
Definition dist_to_goal (c : Car) : option Z :=
  match goal c with
  | None => None
  | Some g => Some (Z.abs ((current_position c).1 - g.1) + Z.abs ((current_position c).2 - g.2))
  end.

Definition key_le (a b : option Z) : bool :=
  match a, b with
  | _, None => true
  | None, Some _ => false
  | Some x, Some y => x <=? y
  end.

(** [list.sort(key=...)] is stable. *)
Fixpoint insert_sorted (key : nat -> option Z) (x : nat) (l : list nat) : list nat :=
  match l with
  | [] => [x]
  | y :: ys => if key_le (key x) (key y) then x :: l else y :: insert_sorted key x ys
  end.

Definition stable_sort (key : nat -> option Z) (l : list nat) : list nat :=
  foldr (insert_sorted key) [] l.

(** One turn of [for car in cars_needing_plan]. *)
Definition plan_car (s : SimulationCore) (id : nat) : SimulationCore :=
  match all_cars s !! id with
  | None => s
  | Some car =>
      let '(car1, s1) :=
        if has_goal car then (car, s)
        else
          let '(g, pm) := assign_goal (parking_manager s) car in
          (set_goal car g, store_car (with_parking_manager s pm) (set_goal car g)) in
      if negb (has_goal car1) then s1
      else
        let obstacles := _get_unplanned_obstacles s1 id in
        let '(persistence, r) := random_randint 10 30 (rng s1) in
        let s2 := with_rng s1 r in
        let '(ok, car2, s3) := sim_plan_for_car s2 car1 (time s2) obstacles persistence in
        if negb ok then
          let car3 :=
            set_plan_fail_count (set_last_plan_fail_time car2 (time s3))
              (plan_fail_count car2 + 1) in
          let '(car4, s4) := plan_failure_escalation s3 car3 in
          store_car s4 car4
        else store_car s3 (set_plan_fail_count car2 0)
  end.

Definition plan_phase (s : SimulationCore) : SimulationCore :=
  fold_left plan_car
    (stable_sort (fun id => from_option dist_to_goal None (all_cars s !! id))
       (cars_needing_plan s))
    s.

(** *** [_advance_cars], step 2: intended next positions *)

Definition build_intended_moves (s : SimulationCore) : list (nat * Position) :=
  let of_active :=
    fold_left
      (fun im id =>
         match all_cars s !! id with
         | Some car =>
             dict_set im id
               (default (current_position car) (peek_at_next_step car (time s)))
         | None => im
         end)
      (active_cars s) [] in
  fold_left
    (fun im e => if bool_decide (e.1 ∈ active_cars s) then im else dict_set im e.1 e.2)
    (get_positions_snapshot s) of_active.

(** *** [_advance_cars], step 4: apply the moves *)

(** [unreserve_path(completed_path)] then [reserve_goal] at its last entry,
    both under [if completed_path]. *)
Definition release_path_keep_goal (rt : ReservationTable) (completed_path : list TimedPosition) :
    ReservationTable :=
  match last completed_path with
  | Some (gx, gy, _) => reserve_goal (unreserve_path completed_path rt) gx gy
  | None => rt
  end.

(** [if completed_path: unreserve_path(completed_path)] *)
Definition release_path (rt : ReservationTable) (completed_path : list TimedPosition) :
    ReservationTable :=
  match completed_path with
  | [] => rt
  | _ => unreserve_path completed_path rt
  end.

(** The car moved onto its goal. *)
Definition arrive_moved (s : SimulationCore) (car : Car) (final_pos : Position) :
    SimulationCore :=
  let id := car_id car in
  let completed_path := path car in
  let s1 :=
    if bool_decide (intent car = Some "PARK"%string) then
      let m1 := add_totals (metrics s) 0 0 0 1 in
      let m2 := if is_initial car then m1 else add_park_steps m1 (time s - spawn_time car) in
      store_car
        (with_table
           (with_parking_manager (with_metrics s m2)
              (mark_occupied (parking_manager s) car final_pos))
           (release_path_keep_goal (table s) completed_path))
        (clear_path car)
    else if bool_decide (intent car = Some "EXIT"%string) then
      let m1 :=
        if is_initial car then add_exit_steps (metrics s) (time s - spawn_time car)
        else metrics s in
      store_car
        (with_exited
           (with_table (with_metrics s m1) (release_path (table s) completed_path))
           ({[ id ]} ∪ exited_car_ids s) ({[ id ]} ∪ cars_pending_removal s))
        (clear_path car)
    else store_car s car in
  with_active_cars s1 (remove_id (active_cars s1) id).

(** The car stood still at the end of its path, on its goal. *)
Definition arrive_standing (s : SimulationCore) (car : Car) (curr_pos : Position) :
    SimulationCore :=
  let id := car_id car in
  let completed_path := path car in
  let s1 :=
    if bool_decide (intent car = Some "PARK"%string) then
      store_car
        (with_table
           (with_parking_manager (with_metrics s (add_totals (metrics s) 0 0 0 1))
              (mark_occupied (parking_manager s) car curr_pos))
           (release_path_keep_goal (table s) completed_path))
        (clear_path car)
    else if bool_decide (intent car = Some "EXIT"%string) then
      store_car
        (with_exited (with_table s (release_path (table s) completed_path))
           ({[ id ]} ∪ exited_car_ids s) ({[ id ]} ∪ cars_pending_removal s))
        (clear_path car)
    else store_car s car in
  with_active_cars s1 (remove_id (active_cars s1) id).

(** One turn of [for car_id, car in list(self.active_cars.items())].  The
    two dictionaries have an entry for every active car, since
    [intended_moves] is filled from [active_cars] and [active_moves] is a
    copy of it with some values changed; the last branch is for an id that
    has no object or no entry, and is never taken (see [intended_get]). *)
Definition commit_car (active_moves intended_moves : list (nat * Position))
    (s : SimulationCore) (id : nat) : SimulationCore :=
  match all_cars s !! id, dict_get active_moves id, dict_get intended_moves id with
  | Some car, Some final_pos, Some intended =>
      let curr_pos := current_position car in
      if bool_decide (final_pos <> curr_pos) then
        let car1 := set_blocked_count (car_step car (time s)).2 0 in
        let s1 := store_car (with_car_positions s (dict_set (car_positions s) id final_pos)) car1 in
        if bool_decide (Some final_pos = goal car1) then arrive_moved s1 car1 final_pos
        else s1
      else if bool_decide (intended <> curr_pos) then
        let '(car1, rt) := cancel_plan (table s) car in
        let car2 := set_blocked_count car1 (blocked_count car1 + 1) in
        let '(car3, s1) := block_escalation (with_table s rt) car2 in
        store_car s1 car3
      else
        let '(car1, s1) :=
          if has_path car then
            let '(stepped_pos, car') := car_step car (time s) in
            (car',
             match stepped_pos with
             | Some p => store_car (with_car_positions s (dict_set (car_positions s) id p)) car'
             | None => store_car s car'
             end)
          else (car, s) in
        if is_finished car1 && has_path car1 then
          if bool_decide (Some curr_pos = goal car1) then arrive_standing s1 car1 curr_pos
          else store_car s1 (clear_path car1)
        else s1
  | _, _, _ => s
  end.

Definition _advance_cars (s : SimulationCore) : Result SimulationCore :=
  let s1 := plan_phase s in
  let current_positions := get_positions_snapshot s1 in
  let intended_moves := build_intended_moves s1 in
  match resolve_conflicts current_positions intended_moves with
  | Done active_moves =>
      Done (fold_left (commit_car active_moves intended_moves) (active_cars s1) s1)
  | KeyError => KeyError
  | OutOfFuel => OutOfFuel
  end.

(** *** Waking, arrivals, cleanup *)

(** [woke_up]: one [random.random()] per waiting car, in list order. *)
Fixpoint draw_wake_ups (rate : Q) (waiting : list nat) (r : RNG) : list nat * RNG :=
  match waiting with
  | [] => ([], r)
  | id :: rest =>
      let '(x, r1) := random_random r in
      let '(woke, r2) := draw_wake_ups rate rest r1 in
      (if Qltb x rate then id :: woke else woke, r2)
  end.

(** One turn of [for car in woke_up]. *)
Definition wake_car (s : SimulationCore) (id : nat) : SimulationCore :=
  match all_cars s !! id with
  | None => s
  | Some car =>
      let s1 := with_waiting s (remove_first_id (waiting_active_cars s) id) in
      let '(cx, cy) := current_position car in
      let s2 := with_table s1 (unreserve_goal (table s1) cx cy) in
      let pm := parking_manager s2 in
      let s3 :=
        with_parking_manager s2
          (set_slots pm ({[ (cx, cy) ]} ∪ free_spots pm) (assigned_spots pm)
             (occupied_spots pm)) in
      _handle_new_car s3 car (time s3)
  end.

Definition _process_waiting_active_cars (s : SimulationCore) : SimulationCore :=
  match waiting_active_cars s with
  | [] => s
  | _ =>
      let '(woke_up, r) :=
        draw_wake_ups (initial_active_exit_rate (config s)) (waiting_active_cars s) (rng s) in
      fold_left wake_car woke_up (with_rng s r)
  end.

Definition entry_is_free (s : SimulationCore) (e : Position) : bool :=
  negb (bool_decide (e ∈ dict_values (car_positions s))) &&
  forallb (fun t_offset => is_cell_free (table s) e.1 e.2 (time s + t_offset)) (seqZ 0 20).

Definition _get_free_entry (s : SimulationCore) : option Position * RNG :=
  let '(entries, r) := random_shuffle (elements (entry_cells (parking_manager s))) (rng s) in
  (List.find (entry_is_free s) entries, r).

Definition _maybe_poisson_arrival (s : SimulationCore) : SimulationCore :=
  if arriving_cars_created s >=? max_arriving_cars (config s) then s
  else if bool_decide (free_spots (parking_manager s) = ∅) then s
  else
    let '(free_entry, r) := _get_free_entry s in
    let s1 := with_rng s r in
    match free_entry with
    | None => s1
    | Some e =>
        let '(x, r1) := random_random (rng s1) in
        let s2 := with_rng s1 r1 in
        if Qltb x (arrival_lambda (config s2)) then
          let '(car, pm) := create_active_car (parking_manager s2) e (Some "PARK"%string) in
          let car1 := set_origin car (time s2) (is_initial car) in
          let s3 :=
            with_car_positions
              (with_created (with_parking_manager s2 pm) (arriving_cars_created s2 + 1))
              (dict_set (car_positions s2) (car_id car1) (current_position car1)) in
          _handle_new_car s3 car1 (time s3 + 1)
        else s2
    end.

Definition _cleanup_exited_cars (s : SimulationCore) : SimulationCore :=
  with_exited
    (with_car_positions s
       (fold_left (fun d id => dict_del d id) (elements (cars_pending_removal s))
          (car_positions s)))
    (exited_car_ids s) ∅.

(** *** The public interface *)

Definition step (s : SimulationCore) : Result SimulationCore :=
  match _advance_cars (_process_waiting_active_cars (_cleanup_exited_cars s)) with
  | Done s1 =>
      let s2 := _maybe_poisson_arrival s1 in
      Done (with_time s2 (time s2 + 1))
  | KeyError => KeyError
  | OutOfFuel => OutOfFuel
  end.

(** [run]: the simulation at the [return]; [final_time] is its [time]. *)
Fixpoint run (fuel : nat) (s : SimulationCore) : Result SimulationCore :=
  match fuel with
  | O => OutOfFuel
  | S fuel' =>
      match step s with
      | Done s1 =>
          match active_cars s1 with
          | [] =>
              if arriving_cars_created s1 >=? max_arriving_cars (config s1) then Done s1
              else if Qeq_bool (arrival_lambda (config s1)) 0 then Done s1
              else run fuel' s1
          | _ => run fuel' s1
          end
      | KeyError => KeyError
      | OutOfFuel => OutOfFuel
      end
  end.

Definition final_time (s : SimulationCore) : Z := time s.

(** *** Construction *)

(** The capacity check at the head of [_initialize_cars]. *)
Definition cap_initial_active (cfg : SimulationConfig) (total_spots : Z) : SimulationConfig :=
  let required_spots := initial_parked_cars cfg + initial_active_cars cfg in
  if required_spots >? total_spots then
    let max_active := Z.max 0 (total_spots - initial_parked_cars cfg) in
    if initial_active_cars cfg >? max_active then set_initial_active_cars cfg max_active
    else cfg
  else cfg.

(** The body of the loop over the parked cars, once [create_parked_car]
    has returned. *)
Definition place_parked_car (s : SimulationCore) (car : Car) (pm : ParkingManager)
    (r : RNG) : SimulationCore :=
  let pos := current_position car in
  with_metrics
    (with_table
       (with_parking_manager
          (with_car_positions (store_car (with_rng s r) car)
             (dict_set (car_positions s) (car_id car) pos))
          (mark_occupied pm car pos))
       (reserve_goal (table s) pos.1 pos.2))
    (add_totals (metrics s) 0 0 0 1).

(** [for _ in range(n)] over the parked cars, with its [break]. *)
Fixpoint init_parked (n : nat) (s : SimulationCore) : SimulationCore :=
  match n with
  | O => s
  | S n' =>
      if bool_decide (free_spots (parking_manager s) = ∅) then s
      else
        match create_parked_car (parking_manager s) (rng s) with
        | None => s
        | Some (car, pm, r) => init_parked n' (place_parked_car s car pm r)
        end
  end.

(** The body of the loop over the initial active cars, once [spot] has
    been drawn: the car waits on it. *)
Definition place_waiting_car (s : SimulationCore) (spot : Position) (r : RNG) :
    SimulationCore :=
  let pm := parking_manager s in
  let pm1 := set_slots pm (free_spots pm ∖ {[ spot ]}) (assigned_spots pm)
               (occupied_spots pm) in
  let '(car, pm2) := create_active_car pm1 spot (Some "EXIT"%string) in
  let car1 := set_origin car 0 true in
  let id := car_id car1 in
  with_waiting
    (with_table
       (with_metrics
          (store_car
             (with_car_positions
                (with_active_cars (with_parking_manager (with_rng s r) pm2)
                   (activate (active_cars s) id))
                (dict_set (car_positions s) id spot))
             car1)
          (add_totals (metrics s) 1 0 0 0))
       (reserve_goal (table s) spot.1 spot.2))
    (waiting_active_cars s ++ [id]).

(** [for _ in range(n)] over the active cars, with its [break]. *)
Fixpoint init_active (n : nat) (s : SimulationCore) : SimulationCore :=
  match n with
  | O => s
  | S n' =>
      match elements (free_spots (parking_manager s)) with
      | [] => s
      | x :: xs =>
          let '(spot, r) := random_choice x xs (rng s) in
          init_active n' (place_waiting_car s spot r)
      end
  end.

(** [SimulationCore(grid, parking_manager, priority_planner, config)] *)
Definition new_simulation (g : Grid) (pm : ParkingManager) (planner : PriorityPlanner)
    (cfg : SimulationConfig) (r : RNG) : SimulationCore :=
  let cfg1 := cap_initial_active cfg (Z.of_nat (length (parking_cells pm))) in
  let s0 :=
    {| grid := g; parking_manager := pm; priority_planner := planner; config := cfg1;
       time := 0; active_cars := []; car_positions := []; all_cars := ∅;
       exited_car_ids := ∅; cars_pending_removal := ∅; waiting_active_cars := [];
       arriving_cars_created := 0; metrics := no_metrics; rng := r |} in
  init_active (Z.to_nat (initial_active_cars cfg1))
    (init_parked (Z.to_nat (initial_parked_cars cfg1)) s0).

(** *** Sample lot

    A 4 x 3 lot: the lane [(0,1)] (ENTRY), [(1,1)], [(2,1)] (ROAD), [(3,1)]
    (EXIT); two parking cells [(1,0)], [(2,0)] below the lane; a second exit
    [(2,2)] above it; walls elsewhere. *)
Definition demo_lot : Grid :=
  {| width := 4; height := 3;
     cell_type := fun x y =>
       if bool_decide ((x, y) = (0, 1)) then ENTRY
       else if bool_decide ((x, y) = (3, 1)) || bool_decide ((x, y) = (2, 2)) then EXIT
       else if bool_decide ((x, y) = (1, 1)) || bool_decide ((x, y) = (2, 1)) then ROAD
       else if bool_decide ((x, y) = (1, 0)) || bool_decide ((x, y) = (2, 0)) then PARKING
       else WALL |}.

Definition demo_parking : list Position := [(1, 0); (2, 0)].
Definition demo_exits : list Position := [(3, 1); (2, 2)].
Definition demo_entries : list Position := [(0, 1)].

Definition demo_planner : PriorityPlanner :=
  {| planner_grid := demo_lot; reservation_table := empty_table; planner_horizon := 10 |}.

(** The generator whose every draw is [n]. *)
Definition constant_rng (n : N) : RNG := {| draws := fun _ => n; cursor := 0 |}.

(** [arrival_lambda = 0], one parked car, no initial active car. *)
Definition demo_config_parked_only : SimulationConfig :=
  {| planning_horizon := 10; goal_reserve_horizon := 10; arrival_lambda := 0;
     max_arriving_cars := 5; initial_parked_cars := 1; initial_active_cars := 0;
     initial_active_exit_rate := 1 |}.

(** One initial active car, which waits on a parking cell. *)
Definition demo_config_one_active : SimulationConfig :=
  {| planning_horizon := 10; goal_reserve_horizon := 10; arrival_lambda := 0;
     max_arriving_cars := 0; initial_parked_cars := 0; initial_active_cars := 1;
     initial_active_exit_rate := 0 |}.

(** One initial active car that wakes at the first tick, and two arrivals. *)
Definition demo_config_busy : SimulationConfig :=
  {| planning_horizon := 10; goal_reserve_horizon := 10; arrival_lambda := 1;
     max_arriving_cars := 2; initial_parked_cars := 0; initial_active_cars := 1;
     initial_active_exit_rate := 1 |}.

Definition demo_sim (cfg : SimulationConfig) (r : RNG) : SimulationCore :=
  new_simulation demo_lot (new_parking_manager demo_parking demo_exits demo_entries)
    demo_planner cfg r.

(** A car on the lane, heading for the exit [(3,1)], blocked for the
    [n]-th time in a row. *)
Definition demo_blocked_car (intent0 : string) (n : Z) : Car :=
  set_blocked_count (set_goal (new_car 7 (1, 1) (Some intent0)) (Some (3, 1))) n.

(** Car 7 stands on [(1,1)], wants the exit [(3,1)] along the lane, and has
    been blocked four ticks in a row. *)
Definition demo_exit_car : Car :=
  set_blocked_count
    (set_route (set_goal (new_car 7 (1, 1) (Some "EXIT"%string)) (Some (3, 1)))
       [(1, 1, 0); (2, 1, 1); (3, 1, 2)] 0)
    4.

(** The parked-only simulation (every draw 1) with car 7 active in it. *)
Definition demo_blocked_sim : SimulationCore :=
  store_car
    (with_car_positions
       (with_active_cars (demo_sim demo_config_parked_only (constant_rng 1)) [7%nat])
       (dict_set (car_positions (demo_sim demo_config_parked_only (constant_rng 1)))
          7%nat (1, 1)))
    demo_exit_car.

(** *** Vocabulary for the invariants of the simulation *)

(** [n] calls of [step()]. *)
Fixpoint steps (n : nat) (s : SimulationCore) : Result SimulationCore :=
  match n with
  | O => Done s
  | S n' =>
      match steps n' s with
      | Done s' => step s'
      | KeyError => KeyError
      | OutOfFuel => OutOfFuel
      end
  end.

(** What the scheduler keeps true of its books, between any two of its
    operations: active ids are distinct, every stored car sits under its own
    id, an active car has a stored object and its published position is the
    object's, no active car is pending removal, every id in use is below the
    next id to hand out, a waiting car is active and has no path, and no car
    is in the waiting list twice. *)
Record store_ok (s : SimulationCore) : Prop := {
  so_keys : NoDup (dict_keys (car_positions s));
  so_active_nodup : NoDup (active_cars s);
  so_heap : forall id c, all_cars s !! id = Some c -> car_id c = id;
  so_active : forall id, id ∈ active_cars s ->
    exists c, all_cars s !! id = Some c /\
              dict_get (car_positions s) id = Some (current_position c);
  so_pending : forall id, id ∈ active_cars s -> id ∉ cars_pending_removal s;
  so_fresh : forall id, id ∈ active_cars s \/ id ∈ cars_pending_removal s ->
    (id < next_car_id (parking_manager s))%nat;
  so_waiting : forall id, id ∈ waiting_active_cars s ->
    id ∈ active_cars s /\ exists c, all_cars s !! id = Some c /\ path c = [];
  so_waiting_nodup : NoDup (waiting_active_cars s)
}.

(** The invariant behind C1. *)
Definition positions_ok (s : SimulationCore) : Prop :=
  store_ok s /\ positions_injective (car_positions s).

(** No two distinct cars of the snapshot share a cell that is not an EXIT. *)
Definition no_shared_cell (s : SimulationCore) : Prop :=
  forall a b p,
    a <> b ->
    dict_get (get_positions_snapshot s) a = Some p ->
    dict_get (get_positions_snapshot s) b = Some p ->
    cell_type (grid s) p.1 p.2 = EXIT.

(** The scheduler's books: what the position invariants read. *)
Definition books (s : SimulationCore) :
    list nat * list (nat * Position) * gset nat * list nat * Z * nat :=
  (active_cars s, car_positions s, cars_pending_removal s, waiting_active_cars s, time s,
   next_car_id (parking_manager s)).

(** The same car object, possibly with other plans: same id, same cell. *)
Definition same_car (c c' : Car) : Prop :=
  car_id c' = car_id c /\ _position c' = _position c.

(** *** Vocabulary for the parking invariant *)

(** [set(self.assigned_spots.values())] *)
Definition assigned_cells (pm : ParkingManager) : gset Position :=
  map_img (assigned_spots pm).

(** The cells on which initial active cars still wait for their wake-up. *)
Definition waiting_cells (s : SimulationCore) : gset Position :=
  list_to_set (omap (dict_get (car_positions s)) (waiting_active_cars s)).

(** The three sets of the parking manager are pairwise disjoint and apart
    from the cells [W]; with [W] they make up the parking cells; no spot is
    assigned to two cars. *)
Record pool_ok (pm : ParkingManager) (W : gset Position) : Prop := {
  po_free_assigned : free_spots pm ## assigned_cells pm;
  po_free_occupied : free_spots pm ## occupied_spots pm;
  po_assigned_occupied : assigned_cells pm ## occupied_spots pm;
  po_waiting : W ## free_spots pm ∪ assigned_cells pm ∪ occupied_spots pm;
  po_cover :
    free_spots pm ∪ assigned_cells pm ∪ occupied_spots pm ∪ W
    = list_to_set (parking_cells pm);
  po_inj : forall a b p,
    assigned_spots pm !! a = Some p -> assigned_spots pm !! b = Some p -> a = b
}.

(** Car [id] holds the spot [p] exactly when it wants to park and [p] is
    its goal. *)
Definition slot_ok (pm : ParkingManager) (id : nat) (c : Car) : Prop :=
  forall p, assigned_spots pm !! id = Some p <->
            intent c = Some "PARK"%string /\ goal c = Some p.

(** Two parking managers that differ in the slot of car [id] at most. *)
Definition pm_frame (id : nat) (pm pm' : ParkingManager) : Prop :=
  parking_cells pm' = parking_cells pm /\
  next_car_id pm' = next_car_id pm /\
  forall k, k <> id -> assigned_spots pm' !! k = assigned_spots pm !! k.

(** The parking invariant of a simulation. *)
Record park_ok (s : SimulationCore) : Prop := {
  pk_pool : pool_ok (parking_manager s) (waiting_cells s);
  pk_dom : forall id, is_Some (assigned_spots (parking_manager s) !! id) ->
    id ∈ active_cars s /\ id ∉ waiting_active_cars s;
  pk_slot : forall id c, id ∈ active_cars s -> all_cars s !! id = Some c ->
    slot_ok (parking_manager s) id c
}.

(** Both invariants together. *)
Definition sim_ok (s : SimulationCore) : Prop := positions_ok s /\ park_ok s.

(** The same car object as far as the parking manager is concerned. *)
Definition same_plan (c c' : Car) : Prop :=
  intent c' = intent c /\ goal c' = goal c.

(** What an operation on a car held in a local variable keeps true: the
    sets are in order, the car's slot matches its plans, and no other car's
    slot is touched. *)
Definition slot_kept (W : gset Position) (s : SimulationCore) (c : Car)
    (r : Car * SimulationCore) : Prop :=
  pool_ok (parking_manager r.2) W /\
  slot_ok (parking_manager r.2) (car_id c) r.1 /\
  pm_frame (car_id c) (parking_manager s) (parking_manager r.2).

(** *** Vocabulary for the further properties *)

(** What no operation of a tick changes, except the arrival counter at an
    arrival: the configuration, the grid, and the planner's grid and
    horizon. *)
Definition fixtures (s : SimulationCore) : SimulationConfig * Grid * Grid * Z :=
  (config s, grid s, planner_grid (priority_planner s), planner_horizon (priority_planner s)).

(** The fixtures, the arrival counter and the set of exited cars: what
    planning and escalation leave alone. *)
Definition ledger (s : SimulationCore) : SimulationConfig * Grid * Grid * Z * Z * gset nat :=
  (fixtures s, arriving_cars_created s, exited_car_ids s).

(** A car that is out of traffic: it is not active, its id has been handed
    out, and its published position is gone or about to be removed. *)
Definition left_lot (s : SimulationCore) (id : nat) : Prop :=
  id ∉ active_cars s /\ (id < next_car_id (parking_manager s))%nat /\
  (id ∈ cars_pending_removal s \/ dict_get (car_positions s) id = None).

(** A car that is out of traffic and out of the books. *)
Definition gone (s : SimulationCore) (id : nat) : Prop :=
  id ∉ active_cars s /\ (id < next_car_id (parking_manager s))%nat /\
  id ∉ cars_pending_removal s /\ dict_get (car_positions s) id = None.

(** What a tick keeps of the cars that have left: every exited car is out
    of traffic, and the cars of [X] are out of the books as well. *)
Definition departed (X : gset nat) (s : SimulationCore) : Prop :=
  (forall id, id ∈ exited_car_ids s -> left_lot s id) /\
  (forall id, id ∈ X -> gone s id).

(** What the search maintains about every parent link: the parent is an
    in-bounds node off the goal and before the horizon, and the child is an
    admissible successor of it, one tick later. *)
Definition links_ok (start : Position) (start_time : Z) (goal : Position) (grid : Grid)
    (rt : ReservationTable) (max_time : Z) (obstacles : gset Position) (persistence : Z)
    (st : Search) : Prop :=
  forall k pk, came_from st !! k = Some pk ->
    exists px py x y t,
      pk = pack_key grid px py t /\ k = pack_key grid x y (t + 1) /\
      in_bounds grid px py = true /\ (px, py) <> goal /\ t < max_time /\
      admissible start start_time goal grid rt obstacles persistence px py t x y = true.

(** The same about a path: every entry but the last was expanded to the
    entry after it. *)
Definition moves_ok (start : Position) (start_time : Z) (goal : Position) (grid : Grid)
    (rt : ReservationTable) (max_time : Z) (obstacles : gset Position) (persistence : Z)
    (path : list TimedPosition) : Prop :=
  forall i x y t nx ny nt,
    path !! i = Some (x, y, t) -> path !! S i = Some (nx, ny, nt) ->
    (x, y) <> goal /\ t < max_time /\ nt = t + 1 /\
    admissible start start_time goal grid rt obstacles persistence x y t nx ny = true.

(** Two cars in the corridor [lane3], both bound for [(2,0)]: one at its
    head, one in the middle. *)
Definition lane_car_a : Car := set_goal (new_car 0 (0, 0) (Some "EXIT"%string)) (Some (2, 0)).
Definition lane_car_b : Car := set_goal (new_car 1 (1, 0) (Some "EXIT"%string)) (Some (2, 0)).

(** ** agents/car.py, continued *)

(** [Car.get_position_at_time(t)]: the cell of the first entry at tick [t]. *)
Definition get_position_at_time (c : Car) (t : Z) : option Position :=
  match path c with
  | [] => None
  | _ =>
      match List.find (fun e : TimedPosition => e.2 =? t) (path c) with
      | Some (x, y, _) => Some (x, y)
      | None => None
      end
  end.

(** [step(t0)], [step(t0 + 1)], ...: the car after [k] calls, one per tick. *)
Fixpoint drive (c : Car) (t0 : Z) (k : nat) : Car :=
  match k with
  | O => c
  | S k' => (car_step (drive c t0 k') (t0 + Z.of_nat k')).2
  end.

(** ** core/simulation_core.py, continued *)

(** [_get_free_road_cell]: the ROAD cells that pass the two checks, column
    by column, and a random one of them. *)
Definition free_road_cells (s : SimulationCore) : list Position :=
  x ← seqZ 0 (width (grid s));
  y ← seqZ 0 (height (grid s));
  if bool_decide (cell_type (grid s) x y = ROAD) && entry_is_free s (x, y) then [(x, y)]
  else [].

Definition _get_free_road_cell (s : SimulationCore) : option Position * RNG :=
  match free_road_cells s with
  | [] => (None, rng s)
  | c :: cs =>
      let '(p, r) := random_choice c cs (rng s) in
      (Some p, r)
  end.

(** *** A blocked car that wants to park *)

(** Car 7 of [demo_blocked_sim] as a PARK car, blocked twice in a row. *)
Definition demo_park_car : Car :=
  set_intent (set_blocked_count demo_exit_car 2) (Some "PARK"%string).

(** [demo_blocked_sim] with that car in place of car 7, holding the free
    slot nearest to it. *)
Definition demo_blocked_park_sim : SimulationCore :=
  with_parking_manager (store_car demo_blocked_sim demo_park_car)
    (choose_free_parking_spot (parking_manager demo_blocked_sim) demo_park_car).2.


(** * Reservation table *)

Lemma table_eq (a b : ReservationTable) :
  vertex_reservations a = vertex_reservations b ->
  edge_reservations a = edge_reservations b ->
  static_cells a = static_cells b ->
  a = b.
Proof. destruct a, b; simpl; intros; subst; reflexivity. Qed.

Lemma reserve_path_from_fields prev path rt :
  vertex_reservations (reserve_path_from prev path rt)
    = path_vertices path ∪ vertex_reservations rt /\
  edge_reservations (reserve_path_from prev path rt)
    = path_edges_from prev path ∪ edge_reservations rt /\
  static_cells (reserve_path_from prev path rt) = static_cells rt.
Proof.
  revert prev rt. induction path as [|[[x y] t] rest IH]; intros prev rt; simpl.
  - unfold path_vertices; simpl. repeat split; set_solver.
  - destruct (IH (Some (x, y, t))
                (match prev with
                 | Some (px, py, pt) => add_edge (add_vertex rt (x, y, t)) (px, py, x, y, pt)
                 | None => add_vertex rt (x, y, t)
                 end)) as (Hv & He & Hs).
    rewrite Hv, He, Hs. unfold path_vertices. simpl.
    destruct prev as [[[px py] pt]|]; simpl; repeat split; set_solver.
Qed.

Lemma unreserve_path_from_fields prev path rt :
  vertex_reservations (unreserve_path_from prev path rt)
    = vertex_reservations rt ∖ path_vertices path /\
  edge_reservations (unreserve_path_from prev path rt)
    = edge_reservations rt ∖ path_edges_from prev path /\
  static_cells (unreserve_path_from prev path rt) = static_cells rt.
Proof.
  revert prev rt. induction path as [|[[x y] t] rest IH]; intros prev rt; simpl.
  - unfold path_vertices; simpl. repeat split; set_solver.
  - destruct (IH (Some (x, y, t))
                (match prev with
                 | Some (px, py, pt) =>
                     discard_edge (discard_vertex rt (x, y, t)) (px, py, x, y, pt)
                 | None => discard_vertex rt (x, y, t)
                 end)) as (Hv & He & Hs).
    rewrite Hv, He, Hs. unfold path_vertices. simpl.
    destruct prev as [[[px py] pt]|]; simpl; repeat split; set_solver.
Qed.

(** The table after [reserve_path(p); unreserve_path(p)]: everything the path
    touches is gone, whoever had put it there. *)
Lemma unreserve_reserve_fields p rt :
  vertex_reservations (unreserve_path p (reserve_path p rt))
    = vertex_reservations rt ∖ path_vertices p /\
  edge_reservations (unreserve_path p (reserve_path p rt))
    = edge_reservations rt ∖ path_edges p /\
  static_cells (unreserve_path p (reserve_path p rt)) = static_cells rt.
Proof.
  unfold unreserve_path, reserve_path, path_edges.
  destruct (unreserve_path_from_fields None p (reserve_path_from None p rt)) as (Hv & He & Hs).
  destruct (reserve_path_from_fields None p rt) as (Hv' & He' & Hs').
  rewrite Hv, He, Hs, Hv', He', Hs'. repeat split; set_solver.
Qed.

(** C4 (as stated) fails: car B stands on (1,0) at tick 1, a cell and tick
    that car A's reserved path [(0,0,0); (1,0,1)] also holds.  B's plan starts
    there (the planner never checks its start node); reserving and then
    cancelling B's plan erases A's vertex reservation. *)
Lemma reserve_unreserve_path_counterexample :
  unreserve_path [(1, 0, 1); (1, 1, 2)]
    (reserve_path [(1, 0, 1); (1, 1, 2)]
       (reserve_path [(0, 0, 0); (1, 0, 1)] empty_table))
  <> reserve_path [(0, 0, 0); (1, 0, 1)] empty_table.
Proof.
  intros Heq.
  assert (H : (1, 0, 1) ∈ vertex_reservations
                (unreserve_path [(1, 0, 1); (1, 1, 2)]
                   (reserve_path [(1, 0, 1); (1, 1, 2)]
                      (reserve_path [(0, 0, 0); (1, 0, 1)] empty_table)))).
  { rewrite Heq. vm_compute. set_solver. }
  destruct (unreserve_reserve_fields [(1, 0, 1); (1, 1, 2)]
              (reserve_path [(0, 0, 0); (1, 0, 1)] empty_table)) as (Hv & _ & _).
  rewrite Hv in H. unfold path_vertices in H. set_solver.
Qed.

(** C4 (amended): when the table holds none of the path's vertices and none
    of its edges beforehand, [reserve_path(p); unreserve_path(p)] leaves the
    vertex, edge and static sets as they were. *)
Theorem reserve_unreserve_path_fresh (rt : ReservationTable) (p : list TimedPosition) :
  path_vertices p ## vertex_reservations rt ->
  path_edges p ## edge_reservations rt ->
  unreserve_path p (reserve_path p rt) = rt.
Proof.
  intros Hv He.
  destruct (unreserve_reserve_fields p rt) as (Hv' & He' & Hs').
  apply table_eq; [rewrite Hv' | rewrite He' | exact Hs']; set_solver.
Qed.

Lemma reserve_unreserve_path_fresh_witness :
  unreserve_path [(2, 0, 0); (2, 1, 1)]
    (reserve_path [(2, 0, 0); (2, 1, 1)]
       (reserve_path [(0, 0, 0); (1, 0, 1)] empty_table))
  = reserve_path [(0, 0, 0); (1, 0, 1)] empty_table.
Proof.
  apply (reserve_unreserve_path_fresh
           (reserve_path [(0, 0, 0); (1, 0, 1)] empty_table)
           [(2, 0, 0); (2, 1, 1)]).
  - apply (bool_decide_unpack _). vm_compute. exact I.
  - apply (bool_decide_unpack _). vm_compute. exact I.
Defined.


(** * Single-agent space-time A* *)

Lemma in_bounds_true g x y :
  in_bounds g x y = true <-> 0 <= x < width g /\ 0 <= y < height g.
Proof. unfold in_bounds. rewrite bool_decide_eq_true. reflexivity. Qed.

Lemma cell_index_range g x y :
  0 <= x < width g -> 0 <= y < height g ->
  0 <= x * height g + y < area g.
Proof. unfold area. intros Hx Hy. nia. Qed.

Lemma unpack_pack g x y t :
  in_bounds g x y = true ->
  unpack_key (area g) (height g) (pack_key g x y t) = (x, y, t).
Proof.
  rewrite in_bounds_true. intros [Hx Hy].
  pose proof (cell_index_range g x y Hx Hy) as Hidx.
  unfold unpack_key, pack_key.
  assert (Ha : area g <> 0) by lia.
  assert (Hh : height g <> 0) by lia.
  rewrite Z.div_add_l by exact Ha.
  rewrite (Z.add_comm (t * area g)), Z.mod_add by exact Ha.
  rewrite (Z.div_small _ _ Hidx), (Z.mod_small _ _ Hidx).
  rewrite Z.div_add_l by exact Hh.
  rewrite (Z.add_comm (x * height g)), Z.mod_add by exact Hh.
  rewrite (Z.div_small y), (Z.mod_small y) by lia.
  f_equal; [f_equal|]; lia.
Qed.

Lemma pack_key_inj g x y t x' y' t' :
  in_bounds g x y = true -> in_bounds g x' y' = true ->
  pack_key g x y t = pack_key g x' y' t' ->
  x = x' /\ y = y' /\ t = t'.
Proof.
  intros H H' Heq.
  pose proof (unpack_pack g x y t H) as E.
  rewrite Heq, (unpack_pack g x' y' t' H') in E.
  inversion E; auto.
Qed.

Lemma obstacle_blocks_iff (start_time : Z) (obstacles : gset Position) (persistence : Z)
    (nx ny nt : Z) :
  obstacle_blocks start_time obstacles persistence nx ny nt = true
  <-> (nx, ny) ∈ obstacles /\ nt < start_time + persistence.
Proof.
  unfold obstacle_blocks, persist_until_t.
  rewrite !andb_true_iff, !bool_decide_eq_true, Z.ltb_lt.
  split; [tauto|]. intros [Hin Hlt]. repeat split; auto.
  intros E. rewrite E in Hin. exact (not_elem_of_empty _ Hin).
Qed.

Lemma admissible_true (start : Position) (start_time : Z) (goal : Position) (grid : Grid)
    (rt : ReservationTable) (obstacles : gset Position) (persistence : Z)
    (x y t nx ny : Z) :
  admissible start start_time goal grid rt obstacles persistence x y t nx ny = true ->
  in_bounds grid nx ny = true /\
  cell_type grid nx ny <> WALL /\
  (cell_type grid nx ny = EXIT -> (nx, ny) = goal) /\
  (cell_type grid nx ny = ENTRY -> (nx, ny) = start \/ (nx, ny) = goal) /\
  obstacle_blocks start_time obstacles persistence nx ny (t + 1) = false /\
  (nx, ny) ∉ static_cells rt /\ (nx, ny, t + 1) ∉ vertex_reservations rt /\
  (x, y, nx, ny, t) ∉ edge_reservations rt /\ (nx, ny, x, y, t) ∉ edge_reservations rt.
Proof.
  unfold admissible.
  destruct (in_bounds grid nx ny); simpl; [|discriminate].
  repeat case_bool_decide; simpl; try discriminate;
    destruct (obstacle_blocks start_time obstacles persistence nx ny (t + 1));
    simpl; try discriminate; intros _;
    repeat split; auto; try congruence; try tauto.
  all: intros; destruct (decide ((nx, ny) = start)); tauto.
Qed.

Lemma relax_inadmissible (start : Position) (start_time : Z) (goal : Position) (grid : Grid)
    (rt : ReservationTable) (obstacles : gset Position) (persistence : Z)
    (x y t g key : Z) (st : Search) (d : Z * Z) :
  admissible start start_time goal grid rt obstacles persistence x y t (x + d.1) (y + d.2)
    = false ->
  relax start start_time goal grid rt obstacles persistence x y t g key st d = st.
Proof. unfold relax. intros ->. reflexivity. Qed.

Lemma relax_changes_admissible (start : Position) (start_time : Z) (goal : Position)
    (grid : Grid) (rt : ReservationTable) (obstacles : gset Position) (persistence : Z)
    (x y t g key : Z) (st : Search) (d : Z * Z) :
  relax start start_time goal grid rt obstacles persistence x y t g key st d <> st ->
  admissible start start_time goal grid rt obstacles persistence x y t (x + d.1) (y + d.2)
    = true.
Proof.
  intros Hne.
  destruct (admissible start start_time goal grid rt obstacles persistence
              x y t (x + d.1) (y + d.2)) eqn:E; [reflexivity|].
  exfalso. apply Hne. apply relax_inadmissible. exact E.
Qed.

(** C3: a successor [(nx, ny)] = [(x + dx, y + dy)] of a node [(x, y, t)] that
    the relaxation takes up (it changes the search tables) is not an EXIT
    cell unless it is the goal, is not an ENTRY cell unless it is the start
    or the goal, and is not blocked by an ephemeral obstacle; a cell blocks
    at tick [nt] exactly when it is in the obstacle set and
    [nt < start_time + obstacle_persistence]. *)
Theorem successor_admissible_only_if
    (start : Position) (start_time : Z) (goal : Position) (grid : Grid)
    (rt : ReservationTable) (obstacles : gset Position) (persistence : Z)
    (x y t g key : Z) (st : Search) (d : Z * Z) :
  relax start start_time goal grid rt obstacles persistence x y t g key st d <> st ->
  let nx := x + d.1 in
  let ny := y + d.2 in
  (cell_type grid nx ny = EXIT -> (nx, ny) = goal) /\
  (cell_type grid nx ny = ENTRY -> (nx, ny) = start \/ (nx, ny) = goal) /\
  obstacle_blocks start_time obstacles persistence nx ny (t + 1) = false /\
  (forall cx cy nt,
     obstacle_blocks start_time obstacles persistence cx cy nt = true <->
     (cx, cy) ∈ obstacles /\ nt < start_time + persistence).
Proof.
  intros Hne nx ny.
  apply relax_changes_admissible in Hne.
  apply admissible_true in Hne as (_ & _ & Hexit & Hentry & Hobs & _).
  split; [exact Hexit|]. split; [exact Hentry|]. split; [exact Hobs|].
  intros cx cy nt. apply obstacle_blocks_iff.
Qed.


(** ** The open set *)

Lemma heap_min_elem m h : heap_min m h ∈ m :: h.
Proof.
  revert m. induction h as [|e h IH]; intros m; simpl.
  - apply list_elem_of_here.
  - specialize (IH (if entry_ltb e m then e else m)).
    destruct (entry_ltb e m); set_solver.
Qed.

Lemma remove_first_length e h :
  e ∈ h -> S (length (remove_first e h)) = length h.
Proof.
  induction h as [|e' h IH]; intros Hin; simpl.
  - inversion Hin.
  - destruct (decide (e' = e)) as [->|Hne]; [reflexivity|].
    simpl. f_equal. apply IH. set_solver.
Qed.

Lemma heappop_length h e rest :
  heappop h = Some (e, rest) -> S (length rest) = length h.
Proof.
  destruct h as [|e0 h]; simpl; [discriminate|].
  intros H. inversion H; subst. clear H.
  change (S (length (remove_first (heap_min e0 h) (e0 :: h))) = length (e0 :: h)).
  apply remove_first_length, heap_min_elem.
Qed.

(** ** Counting the keys still to score *)

Lemma unscored_insert_le (m : gmap Z Z) k v (l : list Z) :
  (length (filter (fun j => <[k:=v]> m !! j = None) l)
   <= length (filter (fun j => m !! j = None) l))%nat.
Proof.
  induction l as [|a l IH]; [reflexivity|].
  rewrite !filter_cons.
  destruct (decide (<[k:=v]> m !! a = None)) as [H1|H1];
    destruct (decide (m !! a = None)) as [H2|H2]; simpl; try lia.
  exfalso. apply H2. rewrite lookup_insert in H1.
  destruct (decide (k = a)); [discriminate|exact H1].
Qed.

Lemma unscored_insert_lt (m : gmap Z Z) k v (l : list Z) :
  m !! k = None -> k ∈ l ->
  (length (filter (fun j => <[k:=v]> m !! j = None) l)
   < length (filter (fun j => m !! j = None) l))%nat.
Proof.
  intros Hk. induction l as [|a l IH]; intros Hin; [inversion Hin|].
  rewrite !filter_cons.
  pose proof (unscored_insert_le m k v l) as Hle.
  destruct (decide (a = k)) as [->|Hne].
  - rewrite lookup_insert_eq.
    destruct (decide (Some v = None)) as [?|_]; [discriminate|].
    destruct (decide (m !! k = None)) as [_|?]; [|contradiction].
    simpl. lia.
  - assert (Hin' : k ∈ l) by set_solver. specialize (IH Hin').
    rewrite lookup_insert_ne by congruence.
    destruct (decide (m !! a = None)); simpl; lia.
Qed.

Lemma all_keys_elem start_time grid max_time x y t :
  in_bounds grid x y = true ->
  start_time <= t <= Z.max max_time start_time ->
  pack_key grid x y t ∈ all_keys start_time grid max_time.
Proof.
  rewrite in_bounds_true. intros [Hx Hy] Ht. unfold all_keys.
  apply list_elem_of_bind. exists t. split.
  - apply list_elem_of_bind. exists x. split.
    + apply list_elem_of_bind. exists y. split.
      * apply list_elem_of_singleton. reflexivity.
      * apply elem_of_seqZ. lia.
    + apply elem_of_seqZ. lia.
  - apply elem_of_seqZ. lia.
Qed.

(** ** Paths *)

Lemma steps_ok_snoc p a b :
  steps_ok p -> last p = Some a -> step_ok a b -> steps_ok (p ++ [b]).
Proof.
  induction p as [|c p IH]; intros Hp Hl Hs; [discriminate|].
  destruct p as [|c' p].
  - simpl in *. inversion Hl; subst. auto.
  - change ((c :: c' :: p) ++ [b]) with (c :: (c' :: p) ++ [b]).
    destruct Hp as [Hcc Hp].
    change (steps_ok (c :: c' :: (p ++ [b]))). split; [exact Hcc|].
    apply IH; auto.
Qed.


Section PlannerCorrect.
Variable start : Position.
Variable start_time : Z.
Variable goal : Position.
Variable grid : Grid.
Variable rt : ReservationTable.
Variable max_time : Z.
Variable obstacles : gset Position.
Variable persistence : Z.

Local Notation "'adm'" := (admissible start start_time goal grid rt obstacles persistence).
Local Notation "'rlx'" := (relax start start_time goal grid rt obstacles persistence).
Local Notation "'loop'" :=
  (a_star_loop start start_time goal grid rt max_time obstacles persistence).
Local Notation "'inv'" := (search_inv start start_time grid).
Local Notation "'todo'" := (unvisited start_time grid max_time).

Lemma moves_unit d : d ∈ moves -> Z.abs d.1 + Z.abs d.2 <= 1.
Proof.
  unfold moves. intros H.
  repeat (apply elem_of_cons in H; destruct H as [->|H]; [simpl; lia|]).
  inversion H.
Qed.

Lemma inv_scored_key st x y t g :
  inv st -> in_bounds grid x y = true ->
  g_score st !! pack_key grid x y t = Some g ->
  start_time <= t /\ g = t - start_time.
Proof.
  intros Hinv Hb Hg.
  destruct (Hinv _ _ Hg) as (x' & y' & t' & Hb' & Hk & Ht & Hgt & _).
  apply pack_key_inj in Hk as (-> & -> & ->); auto.
Qed.

Lemma relax_step x y t g st d :
  inv st -> in_bounds grid x y = true ->
  g_score st !! pack_key grid x y t = Some g ->
  t < max_time -> d ∈ moves ->
  inv (rlx x y t g (pack_key grid x y t) st d) /\
  g_score (rlx x y t g (pack_key grid x y t) st d) !! pack_key grid x y t = Some g /\
  (length (open_set (rlx x y t g (pack_key grid x y t) st d))
   + todo (rlx x y t g (pack_key grid x y t) st d)
   <= length (open_set st) + todo st)%nat.
Proof.
  intros Hinv Hb Hg Ht Hd.
  destruct (inv_scored_key _ _ _ _ _ Hinv Hb Hg) as [Hst Hgt].
  unfold relax.
  destruct (adm x y t (x + d.1) (y + d.2)) eqn:Eadm; [|auto].
  apply admissible_true in Eadm as (Hnb & _).
  change ((t + 1) * area grid + ((x + d.1) * height grid + (y + d.2)))
    with (pack_key grid (x + d.1) (y + d.2) (t + 1)).
  set (nk := pack_key grid (x + d.1) (y + d.2) (t + 1)).
  destruct (g_score st !! nk) as [prev_g|] eqn:Enk.
  - destruct (inv_scored_key _ _ _ _ _ Hinv Hnb Enk) as [_ Hprev].
    replace (g + 1 >=? prev_g) with true by (symmetry; apply Z.geb_le; lia).
    auto.
  - assert (Hkne : nk <> pack_key grid x y t) by (intros E; rewrite E in Enk; congruence).
    split; [|split].
    + intros k g' Hk. simpl in Hk |- *.
      rewrite lookup_insert in Hk. destruct (decide (nk = k)) as [<-|Hne].
      * inversion Hk; subst g'. exists (x + d.1), (y + d.2), (t + 1).
        split; [exact Hnb|]. split; [reflexivity|]. split; [lia|]. split; [lia|].
        right. exists x, y. replace (t + 1 - 1) with t by lia.
        rewrite lookup_insert_eq. split; [reflexivity|]. split; [exact Hb|].
        split; [rewrite lookup_insert_ne by exact Hkne; eauto|].
        pose proof (moves_unit d Hd). split; lia.
      * destruct (Hinv _ _ Hk) as (x' & y' & t' & Hb' & Hk' & Ht' & Hg' & Hcase).
        exists x', y', t'. repeat (split; [assumption|]).
        rewrite lookup_insert_ne by exact Hne.
        destruct Hcase as [Hroot|(px & py & Hcf & Hpb & Hps & Hm)]; [left; exact Hroot|].
        right. exists px, py. split; [exact Hcf|]. split; [exact Hpb|].
        split; [|exact Hm].
        rewrite lookup_insert. destruct (decide (nk = pack_key grid px py (t' - 1))); eauto.
    + simpl. rewrite lookup_insert_ne by exact Hkne. exact Hg.
    + simpl. unfold unvisited. simpl.
      pose proof (unscored_insert_lt (g_score st) nk (g + 1)
                    (all_keys start_time grid max_time) Enk) as Hlt.
      assert (Hin : nk ∈ all_keys start_time grid max_time)
        by (apply all_keys_elem; [exact Hnb|lia]).
      specialize (Hlt Hin). lia.
Qed.

Lemma relax_fold x y t g ds st :
  inv st -> in_bounds grid x y = true ->
  g_score st !! pack_key grid x y t = Some g ->
  t < max_time -> (forall d, d ∈ ds -> d ∈ moves) ->
  inv (fold_left (rlx x y t g (pack_key grid x y t)) ds st) /\
  (length (open_set (fold_left (rlx x y t g (pack_key grid x y t)) ds st))
   + todo (fold_left (rlx x y t g (pack_key grid x y t)) ds st)
   <= length (open_set st) + todo st)%nat.
Proof.
  revert st. induction ds as [|d ds IH]; intros st Hinv Hb Hg Ht Hds; simpl.
  - auto.
  - destruct (relax_step x y t g st d Hinv Hb Hg Ht) as (Hinv' & Hg' & Hle);
      [apply Hds; left|].
    destruct (IH _ Hinv' Hb Hg' Ht) as [Hinv'' Hle'];
      [intros d' Hd'; apply Hds; right; exact Hd'|].
    split; [exact Hinv''|lia].
Qed.

(** The walk back from a scored key reaches the root, one tick per key. *)
Lemma walk_back st :
  inv st ->
  forall n x y t g,
    in_bounds grid x y = true ->
    g_score st !! pack_key grid x y t = Some g ->
    t - start_time = Z.of_nat n ->
    exists keys,
      path_keys_from (S n) (came_from st) (pack_key grid x y t) = Some keys /\
      head (unpack_key (area grid) (height grid) <$> reverse keys)
        = Some (start.1, start.2, start_time) /\
      last (unpack_key (area grid) (height grid) <$> reverse keys) = Some (x, y, t) /\
      steps_ok (unpack_key (area grid) (height grid) <$> reverse keys).
Proof.
  intros Hinv. induction n as [|n IH]; intros x y t g Hb Hg Ht.
  - destruct (Hinv _ _ Hg) as (x' & y' & t' & Hb' & Hk & _ & _ & Hcase).
    apply pack_key_inj in Hk as (<- & <- & <-); auto.
    destruct Hcase as [(Hcf & Hxy & Hts)|(px & py & _ & _ & _ & _ & Hlt)]; [|lia].
    exists [pack_key grid x y t]. simpl. rewrite Hcf.
    split; [reflexivity|]. rewrite unpack_pack by exact Hb.
    subst start. subst t. simpl. auto.
  - destruct (Hinv _ _ Hg) as (x' & y' & t' & Hb' & Hk & _ & _ & Hcase).
    apply pack_key_inj in Hk as (<- & <- & <-); auto.
    destruct Hcase as [(_ & _ & Hts)|(px & py & Hcf & Hpb & [pg Hps] & Hm & Hlt)]; [lia|].
    destruct (IH px py (t - 1) pg Hpb Hps) as (keys & Hkeys & Hhead & Hlast & Hsteps); [lia|].
    exists (pack_key grid x y t :: keys).
    change (path_keys_from (S (S n)) (came_from st) (pack_key grid x y t))
      with (match came_from st !! pack_key grid x y t with
            | None => Some [pack_key grid x y t]
            | Some parent => cons (pack_key grid x y t) <$> path_keys_from (S n) (came_from st) parent
            end).
    rewrite Hcf, Hkeys. split; [reflexivity|].
    rewrite reverse_cons, fmap_app. simpl. rewrite unpack_pack by exact Hb.
    split; [|split].
    + destruct (unpack_key (area grid) (height grid) <$> reverse keys); [discriminate|exact Hhead].
    + apply last_snoc.
    + eapply steps_ok_snoc; [exact Hsteps|exact Hlast|]. simpl. split; lia.
Qed.

Lemma a_star_loop_sound fuel : forall st,
  inv st ->
  (length (open_set st) + todo st < fuel)%nat ->
  exists r, loop fuel st = Done r /\
    (r = None \/ exists path, r = Some path /\ good_path start start_time goal path).
Proof.
  induction fuel as [|fuel IH]; intros st Hinv Hfuel; [lia|].
  cbn [a_star_loop]. destruct (heappop (open_set st)) as [[[[f g] key] rest]|] eqn:Epop.
  2: { exists None. auto. }
  apply heappop_length in Epop.
  set (st1 := {| open_set := rest; g_score := g_score st; came_from := came_from st |}).
  assert (Hinv1 : inv st1) by exact Hinv.
  assert (Hm1 : (length (open_set st1) + todo st1 < fuel)%nat).
  { unfold unvisited in *. simpl in *. lia. }
  case_bool_decide as Hg; [|apply IH; assumption].
  destruct (Hinv _ _ Hg) as (x & y & t & Hb & Hk & Hst & Hgt & _). subst key.
  rewrite unpack_pack by exact Hb.
  case_bool_decide as Hgoal.
  - destruct (walk_back st1 Hinv1 (Z.to_nat (t - start_time)) x y t g Hb Hg)
      as (keys & Hkeys & Hhead & Hlast & Hsteps); [lia|].
    unfold _reconstruct_path_packed.
    change (came_from st) with (came_from st1). rewrite Hkeys.
    eexists. split; [reflexivity|]. right. eexists. split; [reflexivity|].
    split; [exact Hhead|]. split; [|exact Hsteps].
    exists t. etransitivity; [exact Hlast|]. subst goal. reflexivity.
  - destruct (t >=? max_time) eqn:Et; [apply IH; assumption|].
    assert (Hlt : t < max_time) by (rewrite Z.geb_leb in Et; apply Z.leb_gt in Et; lia).
    destruct (relax_fold x y t g moves st1 Hinv1 Hb Hg Hlt) as [Hinv2 Hle]; [auto|].
    apply IH; [exact Hinv2|lia].
Qed.
End PlannerCorrect.


Lemma initial_search_inv (sx sy start_time : Z) (grid : Grid) h :
  in_bounds grid sx sy = true ->
  search_inv (sx, sy) start_time grid
    {| open_set := h;
       g_score := {[ start_time * area grid + (sx * height grid + sy) := 0 ]};
       came_from := ∅ |}.
Proof.
  intros Hb k g Hk. simpl in Hk.
  apply lookup_singleton_Some in Hk as [<- <-].
  exists sx, sy, start_time. split; [exact Hb|]. split; [reflexivity|].
  split; [lia|]. split; [lia|]. left. simpl. rewrite lookup_empty. auto.
Qed.

(** C2: every call of the planner returns (the loop never outlasts
    [search_fuel] turns), and what it returns is either [None] or a path that
    starts with the start cell at [start_time], ends on the goal cell, moves
    at most one cell per entry and advances the tick by exactly one per
    entry. *)
Theorem a_star_returns_none_or_valid_path
    (start : Position) (start_time : Z) (goal : Position) (grid : Grid)
    (rt : ReservationTable) (max_time : Z) (obstacles : gset Position)
    (persistence : Z) (extra : nat) :
  exists r,
    single_agent_a_star start start_time goal grid rt max_time obstacles persistence
      (search_fuel start_time grid max_time + extra) = Done r /\
    (r = None \/
     exists path, r = Some path /\
       head path = Some (start.1, start.2, start_time) /\
       (exists t, last path = Some (goal.1, goal.2, t)) /\
       steps_ok path).
Proof.
  unfold single_agent_a_star. destruct start as [sx sy], goal as [gx gy].
  destruct (in_bounds grid sx sy) eqn:Hs; cbn [negb]; [|exists None; auto].
  destruct (in_bounds grid gx gy); cbn [negb]; [|exists None; auto].
  destruct (is_drivable (cell_type grid sx sy)); cbn [negb]; [|exists None; auto].
  destruct (is_drivable (cell_type grid gx gy)); cbn [negb]; [|exists None; auto].
  case_bool_decide; [exists None; auto|].
  apply (a_star_loop_sound (sx, sy) start_time (gx, gy) grid rt max_time obstacles persistence).
  - apply initial_search_inv. exact Hs.
  - unfold unvisited, search_fuel. simpl.
    pose proof (length_filter
                  (fun k => ({[start_time * area grid + (sx * height grid + sy) := 0]}
                               : gmap Z Z) !! k = None)
                  (all_keys start_time grid max_time)).
    lia.
Qed.

Lemma a_star_loop_unfold start start_time goal grid rt max_time obstacles persistence fuel st :
  a_star_loop start start_time goal grid rt max_time obstacles persistence (S fuel) st
  = match heappop (open_set st) with
    | None => Done None
    | Some ((_, g, key), rest) =>
        let st := {| open_set := rest; g_score := g_score st;
                     came_from := came_from st |} in
        if bool_decide (g_score st !! key = Some g) then
          let '(x, y, t) := unpack_key (area grid) (height grid) key in
          if bool_decide ((x, y) = goal) then
            match _reconstruct_path_packed (S (Z.to_nat (t - start_time)))
                    (came_from st) key (area grid) (height grid) with
            | Some path => Done (Some path)
            | None => OutOfFuel
            end
          else if t >=? max_time then
            a_star_loop start start_time goal grid rt max_time obstacles persistence fuel st
          else
            a_star_loop start start_time goal grid rt max_time obstacles persistence fuel
              (fold_left (relax start start_time goal grid rt obstacles persistence x y t g key)
                 moves st)
        else a_star_loop start start_time goal grid rt max_time obstacles persistence fuel st
    end.
Proof. reflexivity. Qed.

(** C10: when start and goal coincide on an in-bounds, drivable cell outside
    the ephemeral obstacles, the planner returns the one-entry path
    [[(sx, sy, start_time)]], whatever the reservation table holds. *)
Theorem a_star_start_equals_goal
    (start : Position) (start_time : Z) (grid : Grid) (rt : ReservationTable)
    (max_time : Z) (obstacles : gset Position) (persistence : Z) (extra : nat) :
  in_bounds grid start.1 start.2 = true ->
  is_drivable (cell_type grid start.1 start.2) = true ->
  start ∉ obstacles ->
  single_agent_a_star start start_time start grid rt max_time obstacles persistence
    (search_fuel start_time grid max_time + extra)
  = Done (Some [(start.1, start.2, start_time)]).
Proof.
  destruct start as [sx sy]. cbn [fst snd]. intros Hb Hd Hobs.
  unfold single_agent_a_star. rewrite Hb, Hd. cbn [negb].
  rewrite bool_decide_eq_false_2 by exact Hobs.
  change (search_fuel start_time grid max_time + extra)%nat
    with (S (S (length (all_keys start_time grid max_time)) + extra)).
  rewrite a_star_loop_unfold.
  cbn [heappush heappop heap_min remove_first open_set].
  rewrite decide_True by reflexivity.
  cbn [g_score came_from open_set].
  rewrite lookup_singleton_eq, bool_decide_eq_true_2 by reflexivity.
  change (start_time * area grid + (sx * height grid + sy))
    with (pack_key grid sx sy start_time).
  rewrite unpack_pack by exact Hb.
  rewrite bool_decide_eq_true_2 by reflexivity.
  unfold _reconstruct_path_packed. cbn [path_keys_from].
  rewrite lookup_empty. cbn [reverse rev_append fmap list_fmap].
  rewrite unpack_pack by exact Hb. reflexivity.
Qed.

Lemma a_star_start_equals_goal_witness :
  single_agent_a_star (0, 0) 0 (0, 0) lane3 table_start_reserved 5 ∅ 20
    (search_fuel 0 lane3 5 + 0)
  = Done (Some [(0, 0, 0)]).
Proof.
  apply (a_star_start_equals_goal (0, 0) 0 lane3 table_start_reserved 5 ∅ 20 0).
  - reflexivity.
  - reflexivity.
  - apply (bool_decide_unpack _). vm_compute. exact I.
Defined.

Lemma successor_admissible_only_if_witness :
  (cell_type lane3 (0 + 1) (0 + 0) = EXIT -> (0 + 1, 0 + 0) = (2, 0)) /\
  (cell_type lane3 (0 + 1) (0 + 0) = ENTRY ->
   (0 + 1, 0 + 0) = (0, 0) \/ (0 + 1, 0 + 0) = (2, 0)) /\
  obstacle_blocks 0 ∅ 20 (0 + 1) (0 + 0) (0 + 1) = false /\
  (forall cx cy nt,
     obstacle_blocks 0 ∅ 20 cx cy nt = true <-> (cx, cy) ∈ (∅ : gset Position) /\ nt < 0 + 20).
Proof.
  apply (successor_admissible_only_if (0, 0) 0 (2, 0) lane3 empty_table ∅ 20
           0 0 0 0 0 lane3_initial_search (1, 0)).
  intros H. apply (f_equal (fun s => length (open_set s))) in H.
  vm_compute in H. discriminate.
Defined.

(** The planner at work: along the corridor, from [(0,0)] at tick 0 to [(2,0)]. *)
Example a_star_lane3 :
  single_agent_a_star (0, 0) 0 (2, 0) lane3 empty_table 5 ∅ 20 (search_fuel 0 lane3 5)
  = Done (Some [(0, 0, 0); (1, 0, 1); (2, 0, 2)]).
Proof. vm_compute. reflexivity. Qed.

(** With the middle cell statically reserved there is no way through. *)
Example a_star_lane3_blocked :
  single_agent_a_star (0, 0) 0 (2, 0) lane3 (reserve_goal empty_table 1 0) 5 ∅ 20
    (search_fuel 0 lane3 5)
  = Done None.
Proof. vm_compute. reflexivity. Qed.


(** * Insertion-ordered dictionaries *)

Section DictFacts.
Context {K V : Type} `{EqDecision K}.
Implicit Types (d : list (K * V)) (k : K) (v : V).

Lemma dict_get_set_eq d k v : dict_get (dict_set d k v) k = Some v.
Proof.
  induction d as [|[k' v'] d IH]; simpl.
  - rewrite decide_True; auto.
  - destruct (decide (k' = k)) as [->|Hne]; simpl.
    + rewrite decide_True; auto.
    + rewrite decide_False; auto.
Qed.

Lemma dict_get_set_ne d k k' v : k <> k' -> dict_get (dict_set d k v) k' = dict_get d k'.
Proof.
  intros Hne. induction d as [|[k0 v0] d IH]; simpl.
  - rewrite decide_False; auto.
  - destruct (decide (k0 = k)) as [->|Hne0]; simpl.
    + rewrite !decide_False; auto.
    + destruct (decide (k0 = k')); auto.
Qed.

Lemma dict_get_set d k k' v :
  dict_get (dict_set d k v) k' = if decide (k = k') then Some v else dict_get d k'.
Proof.
  destruct (decide (k = k')) as [->|Hne].
  - apply dict_get_set_eq.
  - apply dict_get_set_ne; exact Hne.
Qed.

Lemma dict_get_None d k : dict_get d k = None <-> k ∉ dict_keys d.
Proof.
  unfold dict_keys. induction d as [|[k' v'] d IH]; simpl.
  - split; [intros _ H; inversion H|reflexivity].
  - destruct (decide (k' = k)) as [->|Hne].
    + split; [discriminate|]. intros H. exfalso. apply H. left.
    + rewrite IH. rewrite not_elem_of_cons. split; [intros; split; auto|tauto].
Qed.

Lemma dict_get_is_Some d k : is_Some (dict_get d k) <-> k ∈ dict_keys d.
Proof.
  destruct (dict_get d k) eqn:E.
  - split; [intros _|eauto]. destruct (decide (k ∈ dict_keys d)) as [|Hn]; [assumption|].
    apply dict_get_None in Hn. congruence.
  - split; [intros [? ?]; discriminate|]. intros Hin. apply dict_get_None in E. contradiction.
Qed.

Lemma dict_get_Some_elem d k v : dict_get d k = Some v -> (k, v) ∈ d.
Proof.
  induction d as [|[k' v'] d IH]; simpl; [discriminate|].
  destruct (decide (k' = k)) as [->|Hne].
  - intros [= ->]. left.
  - intros H. right. auto.
Qed.

Lemma dict_elem_get d k v : NoDup (dict_keys d) -> (k, v) ∈ d -> dict_get d k = Some v.
Proof.
  unfold dict_keys. induction d as [|[k' v'] d IH]; simpl; intros Hnd Hin.
  - inversion Hin.
  - apply NoDup_cons in Hnd as [Hk' Hnd].
    apply elem_of_cons in Hin as [[= -> ->]|Hin].
    + rewrite decide_True; auto.
    + destruct (decide (k' = k)) as [->|Hne]; [|auto].
      exfalso. apply Hk'. apply list_elem_of_fmap. exists (k, v). auto.
Qed.

Lemma dict_keys_set_present d k v :
  k ∈ dict_keys d -> dict_keys (dict_set d k v) = dict_keys d.
Proof.
  unfold dict_keys. induction d as [|[k' v'] d IH]; simpl; intros Hin.
  - inversion Hin.
  - destruct (decide (k' = k)) as [->|Hne]; simpl; [reflexivity|].
    f_equal. apply IH. apply elem_of_cons in Hin as [?|?]; [congruence|assumption].
Qed.

Lemma dict_keys_set_absent d k v :
  k ∉ dict_keys d -> dict_keys (dict_set d k v) = dict_keys d ++ [k].
Proof.
  unfold dict_keys. induction d as [|[k' v'] d IH]; simpl; intros Hin.
  - reflexivity.
  - apply not_elem_of_cons in Hin as [Hne Hin].
    rewrite decide_False by congruence. simpl. f_equal. auto.
Qed.

Lemma dict_set_length_present d k v :
  k ∈ dict_keys d -> length (dict_set d k v) = length d.
Proof.
  intros Hin. pose proof (dict_keys_set_present d k v Hin) as E.
  apply (f_equal length) in E.
  unfold dict_keys in E. rewrite !length_fmap in E. exact E.
Qed.

Lemma dict_keys_set_elem d k k' v :
  k' ∈ dict_keys (dict_set d k v) <-> k' = k \/ k' ∈ dict_keys d.
Proof.
  destruct (decide (k ∈ dict_keys d)) as [Hin|Hnin].
  - rewrite dict_keys_set_present by exact Hin. split; [auto|]. intros [->|?]; auto.
  - rewrite dict_keys_set_absent by exact Hnin. rewrite elem_of_app, list_elem_of_singleton.
    tauto.
Qed.

Lemma dict_set_NoDup d k v : NoDup (dict_keys d) -> NoDup (dict_keys (dict_set d k v)).
Proof.
  intros Hnd. destruct (decide (k ∈ dict_keys d)) as [Hin|Hnin].
  - rewrite dict_keys_set_present; assumption.
  - rewrite dict_keys_set_absent by exact Hnin.
    apply NoDup_app. split; [exact Hnd|]. split; [|apply NoDup_singleton].
    intros x Hx Hx'. apply list_elem_of_singleton in Hx'. subst. contradiction.
Qed.

Lemma dict_get_del_eq d k : dict_get (dict_del d k) k = None.
Proof.
  induction d as [|[k' v'] d IH]; simpl; [reflexivity|].
  destruct (decide (k' = k)) as [->|Hne]; simpl; [exact IH|].
  rewrite decide_False; auto.
Qed.

Lemma dict_get_del_ne d k k' : k <> k' -> dict_get (dict_del d k) k' = dict_get d k'.
Proof.
  intros Hne. induction d as [|[k0 v0] d IH]; simpl; [reflexivity|].
  destruct (decide (k0 = k)) as [->|Hne0]; simpl.
  - rewrite decide_False; auto.
  - destruct (decide (k0 = k')); auto.
Qed.

Lemma dict_keys_del d k : dict_keys (dict_del d k) = filter (fun k' => k' <> k) (dict_keys d).
Proof.
  unfold dict_keys. induction d as [|[k' v'] d IH]; simpl; [reflexivity|].
  rewrite filter_cons. simpl.
  destruct (decide (k' = k)) as [->|Hne].
  - rewrite decide_False by (intros H'; apply H'; reflexivity). exact IH.
  - rewrite decide_True by exact Hne. simpl. f_equal. exact IH.
Qed.

Lemma dict_del_NoDup d k : NoDup (dict_keys d) -> NoDup (dict_keys (dict_del d k)).
Proof. intros Hnd. rewrite dict_keys_del. apply NoDup_filter. exact Hnd. Qed.

Lemma dict_mem_true d k : dict_mem d k = true <-> k ∈ dict_keys d.
Proof. unfold dict_mem. rewrite bool_decide_eq_true. apply dict_get_is_Some. Qed.
End DictFacts.


(** * Conflict resolution *)

(** ** Reverting one car *)

Lemma revert_cases cur st cid :
  revert_to_current cur st cid = st \/
  exists p q, dict_get cur cid = Some p /\ dict_get st.1 cid = q /\ q <> Some p /\
    revert_to_current cur st cid = (dict_set st.1 cid p, true).
Proof.
  unfold revert_to_current. destruct (dict_get cur cid) as [p|] eqn:Ec; [|auto].
  case_bool_decide as Hne; [|auto]. right. exists p, (dict_get st.1 cid). auto.
Qed.

Lemma revert_get cur st cid c :
  dict_get (revert_to_current cur st cid).1 c
  = if decide (c = cid) then
      match dict_get cur cid with Some p => Some p | None => dict_get st.1 c end
    else dict_get st.1 c.
Proof.
  unfold revert_to_current. destruct (dict_get cur cid) as [p|] eqn:Ec.
  - case_bool_decide as Hne; simpl.
    + rewrite dict_get_set. destruct (decide (cid = c)) as [->|Hc].
      * rewrite decide_True; auto.
      * rewrite decide_False; auto.
    + destruct (decide (c = cid)) as [->|Hc]; [|reflexivity].
      destruct (decide (dict_get st.1 cid = Some p)) as [E|E]; [exact E|].
      exfalso. apply E. tauto.
  - destruct (decide (c = cid)); reflexivity.
Qed.

Lemma revert_keys cur st cid :
  cid ∈ dict_keys st.1 -> dict_keys (revert_to_current cur st cid).1 = dict_keys st.1.
Proof.
  intros Hin. destruct (revert_cases cur st cid) as [->|(p & q & _ & _ & _ & ->)]; [reflexivity|].
  simpl. apply dict_keys_set_present. exact Hin.
Qed.

Lemma moving_cons cur k v am :
  moving cur ((k, v) :: am)
  = ((if decide (dict_get cur k <> Some v) then 1 else 0) + moving cur am)%nat.
Proof.
  unfold moving.
  rewrite (filter_cons (fun e : nat * Position => dict_get cur e.1 <> Some e.2)).
  cbn [fst snd]. destruct (decide (dict_get cur k <> Some v)); reflexivity.
Qed.

Lemma moving_le_length cur am : (moving cur am <= length am)%nat.
Proof. unfold moving. apply length_filter. Qed.

Lemma moving_set cur am cid p q :
  dict_get cur cid = Some p -> dict_get am cid = Some q -> q <> p ->
  S (moving cur (dict_set am cid p)) = moving cur am.
Proof.
  intros Hc. induction am as [|[k v] am IH]; intros Hq Hne.
  - discriminate.
  - simpl in Hq. simpl dict_set. destruct (decide (k = cid)) as [->|Hk].
    + inversion Hq; subst v. rewrite !moving_cons.
      rewrite decide_False by (intros H; apply H; exact Hc).
      rewrite decide_True by congruence. reflexivity.
    + rewrite !moving_cons. rewrite <- (IH Hq Hne). lia.
Qed.

Lemma revert_moving cur st cid :
  cid ∈ dict_keys st.1 ->
  revert_to_current cur st cid = st \/
  ((revert_to_current cur st cid).2 = true /\
   S (moving cur (revert_to_current cur st cid).1) = moving cur st.1).
Proof.
  intros Hin. destruct (revert_cases cur st cid) as [->|(p & q & Hp & Hq & Hne & ->)]; [auto|].
  right. split; [reflexivity|]. simpl.
  apply dict_get_is_Some in Hin as [q' Hq']. subst q. rewrite Hq' in Hne.
  eapply moving_set; eauto. congruence.
Qed.

(** ** Sequences of reverts *)

Lemma reverted_trans cur st1 st2 st3 :
  reverted cur st1 st2 -> reverted cur st2 st3 -> reverted cur st1 st3.
Proof.
  intros H12 H23. induction H23 as [|st' cid H23 IH Hin]; [exact H12|].
  apply reverted_step; assumption.
Qed.

Lemma reverted_keys cur st st' :
  reverted cur st st' -> dict_keys st'.1 = dict_keys st.1.
Proof.
  induction 1 as [|st' cid H IH Hin]; [reflexivity|].
  rewrite revert_keys by exact Hin. exact IH.
Qed.

Lemma reverted_length cur st st' :
  reverted cur st st' -> length st'.1 = length st.1.
Proof.
  intros H. apply reverted_keys in H. apply (f_equal length) in H.
  unfold dict_keys in H. rewrite !length_fmap in H. exact H.
Qed.

Lemma reverted_get cur st st' c :
  reverted cur st st' ->
  dict_get st'.1 c = dict_get st.1 c \/
  (dict_get st'.1 c = dict_get cur c /\ is_Some (dict_get cur c)).
Proof.
  induction 1 as [|st' cid H IH Hin]; [auto|].
  rewrite revert_get. destruct (decide (c = cid)) as [->|Hne]; [|exact IH].
  destruct (dict_get cur cid) as [p|] eqn:Ec; [|exact IH]. right. eauto.
Qed.

Lemma reverted_stays cur st st' c :
  reverted cur st st' -> dict_get st.1 c = dict_get cur c -> dict_get st'.1 c = dict_get cur c.
Proof.
  intros H Hc. destruct (reverted_get cur st st' c H) as [E|[E _]]; congruence.
Qed.

Lemma reverted_flag cur st st' :
  reverted cur st st' ->
  (st.2 = true -> st'.2 = true) /\
  (st'.2 = false -> st' = st) /\
  (moving cur st'.1 <= moving cur st.1)%nat /\
  (st.2 = false -> st'.2 = true -> (moving cur st'.1 < moving cur st.1)%nat).
Proof.
  induction 1 as [|st' cid H (IH1 & IH2 & IH3 & IH4) Hin].
  - repeat split; auto. intros; congruence.
  - destruct (revert_moving cur st' cid Hin) as [->|[Hf Hm]].
    + repeat split; auto.
    + rewrite Hf. repeat split; auto; try discriminate; lia.
Qed.

Lemma reverted_unchanged cur st st' :
  reverted cur st st' -> st'.2 = false -> st' = st.
Proof. intros H. apply (reverted_flag cur st st' H). Qed.


(** ** Who targets a cell *)

Lemma targeting_cons (e : nat * Position) (am : Moves) pos :
  targeting (e :: am) pos
  = if decide (e.2 = pos) then e.1 :: targeting am pos else targeting am pos.
Proof.
  unfold targeting.
  rewrite (filter_cons (fun e : nat * Position => e.2 = pos)).
  destruct (decide (e.2 = pos)); reflexivity.
Qed.

Lemma targeting_elem (am : Moves) pos c : c ∈ targeting am pos <-> (c, pos) ∈ am.
Proof.
  unfold targeting. rewrite list_elem_of_fmap. split.
  - intros ([c' p] & -> & Hin). apply list_elem_of_filter in Hin as [Hp Hin].
    simpl in *. subst. exact Hin.
  - intros Hin. exists (c, pos). split; [reflexivity|].
    apply list_elem_of_filter. split; [reflexivity|exact Hin].
Qed.

Lemma targeting_get (am : Moves) pos c :
  NoDup (dict_keys am) -> (c ∈ targeting am pos <-> dict_get am c = Some pos).
Proof.
  intros Hnd. rewrite targeting_elem. split.
  - apply dict_elem_get. exact Hnd.
  - apply dict_get_Some_elem.
Qed.

Lemma targeting_keys (am : Moves) pos c : c ∈ targeting am pos -> c ∈ dict_keys am.
Proof.
  rewrite targeting_elem. intros Hin. unfold dict_keys.
  apply list_elem_of_fmap. exists (c, pos). auto.
Qed.

Lemma targeting_NoDup (am : Moves) pos : NoDup (dict_keys am) -> NoDup (targeting am pos).
Proof.
  unfold dict_keys. induction am as [|[c p] am IH]; intros Hnd.
  - constructor.
  - rewrite fmap_cons in Hnd. apply NoDup_cons in Hnd as [Hc Hnd].
    rewrite targeting_cons. simpl. destruct (decide (p = pos)) as [->|]; [|auto].
    apply NoDup_cons. split; [|auto].
    intros Hin. apply Hc. apply (targeting_keys am pos c Hin).
Qed.

(** ** The map from cells to the cars heading there *)

Lemma moves_to_cell_fold (am : Moves) : forall (acc : list (Position * list nat)) pos,
  dict_get
    (fold_left (fun mtc e => dict_set mtc e.2 (default [] (dict_get mtc e.2) ++ [e.1])) am acc)
    pos
  = match dict_get acc pos with
    | Some l => Some (l ++ targeting am pos)
    | None => match targeting am pos with [] => None | l => Some l end
    end.
Proof.
  induction am as [|[c p] am IH]; intros acc pos.
  - simpl. destruct (dict_get acc pos); [rewrite app_nil_r|]; reflexivity.
  - cbn [fold_left]. rewrite IH, targeting_cons. cbn [fst snd].
    rewrite dict_get_set. destruct (decide (p = pos)) as [->|Hne].
    + destruct (dict_get acc pos) as [l|]; simpl.
      * rewrite <- app_assoc. reflexivity.
      * reflexivity.
    + reflexivity.
Qed.

Lemma moves_to_cell_NoDup (am : Moves) : forall (acc : list (Position * list nat)),
  NoDup (dict_keys acc) ->
  NoDup (dict_keys
    (fold_left (fun mtc e => dict_set mtc e.2 (default [] (dict_get mtc e.2) ++ [e.1])) am acc)).
Proof.
  induction am as [|e am IH]; intros acc Hnd; [exact Hnd|].
  cbn [fold_left]. apply IH. apply dict_set_NoDup. exact Hnd.
Qed.

Lemma moves_to_cell_get (am : Moves) pos :
  dict_get (build_moves_to_cell am) pos
  = match targeting am pos with [] => None | l => Some l end.
Proof. unfold build_moves_to_cell. rewrite moves_to_cell_fold. reflexivity. Qed.

Lemma moves_to_cell_elem (am : Moves) pos cids :
  (pos, cids) ∈ build_moves_to_cell am <-> cids = targeting am pos /\ cids <> [].
Proof.
  assert (Hnd : NoDup (dict_keys (build_moves_to_cell am))).
  { apply moves_to_cell_NoDup. constructor. }
  split.
  - intros Hin. apply (dict_elem_get _ _ _ Hnd) in Hin.
    rewrite moves_to_cell_get in Hin.
    destruct (targeting am pos); [discriminate|]. inversion Hin. auto.
  - intros [-> Hne]. apply dict_get_Some_elem. rewrite moves_to_cell_get.
    destruct (targeting am pos); [contradiction|reflexivity].
Qed.

(** ** The winner of a cell *)

Lemma min_fold_spec (cs : list nat) : forall c,
  (fold_left Nat.min cs c <= c)%nat /\
  (forall x, x ∈ cs -> (fold_left Nat.min cs c <= x)%nat) /\
  fold_left Nat.min cs c ∈ c :: cs.
Proof.
  induction cs as [|a cs IH]; intros c; simpl.
  - split; [lia|]. split; [intros x Hx; inversion Hx|left].
  - destruct (IH (Nat.min c a)) as (H1 & H2 & H3). split; [lia|]. split.
    + intros x Hx. apply elem_of_cons in Hx as [->|Hx]; [lia|auto].
    + apply elem_of_cons in H3 as [H3|H3].
      * rewrite H3. destruct (Nat.min_spec c a) as [[_ ->]|[_ ->]]; [left|right; left].
      * right. right. exact H3.
Qed.

Lemma min_id_spec (cids : list nat) :
  cids <> [] -> min_id cids ∈ cids /\ forall c, c ∈ cids -> (min_id cids <= c)%nat.
Proof.
  destruct cids as [|c cs]; [congruence|]. intros _. simpl.
  destruct (min_fold_spec cs c) as (H1 & H2 & H3). split; [exact H3|].
  intros x Hx. apply elem_of_cons in Hx as [->|Hx]; auto.
Qed.

Lemma find_winner_elem (cur : Moves) pos cids :
  cids <> [] -> find_winner cur pos cids ∈ cids.
Proof.
  intros Hne. unfold find_winner.
  destruct (List.find _ cids) as [w|] eqn:E.
  - apply List.find_some in E as [Hin _]. apply list_elem_of_In. exact Hin.
  - apply min_id_spec. exact Hne.
Qed.

Lemma find_winner_standing (cur : Moves) pos cids c :
  c ∈ cids -> dict_get cur c = Some pos ->
  dict_get cur (find_winner cur pos cids) = Some pos.
Proof.
  intros Hin Hc. unfold find_winner.
  destruct (List.find _ cids) as [w|] eqn:E.
  - apply List.find_some in E as [_ Hw]. apply bool_decide_eq_true in Hw. exact Hw.
  - exfalso. apply list_elem_of_In in Hin.
    pose proof (List.find_none _ _ E c Hin) as Hf. simpl in Hf.
    apply bool_decide_eq_false in Hf. contradiction.
Qed.

Lemma find_winner_least (cur : Moves) pos cids :
  cids <> [] -> (forall c, c ∈ cids -> dict_get cur c <> Some pos) ->
  forall c, c ∈ cids -> (find_winner cur pos cids <= c)%nat.
Proof.
  intros Hne Hnone. unfold find_winner.
  destruct (List.find _ cids) as [w|] eqn:E.
  - apply List.find_some in E as [Hin Hw]. apply bool_decide_eq_true in Hw.
    exfalso. apply (Hnone w); [apply list_elem_of_In; exact Hin|exact Hw].
  - apply min_id_spec. exact Hne.
Qed.


(** ** The vertex rule *)

Lemma losers_reverted (cur : Moves) w cids : forall st,
  (forall c, c ∈ cids -> c ∈ dict_keys st.1) ->
  reverted cur st
    (fold_left (fun st cid => if bool_decide (cid <> w) then revert_to_current cur st cid
                              else st) cids st).
Proof.
  induction cids as [|cid cids IH]; intros st Hk; cbn [fold_left].
  - constructor.
  - assert (Hr : reverted cur st
                   (if bool_decide (cid <> w) then revert_to_current cur st cid else st)).
    { destruct (bool_decide (cid <> w)); [|constructor].
      apply reverted_step; [constructor|]. apply Hk. left. }
    eapply reverted_trans; [exact Hr|]. apply IH.
    intros c Hc. rewrite (reverted_keys _ _ _ Hr). apply Hk. right. exact Hc.
Qed.

Lemma losers_get_cur (cur : Moves) w cids c : forall st,
  (forall c, c ∈ cids -> c ∈ dict_keys st.1) ->
  c ∈ cids -> c <> w -> is_Some (dict_get cur c) ->
  dict_get
    (fold_left (fun st cid => if bool_decide (cid <> w) then revert_to_current cur st cid
                              else st) cids st).1 c
  = dict_get cur c.
Proof.
  induction cids as [|cid cids IH]; intros st Hk Hin Hne [p Hp]; cbn [fold_left].
  - inversion Hin.
  - destruct (decide (c = cid)) as [<-|Hc].
    + rewrite bool_decide_eq_true_2 by exact Hne.
      eapply reverted_stays.
      * apply losers_reverted. intros c' Hc'. rewrite revert_keys by (apply Hk; left).
        apply Hk. right. exact Hc'.
      * rewrite revert_get, decide_True by reflexivity. rewrite Hp. reflexivity.
    + apply IH; eauto.
      * intros c' Hc'.
        assert (Hkk : dict_keys (if bool_decide (cid <> w) then revert_to_current cur st cid
                                 else st).1 = dict_keys st.1).
        { destruct (bool_decide (cid <> w)); [|reflexivity].
          apply revert_keys. apply Hk. left. }
        rewrite Hkk. apply Hk. right. exact Hc'.
      * apply elem_of_cons in Hin as [?|?]; [contradiction|assumption].
Qed.

Lemma losers_get_other (cur : Moves) w cids c : forall st,
  c ∉ cids \/ c = w ->
  dict_get
    (fold_left (fun st cid => if bool_decide (cid <> w) then revert_to_current cur st cid
                              else st) cids st).1 c
  = dict_get st.1 c.
Proof.
  induction cids as [|cid cids IH]; intros st Hc; cbn [fold_left]; [reflexivity|].
  rewrite IH.
  - case_bool_decide as Hw; [|reflexivity].
    rewrite revert_get. rewrite decide_False; [reflexivity|].
    intros ->. destruct Hc as [Hc|Hc]; [apply Hc; left|contradiction].
  - destruct Hc as [Hc|Hc]; [left|right; exact Hc].
    intros Hin. apply Hc. right. exact Hin.
Qed.

Lemma resolve_cell_reverted (cur : Moves) st entry :
  (forall c, c ∈ entry.2 -> c ∈ dict_keys st.1) ->
  reverted cur st (resolve_cell cur st entry).
Proof.
  intros Hk. unfold resolve_cell. destruct (1 <? length entry.2)%nat; [|constructor].
  apply losers_reverted. exact Hk.
Qed.

Lemma cells_reverted (cur : Moves) gs : forall st,
  (forall e c, e ∈ gs -> c ∈ e.2 -> c ∈ dict_keys st.1) ->
  reverted cur st (fold_left (resolve_cell cur) gs st).
Proof.
  induction gs as [|e gs IH]; intros st Hk; cbn [fold_left]; [constructor|].
  assert (Hr : reverted cur st (resolve_cell cur st e)).
  { apply resolve_cell_reverted. intros c Hc. apply (Hk e c); [left|exact Hc]. }
  eapply reverted_trans; [exact Hr|]. apply IH.
  intros e' c He' Hc. rewrite (reverted_keys _ _ _ Hr). apply (Hk e' c); [right|]; assumption.
Qed.

Lemma cells_get_cur (cur : Moves) gs pos cids c : forall st,
  (forall e c, e ∈ gs -> c ∈ e.2 -> c ∈ dict_keys st.1) ->
  (pos, cids) ∈ gs -> (1 < length cids)%nat -> c ∈ cids ->
  c <> find_winner cur pos cids -> is_Some (dict_get cur c) ->
  dict_get (fold_left (resolve_cell cur) gs st).1 c = dict_get cur c.
Proof.
  induction gs as [|e gs IH]; intros st Hk Hin Hlen Hc Hw Hs; cbn [fold_left].
  - inversion Hin.
  - assert (Hr : reverted cur st (resolve_cell cur st e)).
    { apply resolve_cell_reverted. intros c' Hc'. apply (Hk e c'); [left|exact Hc']. }
    assert (Hk' : forall e' c', e' ∈ gs -> c' ∈ e'.2 ->
                    c' ∈ dict_keys (resolve_cell cur st e).1).
    { intros e' c' He' Hc'. rewrite (reverted_keys _ _ _ Hr).
      apply (Hk e' c'); [right|]; assumption. }
    apply elem_of_cons in Hin as [<-|Hin].
    + eapply reverted_stays; [apply cells_reverted; exact Hk'|].
      unfold resolve_cell. cbn [fst snd].
      apply Nat.ltb_lt in Hlen. rewrite Hlen.
      apply losers_get_cur; auto.
      intros c' Hc'. apply (Hk (pos, cids) c'); [left|exact Hc'].
    + apply IH; auto.
Qed.

Lemma cells_get_other (cur : Moves) gs c : forall st,
  (forall pos cids, (pos, cids) ∈ gs -> (1 < length cids)%nat -> c ∈ cids ->
     c = find_winner cur pos cids) ->
  dict_get (fold_left (resolve_cell cur) gs st).1 c = dict_get st.1 c.
Proof.
  induction gs as [|[pos cids] gs IH]; intros st Hw; cbn [fold_left]; [reflexivity|].
  rewrite IH.
  - unfold resolve_cell. cbn [fst snd].
    destruct (1 <? length cids)%nat eqn:Hlen; [|reflexivity].
    apply Nat.ltb_lt in Hlen. apply losers_get_other.
    destruct (decide (c ∈ cids)) as [Hc|Hc]; [right|left; exact Hc].
    apply (Hw pos cids); auto. left.
  - intros pos' cids' Hin. apply Hw. right. exact Hin.
Qed.

Lemma vertex_phase_reverted (cur : Moves) st :
  reverted cur st (vertex_phase cur st).
Proof.
  unfold vertex_phase. apply cells_reverted.
  intros [pos cids] c He Hc. apply moves_to_cell_elem in He as [-> _].
  simpl in Hc. apply (targeting_keys _ _ _ Hc).
Qed.

(** A car that loses its cell stands still after the vertex rule. *)
Lemma vertex_phase_loser (cur : Moves) st pos c :
  (1 < length (targeting st.1 pos))%nat ->
  c ∈ targeting st.1 pos ->
  c <> find_winner cur pos (targeting st.1 pos) ->
  is_Some (dict_get cur c) ->
  dict_get (vertex_phase cur st).1 c = dict_get cur c.
Proof.
  intros Hlen Hc Hw Hs. unfold vertex_phase.
  apply (cells_get_cur cur _ pos (targeting st.1 pos)); auto.
  - intros [pos' cids] c' He Hc'. apply moves_to_cell_elem in He as [-> _].
    simpl in Hc'. apply (targeting_keys _ _ _ Hc').
  - apply moves_to_cell_elem. split; [reflexivity|].
    intros E. rewrite E in Hc. inversion Hc.
Qed.

(** The winner of a cell, and every car alone on its target, keeps its move. *)
Lemma vertex_phase_winner (cur : Moves) st pos c :
  NoDup (dict_keys st.1) ->
  dict_get st.1 c = Some pos ->
  ((1 < length (targeting st.1 pos))%nat -> c = find_winner cur pos (targeting st.1 pos)) ->
  dict_get (vertex_phase cur st).1 c = Some pos.
Proof.
  intros Hnd Hc Hw. unfold vertex_phase. rewrite cells_get_other; [exact Hc|].
  intros pos' cids He Hlen Hin. apply moves_to_cell_elem in He as [-> _].
  apply (targeting_get _ _ _ Hnd) in Hin.
  assert (pos' = pos) by congruence. subst pos'. auto.
Qed.


(** ** The index from cells to the cars standing there *)

Lemma pos_to_cid_snoc (cur : Moves) e :
  build_pos_to_cid (cur ++ [e]) = <[ e.2 := e.1 ]> (build_pos_to_cid cur).
Proof. unfold build_pos_to_cid. rewrite fold_left_app. reflexivity. Qed.

Lemma pos_to_cid_elem (cur : Moves) p c :
  build_pos_to_cid cur !! p = Some c -> (c, p) ∈ cur.
Proof.
  induction cur as [|[c' p'] cur IH] using rev_ind.
  - unfold build_pos_to_cid. simpl. rewrite lookup_empty. discriminate.
  - rewrite pos_to_cid_snoc. cbn [fst snd]. rewrite lookup_insert.
    destruct (decide (p' = p)) as [->|Hne].
    + intros [= ->]. apply elem_of_app. right. left.
    + intros H. apply elem_of_app. left. auto.
Qed.

Lemma pos_to_cid_get (cur : Moves) p c :
  NoDup (dict_keys cur) -> build_pos_to_cid cur !! p = Some c -> dict_get cur c = Some p.
Proof. intros Hnd H. apply dict_elem_get; [exact Hnd|]. apply pos_to_cid_elem. exact H. Qed.

Lemma pos_to_cid_complete (cur : Moves) p c :
  (forall a b q, (a, q) ∈ cur -> (b, q) ∈ cur -> a = b) ->
  (c, p) ∈ cur -> build_pos_to_cid cur !! p = Some c.
Proof.
  induction cur as [|[c' p'] cur IH] using rev_ind; intros Hinj Hin.
  - inversion Hin.
  - rewrite pos_to_cid_snoc. cbn [fst snd]. rewrite lookup_insert.
    destruct (decide (p' = p)) as [->|Hne].
    + f_equal. apply (Hinj c' c p); [apply elem_of_app; right; left|exact Hin].
    + apply IH.
      * intros a b q Ha Hb. apply (Hinj a b q); apply elem_of_app; left; assumption.
      * apply elem_of_app in Hin as [Hin|Hin]; [exact Hin|].
        apply list_elem_of_singleton in Hin. congruence.
Qed.

Lemma pos_to_cid_standing (cur : Moves) p c :
  NoDup (dict_keys cur) -> positions_injective cur ->
  dict_get cur c = Some p -> build_pos_to_cid cur !! p = Some c.
Proof.
  intros Hnd Hinj Hc. apply pos_to_cid_complete; [|apply dict_get_Some_elem; exact Hc].
  intros a b q Ha Hb. apply (Hinj a b q); apply dict_elem_get; assumption.
Qed.

(** ** The edge rule *)

Lemma edge_check_reverted (cur : Moves) p2c st a :
  a ∈ dict_keys st.1 -> reverted cur st (edge_check cur p2c st a).
Proof.
  intros Ha. unfold edge_check.
  destruct (dict_get st.1 a) as [next_a|]; [|constructor].
  destruct (dict_get cur a) as [curr_a|]; [|constructor].
  case_bool_decide; [constructor|].
  destruct (p2c !! next_a) as [b|]; [|constructor].
  case_bool_decide as Hb; [|constructor].
  apply reverted_step; [apply reverted_step; [constructor|exact Ha]|].
  rewrite revert_keys by exact Ha. apply dict_get_is_Some. eauto.
Qed.

Lemma edge_checks_reverted (cur : Moves) p2c ks : forall st,
  (forall a, a ∈ ks -> a ∈ dict_keys st.1) ->
  reverted cur st (fold_left (edge_check cur p2c) ks st).
Proof.
  induction ks as [|a ks IH]; intros st Hk; cbn [fold_left]; [constructor|].
  assert (Hr : reverted cur st (edge_check cur p2c st a)).
  { apply edge_check_reverted. apply Hk. left. }
  eapply reverted_trans; [exact Hr|]. apply IH.
  intros c Hc. rewrite (reverted_keys _ _ _ Hr). apply Hk. right. exact Hc.
Qed.

Lemma edge_phase_reverted (cur : Moves) p2c st :
  reverted cur st (edge_phase cur p2c st).
Proof. unfold edge_phase. apply edge_checks_reverted. auto. Qed.

Section Swap.
Variable cur : Moves.
Hypothesis cur_NoDup : NoDup (dict_keys cur).
Hypothesis cur_inj : positions_injective cur.

Local Notation "'p2c'" := (build_pos_to_cid cur).

(** The turn of a car that swaps cells with another reverts them both. *)
Lemma edge_check_swap_self st a b pa pb :
  dict_get cur a = Some pa -> dict_get cur b = Some pb ->
  dict_get st.1 a = Some pb -> dict_get st.1 b = Some pa -> pa <> pb ->
  dict_get (edge_check cur p2c st a).1 a = Some pa /\
  dict_get (edge_check cur p2c st a).1 b = Some pb.
Proof.
  intros Hca Hcb Hsa Hsb Hne. unfold edge_check. rewrite Hsa, Hca.
  rewrite bool_decide_eq_false_2 by congruence.
  rewrite (pos_to_cid_standing cur pb b cur_NoDup cur_inj Hcb).
  rewrite bool_decide_eq_true_2 by exact Hsb.
  assert (Hab : a <> b) by (intros ->; congruence).
  rewrite !revert_get. rewrite decide_False by exact Hab.
  rewrite !decide_True by reflexivity. rewrite Hca, Hcb. auto.
Qed.

(** The turn of a third car leaves a swapping pair as it is. *)
Lemma edge_check_swap_other st a b c pa pb :
  dict_get cur a = Some pa -> dict_get cur b = Some pb ->
  dict_get st.1 a = Some pb -> dict_get st.1 b = Some pa ->
  c <> a -> c <> b ->
  dict_get (edge_check cur p2c st c).1 a = Some pb /\
  dict_get (edge_check cur p2c st c).1 b = Some pa.
Proof.
  intros Hca Hcb Hsa Hsb Hna Hnb. unfold edge_check.
  destruct (dict_get st.1 c) as [next_c|] eqn:Hsc; [|auto].
  destruct (dict_get cur c) as [curr_c|] eqn:Hcc; [|auto].
  case_bool_decide; [auto|].
  destruct (p2c !! next_c) as [d|] eqn:Hd; [|auto].
  case_bool_decide as Hsd; [|auto].
  assert (Hda : d <> a).
  { intros ->. rewrite Hsa in Hsd. inversion Hsd; subst curr_c.
    apply Hnb. apply (cur_inj c b pb); assumption. }
  assert (Hdb : d <> b).
  { intros ->. rewrite Hsb in Hsd. inversion Hsd; subst curr_c.
    apply Hna. apply (cur_inj c a pa); assumption. }
  rewrite !revert_get. rewrite !decide_False by congruence. auto.
Qed.

Lemma edge_checks_swap a b pa pb ks : forall st,
  (forall c, c ∈ ks -> c ∈ dict_keys st.1) ->
  dict_get cur a = Some pa -> dict_get cur b = Some pb -> pa <> pb ->
  (dict_get st.1 a = Some pb /\ dict_get st.1 b = Some pa /\ (a ∈ ks \/ b ∈ ks)) \/
  (dict_get st.1 a = Some pa /\ dict_get st.1 b = Some pb) ->
  dict_get (fold_left (edge_check cur p2c) ks st).1 a = Some pa /\
  dict_get (fold_left (edge_check cur p2c) ks st).1 b = Some pb.
Proof.
  induction ks as [|c ks IH]; intros st Hk Hca Hcb Hne Hcase; cbn [fold_left].
  - destruct Hcase as [(_ & _ & [H|H])|H]; [inversion H|inversion H|exact H].
  - assert (Hr : reverted cur st (edge_check cur p2c st c)).
    { apply edge_check_reverted. apply Hk. left. }
    apply IH; auto.
    { intros c' Hc'. rewrite (reverted_keys _ _ _ Hr). apply Hk. right. exact Hc'. }
    destruct Hcase as [(Hsa & Hsb & Hin)|[Hsa Hsb]].
    + destruct (decide (c = a)) as [->|Hna].
      { right. apply edge_check_swap_self; assumption. }
      destruct (decide (c = b)) as [->|Hnb].
      { right. apply and_comm. apply edge_check_swap_self; auto. }
      left. destruct (edge_check_swap_other st a b c pa pb) as [H1 H2]; auto.
      split; [exact H1|]. split; [exact H2|].
      destruct Hin as [Hin|Hin]; apply elem_of_cons in Hin as [?|?];
        try congruence; auto.
    + right. split.
      * rewrite <- Hca. apply (reverted_stays cur st _ a Hr). congruence.
      * rewrite <- Hcb. apply (reverted_stays cur st _ b Hr). congruence.
Qed.

(** After the edge rule, two cars that were about to swap cells both stand still. *)
Lemma edge_phase_swap st a b pa pb :
  dict_get cur a = Some pa -> dict_get cur b = Some pb ->
  dict_get st.1 a = Some pb -> dict_get st.1 b = Some pa -> pa <> pb ->
  dict_get (edge_phase cur p2c st).1 a = Some pa /\
  dict_get (edge_phase cur p2c st).1 b = Some pb.
Proof.
  intros Hca Hcb Hsa Hsb Hne. unfold edge_phase.
  apply edge_checks_swap; auto.
  left. split; [exact Hsa|]. split; [exact Hsb|].
  left. apply dict_get_is_Some. eauto.
Qed.
End Swap.


(** ** The loop *)

Lemma pass_reverted (cur : Moves) p2c (am : Moves) :
  reverted cur (am, false) (resolution_pass cur p2c am).
Proof.
  unfold resolution_pass.
  eapply reverted_trans; [apply vertex_phase_reverted|apply edge_phase_reverted].
Qed.

Lemma pass_decreases (cur : Moves) p2c (am : Moves) :
  (resolution_pass cur p2c am).2 = true ->
  (moving cur (resolution_pass cur p2c am).1 < moving cur am)%nat.
Proof.
  intros Hf. destruct (reverted_flag _ _ _ (pass_reverted cur p2c am)) as (_ & _ & _ & H).
  apply H; [reflexivity|exact Hf].
Qed.

Lemma pass_fixpoint (cur : Moves) p2c (am : Moves) :
  (resolution_pass cur p2c am).2 = false -> resolution_pass cur p2c am = (am, false).
Proof. apply reverted_unchanged with (cur := cur). apply pass_reverted. Qed.

Lemma fixpoint_phases (cur : Moves) p2c (r : Moves) :
  resolution_pass cur p2c r = (r, false) ->
  vertex_phase cur (r, false) = (r, false) /\ edge_phase cur p2c (r, false) = (r, false).
Proof.
  unfold resolution_pass. intros H.
  assert (E : edge_phase cur p2c (vertex_phase cur (r, false)) = vertex_phase cur (r, false)).
  { apply reverted_unchanged with (cur := cur); [apply edge_phase_reverted|].
    rewrite H. reflexivity. }
  rewrite E in H. rewrite H. split; [reflexivity|]. rewrite <- H at 1. rewrite E. exact H.
Qed.

Lemma passes_get (cur : Moves) p2c k : forall (am : Moves) c,
  dict_get (passes k cur p2c am) c = dict_get am c \/
  dict_get (passes k cur p2c am) c = dict_get cur c.
Proof.
  induction k as [|k IH]; intros am c; cbn [passes]; [auto|].
  destruct (IH (resolution_pass cur p2c am).1 c) as [E|E]; [|auto].
  rewrite E. destruct (reverted_get cur _ _ c (pass_reverted cur p2c am)) as [E'|[E' _]]; auto.
Qed.

Lemma passes_stays (cur : Moves) p2c k : forall (am : Moves) c,
  dict_get am c = dict_get cur c -> dict_get (passes k cur p2c am) c = dict_get cur c.
Proof. intros am c H. destruct (passes_get cur p2c k am c); congruence. Qed.

Lemma passes_keys (cur : Moves) p2c k : forall (am : Moves),
  dict_keys (passes k cur p2c am) = dict_keys am.
Proof.
  induction k as [|k IH]; intros am; cbn [passes]; [reflexivity|].
  rewrite IH. apply (reverted_keys cur (am, false)). apply pass_reverted.
Qed.

Lemma resolve_loop_done (cur : Moves) p2c fuel : forall (am : Moves),
  (moving cur am < fuel)%nat ->
  exists k, (k <= moving cur am)%nat /\
    resolve_loop fuel cur p2c am = Done (passes k cur p2c am) /\
    resolution_pass cur p2c (passes k cur p2c am) = (passes k cur p2c am, false).
Proof.
  induction fuel as [|fuel IH]; intros am Hfuel; [lia|].
  cbn [resolve_loop]. destruct (resolution_pass cur p2c am).2 eqn:Hf.
  - pose proof (pass_decreases cur p2c am Hf) as Hlt.
    destruct (IH (resolution_pass cur p2c am).1) as (k & Hk & Hdone & Hfix); [lia|].
    exists (S k). split; [lia|]. split; [exact Hdone|exact Hfix].
  - exists O. split; [lia|]. pose proof (pass_fixpoint cur p2c am Hf) as E.
    rewrite E. split; [reflexivity|exact E].
Qed.

(** C9: the conflict-resolution loop terminates for every set of cars and
    every intended-move map.  A turn that changes anything strictly lowers
    the number of cars whose move differs from where they stand, a turn that
    raises no flag changes nothing, and after at most as many turns as there
    are cars the map is a fixpoint, at which the loop stops. *)
Theorem conflict_resolution_terminates
    (cur : Moves) (p2c : gmap Position nat) (am : Moves) :
  (forall am' : Moves,
     (resolution_pass cur p2c am').2 = true ->
     (moving cur (resolution_pass cur p2c am').1 < moving cur am')%nat) /\
  (forall am' : Moves,
     (resolution_pass cur p2c am').2 = false -> (resolution_pass cur p2c am').1 = am') /\
  (exists k, (k <= length am)%nat /\
     resolution_pass cur p2c (passes k cur p2c am) = (passes k cur p2c am, false) /\
     resolve_loop (S (length am)) cur p2c am = Done (passes k cur p2c am)).
Proof.
  split; [intros am'; apply pass_decreases|].
  split; [intros am' Hf; rewrite (pass_fixpoint cur p2c am' Hf); reflexivity|].
  pose proof (moving_le_length cur am) as Hle.
  destruct (resolve_loop_done cur p2c (S (length am)) am) as (k & Hk & Hdone & Hfix); [lia|].
  exists k. split; [lia|]. split; [exact Hfix|exact Hdone].
Qed.

(** ** What a fixpoint looks like *)

Lemma two_elements_length (l : list nat) a b :
  a ∈ l -> b ∈ l -> a <> b -> (1 < length l)%nat.
Proof.
  destruct l as [|x [|y l]]; simpl; intros Ha Hb Hne; [inversion Ha| |lia].
  apply list_elem_of_singleton in Ha, Hb. congruence.
Qed.

(** At a fixpoint no two cars head for the same cell. *)
Lemma fixpoint_injective (cur : Moves) p2c (r : Moves) :
  positions_injective cur -> NoDup (dict_keys r) ->
  (forall c, c ∈ dict_keys r -> c ∈ dict_keys cur) ->
  resolution_pass cur p2c r = (r, false) ->
  positions_injective r.
Proof.
  intros Hinj Hnd Hk Hfix a b p Ha Hb.
  destruct (decide (a = b)) as [|Hne]; [assumption|exfalso].
  apply fixpoint_phases in Hfix as [Hv _].
  assert (Hta : a ∈ targeting r p) by (apply targeting_get; assumption).
  assert (Htb : b ∈ targeting r p) by (apply targeting_get; assumption).
  pose proof (two_elements_length _ a b Hta Htb Hne) as Hlen.
  assert (Hloser : forall x, x ∈ targeting r p -> x <> find_winner cur p (targeting r p) ->
                     dict_get r x = Some p -> False).
  { intros x Hx Hw Hxp.
    assert (Hs : is_Some (dict_get cur x)).
    { apply dict_get_is_Some, Hk, dict_get_is_Some. eauto. }
    pose proof (vertex_phase_loser cur (r, false) p x Hlen Hx Hw Hs) as E.
    rewrite Hv in E. cbn [fst] in E. rewrite Hxp in E. symmetry in E.
    pose proof (find_winner_standing cur p (targeting r p) x Hx E) as Ew.
    apply Hw. apply (Hinj x _ p); assumption. }
  destruct (decide (a = find_winner cur p (targeting r p))) as [Ea|Ea].
  - apply (Hloser b Htb); [congruence|exact Hb].
  - apply (Hloser a Hta Ea Ha).
Qed.

(** At a fixpoint no two cars head for each other's cell. *)
Lemma fixpoint_no_swap (cur : Moves) (r : Moves) a b pa pb :
  NoDup (dict_keys cur) -> positions_injective cur ->
  resolution_pass cur (build_pos_to_cid cur) r = (r, false) ->
  dict_get cur a = Some pa -> dict_get cur b = Some pb ->
  dict_get r a = Some pb -> dict_get r b = Some pa -> pa = pb.
Proof.
  intros Hnd Hinj Hfix Hca Hcb Hra Hrb.
  destruct (decide (pa = pb)) as [|Hne]; [assumption|exfalso].
  apply fixpoint_phases in Hfix as [_ He].
  destruct (edge_phase_swap cur Hnd Hinj (r, false) a b pa pb) as [E _]; auto.
  rewrite He in E. cbn [fst] in E. congruence.
Qed.


Lemma NoDup_values_injective (cur : Moves) :
  NoDup (dict_values cur) -> positions_injective cur.
Proof.
  unfold dict_values. intros Hnd a b p Ha Hb.
  apply dict_get_Some_elem in Ha, Hb.
  induction cur as [|[c q] cur IH]; [inversion Ha|].
  cbn [fmap list_fmap fst snd] in Hnd. apply NoDup_cons in Hnd as [Hq Hnd].
  apply elem_of_cons in Ha as [Ha|Ha]; apply elem_of_cons in Hb as [Hb|Hb].
  - congruence.
  - exfalso. inversion Ha; subst. apply Hq. apply list_elem_of_fmap. exists (b, q). auto.
  - exfalso. inversion Hb; subst. apply Hq. apply list_elem_of_fmap. exists (a, q). auto.
  - auto.
Qed.

Lemma injective_NoDup_values (cur : Moves) :
  NoDup (dict_keys cur) -> positions_injective cur -> NoDup (dict_values cur).
Proof.
  unfold dict_values, dict_keys. induction cur as [|[c q] cur IH]; intros Hk Hinj.
  - constructor.
  - cbn [fmap list_fmap fst snd] in Hk |- *. apply NoDup_cons in Hk as [Hc Hk].
    apply NoDup_cons. split.
    + simpl. intros Hin. apply list_elem_of_fmap in Hin as ([c' q'] & Hq & Hin).
      simpl in Hq. subst q'.
      assert (c = c').
      { apply (Hinj c c' q).
        - simpl. rewrite decide_True; auto.
        - apply dict_elem_get; [apply NoDup_cons; auto|]. right. exact Hin. }
      subst c'. apply Hc. apply list_elem_of_fmap. exists (c, q). auto.
    + apply IH; [exact Hk|]. intros a b p Ha Hb.
      assert (Hne : forall x, dict_get cur x = Some p -> c <> x).
      { intros x Hx ->. apply Hc. apply list_elem_of_fmap. exists (x, p).
        split; [reflexivity|]. apply dict_get_Some_elem. exact Hx. }
      apply (Hinj a b p); simpl; rewrite decide_False; auto.
Qed.

Lemma resolve_conflicts_done (cur intended r : Moves) :
  resolve_conflicts cur intended = Done r ->
  (forall c, c ∈ dict_keys intended -> c ∈ dict_keys cur) /\
  exists k, (k <= length intended)%nat /\
    r = passes k cur (build_pos_to_cid cur) intended /\
    resolution_pass cur (build_pos_to_cid cur) r = (r, false).
Proof.
  unfold resolve_conflicts.
  destruct (forallb _ (dict_keys intended)) eqn:Hall; [|discriminate].
  intros Hr. split.
  - intros c Hc. rewrite List.forallb_forall in Hall.
    apply list_elem_of_In in Hc. apply Hall in Hc. apply dict_mem_true in Hc. exact Hc.
  - pose proof (moving_le_length cur intended) as Hle.
    destruct (resolve_loop_done cur (build_pos_to_cid cur) (S (length intended)) intended)
      as (k & Hk & Hdone & Hfix); [lia|].
    rewrite Hdone in Hr. inversion Hr; subst r.
    exists k. split; [lia|]. split; [reflexivity|exact Hfix].
Qed.

Lemma pass_loser (cur : Moves) p2c (am : Moves) pos c :
  (1 < length (targeting am pos))%nat ->
  c ∈ targeting am pos -> c <> find_winner cur pos (targeting am pos) ->
  is_Some (dict_get cur c) ->
  dict_get (resolution_pass cur p2c am).1 c = dict_get cur c.
Proof.
  intros Hlen Hc Hw Hs. unfold resolution_pass.
  eapply reverted_stays; [apply edge_phase_reverted|].
  apply (vertex_phase_loser cur (am, false) pos c); assumption.
Qed.

(** C6: conflict resolution over the intended-move map, given a snapshot in
    which no two cars share a cell (the invariant of C1).
    Vertex rule: for a cell targeted by two or more cars, the winner is a
    targeting car that already stands on the cell if there is one, otherwise
    the targeting car with the least id; the vertex rule leaves the winner's
    move alone, and every other targeting car ends on its current position.
    Edge rule: two cars that intend to take each other's cell both end on
    their current positions.
    The outcome is reached by repeating the loop body and is a fixpoint of
    it, and every car ends either on its intended or on its current cell. *)
Theorem conflict_resolution_rules (cur intended r : Moves) :
  NoDup (dict_keys cur) -> positions_injective cur -> NoDup (dict_keys intended) ->
  resolve_conflicts cur intended = Done r ->
  (forall pos, (1 < length (targeting intended pos))%nat ->
     find_winner cur pos (targeting intended pos) ∈ targeting intended pos /\
     ((exists c, c ∈ targeting intended pos /\ dict_get cur c = Some pos) ->
      dict_get cur (find_winner cur pos (targeting intended pos)) = Some pos) /\
     ((forall c, c ∈ targeting intended pos -> dict_get cur c <> Some pos) ->
      forall c, c ∈ targeting intended pos ->
        (find_winner cur pos (targeting intended pos) <= c)%nat) /\
     dict_get (vertex_phase cur (intended, false)).1
       (find_winner cur pos (targeting intended pos)) = Some pos /\
     (forall c, c ∈ targeting intended pos ->
        c <> find_winner cur pos (targeting intended pos) ->
        dict_get r c = dict_get cur c)) /\
  (forall a b pa pb,
     dict_get cur a = Some pa -> dict_get cur b = Some pb ->
     dict_get intended a = Some pb -> dict_get intended b = Some pa ->
     dict_get r a = Some pa /\ dict_get r b = Some pb) /\
  (exists k, r = passes k cur (build_pos_to_cid cur) intended /\
     resolution_pass cur (build_pos_to_cid cur) r = (r, false)) /\
  (forall c, dict_get r c = dict_get intended c \/ dict_get r c = dict_get cur c).
Proof.
  intros Hnd Hinj Hndi Hr.
  apply resolve_conflicts_done in Hr as (Hkeys & k & _ & Hk & Hfix).
  assert (Hget : forall c, dict_get r c = dict_get intended c \/ dict_get r c = dict_get cur c).
  { intros c. rewrite Hk. apply passes_get. }
  assert (Hrk : dict_keys r = dict_keys intended) by (rewrite Hk; apply passes_keys).
  assert (Hrinj : positions_injective r).
  { apply (fixpoint_injective cur (build_pos_to_cid cur)); auto.
    - rewrite Hrk. exact Hndi.
    - rewrite Hrk. exact Hkeys. }
  split; [|split; [|split; [eauto|exact Hget]]].
  - intros pos Hlen.
    assert (Hne : targeting intended pos <> []).
    { intros E. rewrite E in Hlen. simpl in Hlen. lia. }
    pose proof (find_winner_elem cur pos _ Hne) as Hw.
    split; [exact Hw|]. split; [|split; [|split]].
    + intros (c & Hc & Hcp). apply (find_winner_standing cur pos _ c Hc Hcp).
    + intros Hnone. apply find_winner_least; assumption.
    + apply vertex_phase_winner; cbn [fst]; auto.
      apply targeting_get; assumption.
    + intros c Hc Hcw.
      assert (Hs : is_Some (dict_get cur c)).
      { apply dict_get_is_Some, Hkeys. apply (targeting_keys _ _ _ Hc). }
      pose proof (pass_loser cur (build_pos_to_cid cur) intended pos c Hlen Hc Hcw Hs) as E.
      destruct k as [|k].
      * cbn [passes] in Hk. subst r. rewrite Hfix in E. exact E.
      * rewrite Hk. cbn [passes]. apply passes_stays. exact E.
  - intros a b pa pb Hca Hcb Hia Hib.
    destruct (decide (pa = pb)) as [->|Hne].
    { destruct (Hget a) as [E|E], (Hget b) as [E'|E']; split; congruence. }
    destruct (Hget a) as [Ea|Ea]; [rewrite Hia in Ea|rewrite Hca in Ea];
      (destruct (Hget b) as [Eb|Eb]; [rewrite Hib in Eb|rewrite Hcb in Eb]).
    + exfalso. apply Hne. apply (fixpoint_no_swap cur r a b pa pb); assumption.
    + exfalso. apply Hne. assert (a = b) by (apply (Hrinj a b pb); assumption). congruence.
    + exfalso. apply Hne. assert (a = b) by (apply (Hrinj a b pa); assumption). congruence.
    + auto.
Qed.

Lemma conflict_resolution_rules_witness :
  dict_get [(0%nat, (0, 0)); (1%nat, (1, 0)); (2%nat, (2, 1)); (3%nat, (1, 1))] 0%nat
    = Some (0, 0) /\
  dict_get [(0%nat, (0, 0)); (1%nat, (1, 0)); (2%nat, (2, 1)); (3%nat, (1, 1))] 1%nat
    = Some (1, 0).
Proof.
  destruct (conflict_resolution_rules demo_positions demo_intended
              [(0%nat, (0, 0)); (1%nat, (1, 0)); (2%nat, (2, 1)); (3%nat, (1, 1))])
    as (_ & Hedge & _).
  - apply (bool_decide_unpack _). vm_compute. exact I.
  - apply NoDup_values_injective. apply (bool_decide_unpack _). vm_compute. exact I.
  - apply (bool_decide_unpack _). vm_compute. exact I.
  - vm_compute. reflexivity.
  - apply (Hedge 0%nat 1%nat (0, 0) (1, 0)); reflexivity.
Defined.

(** Cars 0 and 1 would swap and both stay; cars 2 and 3 both want (2,1),
    nobody stands there, car 2 has the lower id and moves, car 3 stays. *)
Example resolve_demo :
  resolve_conflicts demo_positions demo_intended
  = Done [(0%nat, (0, 0)); (1%nat, (1, 0)); (2%nat, (2, 1)); (3%nat, (1, 1))].
Proof. vm_compute. reflexivity. Qed.


(** * Escalation after a blocked move *)

Lemma release_assigned_spot_gone pm id :
  assigned_spots (release_assigned_spot pm id) !! id = None.
Proof.
  unfold release_assigned_spot. destruct (assigned_spots pm !! id) eqn:E; [|exact E].
  simpl. apply lookup_delete_eq.
Qed.

Lemma assign_goal_exit pm car :
  intent car = Some "EXIT"%string -> assign_goal pm car = (choose_exit_cell pm car, pm).
Proof.
  intros H. unfold assign_goal. rewrite H.
  rewrite bool_decide_eq_false_2 by discriminate.
  rewrite bool_decide_eq_true_2 by reflexivity. reflexivity.
Qed.

(** C7 (as stated) fails: car 7, intent EXIT, is blocked for the fifth time
    in a row.  The commit step cancels its plan and counts the block, but
    its goal stays [(3,1)] and no random number is drawn; the plan-failure
    policy at the same count would have drawn a new exit, here [(2,2)]. *)
Lemma blocked_exit_car_counterexample :
  blocked_count <$> all_cars (commit_car [(7%nat, (1, 1))] [(7%nat, (2, 1))]
                                demo_blocked_sim 7%nat) !! 7%nat = Some 5 /\
  goal <$> all_cars (commit_car [(7%nat, (1, 1))] [(7%nat, (2, 1))]
                       demo_blocked_sim 7%nat) !! 7%nat = Some (Some (3, 1)) /\
  cursor (rng (commit_car [(7%nat, (1, 1))] [(7%nat, (2, 1))] demo_blocked_sim 7%nat))
    = cursor (rng demo_blocked_sim) /\
  goal (escalation_policy 5 demo_blocked_sim (set_blocked_count demo_exit_car 5)).1
    = Some (2, 2) /\
  block_escalation demo_blocked_sim (set_blocked_count demo_exit_car 5)
    <> escalation_policy 5 demo_blocked_sim (set_blocked_count demo_exit_car 5).
Proof.
  split; [vm_compute; reflexivity|].
  split; [vm_compute; reflexivity|].
  split; [vm_compute; reflexivity|].
  split; [vm_compute; reflexivity|].
  intros H. apply (f_equal (fun r => goal r.1)) in H. vm_compute in H. discriminate.
Qed.

(** The two tests of the block branch, case by case. *)
Lemma block_escalation_cases (s : SimulationCore) (car : Car) :
  (intent car <> Some "PARK"%string -> block_escalation s car = (car, s)) /\
  (intent car = Some "PARK"%string ->
   block_escalation s car = escalation_policy (blocked_count car) s car) /\
  (intent car = Some "PARK"%string -> blocked_count car < 12 ->
   blocked_count car mod 3 = 0 ->
   block_escalation s car
   = (set_goal car None,
      with_parking_manager s (release_assigned_spot (parking_manager s) (car_id car)))) /\
  (intent car = Some "PARK"%string -> blocked_count car < 12 ->
   blocked_count car mod 3 <> 0 ->
   block_escalation s car = (car, s)) /\
  (intent car = Some "PARK"%string -> 12 <= blocked_count car ->
   block_escalation s car
   = (set_goal (set_intent car (Some "EXIT"%string))
        (choose_exit_cell (parking_manager s) car),
      with_parking_manager s (release_assigned_spot (parking_manager s) (car_id car)))).
Proof.
  unfold block_escalation, escalation_policy, rerandomize_exit, drop_slot, give_up_parking.
  split; [|split; [|split; [|split]]].
  - intros Hi. rewrite bool_decide_eq_false_2 by exact Hi. simpl.
    rewrite bool_decide_eq_false_2 by exact Hi. reflexivity.
  - intros Hi. rewrite (bool_decide_eq_false_2 (intent car = Some "EXIT"%string))
      by (rewrite Hi; discriminate).
    simpl. destruct (bool_decide (intent car = Some "PARK"%string) &&
                     (blocked_count car mod 3 =? 0)); reflexivity.
  - intros Hi Hlt Hm. rewrite bool_decide_eq_true_2 by exact Hi.
    rewrite Hm. simpl. rewrite bool_decide_eq_true_2 by exact Hi.
    replace (blocked_count car >=? 12) with false
      by (symmetry; rewrite Z.geb_leb; apply Z.leb_gt; lia).
    reflexivity.
  - intros Hi Hlt Hm. rewrite bool_decide_eq_true_2 by exact Hi.
    replace (blocked_count car mod 3 =? 0) with false by (symmetry; apply Z.eqb_neq; exact Hm).
    cbn [andb]. rewrite bool_decide_eq_true_2 by exact Hi.
    replace (blocked_count car >=? 12) with false
      by (symmetry; rewrite Z.geb_leb; apply Z.leb_gt; lia).
    reflexivity.
  - intros Hi Hge. rewrite bool_decide_eq_true_2 by exact Hi.
    assert (Hgeb : (blocked_count car >=? 12) = true) by (apply Z.geb_le; lia).
    assert (Hexit : forall pm pm' (c c' : Car),
              exit_cells pm' = exit_cells pm -> current_position c' = current_position c ->
              choose_exit_cell pm' c' = choose_exit_cell pm c).
    { intros pm pm' c c' E1 E2. unfold choose_exit_cell. rewrite E1, E2. reflexivity. }
    assert (Hcells : forall pm id, exit_cells (release_assigned_spot pm id) = exit_cells pm).
    { intros pm id. unfold release_assigned_spot.
      destruct (assigned_spots pm !! id); reflexivity. }
    assert (Hidem : forall pm id,
              release_assigned_spot (release_assigned_spot pm id) id
              = release_assigned_spot pm id).
    { intros pm id. unfold release_assigned_spot at 1.
      rewrite release_assigned_spot_gone. reflexivity. }
    destruct (blocked_count car mod 3 =? 0);
      cbn [andb fst snd blocked_count intent set_goal car_id];
      rewrite bool_decide_eq_true_2 by exact Hi; rewrite Hgeb; cbn [andb];
      rewrite assign_goal_exit by reflexivity;
      cbn [fst snd intent goal set_goal set_intent parking_manager with_parking_manager car_id].
    + rewrite Hidem.
      rewrite (Hexit (parking_manager s) _ car (set_intent (set_goal car None) (Some "EXIT"%string)))
        by (try apply Hcells; reflexivity).
      reflexivity.
    + rewrite (Hexit (parking_manager s) _ car (set_intent car (Some "EXIT"%string)))
        by (try apply Hcells; reflexivity).
      reflexivity.
Qed.

Lemma cancel_plan_spec (rt : ReservationTable) (car : Car) :
  (cancel_plan rt car).2 = (if has_path car then unreserve_path (path car) rt else rt) /\
  path (cancel_plan rt car).1 = [] /\
  car_id (cancel_plan rt car).1 = car_id car /\
  goal (cancel_plan rt car).1 = goal car /\
  intent (cancel_plan rt car).1 = intent car /\
  blocked_count (cancel_plan rt car).1 = blocked_count car /\
  current_position (cancel_plan rt car).1 = current_position car.
Proof.
  unfold cancel_plan. destruct (has_path car) eqn:Hp; cbn [fst snd].
  - repeat split; reflexivity.
  - repeat split; try reflexivity.
    unfold has_path in Hp. apply Nat.ltb_ge in Hp.
    destruct (path car); [reflexivity|cbn in Hp; lia].
Qed.

(** C7 (amended): what the commit step does with a car that stood still
    although it wanted to move.  Its plan is cancelled (the path is
    cleared and its reservations are released), [blocked_count] goes up by
    one, the car stays where it is and no random number is drawn.  Then the
    two PARK rules of the plan-failure policy apply, keyed on the new
    [blocked_count] with the same thresholds, and nothing else: a car whose
    intent is not PARK (an EXIT car in particular) keeps its goal and its
    intent; a PARK car below 12 has its slot released and its goal cleared
    at a multiple of 3 and is left alone otherwise; from 12 on its slot is
    released, its intent becomes EXIT and its goal is the exit cell the
    parking manager picks.  For a PARK car the outcome is that of the
    plan-failure policy at the same count. *)
Theorem commit_blocked_car_rules (am im : Moves) (s : SimulationCore) (id : nat) (car : Car)
    (intended : Position) :
  all_cars s !! id = Some car ->
  dict_get am id = Some (current_position car) ->
  dict_get im id = Some intended ->
  intended <> current_position car ->
  (exists c',
     all_cars (commit_car am im s id) !! car_id car = Some c' /\
     path c' = [] /\
     table (commit_car am im s id)
     = (if has_path car then unreserve_path (path car) (table s) else table s) /\
     blocked_count c' = blocked_count car + 1 /\
     current_position c' = current_position car /\
     car_positions (commit_car am im s id) = car_positions s /\
     active_cars (commit_car am im s id) = active_cars s /\
     rng (commit_car am im s id) = rng s /\
     (intent car <> Some "PARK"%string ->
      goal c' = goal car /\ intent c' = intent car /\
      parking_manager (commit_car am im s id) = parking_manager s) /\
     (intent car = Some "PARK"%string -> blocked_count car + 1 < 12 ->
      (blocked_count car + 1) mod 3 = 0 ->
      goal c' = None /\ intent c' = Some "PARK"%string /\
      parking_manager (commit_car am im s id)
      = release_assigned_spot (parking_manager s) (car_id car)) /\
     (intent car = Some "PARK"%string -> blocked_count car + 1 < 12 ->
      (blocked_count car + 1) mod 3 <> 0 ->
      goal c' = goal car /\ intent c' = Some "PARK"%string /\
      parking_manager (commit_car am im s id) = parking_manager s) /\
     (intent car = Some "PARK"%string -> 12 <= blocked_count car + 1 ->
      goal c' = choose_exit_cell (parking_manager s) car /\
      intent c' = Some "EXIT"%string /\
      parking_manager (commit_car am im s id)
      = release_assigned_spot (parking_manager s) (car_id car))) /\
  (intent car = Some "PARK"%string ->
   commit_car am im s id
   = let car1 := set_blocked_count (cancel_plan (table s) car).1 (blocked_count car + 1) in
     let s1 := with_table s (cancel_plan (table s) car).2 in
     store_car (escalation_policy (blocked_count car + 1) s1 car1).2
       (escalation_policy (blocked_count car + 1) s1 car1).1).
Proof.
  intros Hcar Ham Him Hwant.
  destruct (cancel_plan_spec (table s) car) as (Hrt & Hpath & Hid & Hgoal & Hint & Hcount & Hpos).
  set (car2 := set_blocked_count (cancel_plan (table s) car).1 (blocked_count car + 1)).
  set (s1 := with_table s (cancel_plan (table s) car).2).
  assert (Hcommit : commit_car am im s id
                    = store_car (block_escalation s1 car2).2 (block_escalation s1 car2).1).
  { unfold commit_car. rewrite Hcar, Ham, Him. cbv zeta.
    rewrite bool_decide_eq_false_2 by (intros H; apply H; reflexivity).
    rewrite bool_decide_eq_true_2 by exact Hwant.
    unfold car2, s1. rewrite <- Hcount.
    destruct (cancel_plan (table s) car) as [c1 rt1]. cbn [fst snd].
    destruct (block_escalation _ _) as [c3 s3]. reflexivity. }
  assert (H2 : path car2 = [] /\ car_id car2 = car_id car /\ goal car2 = goal car /\
               intent car2 = intent car /\ blocked_count car2 = blocked_count car + 1 /\
               current_position car2 = current_position car).
  { unfold car2, current_position in *. cbn [all_cars with_all_cars with_table with_parking_manager priority_planner reservation_table parking_manager car_positions active_cars rng path blocked_count goal intent car_id _position set_blocked_count set_goal set_intent fst snd planner_grid planner_horizon] in *. auto 10. }
  destruct H2 as (Hpath2 & Hid2 & Hgoal2 & Hint2 & Hcount2 & Hpos2).
  assert (Htab : table s1 = if has_path car then unreserve_path (path car) (table s)
                            else table s).
  { unfold s1. rewrite <- Hrt. reflexivity. }
  destruct (block_escalation_cases s1 car2) as (B1 & B2 & B3 & B4 & B5).
  rewrite ?Hint2, ?Hcount2 in B1, B2, B3, B4, B5.
  split.
  - rewrite Hcommit. clear Hcommit.
    destruct (decide (intent car = Some "PARK"%string)) as [Hi|Hi].
    + destruct (Z_lt_le_dec (blocked_count car + 1) 12) as [Hlt|Hge].
      * destruct (decide ((blocked_count car + 1) mod 3 = 0)) as [Hm|Hm].
        -- rewrite (B3 Hi Hlt Hm). cbn [fst snd]. exists (set_goal car2 None).
           unfold store_car, table, current_position in *. cbn [all_cars with_all_cars with_table with_parking_manager priority_planner reservation_table parking_manager car_positions active_cars rng path blocked_count goal intent car_id _position set_blocked_count set_goal set_intent fst snd planner_grid planner_horizon] in *. rewrite Hid2.
           rewrite lookup_insert_eq.
           split; [reflexivity|]. split; [exact Hpath2|]. split; [exact Htab|].
           split; [exact Hcount2|]. split; [exact Hpos2|].
           split; [reflexivity|]. split; [reflexivity|]. split; [reflexivity|].
           split; [intros; contradiction|].
           split; [intros _ _ _; rewrite Hint2; auto|].
           split; [intros _ _ H; contradiction|].
           intros _ H. lia.
        -- rewrite (B4 Hi Hlt Hm). cbn [fst snd]. exists car2.
           unfold store_car, table, current_position in *. cbn [all_cars with_all_cars with_table with_parking_manager priority_planner reservation_table parking_manager car_positions active_cars rng path blocked_count goal intent car_id _position set_blocked_count set_goal set_intent fst snd planner_grid planner_horizon] in *. rewrite Hid2.
           rewrite lookup_insert_eq.
           split; [reflexivity|]. split; [exact Hpath2|]. split; [exact Htab|].
           split; [exact Hcount2|]. split; [exact Hpos2|].
           split; [reflexivity|]. split; [reflexivity|]. split; [reflexivity|].
           split; [intros; contradiction|].
           split; [intros _ _ H; contradiction|].
           split; [intros _ _ _; rewrite Hint2; auto|].
           intros _ H. lia.
      * rewrite (B5 Hi Hge). cbn [fst snd].
        exists (set_goal (set_intent car2 (Some "EXIT"%string))
                  (choose_exit_cell (parking_manager s1) car2)).
        assert (Hexit : choose_exit_cell (parking_manager s1) car2
                        = choose_exit_cell (parking_manager s) car).
        { unfold choose_exit_cell. rewrite Hpos2. reflexivity. }
        unfold store_car, table, current_position in *. cbn [all_cars with_all_cars with_table with_parking_manager priority_planner reservation_table parking_manager car_positions active_cars rng path blocked_count goal intent car_id _position set_blocked_count set_goal set_intent fst snd planner_grid planner_horizon] in *. rewrite Hid2.
        rewrite lookup_insert_eq.
        split; [reflexivity|]. split; [exact Hpath2|]. split; [exact Htab|].
        split; [exact Hcount2|]. split; [exact Hpos2|].
        split; [reflexivity|]. split; [reflexivity|]. split; [reflexivity|].
        split; [intros; contradiction|].
        split; [intros _ H; lia|].
        split; [intros _ H; lia|].
        intros _ _. auto.
    + rewrite (B1 Hi). cbn [fst snd]. exists car2.
      unfold store_car, table, current_position in *. cbn [all_cars with_all_cars with_table with_parking_manager priority_planner reservation_table parking_manager car_positions active_cars rng path blocked_count goal intent car_id _position set_blocked_count set_goal set_intent fst snd planner_grid planner_horizon] in *. rewrite Hid2.
      rewrite lookup_insert_eq.
      split; [reflexivity|]. split; [exact Hpath2|]. split; [exact Htab|].
      split; [exact Hcount2|]. split; [exact Hpos2|].
      split; [reflexivity|]. split; [reflexivity|]. split; [reflexivity|].
      split; [intros _; auto|].
      split; [intros; contradiction|].
      split; [intros; contradiction|].
      intros; contradiction.
  - intros Hi. rewrite Hcommit, (B2 Hi). reflexivity.
Qed.

Lemma commit_blocked_car_rules_witness :
  (exists c',
     all_cars (commit_car [(7%nat, (1, 1))] [(7%nat, (2, 1))] demo_blocked_park_sim 7%nat)
       !! car_id demo_park_car = Some c' /\
     path c' = [] /\
     table (commit_car [(7%nat, (1, 1))] [(7%nat, (2, 1))] demo_blocked_park_sim 7%nat)
     = (if has_path demo_park_car
        then unreserve_path (path demo_park_car) (table demo_blocked_park_sim)
        else table demo_blocked_park_sim) /\
     blocked_count c' = blocked_count demo_park_car + 1 /\
     current_position c' = current_position demo_park_car /\
     car_positions (commit_car [(7%nat, (1, 1))] [(7%nat, (2, 1))] demo_blocked_park_sim 7%nat)
     = car_positions demo_blocked_park_sim /\
     active_cars (commit_car [(7%nat, (1, 1))] [(7%nat, (2, 1))] demo_blocked_park_sim 7%nat)
     = active_cars demo_blocked_park_sim /\
     rng (commit_car [(7%nat, (1, 1))] [(7%nat, (2, 1))] demo_blocked_park_sim 7%nat)
     = rng demo_blocked_park_sim /\
     (intent demo_park_car <> Some "PARK"%string ->
      goal c' = goal demo_park_car /\ intent c' = intent demo_park_car /\
      parking_manager (commit_car [(7%nat, (1, 1))] [(7%nat, (2, 1))] demo_blocked_park_sim 7%nat)
      = parking_manager demo_blocked_park_sim) /\
     (intent demo_park_car = Some "PARK"%string -> blocked_count demo_park_car + 1 < 12 ->
      (blocked_count demo_park_car + 1) mod 3 = 0 ->
      goal c' = None /\ intent c' = Some "PARK"%string /\
      parking_manager (commit_car [(7%nat, (1, 1))] [(7%nat, (2, 1))] demo_blocked_park_sim 7%nat)
      = release_assigned_spot (parking_manager demo_blocked_park_sim) (car_id demo_park_car)) /\
     (intent demo_park_car = Some "PARK"%string -> blocked_count demo_park_car + 1 < 12 ->
      (blocked_count demo_park_car + 1) mod 3 <> 0 ->
      goal c' = goal demo_park_car /\ intent c' = Some "PARK"%string /\
      parking_manager (commit_car [(7%nat, (1, 1))] [(7%nat, (2, 1))] demo_blocked_park_sim 7%nat)
      = parking_manager demo_blocked_park_sim) /\
     (intent demo_park_car = Some "PARK"%string -> 12 <= blocked_count demo_park_car + 1 ->
      goal c' = choose_exit_cell (parking_manager demo_blocked_park_sim) demo_park_car /\
      intent c' = Some "EXIT"%string /\
      parking_manager (commit_car [(7%nat, (1, 1))] [(7%nat, (2, 1))] demo_blocked_park_sim 7%nat)
      = release_assigned_spot (parking_manager demo_blocked_park_sim) (car_id demo_park_car))) /\
  (intent demo_park_car = Some "PARK"%string ->
   commit_car [(7%nat, (1, 1))] [(7%nat, (2, 1))] demo_blocked_park_sim 7%nat
   = let car1 :=
       set_blocked_count (cancel_plan (table demo_blocked_park_sim) demo_park_car).1
         (blocked_count demo_park_car + 1) in
     let s1 :=
       with_table demo_blocked_park_sim
         (cancel_plan (table demo_blocked_park_sim) demo_park_car).2 in
     store_car (escalation_policy (blocked_count demo_park_car + 1) s1 car1).2
       (escalation_policy (blocked_count demo_park_car + 1) s1 car1).1).
Proof.
  refine (commit_blocked_car_rules [(7%nat, (1, 1))] [(7%nat, (2, 1))] demo_blocked_park_sim
            7%nat demo_park_car (2, 1) _ _ _ _).
  - vm_compute. reflexivity.
  - reflexivity.
  - reflexivity.
  - discriminate.
Defined.

(** The blocked PARK car of [demo_blocked_park_sim] at its third block: the
    plan is gone, the count is 3, the goal is cleared and the slot it held
    is free again. *)
Example commit_blocked_park_car_third_block :
  (fun c => (path c, blocked_count c, goal c, intent c))
    <$> all_cars (commit_car [(7%nat, (1, 1))] [(7%nat, (2, 1))] demo_blocked_park_sim 7%nat)
          !! 7%nat
  = Some ([], 3, None, Some "PARK"%string) /\
  assigned_spots (parking_manager demo_blocked_park_sim) !! 7%nat = Some (2, 0) /\
  assigned_spots (parking_manager
     (commit_car [(7%nat, (1, 1))] [(7%nat, (2, 1))] demo_blocked_park_sim 7%nat)) !! 7%nat
  = None /\
  (2, 0) ∉ free_spots (parking_manager demo_blocked_park_sim) /\
  (2, 0) ∈ free_spots (parking_manager
     (commit_car [(7%nat, (1, 1))] [(7%nat, (2, 1))] demo_blocked_park_sim 7%nat)).
Proof.
  split; [vm_compute; reflexivity|].
  split; [vm_compute; reflexivity|].
  split; [vm_compute; reflexivity|].
  split; apply (bool_decide_unpack _); vm_compute; exact I.
Qed.

Example block_escalation_park_third_block :
  goal (block_escalation demo_blocked_sim
          (set_intent (set_blocked_count demo_exit_car 3) (Some "PARK"%string))).1 = None.
Proof. vm_compute. reflexivity. Qed.


(** * The run loop *)

Lemma resolve_conflicts_total (cur intended : Moves) :
  (forall c, c ∈ dict_keys intended -> c ∈ dict_keys cur) ->
  exists r, resolve_conflicts cur intended = Done r.
Proof.
  intros Hk. unfold resolve_conflicts.
  replace (forallb (fun cid => dict_mem cur cid) (dict_keys intended)) with true.
  - pose proof (moving_le_length cur intended) as Hle.
    destruct (resolve_loop_done cur (build_pos_to_cid cur) (S (length intended)) intended)
      as (k & _ & Hdone & _); [lia|].
    eauto.
  - symmetry. apply List.forallb_forall. intros c Hc.
    apply dict_mem_true, Hk, list_elem_of_In, Hc.
Qed.

Lemma intended_parked_keys (active : list nat) (cp : Moves) : forall (acc : Moves) c,
  c ∈ dict_keys
        (fold_left (fun im e => if bool_decide (e.1 ∈ active) then im else dict_set im e.1 e.2)
           cp acc) ->
  c ∈ dict_keys acc \/ c ∈ dict_keys cp.
Proof.
  induction cp as [|[k p] cp IH]; intros acc c Hc; cbn [fold_left] in Hc; [auto|].
  apply IH in Hc as [Hc|Hc].
  - cbn [fst snd] in Hc. case_bool_decide.
    + auto.
    + apply dict_keys_set_elem in Hc as [->|Hc]; [right; left|auto].
  - right. right. exact Hc.
Qed.

Lemma intended_active_keys (s : SimulationCore) (ids : list nat) : forall (acc : Moves) c,
  c ∈ dict_keys
        (fold_left
           (fun im id =>
              match all_cars s !! id with
              | Some car =>
                  dict_set im id
                    (default (current_position car) (peek_at_next_step car (time s)))
              | None => im
              end) ids acc) ->
  c ∈ dict_keys acc \/ c ∈ ids.
Proof.
  induction ids as [|id ids IH]; intros acc c Hc; cbn [fold_left] in Hc; [auto|].
  apply IH in Hc as [Hc|Hc].
  - destruct (all_cars s !! id); [|auto].
    apply dict_keys_set_elem in Hc as [->|Hc]; [right; left|auto].
  - right. right. exact Hc.
Qed.

Lemma intended_keys (s : SimulationCore) c :
  c ∈ dict_keys (build_intended_moves s) ->
  c ∈ active_cars s \/ c ∈ dict_keys (car_positions s).
Proof.
  unfold build_intended_moves, get_positions_snapshot. intros Hc.
  apply intended_parked_keys in Hc as [Hc|Hc]; [|auto].
  apply intended_active_keys in Hc as [Hc|Hc]; [inversion Hc|auto].
Qed.

Lemma advance_idle (s : SimulationCore) :
  active_cars s = [] -> _advance_cars s = Done s.
Proof.
  intros Ha. unfold _advance_cars.
  assert (Hp : plan_phase s = s).
  { unfold plan_phase, cars_needing_plan. rewrite Ha. reflexivity. }
  rewrite Hp.
  destruct (resolve_conflicts_total (get_positions_snapshot s) (build_intended_moves s))
    as [r Hr].
  { intros c Hc. apply intended_keys in Hc as [Hc|Hc]; [|exact Hc].
    rewrite Ha in Hc. inversion Hc. }
  rewrite Hr, Ha. reflexivity.
Qed.

Lemma random_not_below_zero (r : RNG) (l : Q) :
  Qeq_bool l 0 = true -> Qltb (random_random r).1 l = false.
Proof.
  intros Hl. unfold Qeq_bool in Hl. simpl in Hl.
  apply Zeq_bool_eq in Hl. rewrite Z.mul_1_r in Hl.
  unfold random_random, next_draw, Qltb. simpl. rewrite Hl.
  apply Z.ltb_ge. simpl. apply Z.mul_nonneg_nonneg; [apply N2Z.is_nonneg|apply Pos2Z.is_nonneg].
Qed.

Lemma no_arrival_at_lambda_zero (s : SimulationCore) :
  Qeq_bool (arrival_lambda (config s)) 0 = true ->
  active_cars (_maybe_poisson_arrival s) = active_cars s /\
  time (_maybe_poisson_arrival s) = time s /\
  config (_maybe_poisson_arrival s) = config s /\
  arriving_cars_created (_maybe_poisson_arrival s) = arriving_cars_created s.
Proof.
  intros Hl. unfold _maybe_poisson_arrival.
  destruct (arriving_cars_created s >=? max_arriving_cars (config s)); [auto|].
  case_bool_decide; [auto|].
  destruct (_get_free_entry s) as [[e|] r]; [|auto].
  pose proof (random_not_below_zero (rng (with_rng s r)) _ Hl) as Hq.
  destruct (random_random (rng (with_rng s r))) as [x r1]. simpl in Hq.
  cbn [config with_rng]. rewrite Hq. auto.
Qed.

Lemma step_idle (s : SimulationCore) :
  active_cars s = [] -> waiting_active_cars s = [] ->
  Qeq_bool (arrival_lambda (config s)) 0 = true ->
  exists s', step s = Done s' /\ active_cars s' = [] /\ time s' = time s + 1 /\
             config s' = config s.
Proof.
  intros Ha Hw Hl. unfold step.
  assert (Hpw : _process_waiting_active_cars (_cleanup_exited_cars s) = _cleanup_exited_cars s).
  { unfold _process_waiting_active_cars. cbn [_cleanup_exited_cars waiting_active_cars
      with_exited with_car_positions]. rewrite Hw. reflexivity. }
  rewrite Hpw. rewrite advance_idle by exact Ha.
  destruct (no_arrival_at_lambda_zero (_cleanup_exited_cars s) Hl) as (H1 & H2 & H3 & _).
  eexists. split; [reflexivity|]. cbn [active_cars time config with_time].
  rewrite H1, H2, H3. auto.
Qed.

Lemma init_parked_frame n : forall s,
  active_cars (init_parked n s) = active_cars s /\
  waiting_active_cars (init_parked n s) = waiting_active_cars s /\
  time (init_parked n s) = time s /\
  config (init_parked n s) = config s.
Proof.
  induction n as [|n IH]; intros s; cbn [init_parked]; [auto|].
  case_bool_decide; [auto|].
  destruct (create_parked_car (parking_manager s) (rng s)) as [[[car pm] r]|]; [|auto].
  destruct (IH (place_parked_car s car pm r)) as (H1 & H2 & H3 & H4).
  rewrite H1, H2, H3, H4. auto.
Qed.

Lemma cap_initial_active_zero cfg total :
  initial_active_cars cfg = 0 ->
  initial_active_cars (cap_initial_active cfg total) = 0 /\
  arrival_lambda (cap_initial_active cfg total) = arrival_lambda cfg.
Proof.
  intros H0. unfold cap_initial_active.
  destruct (_ >? total); [|auto].
  destruct (initial_active_cars cfg >? _) eqn:E; [|auto].
  rewrite H0 in E. apply Z.gtb_lt in E. lia.
Qed.

(** C8 (as stated) fails: with [arrival_lambda = 0] and one parked car only,
    [run()] returns with [final_time] 1, not 0: the loop steps before it
    tests the active set. *)
Lemma run_parked_only_counterexample :
  exists s, run 10 (demo_sim demo_config_parked_only (constant_rng 0)) = Done s /\
            final_time s = 1 /\ final_time s <> 0.
Proof. eexists. split; [vm_compute; reflexivity|]. split; [reflexivity|discriminate]. Qed.

(** C8 (amended): for every configuration with [arrival_lambda = 0] and no
    initial active cars, [run()] performs exactly one [step()] and returns
    with [final_time] 1. *)
Theorem run_parked_only_stops_after_one_step
    (g : Grid) (pm : ParkingManager) (planner : PriorityPlanner) (cfg : SimulationConfig)
    (r : RNG) (fuel : nat) :
  Qeq_bool (arrival_lambda cfg) 0 = true ->
  initial_active_cars cfg = 0 ->
  exists s s',
    step (new_simulation g pm planner cfg r) = Done s' /\
    run (S fuel) (new_simulation g pm planner cfg r) = Done s /\
    s = s' /\ final_time s = 1.
Proof.
  intros Hl H0.
  destruct (cap_initial_active_zero cfg (Z.of_nat (length (parking_cells pm))) H0)
    as [Hc0 Hcl].
  set (s0 := new_simulation g pm planner cfg r).
  assert (Hs0 : active_cars s0 = [] /\ waiting_active_cars s0 = [] /\ time s0 = 0 /\
                arrival_lambda (config s0) = arrival_lambda cfg).
  { unfold s0, new_simulation. cbv zeta. rewrite Hc0.
    change (Z.to_nat 0) with O. cbn [init_active].
    pose proof (init_parked_frame
                  (Z.to_nat (initial_parked_cars
                               (cap_initial_active cfg (Z.of_nat (length (parking_cells pm))))))
                  {| grid := g; parking_manager := pm; priority_planner := planner;
                     config := cap_initial_active cfg (Z.of_nat (length (parking_cells pm)));
                     time := 0; active_cars := []; car_positions := []; all_cars := ∅;
                     exited_car_ids := ∅; cars_pending_removal := ∅;
                     waiting_active_cars := []; arriving_cars_created := 0;
                     metrics := no_metrics; rng := r |}) as (H1 & H2 & H3 & H4).
    rewrite H1, H2, H3, H4. cbn [active_cars waiting_active_cars time config]. auto. }
  destruct Hs0 as (Ha & Hw & Ht & Hlam).
  destruct (step_idle s0 Ha Hw) as (s' & Hstep & Ha' & Ht' & Hc'); [rewrite Hlam; exact Hl|].
  exists s', s'. split; [exact Hstep|]. split; [|split; [reflexivity|]].
  - cbn [run]. rewrite Hstep, Ha'.
    destruct (arriving_cars_created s' >=? max_arriving_cars (config s')); [reflexivity|].
    rewrite Hc', Hlam, Hl. reflexivity.
  - unfold final_time. rewrite Ht', Ht. reflexivity.
Qed.

Lemma run_parked_only_stops_after_one_step_witness :
  exists s s',
    step (demo_sim demo_config_parked_only (constant_rng 0)) = Done s' /\
    run 10 (demo_sim demo_config_parked_only (constant_rng 0)) = Done s /\
    s = s' /\ final_time s = 1.
Proof.
  apply (run_parked_only_stops_after_one_step demo_lot
           (new_parking_manager demo_parking demo_exits demo_entries) demo_planner
           demo_config_parked_only (constant_rng 0) 9).
  - reflexivity.
  - reflexivity.
Defined.


(** * The books of the scheduler *)

(** ** More on dictionaries *)

Lemma dict_set_same {V : Type} (d : list (nat * V)) k v :
  dict_get d k = Some v -> dict_set d k v = d.
Proof.
  induction d as [|[k' v'] d IH]; simpl; [discriminate|].
  destruct (decide (k' = k)) as [->|Hne].
  - intros [= ->]. reflexivity.
  - intros H. rewrite IH by exact H. reflexivity.
Qed.

Lemma dict_get_values {V : Type} (d : list (nat * V)) k v :
  dict_get d k = Some v -> v ∈ dict_values d.
Proof.
  intros H. apply dict_get_Some_elem in H. unfold dict_values.
  apply list_elem_of_fmap. exists (k, v). auto.
Qed.

Lemma dict_values_get {V : Type} (d : list (nat * V)) v :
  NoDup (dict_keys d) -> v ∈ dict_values d -> exists k, dict_get d k = Some v.
Proof.
  intros Hnd H. unfold dict_values in H. apply list_elem_of_fmap in H as ([k v'] & -> & Hin).
  exists k. apply dict_elem_get; assumption.
Qed.

Lemma injective_set (d : Moves) k v :
  positions_injective d ->
  (forall k', dict_get d k' = Some v -> k' = k) ->
  positions_injective (dict_set d k v).
Proof.
  intros Hinj Hv a b p. rewrite !dict_get_set.
  destruct (decide (k = a)) as [<-|Ha]; destruct (decide (k = b)) as [<-|Hb]; auto.
  - intros [= <-] H. symmetry. auto.
  - intros H [= <-]. auto.
  - apply Hinj.
Qed.

Lemma injective_del (d : Moves) k :
  positions_injective d -> positions_injective (dict_del d k).
Proof.
  intros Hinj a b p Ha Hb.
  destruct (decide (k = a)) as [<-|Hna]; [rewrite dict_get_del_eq in Ha; discriminate|].
  destruct (decide (k = b)) as [<-|Hnb]; [rewrite dict_get_del_eq in Hb; discriminate|].
  rewrite dict_get_del_ne in Ha, Hb by assumption. eauto.
Qed.

(** ** Lists of ids *)

Lemma activate_elem l id x : x ∈ activate l id <-> x = id \/ x ∈ l.
Proof.
  unfold activate. case_bool_decide as H.
  - split; [auto|]. intros [->|?]; auto.
  - rewrite elem_of_app, list_elem_of_singleton. tauto.
Qed.

Lemma activate_present l id : id ∈ l -> activate l id = l.
Proof. intros H. unfold activate. rewrite bool_decide_eq_true_2; auto. Qed.

Lemma activate_NoDup l id : NoDup l -> NoDup (activate l id).
Proof.
  intros Hnd. unfold activate. case_bool_decide as H; [exact Hnd|].
  apply NoDup_app. split; [exact Hnd|]. split; [|apply NoDup_singleton].
  intros x Hx Hx'. apply list_elem_of_singleton in Hx'. subst. contradiction.
Qed.

Lemma remove_id_elem l id x : x ∈ remove_id l id <-> x ∈ l /\ x <> id.
Proof. unfold remove_id. rewrite list_elem_of_filter. tauto. Qed.

Lemma remove_id_NoDup l id : NoDup l -> NoDup (remove_id l id).
Proof. apply NoDup_filter. Qed.

Lemma remove_first_id_elem l id x : x ∈ remove_first_id l id -> x ∈ l.
Proof.
  induction l as [|i l IH]; cbn [remove_first_id]; [auto|].
  destruct (decide (i = id)); [right; assumption|].
  intros H. apply elem_of_cons in H as [-> |H]; [left|right; auto].
Qed.

Lemma remove_id_absent l id : id ∉ l -> remove_id l id = l.
Proof.
  unfold remove_id. induction l as [|i l IH]; intros Hnin; [reflexivity|].
  apply not_elem_of_cons in Hnin as [Hne Hnin].
  rewrite (filter_cons (fun k : nat => k <> id)).
  rewrite decide_True by congruence. rewrite IH by exact Hnin. reflexivity.
Qed.

Lemma remove_first_id_NoDup l id : NoDup l -> remove_first_id l id = remove_id l id.
Proof.
  induction l as [|i l IH]; intros Hnd; cbn [remove_first_id]; [reflexivity|].
  apply NoDup_cons in Hnd as [Hnin Hnd]. unfold remove_id in *.
  rewrite (filter_cons (fun k : nat => k <> id)).
  destruct (decide (i = id)) as [-> |Hne].
  - rewrite decide_False by (intros H; apply H; reflexivity).
    symmetry. apply (remove_id_absent l id Hnin).
  - rewrite decide_True by exact Hne. rewrite IH by exact Hnd. reflexivity.
Qed.

Lemma insert_sorted_elem key x l y : y ∈ insert_sorted key x l <-> y = x \/ y ∈ l.
Proof.
  induction l as [|z l IH]; simpl.
  - rewrite list_elem_of_singleton. split; [auto|]. intros [?|H]; [auto|inversion H].
  - destruct (key_le (key x) (key z)).
    + rewrite !elem_of_cons. tauto.
    + rewrite !elem_of_cons, IH. tauto.
Qed.

Lemma stable_sort_elem key l y : y ∈ stable_sort key l <-> y ∈ l.
Proof.
  unfold stable_sort. induction l as [|x l IH]; simpl; [reflexivity|].
  rewrite insert_sorted_elem, IH, elem_of_cons. reflexivity.
Qed.

(** ** Cars *)

Lemma peek_no_path c t : path c = [] -> peek_at_next_step c t = None.
Proof.
  intros H. unfold peek_at_next_step. rewrite H. rewrite drop_nil. reflexivity.
Qed.

(** [step] goes where [peek_at_next_step] said, and nowhere else. *)
Lemma car_step_spec c t :
  car_id (car_step c t).2 = car_id c /\
  _position (car_step c t).2 = default (_position c) (peek_at_next_step c t) /\
  (forall q, (car_step c t).1 = Some q -> q = _position (car_step c t).2) /\
  path (car_step c t).2 = path c /\
  goal (car_step c t).2 = goal c /\
  intent (car_step c t).2 = intent c.
Proof.
  unfold car_step, peek_at_next_step.
  set (idx := fast_forward (drop (current_step c) (path c)) (current_step c) (t + 1)).
  destruct (path c !! idx) as [[[x y] t']|].
  - destruct (t' =? t + 1).
    + simpl. repeat split; auto. intros q [= <-]. reflexivity.
    + destruct (t' >? t + 1).
      * simpl. repeat split; auto. intros q [= <-]. reflexivity.
      * destruct (has_path _ && _); simpl; repeat split; auto; try discriminate.
        intros q [= <-]. reflexivity.
  - destruct (has_path _ && _); simpl; repeat split; auto; try discriminate.
    intros q [= <-]. reflexivity.
Qed.

Lemma no_path_not_has_path c : path c = [] -> has_path c = false.
Proof. intros H. unfold has_path. rewrite H. reflexivity. Qed.


(** ** What each operation does to the books *)

Ltac sim_simpl :=
  cbn [grid parking_manager priority_planner config time active_cars car_positions all_cars
       exited_car_ids cars_pending_removal waiting_active_cars arriving_cars_created metrics rng
       with_parking_manager with_table with_config with_time with_active_cars
       with_car_positions with_all_cars with_exited with_waiting with_created with_metrics
       with_rng store_car books table fst snd
       car_id start goal intent path current_step _position last_plan_fail_time
       plan_fail_count blocked_count spawn_time is_initial
       set_goal set_intent set_route set_position set_last_plan_fail_time
       set_plan_fail_count set_blocked_count set_origin set_path clear_path current_position
       new_car
       parking_cells exit_cells entry_cells free_spots assigned_spots occupied_spots
       next_car_id set_slots bump_car_id] in *.

Lemma same_car_refl c : same_car c c.
Proof. split; reflexivity. Qed.

Lemma same_car_trans c1 c2 c3 : same_car c1 c2 -> same_car c2 c3 -> same_car c1 c3.
Proof. intros [H1 H2] [H3 H4]. split; congruence. Qed.

Lemma release_next_car_id pm id :
  next_car_id (release_assigned_spot pm id) = next_car_id pm.
Proof. unfold release_assigned_spot. destruct (assigned_spots pm !! id); reflexivity. Qed.

Lemma assign_goal_next_car_id pm car :
  next_car_id (assign_goal pm car).2 = next_car_id pm.
Proof.
  unfold assign_goal, choose_free_parking_spot.
  repeat case_bool_decide; try reflexivity.
  destruct (elements (free_spots pm)); reflexivity.
Qed.

Lemma rerandomize_exit_effect count s car :
  books (rerandomize_exit count s car).2 = books s /\
  all_cars (rerandomize_exit count s car).2 = all_cars s /\
  same_car car (rerandomize_exit count s car).1.
Proof.
  unfold rerandomize_exit. destruct (_ && _); [|repeat split].
  destruct (elements _) as [|x xs]; [repeat split|].
  destruct (random_choice x xs (rng s)) as [g r]. repeat split.
Qed.

Lemma drop_slot_effect cond s car :
  books (drop_slot cond s car).2 = books s /\
  all_cars (drop_slot cond s car).2 = all_cars s /\
  same_car car (drop_slot cond s car).1.
Proof.
  unfold drop_slot. destruct (_ && _); [|repeat split].
  unfold books. sim_simpl. rewrite release_next_car_id. repeat split.
Qed.

Lemma give_up_parking_effect count s car :
  books (give_up_parking count s car).2 = books s /\
  all_cars (give_up_parking count s car).2 = all_cars s /\
  same_car car (give_up_parking count s car).1.
Proof.
  unfold give_up_parking. destruct (_ && _); [|repeat split].
  pose proof (assign_goal_next_car_id
                (release_assigned_spot (parking_manager s) (car_id car))
                (set_intent car (Some "EXIT"%string))) as Hn.
  destruct (assign_goal _ _) as [g pm2]. unfold books. sim_simpl.
  rewrite Hn, release_next_car_id. repeat split.
Qed.

Lemma escalation_policy_effect count s car :
  books (escalation_policy count s car).2 = books s /\
  all_cars (escalation_policy count s car).2 = all_cars s /\
  same_car car (escalation_policy count s car).1.
Proof.
  unfold escalation_policy.
  pose proof (rerandomize_exit_effect count s car) as (B1 & H1 & C1).
  destruct (rerandomize_exit count s car) as [car1 s1]. sim_simpl.
  pose proof (drop_slot_effect (count mod 3 =? 0) s1 car1) as (B2 & H2 & C2).
  destruct (drop_slot _ s1 car1) as [car2 s2]. sim_simpl.
  pose proof (give_up_parking_effect count s2 car2) as (B3 & H3 & C3).
  split; [congruence|]. split; [congruence|].
  eapply same_car_trans; [exact C1|]. eapply same_car_trans; eassumption.
Qed.

Lemma new_car_failure_escalation_effect s car :
  books (new_car_failure_escalation s car).2 = books s /\
  all_cars (new_car_failure_escalation s car).2 = all_cars s /\
  same_car car (new_car_failure_escalation s car).1.
Proof.
  unfold new_car_failure_escalation.
  pose proof (rerandomize_exit_effect (plan_fail_count car) s car) as (B1 & H1 & C1).
  destruct (rerandomize_exit _ s car) as [car1 s1]. sim_simpl.
  pose proof (drop_slot_effect (plan_fail_count car1 >=? 3) s1 car1) as (B2 & H2 & C2).
  destruct (drop_slot _ s1 car1) as [car2 s2]. sim_simpl.
  pose proof (give_up_parking_effect (plan_fail_count car2) s2 car2) as (B3 & H3 & C3).
  split; [congruence|]. split; [congruence|].
  eapply same_car_trans; [exact C1|]. eapply same_car_trans; eassumption.
Qed.

Lemma block_escalation_effect s car :
  books (block_escalation s car).2 = books s /\
  all_cars (block_escalation s car).2 = all_cars s /\
  same_car car (block_escalation s car).1.
Proof.
  unfold block_escalation.
  pose proof (drop_slot_effect (blocked_count car mod 3 =? 0) s car) as (B2 & H2 & C2).
  destruct (drop_slot _ s car) as [car1 s1]. sim_simpl.
  pose proof (give_up_parking_effect (blocked_count car1) s1 car1) as (B3 & H3 & C3).
  split; [congruence|]. split; [congruence|].
  eapply same_car_trans; eassumption.
Qed.

Lemma plan_for_car_same g rt h car t obs p :
  same_car car (plan_for_car g rt h car t obs p).1.2.
Proof.
  unfold plan_for_car. destruct (goal car); [|apply same_car_refl].
  destruct (single_agent_a_star _ _ _ _ _ _ _ _ _) as [[pth|]| |]; try apply same_car_refl.
  split; reflexivity.
Qed.

Lemma sim_plan_for_car_effect s car t obs p :
  books (sim_plan_for_car s car t obs p).2 = books s /\
  all_cars (sim_plan_for_car s car t obs p).2
    = <[ car_id car := (sim_plan_for_car s car t obs p).1.2 ]> (all_cars s) /\
  same_car car (sim_plan_for_car s car t obs p).1.2.
Proof.
  unfold sim_plan_for_car.
  pose proof (plan_for_car_same (planner_grid (priority_planner s)) (table s)
                (planner_horizon (priority_planner s)) car t obs p) as Hc.
  destruct (plan_for_car _ _ _ car t obs p) as [[ok car'] rt']. sim_simpl.
  destruct Hc as [Hid Hpos]. rewrite Hid. repeat split; assumption.
Qed.


Lemma handle_new_car_effect s car t :
  active_cars (_handle_new_car s car t) = activate (active_cars s) (car_id car) /\
  car_positions (_handle_new_car s car t)
    = dict_set (car_positions s) (car_id car) (current_position car) /\
  cars_pending_removal (_handle_new_car s car t) = cars_pending_removal s /\
  waiting_active_cars (_handle_new_car s car t) = waiting_active_cars s /\
  time (_handle_new_car s car t) = time s /\
  next_car_id (parking_manager (_handle_new_car s car t)) = next_car_id (parking_manager s) /\
  exists c', all_cars (_handle_new_car s car t) = <[ car_id car := c' ]> (all_cars s) /\
             same_car car c'.
Proof.
  unfold _handle_new_car. cbv zeta. sim_simpl.
  pose proof (assign_goal_next_car_id (parking_manager s) car) as Hn.
  destruct (assign_goal (parking_manager s) car) as [g pm]. sim_simpl.
  destruct g as [g|].
  2: { sim_simpl. rewrite insert_insert_eq. repeat split; auto.
       eexists. split; [reflexivity|]. split; reflexivity. }
  match goal with |- context [sim_plan_for_car ?s0 ?c0 ?t0 ?o0 ?p0] =>
    pose proof (sim_plan_for_car_effect s0 c0 t0 o0 p0) as (B & H & C);
    destruct (sim_plan_for_car s0 c0 t0 o0 p0) as [[ok car2] s3]
  end.
  unfold books in B. sim_simpl. inversion B as [[Ba Bp Bpe Bw Bt Bn]]. clear B.
  rewrite !insert_insert_eq in H.
  destruct ok.
  - sim_simpl. rewrite H, Ba, Bp, Bpe, Bw, Bt, Bn. destruct C as [C1 C2]. sim_simpl.
    rewrite C1, insert_insert_eq. repeat split; auto.
    eexists. split; [reflexivity|]. split; sim_simpl; assumption.
  - match goal with |- context [new_car_failure_escalation ?s0 ?c0] =>
      pose proof (new_car_failure_escalation_effect s0 c0) as (B' & H' & C');
      destruct (new_car_failure_escalation s0 c0) as [car4 s5]
    end.
    unfold books in B'. sim_simpl. inversion B' as [[Ba' Bp' Bpe' Bw' Bt' Bn']]. clear B'.
    rewrite H', H, Ba', Bp', Bpe', Bw', Bt', Bn', Ba, Bp, Bpe, Bw, Bt, Bn.
    destruct C as [C1 C2], C' as [C1' C2']. sim_simpl.
    rewrite C1', C1, insert_insert_eq. repeat split; auto.
    eexists. split; [reflexivity|]. split; sim_simpl; congruence.
Qed.

Lemma plan_car_effect s id car :
  all_cars s !! id = Some car -> car_id car = id ->
  books (plan_car s id) = books s /\
  exists c', all_cars (plan_car s id) = <[ id := c' ]> (all_cars s) /\ same_car car c'.
Proof.
  intros Hcar Hid. unfold plan_car. rewrite Hcar.
  assert (Hkeep : forall c', c' = car -> all_cars s = <[ id := c' ]> (all_cars s)).
  { intros c' ->. symmetry. apply insert_id. exact Hcar. }
  pose proof (assign_goal_next_car_id (parking_manager s) car) as Hn.
  set (st := if has_goal car then (car, s)
             else let '(g, pm) := assign_goal (parking_manager s) car in
                  (set_goal car g, store_car (with_parking_manager s pm) (set_goal car g))).
  assert (Hst : books st.2 = books s /\ all_cars st.2 = <[ id := st.1 ]> (all_cars s) /\
                same_car car st.1).
  { unfold st. destruct (has_goal car).
    - sim_simpl. split; [reflexivity|]. split; [auto|apply same_car_refl].
    - destruct (assign_goal (parking_manager s) car) as [g pm]. unfold books. sim_simpl.
      rewrite Hn, Hid. repeat split. }
  destruct st as [car1 s1]. sim_simpl. destruct Hst as (B1 & H1 & C1).
  destruct (has_goal car1); sim_simpl.
  2: { split; [exact B1|]. eauto. }
  destruct (random_randint 10 30 (rng s1)) as [persistence r].
  match goal with |- context [sim_plan_for_car ?s0 ?c0 ?t0 ?o0 ?p0] =>
    pose proof (sim_plan_for_car_effect s0 c0 t0 o0 p0) as (B & H & C);
    destruct (sim_plan_for_car s0 c0 t0 o0 p0) as [[ok car2] s3]
  end.
  sim_simpl.
  assert (B2 : books s3 = books s) by (rewrite B; unfold books in *; sim_simpl; exact B1).
  assert (Hid1 : car_id car1 = id) by (destruct C1; congruence).
  rewrite H1, Hid1, insert_insert_eq in H.
  destruct ok; cbn [negb]; sim_simpl.
  - unfold books in *. sim_simpl. split; [exact B2|].
    destruct C as [Ca Cb]. rewrite H, Ca, Hid1, insert_insert_eq.
    eexists. split; [reflexivity|]. destruct C1. split; sim_simpl; congruence.
  - match goal with |- context [plan_failure_escalation ?s0 ?c0] =>
      pose proof (escalation_policy_effect (plan_fail_count c0) s0 c0) as (B' & H' & C');
      unfold plan_failure_escalation;
      destruct (escalation_policy (plan_fail_count c0) s0 c0) as [car4 s4]
    end.
    sim_simpl. unfold books in *. sim_simpl. split; [congruence|].
    destruct C as [Ca Cb], C' as [Ca' Cb'], C1 as [Cc Cd]. sim_simpl.
    rewrite H', H, Ca', Ca, Hid1, insert_insert_eq.
    eexists. split; [reflexivity|]. split; sim_simpl; congruence.
Qed.


Lemma arrive_moved_effect s car pos :
  car_positions (arrive_moved s car pos) = car_positions s /\
  waiting_active_cars (arrive_moved s car pos) = waiting_active_cars s /\
  time (arrive_moved s car pos) = time s /\
  next_car_id (parking_manager (arrive_moved s car pos)) = next_car_id (parking_manager s) /\
  (exists c', all_cars (arrive_moved s car pos) = <[ car_id car := c' ]> (all_cars s) /\
              same_car car c') /\
  active_cars (arrive_moved s car pos) = remove_id (active_cars s) (car_id car) /\
  (cars_pending_removal (arrive_moved s car pos) = cars_pending_removal s \/
   cars_pending_removal (arrive_moved s car pos) = {[ car_id car ]} ∪ cars_pending_removal s).
Proof.
  unfold arrive_moved. cbv zeta.
  destruct (bool_decide (intent car = Some "PARK"%string)); sim_simpl.
  - repeat split; auto. eexists. split; [reflexivity|split; reflexivity].
  - destruct (bool_decide (intent car = Some "EXIT"%string)); sim_simpl.
    + repeat split; auto. eexists. split; [reflexivity|split; reflexivity].
    + repeat split; auto. eexists. split; [reflexivity|split; reflexivity].
Qed.

Lemma arrive_standing_effect s car pos :
  car_positions (arrive_standing s car pos) = car_positions s /\
  waiting_active_cars (arrive_standing s car pos) = waiting_active_cars s /\
  time (arrive_standing s car pos) = time s /\
  next_car_id (parking_manager (arrive_standing s car pos)) = next_car_id (parking_manager s) /\
  (exists c', all_cars (arrive_standing s car pos) = <[ car_id car := c' ]> (all_cars s) /\
              same_car car c') /\
  active_cars (arrive_standing s car pos) = remove_id (active_cars s) (car_id car) /\
  (cars_pending_removal (arrive_standing s car pos) = cars_pending_removal s \/
   cars_pending_removal (arrive_standing s car pos)
     = {[ car_id car ]} ∪ cars_pending_removal s).
Proof.
  unfold arrive_standing. cbv zeta.
  destruct (bool_decide (intent car = Some "PARK"%string)); sim_simpl.
  - repeat split; auto. eexists. split; [reflexivity|split; reflexivity].
  - destruct (bool_decide (intent car = Some "EXIT"%string)); sim_simpl.
    + repeat split; auto. eexists. split; [reflexivity|split; reflexivity].
    + repeat split; auto. eexists. split; [reflexivity|split; reflexivity].
Qed.

Lemma cancel_plan_same rt car : same_car car (cancel_plan rt car).1.
Proof. unfold cancel_plan. destruct (has_path car); split; reflexivity. Qed.

(** One turn of the commit loop: the car's published position becomes its
    final move, its object follows, and it may leave the active set. *)
Lemma commit_car_effect am im s id car final :
  all_cars s !! id = Some car -> car_id car = id ->
  dict_get am id = Some final ->
  dict_get im id = Some (default (current_position car) (peek_at_next_step car (time s))) ->
  final = current_position car \/
    final = default (current_position car) (peek_at_next_step car (time s)) ->
  dict_get (car_positions s) id = Some (current_position car) ->
  car_positions (commit_car am im s id) = dict_set (car_positions s) id final /\
  waiting_active_cars (commit_car am im s id) = waiting_active_cars s /\
  time (commit_car am im s id) = time s /\
  next_car_id (parking_manager (commit_car am im s id)) = next_car_id (parking_manager s) /\
  (exists c', all_cars (commit_car am im s id) = <[ id := c' ]> (all_cars s) /\
              car_id c' = id /\ current_position c' = final /\ (path car = [] -> c' = car)) /\
  ((active_cars (commit_car am im s id) = active_cars s /\
    cars_pending_removal (commit_car am im s id) = cars_pending_removal s) \/
   (active_cars (commit_car am im s id) = remove_id (active_cars s) id /\
    (cars_pending_removal (commit_car am im s id) = cars_pending_removal s \/
     cars_pending_removal (commit_car am im s id) = {[ id ]} ∪ cars_pending_removal s))).
Proof.
  intros Hcar Hid Ham Him Hfinal Hpos.
  unfold commit_car. rewrite Hcar, Ham, Him. cbv zeta.
  unfold current_position in *.
  destruct (car_step_spec car (time s)) as (Sid & Spos & Sret & Spath & _).
  case_bool_decide as Hmove.
  - (* the car moves *)
    destruct Hfinal as [Hfinal|Hfinal]; [contradiction|].
    assert (Hnp : path car <> []).
    { intros Hp. rewrite (peek_no_path car (time s) Hp) in Hfinal. contradiction. }
    set (car1 := set_blocked_count (car_step car (time s)).2 0).
    assert (H1 : car_id car1 = id) by (unfold car1; sim_simpl; congruence).
    assert (H2 : current_position car1 = final).
    { unfold car1, current_position. sim_simpl. rewrite Spos. symmetry. exact Hfinal. }
    case_bool_decide as Hgoal.
    + destruct (arrive_moved_effect
                  (store_car (with_car_positions s (dict_set (car_positions s) id final)) car1)
                  car1 final) as (E1 & E2 & E3 & E4 & (c' & E5 & E5') & E6 & E7).
      rewrite E1, E2, E3, E4, E5, E6. sim_simpl. rewrite H1, insert_insert_eq.
      split; [reflexivity|]. split; [reflexivity|]. split; [reflexivity|].
      split; [reflexivity|]. split.
      * exists c'. split; [reflexivity|]. destruct E5' as [Ea Eb].
        split; [congruence|]. split; [unfold current_position in *; congruence|].
        intros Hp. contradiction.
      * right. split; [reflexivity|]. rewrite H1 in E7. exact E7.
    + sim_simpl. rewrite H1. repeat split; auto.
      exists car1. split; [reflexivity|]. split; [exact H1|]. split; [exact H2|].
      intros Hp. contradiction.
  - (* the car stays *)
    assert (Hfin : final = current_position car) by (destruct (decide (final = current_position car)); tauto).
    subst final. rewrite (dict_set_same _ _ _ Hpos).
    case_bool_decide as Hwant.
    + (* it wanted to move: blocked *)
      assert (Hnp : path car <> []).
      { intros Hp. rewrite (peek_no_path car (time s) Hp) in Hwant. apply Hwant. reflexivity. }
      pose proof (cancel_plan_same (table s) car) as [Ca Cb].
      destruct (cancel_plan (table s) car) as [car1 rt]. sim_simpl.
      match goal with |- context [block_escalation ?s0 ?c0] =>
        pose proof (block_escalation_effect s0 c0) as (B' & H' & [Cc Cd]);
        destruct (block_escalation s0 c0) as [car3 s1]
      end.
      unfold books in B'. sim_simpl. inversion B' as [[Ba Bp Bpe Bw Bt Bn]]. clear B'.
      rewrite Ba, Bp, Bpe, Bw, Bt, Bn, H'.
      assert (H3 : car_id car3 = id) by congruence. rewrite H3.
      repeat split; auto.
      exists car3. split; [reflexivity|]. split; [exact H3|].
      split; [unfold current_position; congruence|]. intros Hp. contradiction.
    + (* it wanted to stay *)
      assert (Hin : default (current_position car) (peek_at_next_step car (time s))
                    = current_position car)
        by (destruct (decide (default (current_position car)
                                (peek_at_next_step car (time s)) = current_position car));
            tauto).
      set (st := if has_path car then
                   let '(stepped_pos, car') := car_step car (time s) in
                   (car',
                    match stepped_pos with
                    | Some p => store_car (with_car_positions s
                                             (dict_set (car_positions s) id p)) car'
                    | None => store_car s car'
                    end)
                 else (car, s)).
      assert (Hst : car_positions st.2 = car_positions s /\
                    waiting_active_cars st.2 = waiting_active_cars s /\
                    time st.2 = time s /\
                    next_car_id (parking_manager st.2) = next_car_id (parking_manager s) /\
                    all_cars st.2 = <[ id := st.1 ]> (all_cars s) /\
                    car_id st.1 = id /\ current_position st.1 = current_position car /\
                    active_cars st.2 = active_cars s /\
                    cars_pending_removal st.2 = cars_pending_removal s /\
                    (path car = [] -> st = (car, s))).
      { unfold st. destruct (has_path car) eqn:Hhp.
        - destruct (car_step car (time s)) as [stepped car'] eqn:Estep. sim_simpl.
          assert (Hc' : current_position car' = current_position car).
          { unfold current_position. rewrite Spos. exact Hin. }
          assert (Hnp : path car <> []).
          { intros Hp. rewrite (no_path_not_has_path car Hp) in Hhp. discriminate. }
          destruct stepped as [p|]; sim_simpl.
          + assert (p = _position car') by (apply Sret; reflexivity). subst p.
            unfold current_position in Hc'. rewrite Hc', (dict_set_same _ _ _ Hpos), Sid, Hid.
            repeat split; auto. intros Hp. contradiction.
          + rewrite Sid, Hid. repeat split; auto. intros Hp. contradiction.
        - sim_simpl. repeat split; auto. symmetry. apply insert_id. exact Hcar. }
      destruct st as [car1 s1]. sim_simpl.
      destruct Hst as (T1 & T2 & T3 & T4 & T5 & T6 & T7 & T8 & T9 & T10).
      destruct (is_finished car1 && has_path car1) eqn:Hfh.
      * assert (Hnp : path car <> []).
        { intros Hp. specialize (T10 Hp). inversion T10; subst car1.
          rewrite (no_path_not_has_path car Hp), andb_false_r in Hfh. discriminate. }
        case_bool_decide as Hgoal.
        -- destruct (arrive_standing_effect s1 car1 (_position car))
             as (E1 & E2 & E3 & E4 & (c' & E5 & [Ea Eb]) & E6 & E7).
           rewrite E1, E2, E3, E4, E5, E6, T1, T2, T3, T4, T5, T6, T8, insert_insert_eq.
           repeat split; auto.
           ++ exists c'. split; [reflexivity|]. split; [congruence|].
              split; [unfold current_position in *; congruence|]. intros Hp. contradiction.
           ++ right. split; [reflexivity|]. rewrite T6, T9 in E7. exact E7.
        -- sim_simpl. rewrite T1, T2, T3, T4, T5, T6, T8, T9, insert_insert_eq.
           repeat split; auto.
           exists (clear_path car1). split; [reflexivity|]. split; [exact T6|].
           split; [exact T7|]. intros Hp. contradiction.
      * rewrite T1, T2, T3, T4, T5, T8, T9. repeat split; auto.
        exists car1. split; [reflexivity|]. split; [exact T6|]. split; [exact T7|].
        intros Hp. specialize (T10 Hp). inversion T10. reflexivity.
Qed.


(** ** Planning leaves the books alone *)

Lemma books_fields s s' :
  books s' = books s ->
  active_cars s' = active_cars s /\ car_positions s' = car_positions s /\
  cars_pending_removal s' = cars_pending_removal s /\
  waiting_active_cars s' = waiting_active_cars s /\ time s' = time s /\
  next_car_id (parking_manager s') = next_car_id (parking_manager s).
Proof. unfold books. intros [= -> -> -> -> -> ->]. repeat split. Qed.

(** A car object is replaced by the same car with other plans. *)
Lemma store_ok_update s s' id c c' :
  store_ok s -> books s' = books s ->
  all_cars s' = <[ id := c' ]> (all_cars s) ->
  all_cars s !! id = Some c -> same_car c c' ->
  id ∉ waiting_active_cars s \/ c' = c ->
  store_ok s'.
Proof.
  intros Hok Hb Hh Hc [Cid Cpos] Hw.
  apply books_fields in Hb as (Ba & Bp & Bpe & Bw & Bt & Bn).
  assert (Hcid : car_id c = id) by (apply (so_heap s Hok id c Hc)).
  constructor.
  - rewrite Bp. apply (so_keys s Hok).
  - rewrite Ba. apply (so_active_nodup s Hok).
  - intros i ci. rewrite Hh, lookup_insert. destruct (decide (id = i)) as [<- |Hne].
    + intros [= <-]. congruence.
    + apply (so_heap s Hok).
  - intros i Hi. rewrite Ba in Hi. destruct (so_active s Hok i Hi) as (ci & Hci & Hpi).
    rewrite Hh, Bp, lookup_insert. destruct (decide (id = i)) as [<- |Hne].
    + exists c'. split; [reflexivity|]. rewrite Hc in Hci. inversion Hci; subst ci.
      unfold current_position in *. rewrite Cpos. exact Hpi.
    + exists ci. auto.
  - intros i. rewrite Ba, Bpe. apply (so_pending s Hok).
  - intros i. rewrite Ba, Bpe, Bn. apply (so_fresh s Hok).
  - intros i. rewrite Bw, Ba. intros Hi. destruct (so_waiting s Hok i Hi) as (Hia & ci & Hci & Hpi).
    split; [exact Hia|]. rewrite Hh, lookup_insert. destruct (decide (id = i)) as [<- |Hne].
    + destruct Hw as [Hw| ->]; [contradiction|]. exists c. split; [reflexivity|].
      rewrite Hc in Hci. inversion Hci. subst. exact Hpi.
    + exists ci. auto.
  - rewrite Bw. apply (so_waiting_nodup s Hok).
Qed.

Lemma plan_car_store_ok s id :
  store_ok s -> id ∈ active_cars s -> id ∉ waiting_active_cars s ->
  store_ok (plan_car s id) /\ books (plan_car s id) = books s.
Proof.
  intros Hok Hid Hw. destruct (so_active s Hok id Hid) as (car & Hcar & _).
  destruct (plan_car_effect s id car Hcar (so_heap s Hok id car Hcar)) as (Hb & c' & Hh & Hc).
  split; [|exact Hb]. eapply store_ok_update; eauto.
Qed.

(** The planning loop keeps the books in order, and with them any
    property [Q] that one turn keeps. *)
Section PlanPhase.
Variable Q : SimulationCore -> Prop.
Hypothesis Q_plan : forall s id,
  store_ok s -> Q s -> id ∈ active_cars s -> id ∉ waiting_active_cars s ->
  Q (plan_car s id).

Lemma plan_cars_inv ids : forall s,
  store_ok s -> Q s ->
  (forall id, id ∈ ids -> id ∈ active_cars s /\ id ∉ waiting_active_cars s) ->
  store_ok (fold_left plan_car ids s) /\ Q (fold_left plan_car ids s) /\
  books (fold_left plan_car ids s) = books s.
Proof.
  induction ids as [|id ids IH]; intros s Hok HQ Hids; cbn [fold_left]; [auto|].
  destruct (Hids id) as [Hia Hiw]; [left|].
  destruct (plan_car_store_ok s id Hok Hia Hiw) as [Hok' Hb].
  destruct (IH (plan_car s id) Hok') as (Hok'' & HQ'' & Hb').
  - apply Q_plan; assumption.
  - intros i Hi. apply books_fields in Hb as (Ba & _ & _ & Bw & _).
    rewrite Ba, Bw. apply Hids. right. exact Hi.
  - split; [exact Hok''|]. split; [exact HQ''|congruence].
Qed.

Lemma plan_phase_inv s :
  store_ok s -> Q s ->
  store_ok (plan_phase s) /\ Q (plan_phase s) /\ books (plan_phase s) = books s.
Proof.
  intros Hok HQ. unfold plan_phase. apply plan_cars_inv; [exact Hok|exact HQ|].
  intros id Hid. apply stable_sort_elem in Hid. unfold cars_needing_plan in Hid.
  apply list_elem_of_filter in Hid as [Hn Hid]. split; [exact Hid|].
  unfold needs_plan in Hn. apply andb_true_iff in Hn as [Hn _].
  apply negb_true_iff, bool_decide_eq_false in Hn. exact Hn.
Qed.
End PlanPhase.

(** ** Intended moves *)

Lemma intended_active_get (s : SimulationCore) (ids : list nat) : forall (acc : Moves) id,
  dict_get
    (fold_left
       (fun im id =>
          match all_cars s !! id with
          | Some car =>
              dict_set im id (default (current_position car) (peek_at_next_step car (time s)))
          | None => im
          end) ids acc) id
  = if bool_decide (id ∈ ids /\ is_Some (all_cars s !! id)) then
      (fun car => default (current_position car) (peek_at_next_step car (time s)))
        <$> all_cars s !! id
    else dict_get acc id.
Proof.
  induction ids as [|i ids IH]; intros acc id; cbn [fold_left].
  - rewrite bool_decide_eq_false_2; [reflexivity|]. intros [H _]. inversion H.
  - rewrite IH. destruct (all_cars s !! id) as [car|] eqn:Hcar.
    + case_bool_decide as Hin.
      * rewrite bool_decide_eq_true_2; [reflexivity|]. split; [right; tauto|eauto].
      * destruct (decide (i = id)) as [-> |Hne].
        -- rewrite bool_decide_eq_true_2 by (split; [left|eauto]).
           rewrite Hcar, dict_get_set_eq. reflexivity.
        -- rewrite bool_decide_eq_false_2.
           ++ destruct (all_cars s !! i); [rewrite dict_get_set_ne by exact Hne|]; reflexivity.
           ++ intros [H _]. apply elem_of_cons in H as [?|?]; [congruence|].
              apply Hin. split; [assumption|eauto].
    + rewrite !bool_decide_eq_false_2 by (intros [_ [? ?]]; discriminate).
      destruct (all_cars s !! i) eqn:Hi; [|reflexivity].
      rewrite dict_get_set_ne; [reflexivity|]. intros ->. congruence.
Qed.

Lemma intended_parked_get (active : list nat) (cp : Moves) : forall (acc : Moves) id,
  NoDup (dict_keys cp) ->
  dict_get
    (fold_left (fun im e => if bool_decide (e.1 ∈ active) then im else dict_set im e.1 e.2)
       cp acc) id
  = if bool_decide (id ∈ active) then dict_get acc id
    else match dict_get cp id with Some p => Some p | None => dict_get acc id end.
Proof.
  induction cp as [|[k p] cp IH]; intros acc id Hnd; cbn [fold_left].
  - simpl. destruct (bool_decide _); reflexivity.
  - unfold dict_keys in Hnd. cbn [fmap list_fmap fst] in Hnd.
    apply NoDup_cons in Hnd as [Hk Hnd]. rewrite IH by exact Hnd. cbn [fst snd].
    cbn [dict_get]. case_bool_decide as Hid.
    + case_bool_decide as Hka; [reflexivity|].
      rewrite dict_get_set_ne; [reflexivity|]. intros ->. contradiction.
    + destruct (decide (k = id)) as [-> |Hne].
      * assert (Hnone : dict_get cp id = None) by (apply dict_get_None; exact Hk).
        rewrite Hnone. rewrite bool_decide_eq_false_2 by exact Hid.
        apply dict_get_set_eq.
      * destruct (dict_get cp id); [reflexivity|].
        case_bool_decide; [reflexivity|]. apply dict_get_set_ne. exact Hne.
Qed.

Lemma intended_NoDup (s : SimulationCore) : NoDup (dict_keys (build_intended_moves s)).
Proof.
  unfold build_intended_moves.
  assert (H1 : forall ids (acc : Moves), NoDup (dict_keys acc) ->
            NoDup (dict_keys
              (fold_left
                 (fun im id =>
                    match all_cars s !! id with
                    | Some car =>
                        dict_set im id
                          (default (current_position car) (peek_at_next_step car (time s)))
                    | None => im
                    end) ids acc))).
  { induction ids as [|i ids IH]; intros acc Hacc; cbn [fold_left]; [exact Hacc|].
    apply IH. destruct (all_cars s !! i); [apply dict_set_NoDup|]; exact Hacc. }
  assert (H2 : forall (cp acc : Moves), NoDup (dict_keys acc) ->
            NoDup (dict_keys
              (fold_left
                 (fun im e => if bool_decide (e.1 ∈ active_cars s) then im
                              else dict_set im e.1 e.2) cp acc))).
  { induction cp as [|e cp IH]; intros acc Hacc; cbn [fold_left]; [exact Hacc|].
    apply IH. destruct (bool_decide _); [|apply dict_set_NoDup]; exact Hacc. }
  apply H2, H1. constructor.
Qed.

(** What every car intends, in a state whose books are in order. *)
Lemma intended_get s id :
  store_ok s ->
  dict_get (build_intended_moves s) id
  = if bool_decide (id ∈ active_cars s) then
      (fun car => default (current_position car) (peek_at_next_step car (time s)))
        <$> all_cars s !! id
    else dict_get (car_positions s) id.
Proof.
  intros Hok. unfold build_intended_moves, get_positions_snapshot.
  rewrite intended_parked_get by (apply (so_keys s Hok)).
  rewrite intended_active_get.
  case_bool_decide as Hid.
  - destruct (so_active s Hok id Hid) as (c & Hc & _).
    rewrite bool_decide_eq_true_2 by (split; [exact Hid|eauto]). reflexivity.
  - rewrite bool_decide_eq_false_2 by tauto. simpl.
    destruct (dict_get (car_positions s) id); reflexivity.
Qed.


(** ** Committing the resolved moves *)

(** A car without a path that stays where it is: nothing happens. *)
Lemma commit_car_no_path am im s id car :
  all_cars s !! id = Some car -> path car = [] ->
  dict_get am id = Some (current_position car) ->
  dict_get im id = Some (current_position car) ->
  commit_car am im s id = s.
Proof.
  intros Hcar Hp Ham Him. unfold commit_car. rewrite Hcar, Ham, Him. cbv zeta.
  rewrite !bool_decide_eq_false_2 by (intros H; apply H; reflexivity).
  rewrite (no_path_not_has_path car Hp). cbv iota beta.
  rewrite (no_path_not_has_path car Hp), andb_false_r. reflexivity.
Qed.

(** One turn of the commit loop keeps the books in order and publishes the
    resolved position of its car, touching no other car. *)
Lemma commit_car_store_ok am im s id car final :
  store_ok s -> id ∈ active_cars s ->
  all_cars s !! id = Some car ->
  dict_get am id = Some final ->
  dict_get im id = Some (default (current_position car) (peek_at_next_step car (time s))) ->
  final = current_position car \/
    final = default (current_position car) (peek_at_next_step car (time s)) ->
  store_ok (commit_car am im s id) /\
  car_positions (commit_car am im s id) = dict_set (car_positions s) id final /\
  waiting_active_cars (commit_car am im s id) = waiting_active_cars s /\
  time (commit_car am im s id) = time s /\
  next_car_id (parking_manager (commit_car am im s id)) = next_car_id (parking_manager s) /\
  (forall i, i <> id -> all_cars (commit_car am im s id) !! i = all_cars s !! i) /\
  (forall i, i <> id -> i ∈ active_cars s -> i ∈ active_cars (commit_car am im s id)).
Proof.
  intros Hok Hid Hcar Ham Him Hfinal.
  destruct (so_active s Hok id Hid) as (car0 & Hcar0 & Hpos).
  rewrite Hcar in Hcar0. inversion Hcar0; subst car0. clear Hcar0.
  pose proof (so_heap s Hok id car Hcar) as Hcid.
  destruct (decide (path car = [])) as [Hp|Hp].
  - assert (Hfin : final = current_position car).
    { destruct Hfinal as [H|H]; [exact H|]. rewrite (peek_no_path car (time s) Hp) in H. exact H. }
    subst final. rewrite (peek_no_path car (time s) Hp) in Him. simpl in Him.
    rewrite (commit_car_no_path am im s id car Hcar Hp Ham Him).
    rewrite (dict_set_same _ _ _ Hpos). split; [exact Hok|]. repeat split; auto.
  - destruct (commit_car_effect am im s id car final Hcar Hcid Ham Him Hfinal Hpos)
      as (Ecp & Ew & Et & En & (c' & Eh & Hc'id & Hc'pos & _) & Hact).
    set (s2 := commit_car am im s id) in *.
    assert (Hsub : forall i, i ∈ active_cars s2 -> i ∈ active_cars s).
    { intros i Hi. destruct Hact as [[Ea _]|[Ea _]]; rewrite Ea in Hi; [exact Hi|].
      apply remove_id_elem in Hi. tauto. }
    assert (Hkeep : forall i, i <> id -> i ∈ active_cars s -> i ∈ active_cars s2).
    { intros i Hne Hi. destruct Hact as [[Ea _]|[Ea _]]; rewrite Ea; [exact Hi|].
      apply remove_id_elem. tauto. }
    assert (Hnw : id ∉ waiting_active_cars s).
    { intros Hw. destruct (so_waiting s Hok id Hw) as (_ & c & Hc & Hcp). congruence. }
    split; [|repeat split; auto].
    + constructor.
      * rewrite Ecp. apply dict_set_NoDup, (so_keys s Hok).
      * destruct Hact as [[Ea _]|[Ea _]]; rewrite Ea;
          [|apply remove_id_NoDup]; apply (so_active_nodup s Hok).
      * intros i ci. rewrite Eh, lookup_insert. destruct (decide (id = i)) as [<- |Hne].
        -- intros [= <-]. exact Hc'id.
        -- apply (so_heap s Hok).
      * intros i Hi. apply Hsub in Hi. rewrite Eh, Ecp, lookup_insert, dict_get_set.
        destruct (decide (id = i)) as [<- |Hne].
        -- exists c'. split; [reflexivity|]. congruence.
        -- apply (so_active s Hok i Hi).
      * intros i Hi.
        destruct Hact as [[Ea Ep]|[Ea Ep]].
        -- rewrite Ep. apply (so_pending s Hok). rewrite <- Ea. exact Hi.
        -- rewrite Ea in Hi. apply remove_id_elem in Hi as [Hi Hne].
           pose proof (so_pending s Hok i Hi) as Hnp.
           destruct Ep as [-> | ->]; [exact Hnp|]. set_solver.
      * intros i Hi. rewrite En. apply (so_fresh s Hok).
        destruct Hi as [Hi|Hi]; [left; apply Hsub, Hi|].
        destruct Hact as [[_ Ep]|[_ [Ep|Ep]]]; rewrite Ep in Hi; [tauto|tauto|].
        apply elem_of_union in Hi as [Hi|Hi]; [|tauto].
        apply elem_of_singleton in Hi. subst i. tauto.
      * intros i. rewrite Ew. intros Hi.
        destruct (so_waiting s Hok i Hi) as (Hia & ci & Hci & Hpi).
        assert (Hne : i <> id) by (intros ->; contradiction).
        split; [apply Hkeep; assumption|].
        exists ci. rewrite Eh, lookup_insert_ne by congruence. auto.
      * rewrite Ew. apply (so_waiting_nodup s Hok).
    + intros i Hne. rewrite Eh. apply lookup_insert_ne. congruence.
Qed.

(** ** [_advance_cars] *)

Lemma injective_pointwise (d d' : Moves) :
  (forall id, dict_get d' id = dict_get d id) ->
  positions_injective d -> positions_injective d'.
Proof. intros E Hinj a b p. rewrite !E. apply Hinj. Qed.

(** The whole loop, over the cars still to be committed; it keeps any
    property [Q] that one turn keeps. *)
Section Advance.
Variable Q : SimulationCore -> Prop.
Hypothesis Q_plan : forall s id,
  store_ok s -> Q s -> id ∈ active_cars s -> id ∉ waiting_active_cars s ->
  Q (plan_car s id).
Hypothesis Q_commit : forall am im s id car final,
  store_ok s -> Q s -> id ∈ active_cars s ->
  all_cars s !! id = Some car ->
  dict_get am id = Some final ->
  dict_get im id = Some (default (current_position car) (peek_at_next_step car (time s))) ->
  final = current_position car \/
    final = default (current_position car) (peek_at_next_step car (time s)) ->
  Q (commit_car am im s id).

Lemma commit_loop am im s1 :
  (forall id car, id ∈ active_cars s1 -> all_cars s1 !! id = Some car ->
     dict_get im id
     = Some (default (current_position car) (peek_at_next_step car (time s1)))) ->
  (forall id, dict_get am id = dict_get im id \/
              dict_get am id = dict_get (car_positions s1) id) ->
  forall rest s,
    NoDup rest -> store_ok s -> Q s -> time s = time s1 ->
    (forall id, id ∈ rest ->
       id ∈ active_cars s1 /\ id ∈ active_cars s /\
       is_Some (all_cars s1 !! id) /\
       all_cars s !! id = all_cars s1 !! id /\
       dict_get (car_positions s) id = dict_get (car_positions s1) id) ->
    (forall id, id ∉ rest -> dict_get (car_positions s) id = dict_get am id) ->
    store_ok (fold_left (commit_car am im) rest s) /\
    Q (fold_left (commit_car am im) rest s) /\
    (forall id, dict_get (car_positions (fold_left (commit_car am im) rest s)) id
                = dict_get am id) /\
    waiting_active_cars (fold_left (commit_car am im) rest s) = waiting_active_cars s /\
    time (fold_left (commit_car am im) rest s) = time s /\
    next_car_id (parking_manager (fold_left (commit_car am im) rest s))
    = next_car_id (parking_manager s).
Proof.
  intros Him Ham. induction rest as [|id rest IH]; intros s Hnd Hok HQ Ht Hrest Hdone.
  - cbn [fold_left]. split; [exact Hok|]. split; [exact HQ|]. split; [|auto].
    intros id. apply Hdone. intros H; inversion H.
  - cbn [fold_left]. apply NoDup_cons in Hnd as [Hnin Hnd].
    destruct (Hrest id) as (Ha1 & Ha & [car Hcar1] & Hheap & Hcp); [left|].
    assert (Hcar : all_cars s !! id = Some car) by congruence.
    destruct (so_active s Hok id Ha) as (car0 & Hcar0 & Hpos).
    rewrite Hcar in Hcar0. inversion Hcar0; subst car0. clear Hcar0.
    pose proof (Him id car Ha1 Hcar1) as Himid.
    assert (Hfin : exists final, dict_get am id = Some final /\
              (final = current_position car \/
               final = default (current_position car) (peek_at_next_step car (time s)))).
    { destruct (Ham id) as [E|E]; rewrite E.
      - rewrite Himid. eexists. split; [reflexivity|]. right. rewrite Ht. reflexivity.
      - rewrite <- Hcp, Hpos. eexists. split; [reflexivity|]. left. reflexivity. }
    destruct Hfin as (final & Hamid & Hfinal).
    rewrite <- Ht in Himid.
    destruct (commit_car_store_ok am im s id car final Hok Ha Hcar Hamid Himid Hfinal)
      as (Hok2 & Ecp & Ew & Et & En & Eheap & Eact).
    pose proof (Q_commit am im s id car final Hok HQ Ha Hcar Hamid Himid Hfinal) as HQ2.
    destruct (IH (commit_car am im s id) Hnd Hok2 HQ2) as (R1 & R0 & R2 & R3 & R4 & R5).
    + congruence.
    + intros i Hi. assert (Hne : i <> id) by (intros ->; contradiction).
      destruct (Hrest i) as (Hi1 & Hi2 & Hi3 & Hi4 & Hi5); [right; exact Hi|].
      split; [exact Hi1|]. split; [apply Eact; assumption|]. split; [exact Hi3|].
      split; [rewrite Eheap by exact Hne; exact Hi4|].
      rewrite Ecp, dict_get_set_ne by congruence. exact Hi5.
    + intros i Hi. rewrite Ecp, dict_get_set. destruct (decide (id = i)) as [<- |Hne].
      * symmetry. exact Hamid.
      * apply Hdone. intros H. apply elem_of_cons in H as [H|H]; [congruence|contradiction].
    + split; [exact R1|]. split; [exact R0|]. split; [exact R2|]. split; [congruence|].
      split; congruence.
Qed.

Lemma advance_inv s :
  positions_ok s -> Q s ->
  exists s', _advance_cars s = Done s' /\ positions_ok s' /\ Q s' /\
    waiting_active_cars s' = waiting_active_cars s /\ time s' = time s /\
    next_car_id (parking_manager s') = next_car_id (parking_manager s).
Proof.
  intros [Hok Hinj] HQ. unfold _advance_cars.
  destruct (plan_phase_inv Q Q_plan s Hok HQ) as (Hok1 & HQ1 & Hb).
  apply books_fields in Hb as (Ba & Bp & Bpe & Bw & Bt & Bn).
  set (s1 := plan_phase s) in *. unfold get_positions_snapshot.
  assert (Hkeys : forall c, c ∈ dict_keys (build_intended_moves s1) ->
                            c ∈ dict_keys (car_positions s1)).
  { intros c Hc. apply intended_keys in Hc as [Hc|Hc]; [|exact Hc].
    destruct (so_active s1 Hok1 c Hc) as (car & _ & Hpos).
    apply dict_get_is_Some. eauto. }
  destruct (resolve_conflicts_total _ _ Hkeys) as [am Hres]. rewrite Hres.
  apply resolve_conflicts_done in Hres as (_ & k & _ & Ham & Hfix).
  assert (Hamk : dict_keys am = dict_keys (build_intended_moves s1)).
  { rewrite Ham. apply passes_keys. }
  assert (Haminj : positions_injective am).
  { apply (fixpoint_injective (car_positions s1) (build_pos_to_cid (car_positions s1))).
    - rewrite Bp. exact Hinj.
    - rewrite Hamk. apply intended_NoDup.
    - rewrite Hamk. exact Hkeys.
    - exact Hfix. }
  assert (Hget : forall id, dict_get am id = dict_get (build_intended_moves s1) id \/
                            dict_get am id = dict_get (car_positions s1) id).
  { intros id. rewrite Ham. apply passes_get. }
  destruct (commit_loop am (build_intended_moves s1) s1) with (rest := active_cars s1) (s := s1)
    as (R1 & R0 & R2 & R3 & R4 & R5).
  - intros id car Hid Hcar. rewrite (intended_get s1 id Hok1).
    rewrite bool_decide_eq_true_2 by exact Hid. rewrite Hcar. reflexivity.
  - exact Hget.
  - apply (so_active_nodup s1 Hok1).
  - exact Hok1.
  - exact HQ1.
  - reflexivity.
  - intros id Hid. destruct (so_active s1 Hok1 id Hid) as (car & Hcar & _).
    repeat split; eauto.
  - intros id Hid. destruct (Hget id) as [E|E]; [|congruence].
    rewrite E, (intended_get s1 id Hok1). rewrite bool_decide_eq_false_2 by exact Hid.
    reflexivity.
  - eexists. split; [reflexivity|]. split; [split; [exact R1|]|].
    + apply (injective_pointwise am); assumption.
    + split; [exact R0|]. split; [congruence|]. split; congruence.
Qed.
End Advance.

Lemma advance_positions_ok s :
  positions_ok s ->
  exists s', _advance_cars s = Done s' /\ positions_ok s' /\
    waiting_active_cars s' = waiting_active_cars s /\ time s' = time s /\
    next_car_id (parking_manager s') = next_car_id (parking_manager s).
Proof.
  intros Hok.
  destruct (advance_inv (fun _ => True)) with (s := s) as (s' & H1 & H2 & _ & H3); auto.
  exists s'. auto.
Qed.



(** ** New cars, waking, arrivals, cleanup *)

Lemma handle_new_car_positions_ok s car t :
  positions_ok s ->
  car_id car ∉ waiting_active_cars s ->
  car_id car ∉ cars_pending_removal s ->
  (car_id car < next_car_id (parking_manager s))%nat ->
  (forall k, dict_get (car_positions s) k = Some (current_position car) -> k = car_id car) ->
  positions_ok (_handle_new_car s car t) /\
  waiting_active_cars (_handle_new_car s car t) = waiting_active_cars s /\
  time (_handle_new_car s car t) = time s /\
  next_car_id (parking_manager (_handle_new_car s car t)) = next_car_id (parking_manager s) /\
  (forall i, i ∈ active_cars s -> i ∈ active_cars (_handle_new_car s car t)).
Proof.
  intros [Hok Hinj] Hnw Hnp Hfresh Hcell.
  destruct (handle_new_car_effect s car t) as (Ea & Ecp & Ep & Ew & Et & En & c' & Eh & Cid & Cpos).
  set (s' := _handle_new_car s car t) in *.
  split; [split|].
  - constructor.
    + rewrite Ecp. apply dict_set_NoDup, (so_keys s Hok).
    + rewrite Ea. apply activate_NoDup, (so_active_nodup s Hok).
    + intros i ci. rewrite Eh, lookup_insert. destruct (decide (car_id car = i)) as [<- |Hne].
      * intros [= <-]. exact Cid.
      * apply (so_heap s Hok).
    + intros i Hi. rewrite Eh, Ecp, lookup_insert, dict_get_set.
      destruct (decide (car_id car = i)) as [<- |Hne].
      * exists c'. split; [reflexivity|]. unfold current_position. congruence.
      * rewrite Ea in Hi. apply activate_elem in Hi as [Hi|Hi]; [congruence|].
        apply (so_active s Hok i Hi).
    + intros i Hi. rewrite Ep. rewrite Ea in Hi. apply activate_elem in Hi as [-> |Hi];
        [exact Hnp|apply (so_pending s Hok i Hi)].
    + intros i Hi. rewrite En. rewrite Ea, Ep in Hi.
      destruct Hi as [Hi|Hi]; [apply activate_elem in Hi as [-> |Hi]|].
      * exact Hfresh.
      * apply (so_fresh s Hok). tauto.
      * apply (so_fresh s Hok). tauto.
    + intros i. rewrite Ew. intros Hi.
      destruct (so_waiting s Hok i Hi) as (Hia & ci & Hci & Hpi).
      assert (Hne : car_id car <> i) by (intros <-; contradiction).
      split; [rewrite Ea; apply activate_elem; tauto|].
      exists ci. rewrite Eh, lookup_insert_ne by exact Hne. auto.
    + rewrite Ew. apply (so_waiting_nodup s Hok).
  - rewrite Ecp. apply injective_set; assumption.
  - repeat split; auto. intros i Hi. rewrite Ea. apply activate_elem. tauto.
Qed.

Lemma wake_car_positions_ok s id :
  positions_ok s -> id ∈ active_cars s ->
  positions_ok (wake_car s id) /\
  time (wake_car s id) = time s /\
  next_car_id (parking_manager (wake_car s id)) = next_car_id (parking_manager s) /\
  (forall i, i ∈ active_cars s -> i ∈ active_cars (wake_car s id)).
Proof.
  intros [Hok Hinj] Hid. unfold wake_car.
  destruct (so_active s Hok id Hid) as (car & Hcar & Hpos). rewrite Hcar.
  pose proof (so_heap s Hok id car Hcar) as Hcid.
  destruct (current_position car) as [cx cy] eqn:Epos. cbv zeta.
  match goal with |- context [_handle_new_car ?s0 car ?t0] =>
    set (s3 := s0); set (t3 := t0)
  end.
  assert (Hok3 : positions_ok s3).
  { split; [|exact Hinj]. constructor; try apply Hok.
    - intros i Hi. unfold s3 in Hi. sim_simpl. apply remove_first_id_elem in Hi.
      apply (so_waiting s Hok i Hi).
    - unfold s3. sim_simpl. rewrite (remove_first_id_NoDup _ _ (so_waiting_nodup s Hok)).
      apply remove_id_NoDup, (so_waiting_nodup s Hok). }
  destruct (handle_new_car_positions_ok s3 car t3 Hok3) as (R1 & R2 & R3 & R4 & R5).
  - unfold s3. sim_simpl. rewrite Hcid, (remove_first_id_NoDup _ _ (so_waiting_nodup s Hok)).
    intros H. apply remove_id_elem in H. tauto.
  - rewrite Hcid. apply (so_pending s Hok id Hid).
  - rewrite Hcid. apply (so_fresh s Hok). tauto.
  - intros k Hk. rewrite Hcid. rewrite Epos in Hk. apply (Hinj k id (cx, cy)); assumption.
  - split; [exact R1|]. split; [exact R3|]. split; [exact R4|]. exact R5.
Qed.

Lemma wake_cars_positions_ok ids : forall s,
  positions_ok s -> (forall i, i ∈ ids -> i ∈ active_cars s) ->
  positions_ok (fold_left wake_car ids s) /\
  time (fold_left wake_car ids s) = time s /\
  next_car_id (parking_manager (fold_left wake_car ids s)) = next_car_id (parking_manager s).
Proof.
  induction ids as [|id ids IH]; intros s Hok Hids; cbn [fold_left]; [auto|].
  destruct (wake_car_positions_ok s id Hok) as (R1 & R2 & R3 & R4); [apply Hids; left|].
  destruct (IH (wake_car s id) R1) as (Q1 & Q2 & Q3).
  - intros i Hi. apply R4, Hids. right. exact Hi.
  - split; [exact Q1|]. split; congruence.
Qed.

Lemma draw_wake_ups_elem rate waiting : forall r i,
  i ∈ (draw_wake_ups rate waiting r).1 -> i ∈ waiting.
Proof.
  induction waiting as [|id rest IH]; intros r i; cbn [draw_wake_ups].
  - simpl. intros H. exact H.
  - destruct (random_random r) as [x r1].
    pose proof (IH r1 i) as IH'. destruct (draw_wake_ups rate rest r1) as [woke r2].
    cbn [fst] in *. destruct (Qltb x rate).
    + intros H. apply elem_of_cons in H as [-> |H]; [left|right; auto].
    + intros H. right. auto.
Qed.

Lemma process_waiting_positions_ok s :
  positions_ok s ->
  positions_ok (_process_waiting_active_cars s) /\
  time (_process_waiting_active_cars s) = time s /\
  next_car_id (parking_manager (_process_waiting_active_cars s))
  = next_car_id (parking_manager s).
Proof.
  intros Hok. unfold _process_waiting_active_cars.
  destruct (waiting_active_cars s) as [|w ws] eqn:Hw; [auto|]. rewrite <- Hw.
  pose proof (draw_wake_ups_elem (initial_active_exit_rate (config s))
                (waiting_active_cars s) (rng s)) as Hsub.
  destruct (draw_wake_ups _ (waiting_active_cars s) (rng s)) as [woke r]. cbn [fst] in Hsub.
  apply (wake_cars_positions_ok woke (with_rng s r)).
  - destruct Hok as [Hok Hinj]. split; [|exact Hinj]. constructor; apply Hok.
  - intros i Hi. apply Hsub in Hi. destruct Hok as [Hok _].
    apply (so_waiting s Hok i Hi).
Qed.

Lemma dels_get (ids : list nat) : forall (d : Moves) k,
  dict_get (fold_left (fun d id => dict_del d id) ids d) k
  = if bool_decide (k ∈ ids) then None else dict_get d k.
Proof.
  induction ids as [|id ids IH]; intros d k; cbn [fold_left].
  - rewrite bool_decide_eq_false_2; [reflexivity|]. intros H; inversion H.
  - rewrite IH. case_bool_decide as Hk.
    + rewrite bool_decide_eq_true_2; [reflexivity|]. right. exact Hk.
    + destruct (decide (id = k)) as [-> |Hne].
      * rewrite bool_decide_eq_true_2 by left. apply dict_get_del_eq.
      * rewrite bool_decide_eq_false_2.
        -- apply dict_get_del_ne. exact Hne.
        -- intros H. apply elem_of_cons in H as [H|H]; [congruence|contradiction].
Qed.

Lemma dels_NoDup (ids : list nat) : forall (d : Moves),
  NoDup (dict_keys d) -> NoDup (dict_keys (fold_left (fun d id => dict_del d id) ids d)).
Proof.
  induction ids as [|id ids IH]; intros d Hd; cbn [fold_left]; [exact Hd|].
  apply IH, dict_del_NoDup, Hd.
Qed.

Lemma dels_injective (ids : list nat) : forall (d : Moves),
  positions_injective d ->
  positions_injective (fold_left (fun d id => dict_del d id) ids d).
Proof.
  induction ids as [|id ids IH]; intros d Hd; cbn [fold_left]; [exact Hd|].
  apply IH, injective_del, Hd.
Qed.

Lemma cleanup_positions_ok s :
  positions_ok s ->
  positions_ok (_cleanup_exited_cars s) /\
  time (_cleanup_exited_cars s) = time s /\
  next_car_id (parking_manager (_cleanup_exited_cars s)) = next_car_id (parking_manager s).
Proof.
  intros [Hok Hinj]. unfold _cleanup_exited_cars. split; [split|split; reflexivity].
  - constructor; sim_simpl.
    + apply dels_NoDup, (so_keys s Hok).
    + apply (so_active_nodup s Hok).
    + apply (so_heap s Hok).
    + intros i Hi. destruct (so_active s Hok i Hi) as (c & Hc & Hp).
      exists c. split; [exact Hc|]. rewrite dels_get.
      rewrite bool_decide_eq_false_2; [exact Hp|].
      rewrite elem_of_elements. apply (so_pending s Hok i Hi).
    + intros i _. apply not_elem_of_empty.
    + intros i [Hi|Hi]; [apply (so_fresh s Hok); tauto|].
      exfalso. revert Hi. apply not_elem_of_empty.
    + apply (so_waiting s Hok).
    + apply (so_waiting_nodup s Hok).
  - sim_simpl. apply dels_injective, Hinj.
Qed.

Lemma poisson_positions_ok s :
  positions_ok s -> positions_ok (_maybe_poisson_arrival s) /\
  time (_maybe_poisson_arrival s) = time s.
Proof.
  intros Hpok. pose proof Hpok as [Hok Hinj]. unfold _maybe_poisson_arrival.
  destruct (arriving_cars_created s >=? max_arriving_cars (config s)); [auto|].
  case_bool_decide as Hfree; [auto|].
  unfold _get_free_entry.
  destruct (random_shuffle (elements (entry_cells (parking_manager s))) (rng s))
    as [entries r].
  assert (Hrng : forall r0, positions_ok (with_rng s r0)).
  { intros r0. split; [|exact Hinj]. constructor; apply Hok. }
  destruct (List.find (entry_is_free s) entries) as [e|] eqn:Hfind; [|split; [apply Hrng|reflexivity]].
  apply List.find_some in Hfind as [_ Hentry].
  sim_simpl. destruct (random_random r) as [x r1]. sim_simpl.
  destruct (Qltb x (arrival_lambda (config s))); [|split; [apply Hrng|reflexivity]].
  unfold create_active_car. sim_simpl.
  unfold entry_is_free in Hentry. apply andb_true_iff in Hentry as [Hentry _].
  apply negb_true_iff, bool_decide_eq_false in Hentry.
  assert (Hnone : forall k, dict_get (car_positions s) k <> Some e).
  { intros k Hk. apply Hentry. eapply dict_get_values. exact Hk. }
  assert (Hnew : forall i, i ∈ active_cars s \/ i ∈ cars_pending_removal s ->
                           i <> next_car_id (parking_manager s)).
  { intros i Hi. apply (so_fresh s Hok) in Hi. lia. }
  match goal with |- context [_handle_new_car ?s0 ?c0 ?t0] =>
    set (s3 := s0); set (c3 := c0); set (t3 := t0)
  end.
  assert (Hc3 : car_id c3 = next_car_id (parking_manager s)) by reflexivity.
  assert (Hp3 : current_position c3 = e) by reflexivity.
  assert (Hok3 : positions_ok s3).
  { split.
    - constructor; unfold s3; sim_simpl.
      + apply dict_set_NoDup, (so_keys s Hok).
      + apply (so_active_nodup s Hok).
      + apply (so_heap s Hok).
      + intros i Hi. destruct (so_active s Hok i Hi) as (c & Hc & Hp).
        exists c. split; [exact Hc|]. rewrite dict_get_set_ne; [exact Hp|].
        intros E. apply (Hnew i); [tauto|]. symmetry. exact E.
      + apply (so_pending s Hok).
      + intros i Hi. apply (so_fresh s Hok) in Hi. lia.
      + apply (so_waiting s Hok).
      + apply (so_waiting_nodup s Hok).
    - unfold s3. sim_simpl. apply injective_set; [exact Hinj|].
      intros k Hk. exfalso. apply (Hnone k). exact Hk. }
  destruct (handle_new_car_positions_ok s3 c3 t3 Hok3) as (R1 & R2 & R3 & R4 & R5).
  - rewrite Hc3. unfold s3. sim_simpl. intros Hw.
    apply (so_waiting s Hok) in Hw as [Hw _]. apply (Hnew _ (or_introl Hw)). reflexivity.
  - rewrite Hc3. unfold s3. sim_simpl. intros Hw.
    apply (Hnew _ (or_intror Hw)). reflexivity.
  - rewrite Hc3. unfold s3. sim_simpl. lia.
  - intros k. rewrite Hc3, Hp3. unfold s3. sim_simpl. rewrite dict_get_set.
    destruct (decide (next_car_id (parking_manager s) = k)) as [<- |Hne]; [reflexivity|].
    intros Hk. exfalso. apply (Hnone k). exact Hk.
  - split; [exact R1|]. rewrite R3. reflexivity.
Qed.

(** ** One [step()] *)

Lemma step_positions_ok s :
  positions_ok s -> exists s', step s = Done s' /\ positions_ok s'.
Proof.
  intros Hok. unfold step.
  destruct (cleanup_positions_ok s Hok) as (H1 & _).
  destruct (process_waiting_positions_ok _ H1) as (H2 & _).
  destruct (advance_positions_ok _ H2) as (s1 & -> & H3 & _).
  destruct (poisson_positions_ok s1 H3) as ([H4 H4'] & _).
  eexists. split; [reflexivity|]. split; [|exact H4']. constructor; apply H4.
Qed.

Lemma steps_positions_ok n : forall s,
  positions_ok s -> exists s', steps n s = Done s' /\ positions_ok s'.
Proof.
  induction n as [|n IH]; intros s Hok; cbn [steps]; [eauto|].
  destruct (IH s Hok) as (s1 & -> & H1). apply step_positions_ok, H1.
Qed.


(** ** Construction *)

Lemma random_choice_elem {A : Type} (x : A) xs r : (random_choice x xs r).1 ∈ x :: xs.
Proof.
  unfold random_choice. destruct (next_draw r) as [n r']. cbn [fst].
  apply list_elem_of_In, List.nth_In. cbn [length].
  pose proof (N.mod_upper_bound n (N.of_nat (S (length xs)))). lia.
Qed.

Lemma create_parked_car_spec pm r car pm' r' :
  create_parked_car pm r = Some (car, pm', r') ->
  exists spot, spot ∈ free_spots pm /\
    car = set_goal (new_car (next_car_id pm) spot None) (Some spot) /\
    pm' = set_slots (bump_car_id pm) (free_spots pm ∖ {[ spot ]}) (assigned_spots pm)
            ({[ spot ]} ∪ occupied_spots pm).
Proof.
  unfold create_parked_car.
  destruct (elements (free_spots pm)) as [|x xs] eqn:Hel; [discriminate|].
  pose proof (random_choice_elem x xs r) as Hin.
  destruct (random_choice x xs r) as [spot r0]. cbn [fst] in Hin.
  rewrite <- Hel in Hin. apply elem_of_elements in Hin.
  intros [= <- <- <-]. exists spot. auto.
Qed.

Lemma place_parked_car_ok s car pm r :
  create_parked_car (parking_manager s) (rng s) = Some (car, pm, r) ->
  positions_ok s ->
  (forall k p, dict_get (car_positions s) k = Some p -> p ∉ free_spots (parking_manager s)) ->
  positions_ok (place_parked_car s car pm r) /\
  (forall k p, dict_get (car_positions (place_parked_car s car pm r)) k = Some p ->
               p ∉ free_spots (parking_manager (place_parked_car s car pm r))).
Proof.
  intros Hc [Hok Hinj] Hfree.
  apply create_parked_car_spec in Hc as (spot & Hin & -> & ->).
  assert (Hnone : forall k, dict_get (car_positions s) k <> Some spot).
  { intros k Hk. apply (Hfree k spot Hk). exact Hin. }
  assert (Hnew : forall i, i ∈ active_cars s \/ i ∈ cars_pending_removal s ->
                           i <> next_car_id (parking_manager s)).
  { intros i Hi. apply (so_fresh s Hok) in Hi. lia. }
  unfold place_parked_car, mark_occupied. cbv zeta. split; [split|].
  - constructor; sim_simpl.
    + apply dict_set_NoDup, (so_keys s Hok).
    + apply (so_active_nodup s Hok).
    + intros i ci. rewrite lookup_insert.
      destruct (decide (next_car_id (parking_manager s) = i)) as [<- |Hne].
      * intros [= <-]. reflexivity.
      * apply (so_heap s Hok).
    + intros i Hi. destruct (so_active s Hok i Hi) as (c & Hc & Hp).
      assert (Hne : next_car_id (parking_manager s) <> i).
      { intros E. apply (Hnew i); [tauto|]. symmetry. exact E. }
      exists c. rewrite lookup_insert_ne, dict_get_set_ne by exact Hne. auto.
    + apply (so_pending s Hok).
    + intros i Hi. apply (so_fresh s Hok) in Hi. lia.
    + intros i Hi. destruct (so_waiting s Hok i Hi) as (Hia & c & Hc & Hp).
      assert (Hne : next_car_id (parking_manager s) <> i).
      { intros E. apply (Hnew i); [tauto|]. symmetry. exact E. }
      split; [exact Hia|]. exists c. rewrite lookup_insert_ne by exact Hne. auto.
    + apply (so_waiting_nodup s Hok).
  - sim_simpl. apply injective_set; [exact Hinj|].
    intros k Hk. exfalso. apply (Hnone k). exact Hk.
  - sim_simpl. intros k p. rewrite dict_get_set.
    destruct (decide (next_car_id (parking_manager s) = k)) as [<- |Hne].
    + intros [= <-]. set_solver.
    + intros Hk. pose proof (Hfree k p Hk). set_solver.
Qed.

Lemma init_parked_ok n : forall s,
  positions_ok s ->
  (forall k p, dict_get (car_positions s) k = Some p -> p ∉ free_spots (parking_manager s)) ->
  positions_ok (init_parked n s) /\
  (forall k p, dict_get (car_positions (init_parked n s)) k = Some p ->
               p ∉ free_spots (parking_manager (init_parked n s))).
Proof.
  induction n as [|n IH]; intros s Hpok Hfree; cbn [init_parked]; [auto|].
  case_bool_decide as Hempty; [auto|].
  destruct (create_parked_car (parking_manager s) (rng s)) as [[[car pm] r]|] eqn:Hc; [|auto].
  destruct (place_parked_car_ok s car pm r Hc Hpok Hfree) as [H1 H2].
  apply IH; assumption.
Qed.

Lemma place_waiting_car_ok s spot r :
  spot ∈ free_spots (parking_manager s) ->
  positions_ok s ->
  (forall k p, dict_get (car_positions s) k = Some p -> p ∉ free_spots (parking_manager s)) ->
  positions_ok (place_waiting_car s spot r) /\
  (forall k p, dict_get (car_positions (place_waiting_car s spot r)) k = Some p ->
               p ∉ free_spots (parking_manager (place_waiting_car s spot r))).
Proof.
  intros Hin [Hok Hinj] Hfree.
  assert (Hnone : forall k, dict_get (car_positions s) k <> Some spot).
  { intros k Hk. apply (Hfree k spot Hk). exact Hin. }
  assert (Hnew : forall i, i ∈ active_cars s \/ i ∈ cars_pending_removal s ->
                           i <> next_car_id (parking_manager s)).
  { intros i Hi. apply (so_fresh s Hok) in Hi. lia. }
  unfold place_waiting_car, create_active_car. cbv zeta. sim_simpl.
  split; [split|].
  - constructor; sim_simpl.
    + apply dict_set_NoDup, (so_keys s Hok).
    + apply activate_NoDup, (so_active_nodup s Hok).
    + intros i ci. rewrite lookup_insert.
      destruct (decide (next_car_id (parking_manager s) = i)) as [<- |Hne].
      * intros [= <-]. reflexivity.
      * apply (so_heap s Hok).
    + intros i Hi. rewrite lookup_insert, dict_get_set.
      destruct (decide (next_car_id (parking_manager s) = i)) as [<- |Hne].
      * eexists. split; reflexivity.
      * apply activate_elem in Hi as [Hi|Hi]; [congruence|].
        apply (so_active s Hok i Hi).
    + intros i Hi. apply activate_elem in Hi as [-> |Hi].
      * intros Hp. apply (Hnew _ (or_intror Hp)). reflexivity.
      * apply (so_pending s Hok i Hi).
    + intros i [Hi|Hi]; [apply activate_elem in Hi as [-> |Hi]|].
      * lia.
      * assert (i < next_car_id (parking_manager s))%nat by (apply (so_fresh s Hok); tauto).
        lia.
      * assert (i < next_car_id (parking_manager s))%nat by (apply (so_fresh s Hok); tauto).
        lia.
    + intros i Hi. apply elem_of_app in Hi as [Hi|Hi].
      * destruct (so_waiting s Hok i Hi) as (Hia & c & Hc & Hp).
        assert (Hne : next_car_id (parking_manager s) <> i).
        { intros E. apply (Hnew i); [tauto|]. symmetry. exact E. }
        split; [apply activate_elem; tauto|].
        exists c. rewrite lookup_insert_ne by exact Hne. auto.
      * apply list_elem_of_singleton in Hi. subst i.
        split; [apply activate_elem; tauto|].
        eexists. rewrite lookup_insert_eq. split; reflexivity.
    + apply NoDup_app. split; [apply (so_waiting_nodup s Hok)|]. split.
      * intros k Hk H. apply list_elem_of_singleton in H. subst k.
        apply (so_waiting s Hok) in Hk as [Hk _]. apply (Hnew _ (or_introl Hk)). reflexivity.
      * apply NoDup_singleton.
  - sim_simpl. apply injective_set; [exact Hinj|].
    intros k Hk. exfalso. apply (Hnone k). exact Hk.
  - sim_simpl. intros k p. rewrite dict_get_set.
    destruct (decide (next_car_id (parking_manager s) = k)) as [<- |Hne].
    + intros [= <-]. set_solver.
    + intros Hk. pose proof (Hfree k p Hk). set_solver.
Qed.

Lemma init_active_ok n : forall s,
  positions_ok s ->
  (forall k p, dict_get (car_positions s) k = Some p -> p ∉ free_spots (parking_manager s)) ->
  positions_ok (init_active n s).
Proof.
  induction n as [|n IH]; intros s Hpok Hfree; cbn [init_active]; [auto|].
  destruct (elements (free_spots (parking_manager s))) as [|x xs] eqn:Hel; [auto|].
  pose proof (random_choice_elem x xs (rng s)) as Hin.
  destruct (random_choice x xs (rng s)) as [spot r']. cbn [fst] in Hin.
  rewrite <- Hel in Hin. apply elem_of_elements in Hin.
  destruct (place_waiting_car_ok s spot r' Hin Hpok Hfree) as [H1 H2].
  apply IH; assumption.
Qed.

Lemma new_simulation_positions_ok g pm planner cfg r :
  positions_ok (new_simulation g pm planner cfg r).
Proof.
  unfold new_simulation. cbv zeta.
  match goal with |- context [init_parked ?n ?s0] =>
    destruct (init_parked_ok n s0) as [H1 H2]
  end.
  - split.
    + constructor; sim_simpl.
      * constructor.
      * constructor.
      * intros i c Hc. rewrite lookup_empty in Hc. discriminate.
      * intros i Hi. inversion Hi.
      * intros i Hi. inversion Hi.
      * intros i [Hi|Hi]; [inversion Hi|]. exfalso. revert Hi. apply not_elem_of_empty.
      * intros i Hi. inversion Hi.
      * constructor.
    + intros a b p Ha. discriminate.
  - sim_simpl. intros k p Hk. discriminate.
  - apply init_active_ok; assumption.
Qed.

(** Every number of steps from a fresh simulation returns, in a state
    whose published cells are pairwise distinct. *)
Lemma reachable_positions_ok g pm planner cfg r n :
  exists s, steps n (new_simulation g pm planner cfg r) = Done s /\ positions_ok s.
Proof. apply steps_positions_ok, new_simulation_positions_ok. Qed.

(** C1: after construction and after every [step()], any two distinct cars
    of the positions snapshot (active or parked) that are on the same cell
    are on an EXIT cell.  More is true: every [step()] returns, and no two
    distinct cars of the snapshot are on the same cell at all, EXIT or
    not. *)
Theorem no_two_cars_share_a_cell g pm planner cfg r n :
  exists s,
    steps n (new_simulation g pm planner cfg r) = Done s /\
    no_shared_cell s /\
    positions_injective (get_positions_snapshot s).
Proof.
  destruct (reachable_positions_ok g pm planner cfg r n) as (s & Hs & _ & Hinj).
  exists s. split; [exact Hs|]. split; [|exact Hinj].
  intros a b p Hne Ha Hb. unfold get_positions_snapshot in *.
  exfalso. apply Hne. apply (Hinj a b p); assumption.
Qed.


(** ** The parking manager's three sets *)

Lemma assigned_cells_elem pm p :
  p ∈ assigned_cells pm <-> exists id, assigned_spots pm !! id = Some p.
Proof. unfold assigned_cells. apply elem_of_map_img. Qed.

Lemma img_delete_injective (m : gmap nat Position) id p :
  (forall a b q, m !! a = Some q -> m !! b = Some q -> a = b) ->
  m !! id = Some p ->
  map_img (delete id m) = (map_img m : gset Position) ∖ {[ p ]}.
Proof.
  intros Hinj Hid. apply set_eq. intros q.
  rewrite elem_of_difference, !elem_of_map_img, elem_of_singleton. split.
  - intros [k Hk]. rewrite lookup_delete in Hk.
    destruct (decide (id = k)) as [<- |Hne]; [discriminate|].
    split; [eauto|]. intros ->. apply Hne. apply (Hinj id k p); assumption.
  - intros [[k Hk] Hq]. exists k. rewrite lookup_delete.
    destruct (decide (id = k)) as [<- |Hne]; [congruence|exact Hk].
Qed.

Lemma img_insert_fresh (m : gmap nat Position) id p :
  m !! id = None -> map_img (<[ id := p ]> m) = {[ p ]} ∪ (map_img m : gset Position).
Proof. intros H. apply map_img_insert_notin_L. exact H. Qed.

Lemma pm_frame_refl id pm : pm_frame id pm pm.
Proof. repeat split. Qed.

Lemma pm_frame_trans id pm1 pm2 pm3 :
  pm_frame id pm1 pm2 -> pm_frame id pm2 pm3 -> pm_frame id pm1 pm3.
Proof.
  intros (A1 & A2 & A3) (B1 & B2 & B3). repeat split; try congruence.
  intros k Hk. rewrite B3, A3 by exact Hk. reflexivity.
Qed.

Lemma slot_ok_frame id k pm pm' c :
  pm_frame id pm pm' -> k <> id -> slot_ok pm k c -> slot_ok pm' k c.
Proof. intros (_ & _ & H) Hk Hs p. rewrite H by exact Hk. apply Hs. Qed.

Lemma slot_ok_same_plan pm id c c' :
  same_plan c c' -> slot_ok pm id c -> slot_ok pm id c'.
Proof. intros [Hi Hg] Hs p. rewrite Hi, Hg. apply Hs. Qed.

Lemma same_plan_refl c : same_plan c c.
Proof. split; reflexivity. Qed.

Lemma same_plan_trans c1 c2 c3 : same_plan c1 c2 -> same_plan c2 c3 -> same_plan c1 c3.
Proof. intros [A B] [C D]. split; congruence. Qed.

(** Releasing the slot of a car. *)
Lemma pool_release pm W id :
  pool_ok pm W ->
  pool_ok (release_assigned_spot pm id) W /\
  assigned_spots (release_assigned_spot pm id) !! id = None /\
  pm_frame id pm (release_assigned_spot pm id).
Proof.
  intros Hp. unfold release_assigned_spot.
  destruct (assigned_spots pm !! id) as [spot|] eqn:Hid.
  2: { split; [exact Hp|]. split; [exact Hid|apply pm_frame_refl]. }
  destruct Hp as [H1 H2 H3 H4 H5 H6].
  assert (Hin : spot ∈ assigned_cells pm) by (apply assigned_cells_elem; eauto).
  rewrite bool_decide_eq_true_2 by set_solver.
  split; [|split].
  - constructor; unfold assigned_cells in *; cbn [set_slots free_spots assigned_spots occupied_spots parking_cells];
      try rewrite (img_delete_injective _ id spot H6 Hid).
    + set_solver.
    + set_solver.
    + set_solver.
    + set_solver.
    + rewrite <- H5. apply set_eq. intros q.
      destruct (decide (q = spot)) as [-> |Hne]; set_solver.
    + intros a b p. rewrite !lookup_delete.
      destruct (decide (id = a)), (decide (id = b)); try discriminate. apply H6.
  - cbn [set_slots assigned_spots]. apply lookup_delete_eq.
  - repeat split. intros k Hk. cbn [set_slots assigned_spots].
    apply lookup_delete_ne. congruence.
Qed.

Lemma min_by_elem key : forall l best, min_by key best l ∈ best :: l.
Proof.
  induction l as [|p l IH]; intros best; cbn [min_by]; [left|].
  specialize (IH (if key p <? key best then p else best)).
  apply elem_of_cons in IH as [E|IH].
  - rewrite E. destruct (key p <? key best); [right; left|left].
  - right. right. exact IH.
Qed.

(** Taking a free spot for a car that holds none. *)
Lemma pool_allocate pm W c :
  pool_ok pm W -> assigned_spots pm !! car_id c = None ->
  pool_ok (choose_free_parking_spot pm c).2 W /\
  assigned_spots (choose_free_parking_spot pm c).2 !! car_id c
  = (choose_free_parking_spot pm c).1 /\
  pm_frame (car_id c) pm (choose_free_parking_spot pm c).2.
Proof.
  intros Hp Hid. unfold choose_free_parking_spot.
  destruct (elements (free_spots pm)) as [|x xs] eqn:Hel.
  { split; [exact Hp|]. split; [exact Hid|apply pm_frame_refl]. }
  pose proof (min_by_elem (fun p => manhattan p (current_position c)) xs x) as Hin.
  set (spot := min_by _ x xs) in *. rewrite <- Hel in Hin. apply elem_of_elements in Hin.
  destruct Hp as [H1 H2 H3 H4 H5 H6]. cbn [fst snd].
  assert (Hna : spot ∉ assigned_cells pm) by set_solver.
  split; [|split].
  - constructor; unfold assigned_cells in *; cbn [set_slots free_spots assigned_spots occupied_spots parking_cells];
      try rewrite (img_insert_fresh _ _ spot Hid).
    + set_solver.
    + set_solver.
    + set_solver.
    + set_solver.
    + rewrite <- H5. apply set_eq. intros q.
      destruct (decide (q = spot)) as [-> |Hne]; set_solver.
    + intros a b p. rewrite !lookup_insert.
      destruct (decide (car_id c = a)) as [<- |Ha], (decide (car_id c = b)) as [<- |Hb];
        try reflexivity.
      * intros [= <-] Hb'. exfalso. apply Hna. apply elem_of_map_img. eauto.
      * intros Ha' [= <-]. exfalso. apply Hna. apply elem_of_map_img. eauto.
      * apply H6.
  - cbn [set_slots assigned_spots]. apply lookup_insert_eq.
  - repeat split. intros k Hk. cbn [set_slots assigned_spots].
    apply lookup_insert_ne. congruence.
Qed.

(** [assign_goal] for a car that holds no slot. *)
Lemma assign_goal_slot pm W c :
  pool_ok pm W -> assigned_spots pm !! car_id c = None ->
  pool_ok (assign_goal pm c).2 W /\
  slot_ok (assign_goal pm c).2 (car_id c) (set_goal c (assign_goal pm c).1) /\
  pm_frame (car_id c) pm (assign_goal pm c).2.
Proof.
  intros Hp Hid. unfold assign_goal. case_bool_decide as Hpark.
  - destruct (pool_allocate pm W c Hp Hid) as (A & B & C).
    split; [exact A|]. split; [|exact C].
    intros p. rewrite B. cbn [set_goal intent goal]. tauto.
  - assert (Hs : forall g, slot_ok pm (car_id c) (set_goal c g)).
    { intros g p. rewrite Hid. cbn [set_goal intent goal]. split; [discriminate|tauto]. }
    case_bool_decide; (split; [exact Hp|]); (split; [apply Hs|apply pm_frame_refl]).
Qed.

(** A car that arrives on the spot it holds. *)
Lemma pool_occupy pm W c spot :
  pool_ok pm W -> assigned_spots pm !! car_id c = Some spot ->
  pool_ok (mark_occupied pm c spot) W /\
  assigned_spots (mark_occupied pm c spot) !! car_id c = None /\
  pm_frame (car_id c) pm (mark_occupied pm c spot).
Proof.
  intros [H1 H2 H3 H4 H5 H6] Hid. unfold mark_occupied.
  assert (Hin : spot ∈ assigned_cells pm) by (apply assigned_cells_elem; eauto).
  split; [|split].
  - constructor; unfold assigned_cells in *; cbn [set_slots free_spots assigned_spots occupied_spots parking_cells];
      try rewrite (img_delete_injective _ _ spot H6 Hid).
    + set_solver.
    + set_solver.
    + set_solver.
    + set_solver.
    + rewrite <- H5. apply set_eq. intros q.
      destruct (decide (q = spot)) as [-> |Hne]; set_solver.
    + intros a b p. rewrite !lookup_delete.
      destruct (decide (car_id c = a)), (decide (car_id c = b)); try discriminate. apply H6.
  - cbn [set_slots assigned_spots]. apply lookup_delete_eq.
  - repeat split. intros k Hk. cbn [set_slots assigned_spots].
    apply lookup_delete_ne. congruence.
Qed.

(** A waiting car wakes up: its cell is handed back. *)
Lemma pool_wake pm W cell :
  pool_ok pm W -> cell ∈ W ->
  pool_ok (set_slots pm ({[ cell ]} ∪ free_spots pm) (assigned_spots pm) (occupied_spots pm))
    (W ∖ {[ cell ]}).
Proof.
  intros [H1 H2 H3 H4 H5 H6] Hin.
  constructor; unfold assigned_cells in *; cbn [set_slots free_spots assigned_spots occupied_spots parking_cells].
  - set_solver.
  - set_solver.
  - set_solver.
  - set_solver.
  - rewrite <- H5. apply set_eq. intros q.
    destruct (decide (q = cell)) as [-> |Hne]; set_solver.
  - exact H6.
Qed.

Lemma pool_bump pm W : pool_ok pm W -> pool_ok (bump_car_id pm) W.
Proof. intros [H1 H2 H3 H4 H5 H6]. constructor; assumption. Qed.

(** Construction: a car is parked on a free spot. *)
Lemma pool_park pm W spot id :
  pool_ok pm W -> spot ∈ free_spots pm -> assigned_spots pm !! id = None ->
  pool_ok
    (set_slots pm (free_spots pm ∖ {[ spot ]}) (delete id (assigned_spots pm))
       ({[ spot ]} ∪ ({[ spot ]} ∪ occupied_spots pm))) W.
Proof.
  intros [H1 H2 H3 H4 H5 H6] Hin Hid.
  constructor; unfold assigned_cells in *; cbn [set_slots free_spots assigned_spots occupied_spots parking_cells];
    rewrite ?(delete_id _ _ Hid).
  - set_solver.
  - set_solver.
  - set_solver.
  - set_solver.
  - rewrite <- H5. apply set_eq. intros q.
    destruct (decide (q = spot)) as [-> |Hne]; set_solver.
  - exact H6.
Qed.

(** Construction: an initial active car waits on a free spot. *)
Lemma pool_wait pm W spot :
  pool_ok pm W -> spot ∈ free_spots pm ->
  pool_ok (set_slots pm (free_spots pm ∖ {[ spot ]}) (assigned_spots pm) (occupied_spots pm))
    ({[ spot ]} ∪ W).
Proof.
  intros [H1 H2 H3 H4 H5 H6] Hin.
  constructor; unfold assigned_cells in *; cbn [set_slots free_spots assigned_spots occupied_spots parking_cells].
  - set_solver.
  - set_solver.
  - set_solver.
  - set_solver.
  - rewrite <- H5. apply set_eq. intros q.
    destruct (decide (q = spot)) as [-> |Hne]; set_solver.
  - exact H6.
Qed.

Lemma pool_new parking exits entries :
  pool_ok (new_parking_manager parking exits entries) ∅.
Proof.
  constructor; unfold assigned_cells; cbn [new_parking_manager free_spots assigned_spots occupied_spots parking_cells];
    rewrite ?map_img_empty_L.
  - set_solver.
  - set_solver.
  - set_solver.
  - set_solver.
  - set_solver.
  - intros a b p H. rewrite lookup_empty in H. discriminate.
Qed.


(** ** What each operation does to the slot of its car *)

Lemma slot_kept_trans W s1 c1 s2 c2 r :
  car_id c2 = car_id c1 ->
  slot_kept W s1 c1 (c2, s2) -> slot_kept W s2 c2 r -> slot_kept W s1 c1 r.
Proof.
  intros Hid (_ & _ & F1) (P2 & S2 & F2). rewrite Hid in *.
  split; [exact P2|]. split; [exact S2|]. eapply pm_frame_trans; eassumption.
Qed.

Lemma rerandomize_exit_slot W count s car :
  pool_ok (parking_manager s) W -> slot_ok (parking_manager s) (car_id car) car ->
  slot_kept W s car (rerandomize_exit count s car).
Proof.
  intros Hp Hs. unfold rerandomize_exit, slot_kept.
  destruct (bool_decide (intent car = Some "EXIT"%string)) eqn:Hexit; cbn [andb].
  2: { split; [exact Hp|]. split; [exact Hs|apply pm_frame_refl]. }
  apply bool_decide_eq_true in Hexit.
  destruct (count mod 5 =? 0).
  2: { split; [exact Hp|]. split; [exact Hs|apply pm_frame_refl]. }
  destruct (elements _) as [|x xs].
  { split; [exact Hp|]. split; [exact Hs|apply pm_frame_refl]. }
  destruct (random_choice x xs (rng s)) as [g r]. sim_simpl.
  split; [exact Hp|]. split; [|apply pm_frame_refl].
  intros p. cbn [set_goal intent goal]. rewrite Hexit. split.
  - intros H. apply Hs in H as [H _]. congruence.
  - intros [H _]. discriminate.
Qed.

Lemma drop_slot_slot W cond s car :
  pool_ok (parking_manager s) W -> slot_ok (parking_manager s) (car_id car) car ->
  slot_kept W s car (drop_slot cond s car).
Proof.
  intros Hp Hs. unfold drop_slot, slot_kept.
  destruct (_ && _).
  2: { split; [exact Hp|]. split; [exact Hs|apply pm_frame_refl]. }
  sim_simpl. destruct (pool_release _ W (car_id car) Hp) as (A & B & C).
  split; [exact A|]. split; [|exact C].
  intros p. rewrite B. cbn [set_goal intent goal]. split; [discriminate|].
  intros [_ H]. discriminate.
Qed.

Lemma give_up_parking_slot W count s car :
  pool_ok (parking_manager s) W -> slot_ok (parking_manager s) (car_id car) car ->
  slot_kept W s car (give_up_parking count s car).
Proof.
  intros Hp Hs. unfold give_up_parking, slot_kept.
  destruct (_ && _).
  2: { split; [exact Hp|]. split; [exact Hs|apply pm_frame_refl]. }
  destruct (pool_release _ W (car_id car) Hp) as (A & B & C).
  destruct (assign_goal_slot (release_assigned_spot (parking_manager s) (car_id car)) W
              (set_intent car (Some "EXIT"%string)) A B) as (A' & B' & C').
  destruct (assign_goal _ _) as [g pm2]. sim_simpl.
  split; [exact A'|]. split; [exact B'|]. eapply pm_frame_trans; eassumption.
Qed.

Lemma escalation_policy_slot W count s car :
  pool_ok (parking_manager s) W -> slot_ok (parking_manager s) (car_id car) car ->
  slot_kept W s car (escalation_policy count s car).
Proof.
  intros Hp Hs. unfold escalation_policy.
  pose proof (rerandomize_exit_slot W count s car Hp Hs) as K1.
  pose proof (rerandomize_exit_effect count s car) as (_ & _ & [I1 _]).
  destruct (rerandomize_exit count s car) as [car1 s1]. cbn [fst snd] in *.
  pose proof K1 as (P1 & S1 & _). rewrite <- I1 in S1.
  pose proof (drop_slot_slot W (count mod 3 =? 0) s1 car1 P1 S1) as K2.
  pose proof (drop_slot_effect (count mod 3 =? 0) s1 car1) as (_ & _ & [I2 _]).
  destruct (drop_slot _ s1 car1) as [car2 s2]. cbn [fst snd] in *.
  pose proof K2 as (P2 & S2 & _). rewrite <- I2 in S2.
  pose proof (give_up_parking_slot W count s2 car2 P2 S2) as K3.
  eapply slot_kept_trans; [exact I1|exact K1|].
  eapply slot_kept_trans; [exact I2|exact K2|exact K3].
Qed.

Lemma new_car_failure_escalation_slot W s car :
  pool_ok (parking_manager s) W -> slot_ok (parking_manager s) (car_id car) car ->
  slot_kept W s car (new_car_failure_escalation s car).
Proof.
  intros Hp Hs. unfold new_car_failure_escalation.
  pose proof (rerandomize_exit_slot W (plan_fail_count car) s car Hp Hs) as K1.
  pose proof (rerandomize_exit_effect (plan_fail_count car) s car) as (_ & _ & [I1 _]).
  destruct (rerandomize_exit _ s car) as [car1 s1]. cbn [fst snd] in *.
  pose proof K1 as (P1 & S1 & _). rewrite <- I1 in S1.
  pose proof (drop_slot_slot W (plan_fail_count car1 >=? 3) s1 car1 P1 S1) as K2.
  pose proof (drop_slot_effect (plan_fail_count car1 >=? 3) s1 car1) as (_ & _ & [I2 _]).
  destruct (drop_slot _ s1 car1) as [car2 s2]. cbn [fst snd] in *.
  pose proof K2 as (P2 & S2 & _). rewrite <- I2 in S2.
  pose proof (give_up_parking_slot W (plan_fail_count car2) s2 car2 P2 S2) as K3.
  eapply slot_kept_trans; [exact I1|exact K1|].
  eapply slot_kept_trans; [exact I2|exact K2|exact K3].
Qed.

Lemma block_escalation_slot W s car :
  pool_ok (parking_manager s) W -> slot_ok (parking_manager s) (car_id car) car ->
  slot_kept W s car (block_escalation s car).
Proof.
  intros Hp Hs. unfold block_escalation.
  pose proof (drop_slot_slot W (blocked_count car mod 3 =? 0) s car Hp Hs) as K2.
  pose proof (drop_slot_effect (blocked_count car mod 3 =? 0) s car) as (_ & _ & [I2 _]).
  destruct (drop_slot _ s car) as [car2 s2]. cbn [fst snd] in *.
  pose proof K2 as (P2 & S2 & _). rewrite <- I2 in S2.
  pose proof (give_up_parking_slot W (blocked_count car2) s2 car2 P2 S2) as K3.
  eapply slot_kept_trans; [exact I2|exact K2|exact K3].
Qed.

(** Planning touches neither the parking manager nor the car's intent and goal. *)
Lemma plan_for_car_same_plan g rt h car t obs p :
  same_plan car (plan_for_car g rt h car t obs p).1.2.
Proof.
  unfold plan_for_car. destruct (goal car) eqn:Hg; [|apply same_plan_refl].
  destruct (single_agent_a_star _ _ _ _ _ _ _ _ _) as [[pth|]| |]; try apply same_plan_refl.
  split; reflexivity.
Qed.

Lemma sim_plan_for_car_slot s car t obs p :
  parking_manager (sim_plan_for_car s car t obs p).2 = parking_manager s /\
  same_plan car (sim_plan_for_car s car t obs p).1.2.
Proof.
  unfold sim_plan_for_car.
  pose proof (plan_for_car_same_plan (planner_grid (priority_planner s)) (table s)
                (planner_horizon (priority_planner s)) car t obs p) as Hc.
  destruct (plan_for_car _ _ _ car t obs p) as [[ok car'] rt']. sim_simpl.
  split; [reflexivity|exact Hc].
Qed.

Lemma cancel_plan_same_plan rt car : same_plan car (cancel_plan rt car).1.
Proof. unfold cancel_plan. destruct (has_path car); split; reflexivity. Qed.

Lemma car_step_same_plan c t : same_plan c (car_step c t).2.
Proof.
  unfold car_step. cbv zeta.
  destruct (path c !! _) as [[[x y] t']|].
  - destruct (t' =? t + 1); [split; reflexivity|].
    destruct (t' >? t + 1); [split; reflexivity|].
    destruct (_ && _); split; reflexivity.
  - destruct (_ && _); split; reflexivity.
Qed.


(** ** Slots through [_handle_new_car], [plan_car] and the commit loop *)

Lemma no_slot_ok pm id c :
  assigned_spots pm !! id = None -> intent c <> Some "PARK"%string \/ goal c = None ->
  slot_ok pm id c.
Proof.
  intros Hid Hc p. rewrite Hid. split; [discriminate|].
  intros [Hi Hg]. destruct Hc as [Hc|Hc]; congruence.
Qed.

Lemma slot_ok_no_goal pm id c :
  slot_ok pm id c -> goal c = None -> assigned_spots pm !! id = None.
Proof.
  intros Hs Hg. destruct (assigned_spots pm !! id) as [p|] eqn:E; [|reflexivity].
  apply Hs in E as [_ E]. congruence.
Qed.

Lemma slot_ok_not_park pm id c :
  slot_ok pm id c -> intent c <> Some "PARK"%string -> assigned_spots pm !! id = None.
Proof.
  intros Hs Hg. destruct (assigned_spots pm !! id) as [p|] eqn:E; [|reflexivity].
  apply Hs in E as [E _]. congruence.
Qed.

Lemma handle_new_car_slot W s car t :
  pool_ok (parking_manager s) W ->
  assigned_spots (parking_manager s) !! car_id car = None ->
  pool_ok (parking_manager (_handle_new_car s car t)) W /\
  pm_frame (car_id car) (parking_manager s) (parking_manager (_handle_new_car s car t)) /\
  exists c', all_cars (_handle_new_car s car t) !! car_id car = Some c' /\
             slot_ok (parking_manager (_handle_new_car s car t)) (car_id car) c'.
Proof.
  intros Hp Hid. unfold _handle_new_car. cbv zeta. sim_simpl.
  destruct (assign_goal_slot (parking_manager s) W car Hp Hid) as (A & B & C).
  destruct (assign_goal (parking_manager s) car) as [g pm]. sim_simpl.
  destruct g as [g|].
  2: { sim_simpl. split; [exact A|]. split; [exact C|].
       eexists. rewrite lookup_insert_eq. split; [reflexivity|exact B]. }
  match goal with |- context [sim_plan_for_car ?s0 ?c0 ?t0 ?o0 ?p0] =>
    pose proof (sim_plan_for_car_slot s0 c0 t0 o0 p0) as (Epm & Hsp);
    pose proof (sim_plan_for_car_effect s0 c0 t0 o0 p0) as (_ & _ & [Hcid _]);
    destruct (sim_plan_for_car s0 c0 t0 o0 p0) as [[ok car2] s3]
  end.
  sim_simpl.
  assert (S2 : slot_ok pm (car_id car) car2).
  { eapply slot_ok_same_plan; [exact Hsp|exact B]. }
  destruct ok.
  - sim_simpl. rewrite Epm, Hcid. split; [exact A|]. split; [exact C|].
    eexists. rewrite lookup_insert_eq. split; [reflexivity|].
    eapply slot_ok_same_plan; [|exact S2]. split; reflexivity.
  - match goal with |- context [new_car_failure_escalation ?s0 ?c0] =>
      pose proof (new_car_failure_escalation_slot W s0 c0) as K;
      pose proof (new_car_failure_escalation_effect s0 c0) as (_ & _ & [Hcid' _]);
      destruct (new_car_failure_escalation s0 c0) as [car4 s5]
    end.
    unfold slot_kept in K. sim_simpl. rewrite Epm, Hcid in K.
    destruct K as (K1 & K2 & K3).
    + exact A.
    + eapply slot_ok_same_plan; [|exact S2]. split; reflexivity.
    + cbn [fst snd] in *. rewrite Hcid', Hcid.
      split; [exact K1|]. split; [eapply pm_frame_trans; eassumption|].
      eexists. rewrite lookup_insert_eq. split; [reflexivity|exact K2].
Qed.

Lemma plan_car_slot W s id car :
  all_cars s !! id = Some car -> car_id car = id ->
  pool_ok (parking_manager s) W -> slot_ok (parking_manager s) id car ->
  pool_ok (parking_manager (plan_car s id)) W /\
  pm_frame id (parking_manager s) (parking_manager (plan_car s id)) /\
  exists c', all_cars (plan_car s id) !! id = Some c' /\
             slot_ok (parking_manager (plan_car s id)) id c'.
Proof.
  intros Hcar Hid Hp Hs. unfold plan_car. rewrite Hcar.
  set (st := if has_goal car then (car, s)
             else let '(g, pm) := assign_goal (parking_manager s) car in
                  (set_goal car g, store_car (with_parking_manager s pm) (set_goal car g))).
  assert (Hst : pool_ok (parking_manager st.2) W /\
                pm_frame id (parking_manager s) (parking_manager st.2) /\
                slot_ok (parking_manager st.2) id st.1 /\
                all_cars st.2 !! id = Some st.1 /\ car_id st.1 = id).
  { unfold st. destruct (has_goal car) eqn:Hg.
    - sim_simpl. split; [exact Hp|]. split; [apply pm_frame_refl|]. auto.
    - assert (Hnone : assigned_spots (parking_manager s) !! car_id car = None).
      { rewrite Hid. apply (slot_ok_no_goal _ _ car Hs).
        unfold has_goal in Hg. apply bool_decide_eq_false in Hg.
        destruct (goal car); [exfalso; apply Hg; discriminate|reflexivity]. }
      destruct (assign_goal_slot (parking_manager s) W car Hp Hnone) as (A & B & C).
      destruct (assign_goal (parking_manager s) car) as [g pm]. sim_simpl.
      rewrite Hid in *. split; [exact A|]. split; [exact C|]. split; [exact B|].
      split; [apply lookup_insert_eq|reflexivity]. }
  destruct st as [car1 s1]. sim_simpl. destruct Hst as (P1 & F1 & S1 & H1 & Hid1).
  destruct (has_goal car1); sim_simpl.
  2: { split; [exact P1|]. split; [exact F1|]. eauto. }
  destruct (random_randint 10 30 (rng s1)) as [persistence r].
  match goal with |- context [sim_plan_for_car ?s0 ?c0 ?t0 ?o0 ?p0] =>
    pose proof (sim_plan_for_car_slot s0 c0 t0 o0 p0) as (Epm & Hsp);
    pose proof (sim_plan_for_car_effect s0 c0 t0 o0 p0) as (_ & _ & [Hcid _]);
    destruct (sim_plan_for_car s0 c0 t0 o0 p0) as [[ok car2] s3]
  end.
  sim_simpl.
  assert (S2 : slot_ok (parking_manager s1) id car2).
  { eapply slot_ok_same_plan; [exact Hsp|exact S1]. }
  destruct ok; cbn [negb]; sim_simpl.
  - rewrite Epm, Hcid, Hid1. split; [exact P1|]. split; [exact F1|].
    eexists. rewrite lookup_insert_eq. split; [reflexivity|].
    eapply slot_ok_same_plan; [|exact S2]. split; reflexivity.
  - unfold plan_failure_escalation.
    match goal with |- context [escalation_policy ?n0 ?s0 ?c0] =>
      pose proof (escalation_policy_slot W n0 s0 c0) as K;
      pose proof (escalation_policy_effect n0 s0 c0) as (_ & _ & [Hcid' _]);
      destruct (escalation_policy n0 s0 c0) as [car4 s4]
    end.
    unfold slot_kept in K. sim_simpl. rewrite Epm, Hcid, Hid1 in K.
    destruct K as (K1 & K2 & K3).
    + exact P1.
    + eapply slot_ok_same_plan; [|exact S2]. split; reflexivity.
    + cbn [fst snd] in *. rewrite Hcid', Hcid, Hid1.
      split; [exact K1|]. split; [eapply pm_frame_trans; eassumption|].
      eexists. rewrite lookup_insert_eq. split; [reflexivity|exact K2].
Qed.

(** A car that reaches its goal leaves the active cars with its slot
    settled. *)
Lemma arrive_moved_slot W s car final :
  goal car = Some final ->
  pool_ok (parking_manager s) W -> slot_ok (parking_manager s) (car_id car) car ->
  pool_ok (parking_manager (arrive_moved s car final)) W /\
  pm_frame (car_id car) (parking_manager s) (parking_manager (arrive_moved s car final)) /\
  car_id car ∉ active_cars (arrive_moved s car final) /\
  assigned_spots (parking_manager (arrive_moved s car final)) !! car_id car = None.
Proof.
  intros Hg Hp Hs. unfold arrive_moved. cbv zeta.
  assert (Hrm : forall l, car_id car ∉ remove_id l (car_id car)).
  { intros l H. apply remove_id_elem in H. tauto. }
  case_bool_decide as Hpark; [|case_bool_decide as Hexit]; sim_simpl.
  - assert (Ha : assigned_spots (parking_manager s) !! car_id car = Some final)
      by (apply Hs; auto).
    destruct (pool_occupy _ W car final Hp Ha) as (A & B & C). auto.
  - split; [exact Hp|]. split; [apply pm_frame_refl|]. split; [apply Hrm|].
    apply (slot_ok_not_park _ _ car Hs Hpark).
  - split; [exact Hp|]. split; [apply pm_frame_refl|]. split; [apply Hrm|].
    apply (slot_ok_not_park _ _ car Hs Hpark).
Qed.

Lemma arrive_standing_slot W s car pos :
  goal car = Some pos ->
  pool_ok (parking_manager s) W -> slot_ok (parking_manager s) (car_id car) car ->
  pool_ok (parking_manager (arrive_standing s car pos)) W /\
  pm_frame (car_id car) (parking_manager s) (parking_manager (arrive_standing s car pos)) /\
  car_id car ∉ active_cars (arrive_standing s car pos) /\
  assigned_spots (parking_manager (arrive_standing s car pos)) !! car_id car = None.
Proof.
  intros Hg Hp Hs. unfold arrive_standing. cbv zeta.
  assert (Hrm : forall l, car_id car ∉ remove_id l (car_id car)).
  { intros l H. apply remove_id_elem in H. tauto. }
  case_bool_decide as Hpark; [|case_bool_decide as Hexit]; sim_simpl.
  - assert (Ha : assigned_spots (parking_manager s) !! car_id car = Some pos)
      by (apply Hs; auto).
    destruct (pool_occupy _ W car pos Hp Ha) as (A & B & C). auto.
  - split; [exact Hp|]. split; [apply pm_frame_refl|]. split; [apply Hrm|].
    apply (slot_ok_not_park _ _ car Hs Hpark).
  - split; [exact Hp|]. split; [apply pm_frame_refl|]. split; [apply Hrm|].
    apply (slot_ok_not_park _ _ car Hs Hpark).
Qed.

Lemma commit_car_slot W am im s id car :
  all_cars s !! id = Some car -> car_id car = id ->
  pool_ok (parking_manager s) W -> slot_ok (parking_manager s) id car ->
  pool_ok (parking_manager (commit_car am im s id)) W /\
  pm_frame id (parking_manager s) (parking_manager (commit_car am im s id)) /\
  ((active_cars (commit_car am im s id) = active_cars s /\
    exists c', all_cars (commit_car am im s id) !! id = Some c' /\
               slot_ok (parking_manager (commit_car am im s id)) id c') \/
   (id ∉ active_cars (commit_car am im s id) /\
    assigned_spots (parking_manager (commit_car am im s id)) !! id = None)).
Proof.
  intros Hcar Hid Hp Hs. unfold commit_car. rewrite Hcar.
  assert (Hsame : pool_ok (parking_manager s) W /\
                  pm_frame id (parking_manager s) (parking_manager s) /\
                  ((active_cars s = active_cars s /\
                    exists c', all_cars s !! id = Some c' /\
                               slot_ok (parking_manager s) id c') \/
                   (id ∉ active_cars s /\ assigned_spots (parking_manager s) !! id = None))).
  { split; [exact Hp|]. split; [apply pm_frame_refl|]. left. eauto. }

  destruct (dict_get am id) as [final|]; [|exact Hsame].
  destruct (dict_get im id) as [intended|]; [|exact Hsame].
  cbv zeta.
  pose proof (car_step_same_plan car (time s)) as Hstep.
  destruct (car_step_spec car (time s)) as (Sid & _).
  case_bool_decide as Hmove.
  - set (car1 := set_blocked_count (car_step car (time s)).2 0).
    assert (H1 : car_id car1 = id) by (unfold car1; sim_simpl; congruence).
    assert (S1 : slot_ok (parking_manager s) id car1).
    { eapply slot_ok_same_plan; [|exact Hs]. unfold car1.
      eapply same_plan_trans; [exact Hstep|]. split; reflexivity. }
    case_bool_decide as Hgoal.
    + match goal with |- context [arrive_moved ?s0 car1 final] =>
        destruct (arrive_moved_slot W s0 car1 final) as (A & B & C & D)
      end.
      * symmetry. exact Hgoal.
      * sim_simpl. exact Hp.
      * sim_simpl. rewrite H1. exact S1.
      * rewrite H1 in *. sim_simpl. split; [exact A|]. split; [exact B|]. right. auto.
    + sim_simpl. rewrite H1. split; [exact Hp|]. split; [apply pm_frame_refl|].
      left. split; [reflexivity|].
      eexists. rewrite lookup_insert_eq. split; [reflexivity|exact S1].
  - case_bool_decide as Hwant.
    + pose proof (cancel_plan_same_plan (table s) car) as Hc.
      pose proof (cancel_plan_same (table s) car) as [Ca _].
      destruct (cancel_plan (table s) car) as [car1 rt]. sim_simpl.
      match goal with |- context [block_escalation ?s0 ?c0] =>
        pose proof (block_escalation_slot W s0 c0) as K;
        pose proof (block_escalation_effect s0 c0) as (Hbk & _ & [Hcid' _]);
        destruct (block_escalation s0 c0) as [car3 s1]
      end.
      unfold slot_kept in K. sim_simpl. rewrite Ca, Hid in *.
      destruct K as (K1 & K2 & K3).
      * exact Hp.
      * eapply slot_ok_same_plan; [|exact Hs].
        eapply same_plan_trans; [exact Hc|]. split; reflexivity.
      * cbn [fst snd] in *. rewrite Hcid'. split; [exact K1|]. split; [exact K3|].
        left. split; [apply books_fields in Hbk as (Ba & _); exact Ba|].
        eexists. rewrite lookup_insert_eq. split; [reflexivity|exact K2].
    + set (st := if has_path car then
                   let '(stepped_pos, car') := car_step car (time s) in
                   (car',
                    match stepped_pos with
                    | Some p => store_car (with_car_positions s
                                             (dict_set (car_positions s) id p)) car'
                    | None => store_car s car'
                    end)
                 else (car, s)).
      assert (Hst : parking_manager st.2 = parking_manager s /\
                    active_cars st.2 = active_cars s /\
                    all_cars st.2 !! id = Some st.1 /\
                    car_id st.1 = id /\ same_plan car st.1).
      { unfold st. destruct (has_path car).
        - destruct (car_step car (time s)) as [stepped car'] eqn:Estep. sim_simpl.
          destruct stepped; sim_simpl; rewrite Sid, Hid, lookup_insert_eq; auto.
        - sim_simpl. split; [reflexivity|]. split; [reflexivity|].
          split; [exact Hcar|]. split; [exact Hid|]. apply same_plan_refl. }
      destruct st as [car1 s1]. sim_simpl. destruct Hst as (Epm & Eact & Hh & Hid1 & Hsp).
      assert (S1 : slot_ok (parking_manager s1) id car1).
      { rewrite Epm. eapply slot_ok_same_plan; [exact Hsp|exact Hs]. }
      destruct (is_finished car1 && has_path car1).
      * case_bool_decide as Hgoal.
        -- destruct (arrive_standing_slot W s1 car1 (_position car)) as (A & B & C & D).
           ++ symmetry. exact Hgoal.
           ++ rewrite Epm. exact Hp.
           ++ rewrite Hid1. exact S1.
           ++ rewrite Hid1, Epm in *. split; [exact A|]. split; [exact B|]. right. auto.
        -- sim_simpl. rewrite Hid1, Epm. split; [exact Hp|]. split; [apply pm_frame_refl|].
           left. split; [exact Eact|].
           eexists. rewrite lookup_insert_eq. split; [reflexivity|].
           rewrite <- Epm. eapply slot_ok_same_plan; [|exact S1]. split; reflexivity.
      * rewrite Epm. split; [exact Hp|]. split; [apply pm_frame_refl|].
        left. split; [exact Eact|]. exists car1. split; [exact Hh|]. rewrite <- Epm. exact S1.
Qed.


(** ** The parking invariant through the scheduler *)

Lemma waiting_cells_elem s p :
  p ∈ waiting_cells s <->
  exists id, id ∈ waiting_active_cars s /\ dict_get (car_positions s) id = Some p.
Proof.
  unfold waiting_cells. rewrite elem_of_list_to_set, list_elem_of_omap. reflexivity.
Qed.

Lemma waiting_cells_same s s' :
  waiting_active_cars s' = waiting_active_cars s ->
  (forall k, k ∈ waiting_active_cars s ->
     dict_get (car_positions s') k = dict_get (car_positions s) k) ->
  waiting_cells s' = waiting_cells s.
Proof.
  intros Hw Hcp. apply set_eq. intros p. rewrite !waiting_cells_elem, Hw. split.
  - intros (k & Hk & Hp). exists k. split; [exact Hk|]. rewrite <- Hcp; assumption.
  - intros (k & Hk & Hp). exists k. split; [exact Hk|]. rewrite Hcp; assumption.
Qed.

Lemma slot_ok_assigned pm pm' id c :
  assigned_spots pm' = assigned_spots pm -> slot_ok pm id c -> slot_ok pm' id c.
Proof. intros E Hs p. rewrite E. apply Hs. Qed.

Lemma pool_ok_ext pm pm' W :
  free_spots pm' = free_spots pm -> assigned_spots pm' = assigned_spots pm ->
  occupied_spots pm' = occupied_spots pm -> parking_cells pm' = parking_cells pm ->
  pool_ok pm W -> pool_ok pm' W.
Proof.
  intros E1 E2 E3 E4 [H1 H2 H3 H4 H5 H6].
  constructor; unfold assigned_cells in *; rewrite ?E1, ?E2, ?E3, ?E4; assumption.
Qed.

(** One car's slot changes; every other car keeps its own. *)
Lemma park_ok_update s s' id :
  park_ok s ->
  waiting_active_cars s' = waiting_active_cars s ->
  (forall k, k ∈ waiting_active_cars s ->
     dict_get (car_positions s') k = dict_get (car_positions s) k) ->
  id ∉ waiting_active_cars s ->
  pm_frame id (parking_manager s) (parking_manager s') ->
  pool_ok (parking_manager s') (waiting_cells s) ->
  (forall k, k <> id -> all_cars s' !! k = all_cars s !! k) ->
  (forall k, k <> id -> k ∈ active_cars s' <-> k ∈ active_cars s) ->
  (id ∈ active_cars s' /\
   exists c', all_cars s' !! id = Some c' /\ slot_ok (parking_manager s') id c') \/
  (id ∉ active_cars s' /\ assigned_spots (parking_manager s') !! id = None) ->
  park_ok s'.
Proof.
  intros [K1 K2 K3] Hw Hcp Hnw Hframe Hpool Hheap Hact Hid.
  constructor.
  - rewrite (waiting_cells_same s s' Hw Hcp). exact Hpool.
  - intros k Hk. rewrite Hw. destruct (decide (k = id)) as [-> |Hne].
    + split; [|exact Hnw]. destruct Hid as [[Hid _]|[_ Hid]]; [exact Hid|].
      rewrite Hid in Hk. destruct Hk; discriminate.
    + destruct Hframe as (_ & _ & Hframe). rewrite Hframe in Hk by exact Hne.
      destruct (K2 k Hk) as [A B]. split; [apply Hact; assumption|exact B].
  - intros k c Hk Hc. destruct (decide (k = id)) as [-> |Hne].
    + destruct Hid as [[_ (c' & Hc' & Hs)]|[Hid _]]; [|contradiction].
      rewrite Hc in Hc'. inversion Hc'. subst c'. exact Hs.
    + apply (slot_ok_frame id k (parking_manager s)); [exact Hframe|exact Hne|].
      apply K3; [apply Hact; assumption|]. rewrite <- Hheap; assumption.
Qed.

Lemma plan_car_park s id :
  store_ok s -> park_ok s -> id ∈ active_cars s -> id ∉ waiting_active_cars s ->
  park_ok (plan_car s id).
Proof.
  intros Hok Hpk Hid Hnw. destruct (so_active s Hok id Hid) as (car & Hcar & _).
  pose proof (so_heap s Hok id car Hcar) as Hcid.
  destruct (plan_car_effect s id car Hcar Hcid) as (Hb & c' & Hh & _).
  apply books_fields in Hb as (Ba & Bp & Bpe & Bw & Bt & Bn).
  destruct (plan_car_slot (waiting_cells s) s id car Hcar Hcid (pk_pool s Hpk)
              (pk_slot s Hpk id car Hid Hcar)) as (P & F & c'' & Hc'' & S).
  apply (park_ok_update s _ id); try assumption.
  - intros k _. rewrite Bp. reflexivity.
  - intros k Hk. rewrite Hh. apply lookup_insert_ne. congruence.
  - intros k _. rewrite Ba. reflexivity.
  - left. rewrite Ba. split; [exact Hid|]. eauto.
Qed.

Lemma commit_car_park am im s id car final :
  store_ok s -> park_ok s -> id ∈ active_cars s ->
  all_cars s !! id = Some car ->
  dict_get am id = Some final ->
  dict_get im id = Some (default (current_position car) (peek_at_next_step car (time s))) ->
  final = current_position car \/
    final = default (current_position car) (peek_at_next_step car (time s)) ->
  park_ok (commit_car am im s id).
Proof.
  intros Hok Hpk Hid Hcar Ham Him Hfinal.
  destruct (so_active s Hok id Hid) as (car0 & Hcar0 & Hpos).
  rewrite Hcar in Hcar0. inversion Hcar0; subst car0. clear Hcar0.
  pose proof (so_heap s Hok id car Hcar) as Hcid.
  destruct (decide (path car = [])) as [Hp|Hp].
  - assert (Hfin : final = current_position car).
    { destruct Hfinal as [H|H]; [exact H|]. rewrite (peek_no_path car (time s) Hp) in H. exact H. }
    subst final. rewrite (peek_no_path car (time s) Hp) in Him. simpl in Him.
    rewrite (commit_car_no_path am im s id car Hcar Hp Ham Him). exact Hpk.
  - destruct (commit_car_effect am im s id car final Hcar Hcid Ham Him Hfinal Hpos)
      as (Ecp & Ew & Et & En & (c' & Eh & _) & Hact).
    destruct (commit_car_slot (waiting_cells s) am im s id car Hcar Hcid (pk_pool s Hpk)
                (pk_slot s Hpk id car Hid Hcar)) as (P & F & Hslot).
    assert (Hnw : id ∉ waiting_active_cars s).
    { intros Hw. destruct (so_waiting s Hok id Hw) as (_ & c & Hc & Hcp). congruence. }
    apply (park_ok_update s _ id); try assumption.
    + intros k Hk. rewrite Ecp. apply dict_get_set_ne. intros ->. contradiction.
    + intros k Hk. rewrite Eh. apply lookup_insert_ne. congruence.
    + intros k Hk. destruct Hact as [[Ea _]|[Ea _]]; rewrite Ea; [reflexivity|].
      rewrite remove_id_elem. tauto.
    + destruct Hslot as [[Ea Hc]|Hgone]; [left|right; exact Hgone].
      rewrite Ea. split; [exact Hid|exact Hc].
Qed.

Lemma handle_new_car_park s car t :
  park_ok s -> car_id car ∉ waiting_active_cars s ->
  assigned_spots (parking_manager s) !! car_id car = None ->
  park_ok (_handle_new_car s car t).
Proof.
  intros Hpk Hnw Hnone.
  destruct (handle_new_car_effect s car t) as (Ea & Ecp & Ep & Ew & Et & En & c' & Eh & _).
  destruct (handle_new_car_slot (waiting_cells s) s car t (pk_pool s Hpk) Hnone)
    as (P & F & c'' & Hc'' & S).
  apply (park_ok_update s _ (car_id car)); try assumption.
  - intros k Hk. rewrite Ecp. apply dict_get_set_ne. intros E. rewrite E in Hnw. contradiction.
  - intros k Hk. rewrite Eh. apply lookup_insert_ne. congruence.
  - intros k Hk. rewrite Ea, activate_elem. tauto.
  - left. rewrite Ea, activate_elem. split; [tauto|]. eauto.
Qed.

Lemma wake_car_park s id :
  sim_ok s -> id ∈ waiting_active_cars s -> park_ok (wake_car s id).
Proof.
  intros [[Hok Hinj] Hpk] Hw. unfold wake_car.
  destruct (so_waiting s Hok id Hw) as (Hid & car & Hcar & Hpath). rewrite Hcar.
  destruct (so_active s Hok id Hid) as (car0 & Hcar0 & Hpos).
  rewrite Hcar in Hcar0. inversion Hcar0; subst car0. clear Hcar0.
  pose proof (so_heap s Hok id car Hcar) as Hcid.
  destruct (current_position car) as [cx cy] eqn:Epos. cbv zeta.
  match goal with |- context [_handle_new_car ?s0 car ?t0] =>
    set (s3 := s0); set (t3 := t0)
  end.
  pose proof (remove_first_id_NoDup _ id (so_waiting_nodup s Hok)) as Hrm.
  assert (HW : waiting_cells s3 = waiting_cells s ∖ {[ (cx, cy) ]}).
  { apply set_eq. intros p.
    rewrite elem_of_difference, elem_of_singleton, !waiting_cells_elem.
    unfold s3. sim_simpl. rewrite Hrm. split.
    - intros (k & Hk & Hp). apply remove_id_elem in Hk as [Hk Hne].
      split; [eauto|]. intros ->. apply Hne. apply (Hinj k id (cx, cy)); assumption.
    - intros [(k & Hk & Hp) Hne]. exists k. split; [|exact Hp].
      apply remove_id_elem. split; [exact Hk|]. intros ->. congruence. }
  destruct Hpk as [K1 K2 K3].
  assert (Hpk3 : park_ok s3).
  { constructor.
    - rewrite HW. unfold s3. sim_simpl. apply pool_wake; [exact K1|].
      apply waiting_cells_elem. eauto.
    - unfold s3. sim_simpl. intros k Hk. destruct (K2 k Hk) as [A B].
      split; [exact A|]. rewrite Hrm, remove_id_elem. tauto.
    - unfold s3. sim_simpl. intros k c Hk Hc.
      apply (slot_ok_assigned (parking_manager s)); [reflexivity|]. apply K3; assumption. }
  apply handle_new_car_park; [exact Hpk3| |].
  - rewrite Hcid. unfold s3. sim_simpl. rewrite Hrm, remove_id_elem. tauto.
  - rewrite Hcid. unfold s3. sim_simpl.
    destruct (assigned_spots (parking_manager s) !! id) eqn:E; [|reflexivity].
    destruct (K2 id) as [_ B]; [eauto|]. contradiction.
Qed.

Lemma wake_car_waiting_eq s id :
  store_ok s -> id ∈ waiting_active_cars s ->
  waiting_active_cars (wake_car s id) = remove_id (waiting_active_cars s) id.
Proof.
  intros Hok Hw. unfold wake_car.
  destruct (so_waiting s Hok id Hw) as (_ & car & Hcar & _). rewrite Hcar.
  destruct (current_position car) as [cx cy]. cbv zeta.
  match goal with |- context [_handle_new_car ?s0 car ?t0] =>
    destruct (handle_new_car_effect s0 car t0) as (_ & _ & _ & Ew & _)
  end.
  rewrite Ew. sim_simpl. apply remove_first_id_NoDup, (so_waiting_nodup s Hok).
Qed.

Lemma wake_cars_sim_ok ids : forall s,
  sim_ok s -> NoDup ids -> (forall i, i ∈ ids -> i ∈ waiting_active_cars s) ->
  sim_ok (fold_left wake_car ids s) /\
  time (fold_left wake_car ids s) = time s /\
  next_car_id (parking_manager (fold_left wake_car ids s)) = next_car_id (parking_manager s).
Proof.
  induction ids as [|id ids IH]; intros s Hok Hnd Hids; cbn [fold_left]; [auto|].
  apply NoDup_cons in Hnd as [Hnin Hnd].
  assert (Hw : id ∈ waiting_active_cars s) by (apply Hids; left).
  pose proof Hok as [[Hso Hinj] Hpk].
  destruct (so_waiting s Hso id Hw) as (Hid & _).
  destruct (wake_car_positions_ok s id (conj Hso Hinj) Hid) as (R1 & R2 & R3 & R4).
  pose proof (wake_car_park s id Hok Hw) as R5.
  destruct (IH (wake_car s id) (conj R1 R5) Hnd) as (Q1 & Q2 & Q3).
  - intros i Hi. rewrite (wake_car_waiting_eq s id Hso Hw). apply remove_id_elem.
    split; [apply Hids; right; exact Hi|]. intros ->. contradiction.
  - split; [exact Q1|]. split; congruence.
Qed.

Lemma draw_wake_ups_NoDup rate waiting : forall r,
  NoDup waiting -> NoDup (draw_wake_ups rate waiting r).1.
Proof.
  induction waiting as [|id rest IH]; intros r Hnd; cbn [draw_wake_ups].
  - constructor.
  - apply NoDup_cons in Hnd as [Hnin Hnd].
    destruct (random_random r) as [x r1].
    pose proof (IH r1 Hnd) as IH'. pose proof (draw_wake_ups_elem rate rest r1 id) as Hel.
    destruct (draw_wake_ups rate rest r1) as [woke r2].
    cbn [fst] in *. destruct (Qltb x rate); [|exact IH'].
    apply NoDup_cons. split; [|exact IH']. intros H. apply Hnin, Hel, H.
Qed.

Lemma process_waiting_sim_ok s :
  sim_ok s ->
  sim_ok (_process_waiting_active_cars s) /\
  time (_process_waiting_active_cars s) = time s.
Proof.
  intros Hok. unfold _process_waiting_active_cars.
  destruct (waiting_active_cars s) as [|w ws] eqn:Hw; [auto|]. rewrite <- Hw.
  pose proof (draw_wake_ups_elem (initial_active_exit_rate (config s))
                (waiting_active_cars s) (rng s)) as Hsub.
  destruct Hok as [[Hso Hinj] Hpk].
  pose proof (draw_wake_ups_NoDup (initial_active_exit_rate (config s))
                (waiting_active_cars s) (rng s) (so_waiting_nodup s Hso)) as Hnd.
  destruct (draw_wake_ups _ (waiting_active_cars s) (rng s)) as [woke r]. cbn [fst] in *.
  destruct (wake_cars_sim_ok woke (with_rng s r)) as (A & B & _).
  - split; [split; [|exact Hinj]|].
    + constructor; apply Hso.
    + destruct Hpk as [K1 K2 K3]. constructor; assumption.
  - exact Hnd.
  - intros i Hi. apply Hsub, Hi.
  - auto.
Qed.

Lemma cleanup_park s : sim_ok s -> park_ok (_cleanup_exited_cars s).
Proof.
  intros [[Hok Hinj] [K1 K2 K3]]. unfold _cleanup_exited_cars.
  constructor; sim_simpl; try assumption.
  erewrite waiting_cells_same; [exact K1|reflexivity|].
  sim_simpl. intros k Hk. rewrite dels_get.
  rewrite bool_decide_eq_false_2; [reflexivity|].
  rewrite elem_of_elements. apply (so_pending s Hok). apply (so_waiting s Hok k Hk).
Qed.

Lemma poisson_park s : sim_ok s -> park_ok (_maybe_poisson_arrival s).
Proof.
  intros [[Hok Hinj] Hpk]. unfold _maybe_poisson_arrival.
  destruct (arriving_cars_created s >=? max_arriving_cars (config s)); [auto|].
  case_bool_decide as Hfree; [auto|].
  unfold _get_free_entry.
  destruct (random_shuffle (elements (entry_cells (parking_manager s))) (rng s))
    as [entries r].
  assert (Hrng : forall r0, park_ok (with_rng s r0)).
  { intros r0. destruct Hpk as [K1 K2 K3]. constructor; assumption. }
  destruct (List.find (entry_is_free s) entries) as [e|] eqn:Hfind; [|apply Hrng].
  sim_simpl. destruct (random_random r) as [x r1]. sim_simpl.
  destruct (Qltb x (arrival_lambda (config s))); [|apply Hrng].
  unfold create_active_car. sim_simpl.
  assert (Hnew : forall i, i ∈ active_cars s -> i <> next_car_id (parking_manager s)).
  { intros i Hi. assert (i < next_car_id (parking_manager s))%nat; [|lia].
    apply (so_fresh s Hok). tauto. }
  assert (Hnw : next_car_id (parking_manager s) ∉ waiting_active_cars s).
  { intros Hw. apply (so_waiting s Hok) in Hw as [Hw _]. apply (Hnew _ Hw). reflexivity. }
  destruct Hpk as [K1 K2 K3].
  apply handle_new_car_park.
  - constructor; sim_simpl.
    + erewrite waiting_cells_same; [apply pool_bump; exact K1|reflexivity|].
      sim_simpl. intros k Hk. apply dict_get_set_ne. intros <-. contradiction.
    + exact K2.
    + intros k c Hk Hc. apply (slot_ok_assigned (parking_manager s)); [reflexivity|].
      apply K3; assumption.
  - sim_simpl. exact Hnw.
  - sim_simpl. destruct (assigned_spots (parking_manager s) !! _) eqn:E; [|reflexivity].
    destruct (K2 (next_car_id (parking_manager s))) as [A _]; [eauto|].
    exfalso. apply (Hnew _ A). reflexivity.
Qed.

(** ** One [step()], both invariants *)

Lemma step_sim_ok s :
  sim_ok s -> exists s', step s = Done s' /\ sim_ok s'.
Proof.
  intros Hok. unfold step.
  destruct (cleanup_positions_ok s (proj1 Hok)) as (H1 & _).
  pose proof (cleanup_park s Hok) as P1.
  destruct (process_waiting_sim_ok _ (conj H1 P1)) as ([H2 P2] & _).
  destruct (advance_inv park_ok plan_car_park commit_car_park _ H2 P2)
    as (s1 & -> & H3 & P3 & _).
  destruct (poisson_positions_ok s1 H3) as ([H4 H4'] & _).
  pose proof (poisson_park s1 (conj H3 P3)) as [K1 K2 K3].
  eexists. split; [reflexivity|]. split.
  - split; [|exact H4']. constructor; apply H4.
  - constructor; assumption.
Qed.

Lemma steps_sim_ok n : forall s,
  sim_ok s -> exists s', steps n s = Done s' /\ sim_ok s'.
Proof.
  induction n as [|n IH]; intros s Hok; cbn [steps]; [eauto|].
  destruct (IH s Hok) as (s1 & -> & H1). apply step_sim_ok, H1.
Qed.


(** ** The parking invariant after construction *)

Lemma fresh_id_unused s :
  store_ok s -> park_ok s ->
  next_car_id (parking_manager s) ∉ active_cars s /\
  next_car_id (parking_manager s) ∉ waiting_active_cars s /\
  assigned_spots (parking_manager s) !! next_car_id (parking_manager s) = None.
Proof.
  intros Hok Hpk.
  assert (Ha : next_car_id (parking_manager s) ∉ active_cars s).
  { intros Hi. assert (next_car_id (parking_manager s) < next_car_id (parking_manager s))%nat;
      [|lia]. apply (so_fresh s Hok). tauto. }
  split; [exact Ha|]. split.
  - intros Hw. apply Ha. apply (so_waiting s Hok _ Hw).
  - destruct (assigned_spots (parking_manager s) !! _) eqn:E; [|reflexivity].
    exfalso. apply Ha. apply (pk_dom s Hpk). eauto.
Qed.

Lemma place_parked_car_park s car pm r :
  create_parked_car (parking_manager s) (rng s) = Some (car, pm, r) ->
  store_ok s -> park_ok s -> park_ok (place_parked_car s car pm r).
Proof.
  intros Hc Hok Hpk.
  apply create_parked_car_spec in Hc as (spot & Hin & -> & ->).
  destruct (fresh_id_unused s Hok Hpk) as (Ha & Hw & Hnone).
  destruct Hpk as [K1 K2 K3].
  unfold place_parked_car, mark_occupied. cbv zeta.
  match goal with |- park_ok ?s0 => set (s1 := s0) end.
  assert (HW : waiting_cells s1 = waiting_cells s).
  { apply waiting_cells_same; [reflexivity|].
    unfold s1. sim_simpl. intros k Hk. apply dict_get_set_ne. intros <-. contradiction. }
  constructor; [rewrite HW|..]; unfold s1; sim_simpl.
  - eapply pool_ok_ext; [| | | |exact (pool_park _ _ spot _ K1 Hin Hnone)]; reflexivity.
  - intros k Hk. rewrite lookup_delete in Hk.
    destruct (decide (next_car_id (parking_manager s) = k)); [destruct Hk; discriminate|].
    apply K2, Hk.
  - intros k c Hk Hc.
    assert (Hne : next_car_id (parking_manager s) <> k) by (intros <-; contradiction).
    rewrite lookup_insert_ne in Hc by exact Hne.
    intros p. cbn [set_slots assigned_spots]. rewrite lookup_delete_ne by exact Hne.
    apply (K3 k c Hk Hc).
Qed.

Lemma place_waiting_car_park s spot r :
  spot ∈ free_spots (parking_manager s) ->
  store_ok s -> park_ok s -> park_ok (place_waiting_car s spot r).
Proof.
  intros Hin Hok Hpk.
  destruct (fresh_id_unused s Hok Hpk) as (Ha & Hw & Hnone).
  destruct Hpk as [K1 K2 K3].
  unfold place_waiting_car, create_active_car. cbv zeta. sim_simpl.
  match goal with |- park_ok ?s0 => set (s1 := s0) end.
  assert (HW : waiting_cells s1 = {[ spot ]} ∪ waiting_cells s).
  { apply set_eq. intros p.
    rewrite elem_of_union, elem_of_singleton, !waiting_cells_elem.
    unfold s1. sim_simpl. split.
    - intros (k & Hk & Hp). rewrite dict_get_set in Hp.
      destruct (decide (next_car_id (parking_manager s) = k)) as [<- |Hne].
      + left. congruence.
      + right. exists k. split; [|exact Hp].
        apply elem_of_app in Hk as [Hk|Hk]; [exact Hk|].
        apply list_elem_of_singleton in Hk. congruence.
    - intros [-> |(k & Hk & Hp)].
      + exists (next_car_id (parking_manager s)).
        split; [apply elem_of_app; right; left|apply dict_get_set_eq].
      + exists k. split; [apply elem_of_app; left; exact Hk|].
        rewrite dict_get_set_ne; [exact Hp|]. intros <-. contradiction. }
  constructor.
  - rewrite HW. unfold s1. sim_simpl.
    eapply pool_ok_ext; [| | | |exact (pool_wait _ _ spot K1 Hin)]; reflexivity.
  - unfold s1. sim_simpl. intros k Hk. destruct (K2 k Hk) as [A B].
    split; [apply activate_elem; tauto|].
    intros H. apply elem_of_app in H as [H|H]; [contradiction|].
    apply list_elem_of_singleton in H. subst k. contradiction.
  - unfold s1. sim_simpl. intros k c Hk Hc. rewrite lookup_insert in Hc.
    destruct (decide (next_car_id (parking_manager s) = k)) as [<- |Hne].
    + inversion Hc. apply no_slot_ok; [exact Hnone|]. left. discriminate.
    + apply activate_elem in Hk as [Hk|Hk]; [congruence|].
      apply (slot_ok_assigned (parking_manager s)); [reflexivity|]. apply K3; assumption.
Qed.

Lemma init_parked_sim n : forall s,
  positions_ok s ->
  (forall k p, dict_get (car_positions s) k = Some p -> p ∉ free_spots (parking_manager s)) ->
  park_ok s -> park_ok (init_parked n s).
Proof.
  induction n as [|n IH]; intros s Hpok Hfree Hpk; cbn [init_parked]; [auto|].
  case_bool_decide as Hempty; [auto|].
  destruct (create_parked_car (parking_manager s) (rng s)) as [[[car pm] r]|] eqn:Hc; [|auto].
  destruct (place_parked_car_ok s car pm r Hc Hpok Hfree) as [H1 H2].
  apply IH; [exact H1|exact H2|].
  apply place_parked_car_park; [exact Hc|apply Hpok|exact Hpk].
Qed.

Lemma init_active_sim n : forall s,
  positions_ok s ->
  (forall k p, dict_get (car_positions s) k = Some p -> p ∉ free_spots (parking_manager s)) ->
  park_ok s -> park_ok (init_active n s).
Proof.
  induction n as [|n IH]; intros s Hpok Hfree Hpk; cbn [init_active]; [auto|].
  destruct (elements (free_spots (parking_manager s))) as [|x xs] eqn:Hel; [auto|].
  pose proof (random_choice_elem x xs (rng s)) as Hin.
  destruct (random_choice x xs (rng s)) as [spot r']. cbn [fst] in Hin.
  rewrite <- Hel in Hin. apply elem_of_elements in Hin.
  destruct (place_waiting_car_ok s spot r' Hin Hpok Hfree) as [H1 H2].
  apply IH; [exact H1|exact H2|].
  apply place_waiting_car_park; [exact Hin|apply Hpok|exact Hpk].
Qed.

Lemma new_simulation_sim_ok g parking exits entries planner cfg r :
  sim_ok (new_simulation g (new_parking_manager parking exits entries) planner cfg r).
Proof.
  split; [apply new_simulation_positions_ok|].
  unfold new_simulation. cbv zeta.
  match goal with |- context [init_parked ?n ?s0] =>
    set (n0 := n); set (s00 := s0)
  end.
  assert (Hpok : positions_ok s00).
  { split.
    - constructor; unfold s00; sim_simpl.
      + constructor.
      + constructor.
      + intros i c Hc. rewrite lookup_empty in Hc. discriminate.
      + intros i Hi. inversion Hi.
      + intros i Hi. inversion Hi.
      + intros i [Hi|Hi]; [inversion Hi|]. exfalso. revert Hi. apply not_elem_of_empty.
      + intros i Hi. inversion Hi.
      + constructor.
    - intros a b p Ha. discriminate. }
  assert (Hfree : forall k p, dict_get (car_positions s00) k = Some p ->
                              p ∉ free_spots (parking_manager s00)).
  { intros k p Hk. discriminate. }
  assert (Hpk : park_ok s00).
  { constructor; unfold s00; sim_simpl.
    - apply pool_new.
    - intros id [p Hp]. cbn [new_parking_manager assigned_spots] in Hp.
      rewrite lookup_empty in Hp. discriminate.
    - intros id c Hi. inversion Hi. }
  destruct (init_parked_ok n0 s00 Hpok Hfree) as [H1 H2].
  apply init_active_sim; [exact H1|exact H2|].
  apply init_parked_sim; assumption.
Qed.

(** ** No initial active car: nobody ever waits *)

Lemma poisson_waiting s :
  waiting_active_cars (_maybe_poisson_arrival s) = waiting_active_cars s.
Proof.
  unfold _maybe_poisson_arrival.
  destruct (arriving_cars_created s >=? max_arriving_cars (config s)); [reflexivity|].
  case_bool_decide; [reflexivity|].
  unfold _get_free_entry.
  destruct (random_shuffle _ _) as [entries r].
  destruct (List.find (entry_is_free s) entries) as [e|]; [|reflexivity].
  sim_simpl. destruct (random_random r) as [x r1]. sim_simpl.
  destruct (Qltb x (arrival_lambda (config s))); [|reflexivity].
  unfold create_active_car. sim_simpl.
  match goal with |- context [_handle_new_car ?s0 ?c0 ?t0] =>
    destruct (handle_new_car_effect s0 c0 t0) as (_ & _ & _ & Ew & _)
  end.
  rewrite Ew. reflexivity.
Qed.

Lemma step_nobody_waits s s' :
  sim_ok s -> step s = Done s' -> waiting_active_cars s = [] -> waiting_active_cars s' = [].
Proof.
  intros Hok Hstep Hw. unfold step in Hstep.
  destruct (cleanup_positions_ok s (proj1 Hok)) as (H1 & _).
  pose proof (cleanup_park s Hok) as P1.
  assert (Hp : _process_waiting_active_cars (_cleanup_exited_cars s) = _cleanup_exited_cars s).
  { unfold _process_waiting_active_cars.
    change (waiting_active_cars (_cleanup_exited_cars s)) with (waiting_active_cars s).
    rewrite Hw. reflexivity. }
  rewrite Hp in Hstep.
  destruct (advance_positions_ok _ H1) as (s1 & Hadv & _ & Ew & _).
  rewrite Hadv in Hstep. inversion Hstep. sim_simpl.
  rewrite poisson_waiting, Ew. exact Hw.
Qed.

Lemma steps_nobody_waits n : forall s s',
  sim_ok s -> steps n s = Done s' -> waiting_active_cars s = [] ->
  waiting_active_cars s' = [].
Proof.
  induction n as [|n IH]; intros s s' Hok; cbn [steps].
  - intros [= <-] Hw. exact Hw.
  - destruct (steps_sim_ok n s Hok) as (s1 & Hs1 & Hok1). rewrite Hs1.
    intros Hstep Hw. apply (step_nobody_waits s1 s' Hok1 Hstep). apply (IH s s1 Hok Hs1 Hw).
Qed.

Lemma new_simulation_nobody_waits g pm planner cfg r :
  initial_active_cars cfg = 0 ->
  waiting_active_cars (new_simulation g pm planner cfg r) = [].
Proof.
  intros H0. unfold new_simulation. cbv zeta.
  destruct (cap_initial_active_zero cfg (Z.of_nat (length (parking_cells pm))) H0) as [E _].
  rewrite E. change (Z.to_nat 0) with O. cbn [init_active].
  match goal with |- context [init_parked ?n ?s0] =>
    destruct (init_parked_frame n s0) as (_ & Ew & _)
  end.
  rewrite Ew. reflexivity.
Qed.

(** A run on the sample lot, every draw 0.  After two ticks car 0, which
    woke on (2,0), stands on the exit (3,1) and is pending removal, and car
    1, which came in at (0,1), is on the lane with the spot (1,0) assigned. *)
Example demo_run_tick_2 :
  match steps 2 (demo_sim demo_config_busy (constant_rng 0)) with
  | Done s =>
      active_cars s = [1%nat] /\
      car_positions s = [(0%nat, (3, 1)); (1%nat, (1, 1))] /\
      elements (cars_pending_removal s) = [0%nat] /\
      map_to_list (assigned_spots (parking_manager s)) = [(1%nat, (1, 0))] /\
      elements (free_spots (parking_manager s)) = [(2, 0)] /\
      waiting_active_cars s = []
  | _ => False
  end.
Proof. vm_compute. repeat split. Qed.

(** After eight ticks car 0 is gone and cars 1 and 2 are parked. *)
Example demo_run_tick_8 :
  match steps 8 (demo_sim demo_config_busy (constant_rng 0)) with
  | Done s =>
      active_cars s = [] /\
      car_positions s = [(1%nat, (1, 0)); (2%nat, (2, 0))] /\
      free_spots (parking_manager s) = ∅ /\
      assigned_spots (parking_manager s) = ∅ /\
      elements (occupied_spots (parking_manager s)) = [(2, 0); (1, 0)]
  | _ => False
  end.
Proof. vm_compute. repeat split. Qed.

(** C5 (as stated) fails: after construction with one initial active car on
    the sample lot, the car waits on one of the two parking cells and that
    cell is in none of the three sets. *)
Lemma parking_conservation_counterexample :
  free_spots (parking_manager (demo_sim demo_config_one_active (constant_rng 0)))
  ∪ assigned_cells (parking_manager (demo_sim demo_config_one_active (constant_rng 0)))
  ∪ occupied_spots (parking_manager (demo_sim demo_config_one_active (constant_rng 0)))
  <> list_to_set
       (parking_cells (parking_manager (demo_sim demo_config_one_active (constant_rng 0)))).
Proof.
  intros H. apply (bool_decide_eq_true_2 _) in H. vm_compute in H. discriminate.
Qed.

(** C5 (amended): after construction and after every [step()], [free_spots],
    the values of [assigned_spots] and [occupied_spots] are pairwise
    disjoint and apart from the cells on which initial active cars still
    wait; the union of all four is [parking_cells].  So the three sets
    partition [parking_cells] whenever nobody waits, which is always the
    case when [initial_active_cars = 0]. *)
Theorem parking_conservation_up_to_waiting g parking exits entries planner cfg r n :
  exists s,
    steps n (new_simulation g (new_parking_manager parking exits entries) planner cfg r)
    = Done s /\
    free_spots (parking_manager s) ## assigned_cells (parking_manager s) /\
    free_spots (parking_manager s) ## occupied_spots (parking_manager s) /\
    assigned_cells (parking_manager s) ## occupied_spots (parking_manager s) /\
    waiting_cells s ##
      free_spots (parking_manager s) ∪ assigned_cells (parking_manager s)
      ∪ occupied_spots (parking_manager s) /\
    free_spots (parking_manager s) ∪ assigned_cells (parking_manager s)
      ∪ occupied_spots (parking_manager s) ∪ waiting_cells s
    = list_to_set (parking_cells (parking_manager s)) /\
    (waiting_active_cars s = [] ->
     free_spots (parking_manager s) ∪ assigned_cells (parking_manager s)
       ∪ occupied_spots (parking_manager s)
     = list_to_set (parking_cells (parking_manager s))) /\
    (initial_active_cars cfg = 0 -> waiting_active_cars s = []).
Proof.
  pose proof (new_simulation_sim_ok g parking exits entries planner cfg r) as Hok0.
  destruct (steps_sim_ok n _ Hok0) as (s & Hs & _ & Hpk).
  exists s. split; [exact Hs|].
  destruct (pk_pool s Hpk) as [H1 H2 H3 H4 H5 H6].
  repeat (split; [assumption|]). split.
  - intros Hw. rewrite <- H5. unfold waiting_cells. rewrite Hw. cbn [omap list_omap].
    set_solver.
  - intros H0. apply (steps_nobody_waits n _ s Hok0 Hs).
    apply new_simulation_nobody_waits, H0.
Qed.


(** * Further properties of the code *)

(** ** planning/reservation_table.py *)

Lemma path_vertices_elem (path : list TimedPosition) v :
  v ∈ path_vertices path <-> v ∈ path.
Proof. unfold path_vertices. apply elem_of_list_to_set. Qed.

Lemma path_edges_from_prev prev (path : list TimedPosition) x y t px py pt :
  prev = Some (px, py, pt) -> path !! 0%nat = Some (x, y, t) ->
  (px, py, x, y, pt) ∈ path_edges_from prev path.
Proof.
  intros -> H0. destruct path as [|[[x0 y0] t0] rest]; [discriminate|].
  simpl in H0. inversion H0; subst. simpl. set_solver.
Qed.

Lemma path_edges_from_lookup (path : list TimedPosition) : forall prev i x y t nx ny nt,
  path !! i = Some (x, y, t) -> path !! S i = Some (nx, ny, nt) ->
  (x, y, nx, ny, t) ∈ path_edges_from prev path.
Proof.
  induction path as [|[[x0 y0] t0] rest IH]; intros prev i x y t nx ny nt Hi Hs; [discriminate|].
  assert (Hrest : (x, y, nx, ny, t) ∈ path_edges_from (Some (x0, y0, t0)) rest).
  { destruct i as [|i].
    - simpl in Hi, Hs. inversion Hi; subst.
      apply (path_edges_from_prev _ rest nx ny nt x y t); [reflexivity|exact Hs].
    - simpl in Hi, Hs. apply (IH _ i x y t nx ny nt); assumption. }
  simpl. destruct prev as [[[px py] pt]|]; set_solver.
Qed.

(** X1: after [reserve_path(path)] no entry of the path is free
    ([is_cell_free] is false at its cell and tick), and the edge between two
    consecutive entries is taken in both directions ([is_edge_free] is false
    for the move and for the opposite move at that tick). *)
Theorem reserve_path_blocks_path (path : list TimedPosition) (rt : ReservationTable)
    (i : nat) (x y t : Z) :
  path !! i = Some (x, y, t) ->
  is_cell_free (reserve_path path rt) x y t = false /\
  forall nx ny nt, path !! S i = Some (nx, ny, nt) ->
    is_edge_free (reserve_path path rt) x y nx ny t = false /\
    is_edge_free (reserve_path path rt) nx ny x y t = false.
Proof.
  intros Hi. unfold reserve_path, is_cell_free, is_edge_free.
  destruct (reserve_path_from_fields None path rt) as (Hv & He & _).
  rewrite Hv, He. split.
  - apply andb_false_iff. right. apply bool_decide_eq_false. intros H. apply H.
    apply elem_of_union. left. apply path_vertices_elem.
    apply list_elem_of_lookup. eauto.
  - intros nx ny nt Hs.
    pose proof (path_edges_from_lookup path None i x y t nx ny nt Hi Hs) as Hin.
    split; apply andb_false_iff; [left|right];
      apply bool_decide_eq_false; intros H; apply H; set_solver.
Qed.

Lemma reserve_path_blocks_path_witness :
  is_cell_free (reserve_path [(0, 0, 0); (1, 0, 1)] empty_table) 0 0 0 = false /\
  forall nx ny nt, [(0, 0, 0); (1, 0, 1)] !! 1%nat = Some (nx, ny, nt) ->
    is_edge_free (reserve_path [(0, 0, 0); (1, 0, 1)] empty_table) 0 0 nx ny 0 = false /\
    is_edge_free (reserve_path [(0, 0, 0); (1, 0, 1)] empty_table) nx ny 0 0 0 = false.
Proof.
  apply (reserve_path_blocks_path [(0, 0, 0); (1, 0, 1)] empty_table 0 0 0 0). reflexivity.
Defined.

(** X2: [reserve_path] and [unreserve_path] are idempotent: a second call
    with the same path changes nothing. *)
Theorem reserve_unreserve_idempotent (path : list TimedPosition) (rt : ReservationTable) :
  reserve_path path (reserve_path path rt) = reserve_path path rt /\
  unreserve_path path (unreserve_path path rt) = unreserve_path path rt.
Proof.
  unfold reserve_path, unreserve_path. split; apply table_eq.
  - destruct (reserve_path_from_fields None path (reserve_path_from None path rt)) as (-> & _).
    destruct (reserve_path_from_fields None path rt) as (-> & _). set_solver.
  - destruct (reserve_path_from_fields None path (reserve_path_from None path rt))
      as (_ & -> & _).
    destruct (reserve_path_from_fields None path rt) as (_ & -> & _). set_solver.
  - destruct (reserve_path_from_fields None path (reserve_path_from None path rt))
      as (_ & _ & ->).
    reflexivity.
  - destruct (unreserve_path_from_fields None path (unreserve_path_from None path rt))
      as (-> & _).
    destruct (unreserve_path_from_fields None path rt) as (-> & _). set_solver.
  - destruct (unreserve_path_from_fields None path (unreserve_path_from None path rt))
      as (_ & -> & _).
    destruct (unreserve_path_from_fields None path rt) as (_ & -> & _). set_solver.
  - destruct (unreserve_path_from_fields None path (unreserve_path_from None path rt))
      as (_ & _ & ->).
    reflexivity.
Qed.

(** X3: [reserve_path] and [unreserve_path] touch the path's own entries
    only: a cell and tick that is no entry of the path is exactly as free
    afterwards as before, under either call; and after [unreserve_path] an
    entry of the path is free unless its cell is statically reserved. *)
Theorem path_calls_frame (path : list TimedPosition) (rt : ReservationTable) (x y t : Z) :
  ((x, y, t) ∉ path ->
   is_cell_free (reserve_path path rt) x y t = is_cell_free rt x y t /\
   is_cell_free (unreserve_path path rt) x y t = is_cell_free rt x y t) /\
  ((x, y, t) ∈ path ->
   is_cell_free (unreserve_path path rt) x y t = bool_decide ((x, y) ∉ static_cells rt)).
Proof.
  unfold reserve_path, unreserve_path, is_cell_free.
  destruct (reserve_path_from_fields None path rt) as (Hv & _ & Hs).
  destruct (unreserve_path_from_fields None path rt) as (Hv' & _ & Hs').
  rewrite Hv, Hs, Hv', Hs'. split.
  - intros Hnin. rewrite <- path_vertices_elem in Hnin.
    split; f_equal; apply bool_decide_ext; set_solver.
  - intros Hin. rewrite <- path_vertices_elem in Hin.
    rewrite (bool_decide_eq_true_2 ((x, y, t) ∉ _)) by set_solver.
    apply andb_true_r.
Qed.

Lemma reserve_goal_iter_fields (rt : ReservationTable) (x y : Z) (n : nat) :
  vertex_reservations (Nat.iter n (fun rt' => reserve_goal rt' x y) rt)
    = vertex_reservations rt /\
  edge_reservations (Nat.iter n (fun rt' => reserve_goal rt' x y) rt)
    = edge_reservations rt /\
  static_cells (Nat.iter n (fun rt' => reserve_goal rt' x y) rt) ∖ {[ (x, y) ]}
    = static_cells rt ∖ {[ (x, y) ]}.
Proof.
  induction n as [|n (IHv & IHe & IHs)]; [auto|].
  cbn [Nat.iter nat_rect]. unfold reserve_goal at 1 3 5.
  cbn [vertex_reservations edge_reservations static_cells].
  split; [exact IHv|]. split; [exact IHe|]. rewrite <- IHs. set_solver.
Qed.

(** X4: a goal reservation blocks its cell at every tick; neither
    [reserve_goal] nor [unreserve_goal] changes the freedom of any other
    cell; and the static set has no counter, so one [unreserve_goal] undoes
    any number of [reserve_goal] calls (none, one, or more): the table is
    the one a single [unreserve_goal] gives, and the cell is free at every
    tick for which no path holds it. *)
Theorem goal_reservation_blocks_cell (rt : ReservationTable) (x y : Z) :
  (forall t, is_cell_free (reserve_goal rt x y) x y t = false) /\
  (forall x' y' t, (x', y') <> (x, y) ->
     is_cell_free (reserve_goal rt x y) x' y' t = is_cell_free rt x' y' t /\
     is_cell_free (unreserve_goal rt x y) x' y' t = is_cell_free rt x' y' t) /\
  (forall n : nat,
     unreserve_goal (Nat.iter n (fun rt' => reserve_goal rt' x y) rt) x y
     = unreserve_goal rt x y /\
     forall t,
       is_cell_free (unreserve_goal (Nat.iter n (fun rt' => reserve_goal rt' x y) rt) x y)
         x y t
       = bool_decide ((x, y, t) ∉ vertex_reservations rt)).
Proof.
  split; [|split].
  - intros t. unfold is_cell_free, reserve_goal. cbn [static_cells vertex_reservations].
    rewrite (bool_decide_eq_false_2 ((x, y) ∉ _)) by set_solver. reflexivity.
  - intros x' y' t Hne. unfold is_cell_free, reserve_goal, unreserve_goal.
    cbn [static_cells vertex_reservations].
    split; f_equal; apply bool_decide_ext; set_solver.
  - intros n. destruct (reserve_goal_iter_fields rt x y n) as (Ev & Ee & Es).
    assert (E : unreserve_goal (Nat.iter n (fun rt' => reserve_goal rt' x y) rt) x y
                = unreserve_goal rt x y).
    { apply table_eq; unfold unreserve_goal;
        cbn [vertex_reservations edge_reservations static_cells]; assumption. }
    split; [exact E|]. intros t. rewrite E.
    unfold is_cell_free, unreserve_goal. cbn [static_cells vertex_reservations].
    rewrite (bool_decide_eq_true_2 ((x, y) ∉ _)) by set_solver. reflexivity.
Qed.


(** ** core/parking_manager.py *)

Lemma min_by_le key : forall l best p, p ∈ best :: l -> key (min_by key best l) <= key p.
Proof.
  induction l as [|q l IH]; intros best p Hp; cbn [min_by].
  - apply elem_of_cons in Hp as [-> |Hp]; [lia|inversion Hp].
  - destruct (key q <? key best) eqn:E.
    + apply Z.ltb_lt in E. apply elem_of_cons in Hp as [-> |Hp].
      * pose proof (IH q q (list_elem_of_here _ _)). lia.
      * apply IH. exact Hp.
    + apply Z.ltb_ge in E. apply elem_of_cons in Hp as [-> |Hp].
      * apply IH. left.
      * apply elem_of_cons in Hp as [-> |Hp].
        -- pose proof (IH best best (list_elem_of_here _ _)). lia.
        -- apply IH. right. exact Hp.
Qed.

(** X5: [choose_free_parking_spot] returns [None] and changes nothing
    exactly when no spot is free; otherwise the spot it returns is a free
    spot at the least Manhattan distance from the car, it is taken out of
    [free_spots] and recorded under the car's id, and [occupied_spots] is
    not touched. *)
Theorem choose_free_parking_spot_nearest (pm : ParkingManager) (car : Car) :
  match choose_free_parking_spot pm car with
  | (None, pm') => free_spots pm = ∅ /\ pm' = pm
  | (Some spot, pm') =>
      spot ∈ free_spots pm /\
      (forall p, p ∈ free_spots pm ->
         manhattan spot (current_position car) <= manhattan p (current_position car)) /\
      free_spots pm' = free_spots pm ∖ {[ spot ]} /\
      assigned_spots pm' = <[ car_id car := spot ]> (assigned_spots pm) /\
      occupied_spots pm' = occupied_spots pm
  end.
Proof.
  unfold choose_free_parking_spot.
  destruct (elements (free_spots pm)) as [|x xs] eqn:Hel.
  - split; [|reflexivity]. apply elements_empty_inv in Hel. apply leibniz_equiv. exact Hel.
  - set (key := fun p => manhattan p (current_position car)).
    split; [|split; [|auto]].
    + apply elem_of_elements. rewrite Hel. apply min_by_elem.
    + intros p Hp. apply elem_of_elements in Hp. rewrite Hel in Hp.
      apply (min_by_le key xs x p Hp).
Qed.

(** X6: for a car with intent EXIT, [assign_goal] leaves the parking
    manager as it is and returns an exit cell at the least Manhattan distance
    from the car, or [None] when there is no exit cell; for a car whose
    intent is neither PARK nor EXIT it returns [None]. *)
Theorem assign_goal_exit_nearest (pm : ParkingManager) (car : Car) :
  (intent car = Some "EXIT"%string ->
   (assign_goal pm car).2 = pm /\
   match (assign_goal pm car).1 with
   | None => exit_cells pm = ∅
   | Some e =>
       e ∈ exit_cells pm /\
       forall p, p ∈ exit_cells pm ->
         manhattan e (current_position car) <= manhattan p (current_position car)
   end) /\
  (intent car <> Some "PARK"%string -> intent car <> Some "EXIT"%string ->
   assign_goal pm car = (None, pm)).
Proof.
  unfold assign_goal. split.
  - intros Hexit. rewrite Hexit.
    rewrite bool_decide_eq_false_2 by discriminate.
    rewrite bool_decide_eq_true_2 by reflexivity. cbn [fst snd].
    split; [reflexivity|]. unfold choose_exit_cell.
    destruct (elements (exit_cells pm)) as [|x xs] eqn:Hel.
    + apply elements_empty_inv in Hel. apply leibniz_equiv. exact Hel.
    + set (key := fun p => manhattan p (current_position car)). split.
      * apply elem_of_elements. rewrite Hel. apply min_by_elem.
      * intros p Hp. apply elem_of_elements in Hp. rewrite Hel in Hp.
        apply (min_by_le key xs x p Hp).
  - intros Hp He. rewrite !bool_decide_eq_false_2 by assumption. reflexivity.
Qed.

Lemma pm_eq (a b : ParkingManager) :
  parking_cells a = parking_cells b -> exit_cells a = exit_cells b ->
  entry_cells a = entry_cells b -> free_spots a = free_spots b ->
  assigned_spots a = assigned_spots b -> occupied_spots a = occupied_spots b ->
  next_car_id a = next_car_id b -> a = b.
Proof. destruct a, b; simpl; intros; subst; reflexivity. Qed.

(** X7: taking a spot and giving it back is a round trip: for a car that
    holds no spot, in a manager whose free spots are not occupied,
    [choose_free_parking_spot] followed by [release_assigned_spot] of the
    car's id restores the manager. *)
Theorem choose_release_round_trip (pm : ParkingManager) (car : Car) :
  assigned_spots pm !! car_id car = None ->
  free_spots pm ## occupied_spots pm ->
  release_assigned_spot (choose_free_parking_spot pm car).2 (car_id car) = pm.
Proof.
  intros Hnone Hdisj. unfold choose_free_parking_spot.
  destruct (elements (free_spots pm)) as [|x xs] eqn:Hel.
  - cbn [snd]. unfold release_assigned_spot. rewrite Hnone. reflexivity.
  - pose proof (min_by_elem (fun p => manhattan p (current_position car)) xs x) as Hin.
    set (spot := min_by _ x xs) in *. rewrite <- Hel in Hin. apply elem_of_elements in Hin.
    cbn [snd]. unfold release_assigned_spot.
    cbn [set_slots assigned_spots occupied_spots free_spots].
    rewrite lookup_insert_eq.
    rewrite bool_decide_eq_true_2 by set_solver.
    apply pm_eq; cbn [set_slots parking_cells exit_cells entry_cells free_spots
                      assigned_spots occupied_spots next_car_id]; try reflexivity.
    + apply set_eq. intros q. destruct (decide (q = spot)) as [-> |Hne]; set_solver.
    + rewrite delete_insert_eq. apply delete_id. exact Hnone.
Qed.

Lemma choose_release_round_trip_witness :
  release_assigned_spot
    (choose_free_parking_spot (new_parking_manager demo_parking demo_exits demo_entries)
       (new_car 0 (0, 1) (Some "PARK"%string))).2 0
  = new_parking_manager demo_parking demo_exits demo_entries.
Proof.
  apply (choose_release_round_trip (new_parking_manager demo_parking demo_exits demo_entries)
           (new_car 0 (0, 1) (Some "PARK"%string))).
  - reflexivity.
  - apply (bool_decide_unpack _). vm_compute. exact I.
Defined.

(** X8: [release_assigned_spot] removes the assignment of the given car and
    of no other, never touches [occupied_spots], never removes a free spot,
    and the only spot it can add to [free_spots] is the one the car held,
    and only if that spot is not occupied; a second call changes nothing. *)
Theorem release_assigned_spot_effect (pm : ParkingManager) (id : nat) :
  assigned_spots (release_assigned_spot pm id) !! id = None /\
  (forall k, k <> id ->
     assigned_spots (release_assigned_spot pm id) !! k = assigned_spots pm !! k) /\
  occupied_spots (release_assigned_spot pm id) = occupied_spots pm /\
  free_spots pm ⊆ free_spots (release_assigned_spot pm id) /\
  (forall p, p ∈ free_spots (release_assigned_spot pm id) -> p ∉ free_spots pm ->
     assigned_spots pm !! id = Some p /\ p ∉ occupied_spots pm) /\
  release_assigned_spot (release_assigned_spot pm id) id = release_assigned_spot pm id.
Proof.
  destruct (assigned_spots pm !! id) as [spot|] eqn:Hid.
  - assert (E : release_assigned_spot pm id
                = set_slots pm
                    (if bool_decide (spot ∉ occupied_spots pm) then {[ spot ]} ∪ free_spots pm
                     else free_spots pm)
                    (delete id (assigned_spots pm)) (occupied_spots pm))
      by (unfold release_assigned_spot; rewrite Hid; reflexivity).
    rewrite !E. cbn [set_slots assigned_spots occupied_spots free_spots].
    split; [apply lookup_delete_eq|]. split; [|split; [reflexivity|split; [|split]]].
    + intros k Hk. apply lookup_delete_ne. congruence.
    + case_bool_decide; set_solver.
    + intros p Hp Hnp. case_bool_decide as Hocc; [|contradiction].
      apply elem_of_union in Hp as [Hp|Hp]; [|contradiction].
      apply elem_of_singleton in Hp. subst p. auto.
    + unfold release_assigned_spot. cbn [set_slots assigned_spots].
      rewrite lookup_delete_eq. reflexivity.
  - assert (E : release_assigned_spot pm id = pm)
      by (unfold release_assigned_spot; rewrite Hid; reflexivity).
    rewrite !E.
    split; [exact Hid|]. split; [reflexivity|]. split; [reflexivity|]. split; [reflexivity|].
    split; [intros p Hp Hnp; contradiction|reflexivity].
Qed.


(** ** core/simulation_core.py: conflict resolution, once more *)

(** X9: conflict resolution is safe.  On a snapshot in which no two cars
    share a cell, the resolved moves send no two cars to the same cell, and
    no two cars exchange their cells. *)
Theorem resolved_moves_collision_free (cur intended r : Moves) :
  NoDup (dict_keys cur) -> positions_injective cur -> NoDup (dict_keys intended) ->
  resolve_conflicts cur intended = Done r ->
  positions_injective r /\
  forall a b pa pb, a <> b ->
    dict_get cur a = Some pa -> dict_get cur b = Some pb ->
    ~ (dict_get r a = Some pb /\ dict_get r b = Some pa).
Proof.
  intros Hnd Hinj Hndi Hr.
  apply resolve_conflicts_done in Hr as (Hkeys & k & _ & Hk & Hfix).
  assert (Hrk : dict_keys r = dict_keys intended) by (rewrite Hk; apply passes_keys).
  split.
  - apply (fixpoint_injective cur (build_pos_to_cid cur)); auto.
    + rewrite Hrk. exact Hndi.
    + rewrite Hrk. exact Hkeys.
  - intros a b pa pb Hne Hca Hcb [Hra Hrb].
    assert (pa = pb) by (apply (fixpoint_no_swap cur r a b pa pb); assumption).
    subst pb. apply Hne. apply (Hinj a b pa); assumption.
Qed.

Lemma resolved_moves_collision_free_witness :
  positions_injective [(0%nat, (0, 0)); (1%nat, (1, 0)); (2%nat, (2, 1)); (3%nat, (1, 1))] /\
  forall a b pa pb, a <> b ->
    dict_get demo_positions a = Some pa -> dict_get demo_positions b = Some pb ->
    ~ (dict_get [(0%nat, (0, 0)); (1%nat, (1, 0)); (2%nat, (2, 1)); (3%nat, (1, 1))] a
         = Some pb /\
       dict_get [(0%nat, (0, 0)); (1%nat, (1, 0)); (2%nat, (2, 1)); (3%nat, (1, 1))] b
         = Some pa).
Proof.
  apply (resolved_moves_collision_free demo_positions demo_intended).
  - apply (bool_decide_unpack _). vm_compute. exact I.
  - apply NoDup_values_injective. apply (bool_decide_unpack _). vm_compute. exact I.
  - apply (bool_decide_unpack _). vm_compute. exact I.
  - vm_compute. reflexivity.
Defined.

Lemma passes_moving (cur : Moves) p2c k : forall am : Moves,
  (moving cur (passes k cur p2c am) <= moving cur am)%nat.
Proof.
  induction k as [|k IH]; intros am; cbn [passes]; [lia|].
  destruct (resolution_pass cur p2c am).2 eqn:Hf.
  - pose proof (pass_decreases cur p2c am Hf).
    specialize (IH (resolution_pass cur p2c am).1). lia.
  - rewrite (pass_fixpoint cur p2c am Hf). cbn [fst]. apply IH.
Qed.

(** X11: conflict resolution only ever takes moves back.  The resolved map
    has the keys of the intended map, in the same order; a car that intends
    to stay where it stands stays; and no more cars move after resolution
    than intended to. *)
Theorem resolution_only_reverts (cur intended r : Moves) :
  resolve_conflicts cur intended = Done r ->
  dict_keys r = dict_keys intended /\
  (forall c, dict_get intended c = dict_get cur c -> dict_get r c = dict_get cur c) /\
  (moving cur r <= moving cur intended)%nat.
Proof.
  intros Hr. apply resolve_conflicts_done in Hr as (_ & k & _ & -> & _).
  split; [apply passes_keys|]. split; [intros c; apply passes_stays|apply passes_moving].
Qed.

Lemma resolution_only_reverts_witness :
  dict_keys [(0%nat, (0, 0)); (1%nat, (1, 0)); (2%nat, (2, 1)); (3%nat, (1, 1))]
  = dict_keys demo_intended /\
  (forall c, dict_get demo_intended c = dict_get demo_positions c ->
     dict_get [(0%nat, (0, 0)); (1%nat, (1, 0)); (2%nat, (2, 1)); (3%nat, (1, 1))] c
     = dict_get demo_positions c) /\
  Nat.le
    (moving demo_positions [(0%nat, (0, 0)); (1%nat, (1, 0)); (2%nat, (2, 1)); (3%nat, (1, 1))])
    (moving demo_positions demo_intended).
Proof.
  apply (resolution_only_reverts demo_positions demo_intended). vm_compute. reflexivity.
Defined.

(** ** core/simulation_core.py: the tick *)

(** X12: [_cleanup_exited_cars] deletes the position of every car that is
    pending removal and of no other car, and empties the pending set. *)
Theorem cleanup_removes_pending (s : SimulationCore) :
  cars_pending_removal (_cleanup_exited_cars s) = ∅ /\
  forall id,
    dict_get (car_positions (_cleanup_exited_cars s)) id
    = if bool_decide (id ∈ cars_pending_removal s) then None
      else dict_get (car_positions s) id.
Proof.
  unfold _cleanup_exited_cars. sim_simpl. split; [reflexivity|].
  intros id. rewrite dels_get.
  rewrite (bool_decide_ext (id ∈ elements (cars_pending_removal s))
             (id ∈ cars_pending_removal s)) by apply elem_of_elements.
  reflexivity.
Qed.


Lemma step_time s s' :
  positions_ok s -> step s = Done s' -> time s' = time s + 1.
Proof.
  intros Hok. unfold step.
  destruct (cleanup_positions_ok s Hok) as (H1 & T1 & _).
  destruct (process_waiting_positions_ok _ H1) as (H2 & T2 & _).
  destruct (advance_positions_ok _ H2) as (s1 & -> & H3 & _ & T3 & _).
  destruct (poisson_positions_ok s1 H3) as (_ & T4).
  intros [= <-]. sim_simpl. congruence.
Qed.

Lemma new_simulation_time g pm planner cfg r : time (new_simulation g pm planner cfg r) = 0.
Proof.
  unfold new_simulation. cbv zeta.
  assert (Ha : forall n s, time (init_active n s) = time s).
  { induction n as [|n IH]; intros s; cbn [init_active]; [reflexivity|].
    destruct (elements _) as [|x xs]; [reflexivity|].
    destruct (random_choice x xs (rng s)) as [spot r']. rewrite IH. reflexivity. }
  rewrite Ha.
  match goal with |- context [init_parked ?n ?s0] =>
    destruct (init_parked_frame n s0) as (_ & _ & -> & _)
  end.
  reflexivity.
Qed.

(** X13: [step()] always returns and advances the clock by exactly one:
    after [n] steps of a fresh simulation the time is [n]. *)
Theorem time_counts_steps g pm planner cfg r n :
  exists s, steps n (new_simulation g pm planner cfg r) = Done s /\ time s = Z.of_nat n.
Proof.
  induction n as [|n IH].
  - eexists. split; [reflexivity|]. apply new_simulation_time.
  - destruct IH as (s & Hs & Ht).
    destruct (reachable_positions_ok g pm planner cfg r n) as (s0 & Hs0 & Hok).
    rewrite Hs in Hs0. inversion Hs0; subst s0.
    destruct (step_positions_ok s Hok) as (s' & Hstep & _).
    exists s'. cbn [steps]. rewrite Hs. split; [exact Hstep|].
    rewrite (step_time s s' Hok Hstep), Ht. lia.
Qed.

(** ** [_advance_cars] and the cars that are not active *)

Lemma commit_car_active_subset am im s id car final :
  store_ok s -> id ∈ active_cars s ->
  all_cars s !! id = Some car ->
  dict_get am id = Some final ->
  dict_get im id = Some (default (current_position car) (peek_at_next_step car (time s))) ->
  final = current_position car \/
    final = default (current_position car) (peek_at_next_step car (time s)) ->
  forall i, i ∈ active_cars (commit_car am im s id) -> i ∈ active_cars s.
Proof.
  intros Hok Hid Hcar Ham Him Hfinal.
  destruct (so_active s Hok id Hid) as (car0 & Hcar0 & Hpos).
  rewrite Hcar in Hcar0. inversion Hcar0; subst car0. clear Hcar0.
  pose proof (so_heap s Hok id car Hcar) as Hcid.
  destruct (commit_car_effect am im s id car final Hcar Hcid Ham Him Hfinal Hpos)
    as (_ & _ & _ & _ & _ & Hact).
  intros i Hi. destruct Hact as [[Ea _]|[Ea _]]; rewrite Ea in Hi; [exact Hi|].
  apply remove_id_elem in Hi. tauto.
Qed.

(** X14: [_advance_cars] never touches a car that is not active: planning,
    conflict resolution and the commit loop leave the published position
    and the car object of every parked (or otherwise inactive) car as they
    were, and make no inactive car active. *)
Theorem advance_leaves_inactive_cars (s : SimulationCore) :
  positions_ok s ->
  exists s', _advance_cars s = Done s' /\
    forall id, id ∉ active_cars s ->
      id ∉ active_cars s' /\
      dict_get (car_positions s') id = dict_get (car_positions s) id /\
      all_cars s' !! id = all_cars s !! id.
Proof.
  intros Hok. destruct (advance_positions_ok s Hok) as (s' & Hs' & _).
  exists s'. split; [exact Hs'|]. intros id Hid.
  set (Q := fun t : SimulationCore =>
              id ∉ active_cars t /\
              dict_get (car_positions t) id = dict_get (car_positions s) id /\
              all_cars t !! id = all_cars s !! id).
  destruct (advance_inv Q) with (s := s) as (s'' & Hs'' & _ & HQ & _).
  - intros t k Hokt (Q1 & Q2 & Q3) Hk Hkw.
    destruct (so_active t Hokt k Hk) as (car & Hcar & _).
    destruct (plan_car_effect t k car Hcar (so_heap t Hokt k car Hcar)) as (Hb & c' & Hh & _).
    apply books_fields in Hb as (Ba & Bp & _).
    unfold Q. rewrite Ba, Bp, Hh. split; [exact Q1|]. split; [exact Q2|].
    rewrite lookup_insert_ne; [exact Q3|]. intros ->. contradiction.
  - intros am im t k car final Hokt (Q1 & Q2 & Q3) Hk Hcar Ham Him Hfinal.
    destruct (commit_car_store_ok am im t k car final Hokt Hk Hcar Ham Him Hfinal)
      as (_ & Ecp & _ & _ & _ & Eheap & _).
    pose proof (commit_car_active_subset am im t k car final Hokt Hk Hcar Ham Him Hfinal)
      as Hsub.
    assert (Hne : id <> k) by (intros ->; contradiction).
    unfold Q. split; [intros H; apply Q1, Hsub, H|].
    split; [rewrite Ecp, dict_get_set_ne by congruence; exact Q2|].
    rewrite Eheap by exact Hne. exact Q3.
  - exact Hok.
  - unfold Q. auto.
  - rewrite Hs' in Hs''. inversion Hs''; subst s''. exact HQ.
Qed.

Lemma advance_leaves_inactive_cars_witness :
  exists s',
    _advance_cars (demo_sim demo_config_parked_only (constant_rng 1)) = Done s' /\
    forall id, id ∉ active_cars (demo_sim demo_config_parked_only (constant_rng 1)) ->
      id ∉ active_cars s' /\
      dict_get (car_positions s') id
      = dict_get (car_positions (demo_sim demo_config_parked_only (constant_rng 1))) id /\
      all_cars s' !! id
      = all_cars (demo_sim demo_config_parked_only (constant_rng 1)) !! id.
Proof.
  apply (advance_leaves_inactive_cars (demo_sim demo_config_parked_only (constant_rng 1))).
  apply new_simulation_positions_ok.
Defined.

(** ** [_get_unplanned_obstacles] *)

Lemma obstacles_fold (s : SimulationCore) (exclude : nat) (ids : list nat) :
  forall (acc : gset Position) p,
  p ∈ fold_left
        (fun obs cid =>
           if bool_decide (cid = exclude) then obs
           else
             match all_cars s !! cid with
             | Some c =>
                 if negb (bool_decide (cid ∈ waiting_active_cars s)) && negb (has_path c)
                 then {[ current_position c ]} ∪ obs
                 else obs
             | None => obs
             end) ids acc <->
  p ∈ acc \/
  exists cid c, cid ∈ ids /\ cid <> exclude /\ all_cars s !! cid = Some c /\
    cid ∉ waiting_active_cars s /\ has_path c = false /\ current_position c = p.
Proof.
  induction ids as [|i ids IH]; intros acc p; cbn [fold_left].
  - split; [auto|]. intros [H|(cid & c & H & _)]; [exact H|inversion H].
  - rewrite IH. clear IH. split.
    + intros [Hacc|(cid & c & Hin & Hrest)].
      * case_bool_decide as Hex; [left; exact Hacc|].
        destruct (all_cars s !! i) as [c|] eqn:Hc; [|left; exact Hacc].
        destruct (negb (bool_decide (i ∈ waiting_active_cars s))) eqn:Hw; cbn [andb] in Hacc;
          [|left; exact Hacc].
        destruct (negb (has_path c)) eqn:Hp; [|left; exact Hacc].
        apply elem_of_union in Hacc as [Hacc|Hacc]; [|left; exact Hacc].
        apply elem_of_singleton in Hacc. right. exists i, c.
        apply negb_true_iff in Hw, Hp. apply bool_decide_eq_false in Hw.
        split; [left|]. repeat (split; [assumption|]). symmetry. exact Hacc.
      * right. exists cid, c. split; [right; exact Hin|exact Hrest].
    + intros [Hacc|(cid & c & Hin & Hne & Hc & Hw & Hp & Hpos)].
      * left. case_bool_decide; [exact Hacc|].
        destruct (all_cars s !! i); [|exact Hacc].
        destruct (_ && _); [|exact Hacc]. apply elem_of_union. right. exact Hacc.
      * apply elem_of_cons in Hin as [-> |Hin].
        -- left. rewrite bool_decide_eq_false_2 by exact Hne. rewrite Hc, Hp.
           rewrite (bool_decide_eq_false_2 _ Hw). cbn [negb andb].
           apply elem_of_union. left. apply elem_of_singleton. symmetry. exact Hpos.
        -- right. exists cid, c. repeat (split; [assumption|]). assumption.
Qed.

(** X15: the obstacles handed to the planner are the cells of the other
    active cars that neither wait nor have a path; in a simulation whose
    books are in order the planning car's own cell is never among them, so
    the planner's refusal of a start inside the obstacles is never set off
    by the car itself. *)
Theorem own_cell_is_no_obstacle (s : SimulationCore) (id : nat) (c : Car) :
  positions_ok s -> id ∈ active_cars s -> all_cars s !! id = Some c ->
  current_position c ∉ _get_unplanned_obstacles s id /\
  forall p, p ∈ _get_unplanned_obstacles s id <->
    exists cid c', cid ∈ active_cars s /\ cid <> id /\ all_cars s !! cid = Some c' /\
      cid ∉ waiting_active_cars s /\ has_path c' = false /\ current_position c' = p.
Proof.
  intros [Hok Hinj] Hid Hc.
  assert (Hchar : forall p, p ∈ _get_unplanned_obstacles s id <->
            exists cid c', cid ∈ active_cars s /\ cid <> id /\ all_cars s !! cid = Some c' /\
              cid ∉ waiting_active_cars s /\ has_path c' = false /\ current_position c' = p).
  { intros p. unfold _get_unplanned_obstacles. rewrite obstacles_fold. split; [|auto].
    intros [H|H]; [|exact H]. exfalso. revert H. apply not_elem_of_empty. }
  split; [|exact Hchar].
  intros Hin. apply Hchar in Hin as (cid & c' & Hcid & Hne & Hc' & _ & _ & Hpos).
  destruct (so_active s Hok cid Hcid) as (c1 & Hc1 & Hp1).
  destruct (so_active s Hok id Hid) as (c2 & Hc2 & Hp2).
  rewrite Hc' in Hc1. inversion Hc1; subst c1.
  rewrite Hc in Hc2. inversion Hc2; subst c2.
  rewrite Hpos in Hp1. apply Hne. apply (Hinj cid id (current_position c)); assumption.
Qed.

Lemma own_cell_is_no_obstacle_witness :
  current_position (set_origin (new_car 0 (2, 0) (Some "EXIT"%string)) 0 true)
  ∉ _get_unplanned_obstacles (demo_sim demo_config_one_active (constant_rng 0)) 0 /\
  forall p, p ∈ _get_unplanned_obstacles (demo_sim demo_config_one_active (constant_rng 0)) 0 <->
    exists cid c',
      cid ∈ active_cars (demo_sim demo_config_one_active (constant_rng 0)) /\ cid <> 0%nat /\
      all_cars (demo_sim demo_config_one_active (constant_rng 0)) !! cid = Some c' /\
      cid ∉ waiting_active_cars (demo_sim demo_config_one_active (constant_rng 0)) /\
      has_path c' = false /\ current_position c' = p.
Proof.
  apply (own_cell_is_no_obstacle (demo_sim demo_config_one_active (constant_rng 0)) 0).
  - apply new_simulation_positions_ok.
  - apply (bool_decide_unpack _). vm_compute. exact I.
  - vm_compute. reflexivity.
Defined.


(** ** What a tick leaves alone *)

Ltac ledger_simpl := unfold ledger, fixtures in *; sim_simpl.

Lemma rerandomize_exit_ledger count s car :
  ledger (rerandomize_exit count s car).2 = ledger s.
Proof.
  unfold rerandomize_exit. destruct (_ && _); [|reflexivity].
  destruct (elements _) as [|x xs]; [reflexivity|].
  destruct (random_choice x xs (rng s)) as [g r]. reflexivity.
Qed.

Lemma drop_slot_ledger cond s car : ledger (drop_slot cond s car).2 = ledger s.
Proof. unfold drop_slot. destruct (_ && _); reflexivity. Qed.

Lemma give_up_parking_ledger count s car :
  ledger (give_up_parking count s car).2 = ledger s.
Proof.
  unfold give_up_parking. destruct (_ && _); [|reflexivity].
  destruct (assign_goal _ _) as [g pm2]. reflexivity.
Qed.

Lemma escalation_policy_ledger count s car :
  ledger (escalation_policy count s car).2 = ledger s.
Proof.
  unfold escalation_policy.
  pose proof (rerandomize_exit_ledger count s car) as L1.
  destruct (rerandomize_exit count s car) as [car1 s1]. cbn [snd] in L1.
  pose proof (drop_slot_ledger (count mod 3 =? 0) s1 car1) as L2.
  destruct (drop_slot _ s1 car1) as [car2 s2]. cbn [snd] in L2.
  rewrite give_up_parking_ledger. congruence.
Qed.

Lemma new_car_failure_escalation_ledger s car :
  ledger (new_car_failure_escalation s car).2 = ledger s.
Proof.
  unfold new_car_failure_escalation.
  pose proof (rerandomize_exit_ledger (plan_fail_count car) s car) as L1.
  destruct (rerandomize_exit _ s car) as [car1 s1]. cbn [snd] in L1.
  pose proof (drop_slot_ledger (plan_fail_count car1 >=? 3) s1 car1) as L2.
  destruct (drop_slot _ s1 car1) as [car2 s2]. cbn [snd] in L2.
  rewrite give_up_parking_ledger. congruence.
Qed.

Lemma block_escalation_ledger s car : ledger (block_escalation s car).2 = ledger s.
Proof.
  unfold block_escalation.
  pose proof (drop_slot_ledger (blocked_count car mod 3 =? 0) s car) as L2.
  destruct (drop_slot _ s car) as [car2 s2]. cbn [snd] in L2.
  rewrite give_up_parking_ledger. congruence.
Qed.

Lemma sim_plan_for_car_ledger s car t obs p :
  ledger (sim_plan_for_car s car t obs p).2 = ledger s.
Proof.
  unfold sim_plan_for_car. destruct (plan_for_car _ _ _ _ _ _ _) as [[ok car'] rt'].
  reflexivity.
Qed.

Lemma handle_new_car_ledger s car t : ledger (_handle_new_car s car t) = ledger s.
Proof.
  unfold _handle_new_car. cbv zeta. sim_simpl.
  destruct (assign_goal (parking_manager s) car) as [g pm]. sim_simpl.
  destruct g as [g|]; [|reflexivity].
  match goal with |- context [sim_plan_for_car ?s0 ?c0 ?t0 ?o0 ?p0] =>
    pose proof (sim_plan_for_car_ledger s0 c0 t0 o0 p0) as L;
    destruct (sim_plan_for_car s0 c0 t0 o0 p0) as [[ok car2] s3]
  end.
  cbn [snd] in L. destruct ok.
  - ledger_simpl. exact L.
  - match goal with |- context [new_car_failure_escalation ?s0 ?c0] =>
      pose proof (new_car_failure_escalation_ledger s0 c0) as L';
      destruct (new_car_failure_escalation s0 c0) as [car4 s5]
    end.
    cbn [snd] in L'. ledger_simpl. congruence.
Qed.

Lemma plan_car_ledger s id : ledger (plan_car s id) = ledger s.
Proof.
  unfold plan_car. destruct (all_cars s !! id) as [car|]; [|reflexivity].
  set (st := if has_goal car then (car, s)
             else let '(g, pm) := assign_goal (parking_manager s) car in
                  (set_goal car g, store_car (with_parking_manager s pm) (set_goal car g))).
  assert (Hst : ledger st.2 = ledger s).
  { unfold st. destruct (has_goal car); [reflexivity|].
    destruct (assign_goal (parking_manager s) car) as [g pm]. reflexivity. }
  destruct st as [car1 s1]. cbn [snd] in Hst.
  destruct (negb (has_goal car1)); [exact Hst|].
  destruct (random_randint 10 30 (rng s1)) as [persistence r].
  match goal with |- context [sim_plan_for_car ?s0 ?c0 ?t0 ?o0 ?p0] =>
    pose proof (sim_plan_for_car_ledger s0 c0 t0 o0 p0) as L;
    destruct (sim_plan_for_car s0 c0 t0 o0 p0) as [[ok car2] s3]
  end.
  cbn [snd] in L. destruct ok; cbn [negb].
  - ledger_simpl. congruence.
  - unfold plan_failure_escalation.
    match goal with |- context [escalation_policy ?n0 ?s0 ?c0] =>
      pose proof (escalation_policy_ledger n0 s0 c0) as L';
      destruct (escalation_policy n0 s0 c0) as [car4 s4]
    end.
    cbn [snd] in L'. ledger_simpl. congruence.
Qed.

Lemma plan_phase_ledger s : ledger (plan_phase s) = ledger s.
Proof.
  unfold plan_phase. generalize (stable_sort
    (fun id => from_option dist_to_goal None (all_cars s !! id)) (cars_needing_plan s)).
  intros ids. revert s. induction ids as [|id ids IH]; intros s; cbn [fold_left]; [reflexivity|].
  rewrite IH. apply plan_car_ledger.
Qed.

(** Arriving at the goal: nothing changes but, for a car with intent EXIT,
    the set of exited cars, which takes the car's id. *)
Lemma arrive_moved_ledger s car pos :
  fixtures (arrive_moved s car pos) = fixtures s /\
  arriving_cars_created (arrive_moved s car pos) = arriving_cars_created s /\
  (exited_car_ids (arrive_moved s car pos) = exited_car_ids s \/
   (exited_car_ids (arrive_moved s car pos) = {[ car_id car ]} ∪ exited_car_ids s /\
    cars_pending_removal (arrive_moved s car pos) = {[ car_id car ]} ∪ cars_pending_removal s)).
Proof.
  unfold arrive_moved. cbv zeta.
  destruct (bool_decide (intent car = Some "PARK"%string)); [ledger_simpl; auto|].
  destruct (bool_decide (intent car = Some "EXIT"%string)); ledger_simpl; auto.
Qed.

Lemma arrive_standing_ledger s car pos :
  fixtures (arrive_standing s car pos) = fixtures s /\
  arriving_cars_created (arrive_standing s car pos) = arriving_cars_created s /\
  (exited_car_ids (arrive_standing s car pos) = exited_car_ids s \/
   (exited_car_ids (arrive_standing s car pos) = {[ car_id car ]} ∪ exited_car_ids s /\
    cars_pending_removal (arrive_standing s car pos) = {[ car_id car ]} ∪ cars_pending_removal s)).
Proof.
  unfold arrive_standing. cbv zeta.
  destruct (bool_decide (intent car = Some "PARK"%string)); [ledger_simpl; auto|].
  destruct (bool_decide (intent car = Some "EXIT"%string)); ledger_simpl; auto.
Qed.

Lemma commit_car_ledger am im s id :
  fixtures (commit_car am im s id) = fixtures s /\
  arriving_cars_created (commit_car am im s id) = arriving_cars_created s /\
  (exited_car_ids (commit_car am im s id) = exited_car_ids s \/
   exists car, all_cars s !! id = Some car /\
     exited_car_ids (commit_car am im s id) = {[ car_id car ]} ∪ exited_car_ids s /\
     cars_pending_removal (commit_car am im s id)
     = {[ car_id car ]} ∪ cars_pending_removal s /\
     active_cars (commit_car am im s id) = remove_id (active_cars s) (car_id car)).
Proof.
  unfold commit_car.
  destruct (all_cars s !! id) as [car|] eqn:Hcar; [|auto].
  destruct (dict_get am id) as [final|]; [|auto].
  destruct (dict_get im id) as [intended|]; [|auto].
  cbv zeta. destruct (car_step_spec car (time s)) as (Sid & _).
  case_bool_decide as Hmove.
  - set (car1 := set_blocked_count (car_step car (time s)).2 0).
    assert (H1 : car_id car1 = car_id car) by (unfold car1; sim_simpl; congruence).
    case_bool_decide as Hgoal; [|ledger_simpl; auto].
    match goal with |- context [arrive_moved ?s0 car1 final] =>
      destruct (arrive_moved_ledger s0 car1 final) as (A & B & C);
      destruct (arrive_moved_effect s0 car1 final) as (_ & _ & _ & _ & _ & D & _)
    end.
    rewrite A, B. split; [reflexivity|]. split; [reflexivity|].
    destruct C as [C|[C C']]; [left; exact C|right].
    exists car. split; [reflexivity|]. rewrite C, C', D, H1. sim_simpl. auto.
  - case_bool_decide as Hwant.
    + destruct (cancel_plan (table s) car) as [car1 rt].
      match goal with |- context [block_escalation ?s0 ?c0] =>
        pose proof (block_escalation_ledger s0 c0) as L;
        destruct (block_escalation s0 c0) as [car3 s1]
      end.
      cbn [snd] in L. ledger_simpl. inversion L. auto.
    + set (st := if has_path car then
                   let '(stepped_pos, car') := car_step car (time s) in
                   (car',
                    match stepped_pos with
                    | Some p => store_car (with_car_positions s
                                             (dict_set (car_positions s) id p)) car'
                    | None => store_car s car'
                    end)
                 else (car, s)).
      assert (Hst : ledger st.2 = ledger s /\ active_cars st.2 = active_cars s /\
                    cars_pending_removal st.2 = cars_pending_removal s /\
                    car_id st.1 = car_id car).
      { unfold st. destruct (has_path car); [|auto].
        destruct (car_step car (time s)) as [stepped car'] eqn:Estep. cbn [snd] in Sid.
        destruct stepped; auto. }
      destruct st as [car1 s1]. cbn [fst snd] in Hst. destruct Hst as (L & Ea & Ep & Hid1).
      destruct (is_finished car1 && has_path car1).
      * case_bool_decide as Hgoal.
        -- destruct (arrive_standing_ledger s1 car1 (current_position car)) as (A & B & C).
           destruct (arrive_standing_effect s1 car1 (current_position car))
             as (_ & _ & _ & _ & _ & D & _).
           ledger_simpl. inversion L as [[L1 L2 L3 L4 L5 L6]].
           rewrite A, B, L1, L2, L3, L4, L5. split; [reflexivity|]. split; [reflexivity|].
           destruct C as [C|[C C']]; [left; congruence|right].
           exists car. split; [reflexivity|]. rewrite C, C', D, Hid1, L6, Ea, Ep. auto.
        -- ledger_simpl. inversion L. auto.
      * ledger_simpl. inversion L. auto.
Qed.

Lemma wake_car_ledger s id : ledger (wake_car s id) = ledger s.
Proof.
  unfold wake_car. destruct (all_cars s !! id) as [car|]; [|reflexivity].
  destruct (current_position car) as [cx cy]. cbv zeta.
  rewrite handle_new_car_ledger. reflexivity.
Qed.

Lemma process_waiting_ledger s : ledger (_process_waiting_active_cars s) = ledger s.
Proof.
  unfold _process_waiting_active_cars. destruct (waiting_active_cars s) as [|w ws]; [reflexivity|].
  destruct (draw_wake_ups _ _ _) as [woke r].
  change (ledger s) with (ledger (with_rng s r)). generalize (with_rng s r). clear.
  induction woke as [|id woke IH]; intros s; cbn [fold_left]; [reflexivity|].
  rewrite IH. apply wake_car_ledger.
Qed.

Lemma cleanup_ledger s : ledger (_cleanup_exited_cars s) = ledger s.
Proof. reflexivity. Qed.

(** An arrival raises the counter by one, and only while it is below
    [max_arriving_cars]. *)
Lemma poisson_ledger s :
  fixtures (_maybe_poisson_arrival s) = fixtures s /\
  exited_car_ids (_maybe_poisson_arrival s) = exited_car_ids s /\
  (arriving_cars_created (_maybe_poisson_arrival s) = arriving_cars_created s \/
   (arriving_cars_created s < max_arriving_cars (config s) /\
    arriving_cars_created (_maybe_poisson_arrival s) = arriving_cars_created s + 1)).
Proof.
  unfold _maybe_poisson_arrival.
  destruct (arriving_cars_created s >=? max_arriving_cars (config s)) eqn:Hmax; [auto|].
  case_bool_decide; [auto|].
  destruct (_get_free_entry s) as [[e|] r]; [|auto].
  sim_simpl. destruct (random_random r) as [x r1]. sim_simpl.
  destruct (Qltb x (arrival_lambda (config s))); [|auto].
  unfold create_active_car. sim_simpl.
  match goal with |- context [_handle_new_car ?s0 ?c0 ?t0] =>
    pose proof (handle_new_car_ledger s0 c0 t0) as L
  end.
  unfold ledger in L. apply pair_equal_spec in L as [L LE].
  apply pair_equal_spec in L as [LF LC].
  split; [exact LF|]. split; [exact LE|].
  right. split; [|exact LC]. rewrite Z.geb_leb in Hmax. apply Z.leb_gt in Hmax. lia.
Qed.


Lemma commit_loop_ledger am im ids : forall s,
  fixtures (fold_left (commit_car am im) ids s) = fixtures s /\
  arriving_cars_created (fold_left (commit_car am im) ids s) = arriving_cars_created s /\
  exited_car_ids s ⊆ exited_car_ids (fold_left (commit_car am im) ids s).
Proof.
  induction ids as [|id ids IH]; intros s; cbn [fold_left]; [auto|].
  destruct (IH (commit_car am im s id)) as (A & B & C).
  destruct (commit_car_ledger am im s id) as (A' & B' & C').
  split; [congruence|]. split; [congruence|].
  destruct C' as [C'|(car & _ & C' & _)]; rewrite C' in C; set_solver.
Qed.

Lemma advance_ledger s s' :
  _advance_cars s = Done s' ->
  fixtures s' = fixtures s /\ arriving_cars_created s' = arriving_cars_created s /\
  exited_car_ids s ⊆ exited_car_ids s'.
Proof.
  unfold _advance_cars. destruct (resolve_conflicts _ _) as [am| |]; try discriminate.
  intros [= <-].
  destruct (commit_loop_ledger am (build_intended_moves (plan_phase s))
              (active_cars (plan_phase s)) (plan_phase s)) as (A & B & C).
  pose proof (plan_phase_ledger s) as L. unfold ledger in L.
  apply pair_equal_spec in L as [L LE]. apply pair_equal_spec in L as [LF LC].
  rewrite A, B. rewrite LE in C. auto.
Qed.

Lemma step_ledger s s' :
  step s = Done s' ->
  fixtures s' = fixtures s /\ exited_car_ids s ⊆ exited_car_ids s' /\
  (arriving_cars_created s' = arriving_cars_created s \/
   (arriving_cars_created s < max_arriving_cars (config s) /\
    arriving_cars_created s' = arriving_cars_created s + 1)).
Proof.
  unfold step.
  destruct (_advance_cars _) as [s1| |] eqn:Hadv; try discriminate.
  intros [= <-]. apply advance_ledger in Hadv as (A & B & C).
  pose proof (process_waiting_ledger (_cleanup_exited_cars s)) as L.
  rewrite cleanup_ledger in L. unfold ledger in L.
  apply pair_equal_spec in L as [L LE]. apply pair_equal_spec in L as [LF LC].
  rewrite LF in A. rewrite LC in B. rewrite LE in C.
  destruct (poisson_ledger s1) as (PF & PE & PC).
  assert (Hcfg : config s1 = config s).
  { unfold fixtures in A. congruence. }
  change (fixtures (with_time (_maybe_poisson_arrival s1) (time (_maybe_poisson_arrival s1) + 1)))
    with (fixtures (_maybe_poisson_arrival s1)).
  sim_simpl. rewrite PF, PE, A. split; [reflexivity|]. split; [exact C|].
  rewrite Hcfg, B in PC. exact PC.
Qed.

Lemma place_parked_car_ledger s car pm r : ledger (place_parked_car s car pm r) = ledger s.
Proof. reflexivity. Qed.

Lemma place_waiting_car_ledger s spot r : ledger (place_waiting_car s spot r) = ledger s.
Proof. reflexivity. Qed.

Lemma new_simulation_ledger g pm planner cfg r :
  ledger (new_simulation g pm planner cfg r)
  = (cap_initial_active cfg (Z.of_nat (length (parking_cells pm))), g,
     planner_grid planner, planner_horizon planner, 0, ∅).
Proof.
  unfold new_simulation. cbv zeta.
  assert (Ha : forall n s, ledger (init_active n s) = ledger s).
  { induction n as [|n IH]; intros s; cbn [init_active]; [reflexivity|].
    destruct (elements _) as [|x xs]; [reflexivity|].
    destruct (random_choice x xs (rng s)) as [spot r']. rewrite IH. reflexivity. }
  assert (Hp : forall n s, ledger (init_parked n s) = ledger s).
  { induction n as [|n IH]; intros s; cbn [init_parked]; [reflexivity|].
    case_bool_decide; [reflexivity|].
    destruct (create_parked_car _ _) as [[[car pm'] r']|]; [|reflexivity].
    rewrite IH. reflexivity. }
  rewrite Ha, Hp. reflexivity.
Qed.

Lemma cap_initial_active_frame cfg total :
  max_arriving_cars (cap_initial_active cfg total) = max_arriving_cars cfg /\
  initial_active_exit_rate (cap_initial_active cfg total) = initial_active_exit_rate cfg /\
  arrival_lambda (cap_initial_active cfg total) = arrival_lambda cfg.
Proof.
  unfold cap_initial_active. destruct (_ >? total); [|auto].
  destruct (_ >? _); auto.
Qed.

(** X16: the configuration and the grid never change after construction,
    at most one car arrives per step, and the number of arrivals never
    exceeds [max_arriving_cars]. *)
Theorem arrivals_are_bounded g pm planner cfg r n :
  exists s,
    steps n (new_simulation g pm planner cfg r) = Done s /\
    config s = cap_initial_active cfg (Z.of_nat (length (parking_cells pm))) /\
    grid s = g /\
    0 <= arriving_cars_created s <= Z.max 0 (max_arriving_cars cfg) /\
    arriving_cars_created s <= Z.of_nat n.
Proof.
  induction n as [|n IH].
  - eexists. split; [reflexivity|].
    pose proof (new_simulation_ledger g pm planner cfg r) as L. unfold ledger, fixtures in L.
    apply pair_equal_spec in L as [L _]. apply pair_equal_spec in L as [L L5].
    apply pair_equal_spec in L as [L _]. apply pair_equal_spec in L as [L _].
    apply pair_equal_spec in L as [L1 L2]. cbn [Z.of_nat].
    split; [exact L1|]. split; [exact L2|]. rewrite L5. lia.
  - destruct IH as (s & Hs & Hcfg & Hg & Hc & Hn).
    destruct (reachable_positions_ok g pm planner cfg r n) as (s0 & Hs0 & Hok).
    rewrite Hs in Hs0. inversion Hs0; subst s0.
    destruct (step_positions_ok s Hok) as (s' & Hstep & _).
    exists s'. cbn [steps]. rewrite Hs. split; [exact Hstep|].
    destruct (step_ledger s s' Hstep) as (F & _ & C). unfold fixtures in F.
    apply pair_equal_spec in F as [F _]. apply pair_equal_spec in F as [F _].
    apply pair_equal_spec in F as [F1 F2].
    split; [congruence|]. split; [congruence|].
    destruct (cap_initial_active_frame cfg (Z.of_nat (length (parking_cells pm)))) as (M & _).
    rewrite Hcfg, M in C. destruct C as [-> |[Hlt ->]]; lia.
Qed.



(** ** Cars that have left *)

Lemma gone_left_lot s id : gone s id -> left_lot s id.
Proof. intros (A & B & C & D). split; [exact A|]. split; [exact B|]. right. exact D. Qed.

Lemma cleanup_gone s id : left_lot s id -> gone (_cleanup_exited_cars s) id.
Proof.
  intros (A & B & C). unfold gone, _cleanup_exited_cars. sim_simpl.
  split; [exact A|]. split; [exact B|]. split; [set_solver|].
  rewrite dels_get. case_bool_decide as Hin; [reflexivity|].
  destruct C as [C|C]; [|exact C]. exfalso. apply Hin, elem_of_elements, C.
Qed.

Lemma wake_car_books s id :
  store_ok s -> id ∈ active_cars s ->
  active_cars (wake_car s id) = active_cars s /\
  cars_pending_removal (wake_car s id) = cars_pending_removal s /\
  next_car_id (parking_manager (wake_car s id)) = next_car_id (parking_manager s) /\
  forall k, k <> id ->
    dict_get (car_positions (wake_car s id)) k = dict_get (car_positions s) k.
Proof.
  intros Hok Hid. unfold wake_car.
  destruct (so_active s Hok id Hid) as (car & Hcar & _). rewrite Hcar.
  pose proof (so_heap s Hok id car Hcar) as Hcid.
  destruct (current_position car) as [cx cy]. cbv zeta.
  match goal with |- context [_handle_new_car ?s0 car ?t0] =>
    destruct (handle_new_car_effect s0 car t0) as (Ea & Ecp & Ep & _ & _ & En & _)
  end.
  rewrite Ea, Ecp, Ep, En, Hcid. sim_simpl.
  split; [apply activate_present; exact Hid|]. split; [reflexivity|]. split; [reflexivity|].
  intros k Hk. apply dict_get_set_ne. congruence.
Qed.

Lemma wake_car_gone s k id :
  store_ok s -> k ∈ active_cars s -> gone s id -> gone (wake_car s k) id.
Proof.
  intros Hok Hk (A & B & C & D).
  destruct (wake_car_books s k Hok Hk) as (Ea & Ep & En & Ecp).
  unfold gone. rewrite Ea, Ep, En, Ecp; [auto|]. intros ->. contradiction.
Qed.

Lemma wake_car_exited_left s k :
  store_ok s -> k ∈ active_cars s ->
  (forall id, id ∈ exited_car_ids s -> left_lot s id) ->
  forall id, id ∈ exited_car_ids (wake_car s k) -> left_lot (wake_car s k) id.
Proof.
  intros Hok Hk HE id Hid.
  pose proof (wake_car_ledger s k) as L. unfold ledger in L.
  apply pair_equal_spec in L as [_ LE]. rewrite LE in Hid.
  destruct (HE id Hid) as (A & B & C).
  destruct (wake_car_books s k Hok Hk) as (Ea & Ep & En & Ecp).
  unfold left_lot. rewrite Ea, Ep, En, Ecp; [auto|]. intros ->. contradiction.
Qed.

Lemma wake_cars_gone (X : gset nat) ids : forall s,
  positions_ok s -> (forall i, i ∈ ids -> i ∈ active_cars s) ->
  (forall id, id ∈ exited_car_ids s -> left_lot s id) ->
  (forall id, id ∈ X -> gone s id) ->
  (forall id, id ∈ exited_car_ids (fold_left wake_car ids s) ->
     left_lot (fold_left wake_car ids s) id) /\
  (forall id, id ∈ X -> gone (fold_left wake_car ids s) id).
Proof.
  induction ids as [|k ids IH]; intros s Hok Hids HE HX; cbn [fold_left]; [auto|].
  assert (Hk : k ∈ active_cars s) by (apply Hids; left).
  destruct (wake_car_positions_ok s k Hok Hk) as (R1 & _ & _ & R4).
  destruct Hok as [Hso _].
  apply IH.
  - exact R1.
  - intros i Hi. apply R4, Hids. right. exact Hi.
  - apply wake_car_exited_left; assumption.
  - intros id Hid. apply wake_car_gone; auto.
Qed.

Lemma process_waiting_gone (X : gset nat) s :
  positions_ok s ->
  (forall id, id ∈ exited_car_ids s -> left_lot s id) ->
  (forall id, id ∈ X -> gone s id) ->
  (forall id, id ∈ exited_car_ids (_process_waiting_active_cars s) ->
     left_lot (_process_waiting_active_cars s) id) /\
  (forall id, id ∈ X -> gone (_process_waiting_active_cars s) id).
Proof.
  intros Hok HE HX. unfold _process_waiting_active_cars.
  destruct (waiting_active_cars s) as [|w ws] eqn:Hw; [auto|]. rewrite <- Hw.
  pose proof (draw_wake_ups_elem (initial_active_exit_rate (config s))
                (waiting_active_cars s) (rng s)) as Hsub.
  destruct (draw_wake_ups _ (waiting_active_cars s) (rng s)) as [woke r]. cbn [fst] in Hsub.
  apply (wake_cars_gone X woke (with_rng s r)).
  - destruct Hok as [Hok Hinj]. split; [|exact Hinj]. constructor; apply Hok.
  - intros i Hi. apply Hsub in Hi. destruct Hok as [Hok _].
    apply (so_waiting s Hok i Hi).
  - exact HE.
  - exact HX.
Qed.


Lemma plan_car_departed X s id :
  store_ok s -> departed X s -> id ∈ active_cars s -> id ∉ waiting_active_cars s ->
  departed X (plan_car s id).
Proof.
  intros Hok HD Hid _.
  destruct (so_active s Hok id Hid) as (car & Hcar & _).
  destruct (plan_car_effect s id car Hcar (so_heap s Hok id car Hcar)) as (B & _).
  apply books_fields in B as (Ba & Bp & Bpe & Bw & Bt & Bn).
  pose proof (plan_car_ledger s id) as L. unfold ledger in L.
  apply pair_equal_spec in L as [_ LE].
  unfold departed, left_lot, gone. rewrite Ba, Bp, Bpe, Bn, LE. exact HD.
Qed.

Lemma commit_car_departed X am im s id car final :
  store_ok s -> departed X s -> id ∈ active_cars s ->
  all_cars s !! id = Some car ->
  dict_get am id = Some final ->
  dict_get im id = Some (default (current_position car) (peek_at_next_step car (time s))) ->
  final = current_position car \/
    final = default (current_position car) (peek_at_next_step car (time s)) ->
  departed X (commit_car am im s id).
Proof.
  intros Hok [HE HX] Hid Hcar Ham Him Hfinal.
  pose proof (so_heap s Hok id car Hcar) as Hcid.
  destruct (so_active s Hok id Hid) as (car0 & Hcar0 & Hpos).
  rewrite Hcar in Hcar0. inversion Hcar0; subst car0. clear Hcar0.
  destruct (commit_car_effect am im s id car final Hcar Hcid Ham Him Hfinal Hpos)
    as (Ecp & _ & _ & En & _ & Eact).
  destruct (commit_car_ledger am im s id) as (_ & _ & Eex).
  assert (Hact : forall i, i ∈ active_cars (commit_car am im s id) -> i ∈ active_cars s).
  { intros i Hi. destruct Eact as [[Ea _]|[Ea _]]; rewrite Ea in Hi; [exact Hi|].
    apply remove_id_elem in Hi. tauto. }
  assert (Hpend : forall i, i ∈ cars_pending_removal (commit_car am im s id) ->
                            i = id \/ i ∈ cars_pending_removal s).
  { intros i Hi. destruct Eact as [[_ Ep]|[_ [Ep|Ep]]]; rewrite Ep in Hi; set_solver. }
  assert (Hkeep : forall i, i ∈ cars_pending_removal s ->
                            i ∈ cars_pending_removal (commit_car am im s id)).
  { intros i Hi. destruct Eact as [[_ Ep]|[_ [Ep|Ep]]]; rewrite Ep; set_solver. }
  assert (Hold : forall i, left_lot s i -> left_lot (commit_car am im s id) i).
  { intros i (A & B & C). assert (Hne : id <> i) by (intros ->; contradiction).
    split; [intros Hi; apply A, Hact, Hi|]. split; [rewrite En; exact B|].
    destruct C as [C|C]; [left; apply Hkeep, C|right].
    rewrite Ecp, dict_get_set_ne by exact Hne. exact C. }
  split.
  - intros i Hi. destruct Eex as [Eex|(car1 & Hcar1 & Eex & Ep & Ea)].
    + apply Hold, HE. rewrite <- Eex. exact Hi.
    + rewrite Hcar in Hcar1. inversion Hcar1; subst car1. rewrite Hcid in *.
      rewrite Eex in Hi. apply elem_of_union in Hi as [Hi|Hi]; [|apply Hold, HE, Hi].
      apply elem_of_singleton in Hi. subst i.
      split; [rewrite Ea; intros H; apply remove_id_elem in H; tauto|].
      split; [rewrite En; apply (so_fresh s Hok); tauto|].
      left. rewrite Ep. set_solver.
  - intros i Hi. destruct (HX i Hi) as (A & B & C & D).
    assert (Hne : id <> i) by (intros ->; contradiction).
    split; [intros H; apply A, Hact, H|]. split; [rewrite En; exact B|].
    split; [intros H; apply Hpend in H as [H|H]; [congruence|contradiction]|].
    rewrite Ecp, dict_get_set_ne by exact Hne. exact D.
Qed.

Lemma advance_departed X s :
  positions_ok s -> departed X s ->
  exists s', _advance_cars s = Done s' /\ positions_ok s' /\ departed X s'.
Proof.
  intros Hok HD.
  destruct (advance_inv (departed X) (plan_car_departed X) (commit_car_departed X) s Hok HD)
    as (s' & Hs' & Hok' & HD' & _).
  exists s'. auto.
Qed.

Lemma poisson_books s :
  cars_pending_removal (_maybe_poisson_arrival s) = cars_pending_removal s /\
  ((active_cars (_maybe_poisson_arrival s) = active_cars s /\
    car_positions (_maybe_poisson_arrival s) = car_positions s /\
    next_car_id (parking_manager (_maybe_poisson_arrival s))
    = next_car_id (parking_manager s)) \/
   exists e,
     active_cars (_maybe_poisson_arrival s)
     = activate (active_cars s) (next_car_id (parking_manager s)) /\
     car_positions (_maybe_poisson_arrival s)
     = dict_set (car_positions s) (next_car_id (parking_manager s)) e /\
     next_car_id (parking_manager (_maybe_poisson_arrival s))
     = S (next_car_id (parking_manager s))).
Proof.
  unfold _maybe_poisson_arrival.
  destruct (arriving_cars_created s >=? max_arriving_cars (config s));
    [split; [reflexivity|left; auto]|].
  case_bool_decide; [split; [reflexivity|left; auto]|].
  destruct (_get_free_entry s) as [[e|] r]; [|split; [reflexivity|left; auto]].
  sim_simpl. destruct (random_random r) as [x r1]. sim_simpl.
  destruct (Qltb x (arrival_lambda (config s))); [|split; [reflexivity|left; auto]].
  unfold create_active_car. sim_simpl.
  match goal with |- context [_handle_new_car ?s0 ?c0 ?t0] =>
    destruct (handle_new_car_effect s0 c0 t0) as (Ea & Ecp & Ep & _ & _ & En & _)
  end.
  sim_simpl. split; [exact Ep|]. right. exists e.
  rewrite Ea, Ecp, En. split; [reflexivity|]. split; [|reflexivity].
  apply dict_set_same, dict_get_set_eq.
Qed.

Lemma poisson_departed X s :
  departed X s -> departed X (_maybe_poisson_arrival s).
Proof.
  intros [HE HX].
  destruct (poisson_ledger s) as (_ & Eex & _).
  destruct (poisson_books s) as (Ep & [(Ea & Ecp & En)|(e & Ea & Ecp & En)]).
  - unfold departed, left_lot, gone. rewrite Eex, Ep, Ea, Ecp, En. auto.
  - unfold departed, left_lot, gone. rewrite Eex, Ep, Ea, Ecp, En. split.
    + intros i Hi. destruct (HE i Hi) as (A & B & C).
      split; [rewrite activate_elem; intros [->|H]; [lia|contradiction]|].
      split; [lia|]. destruct C as [C|C]; [left; exact C|right].
      rewrite dict_get_set_ne by lia. exact C.
    + intros i Hi. destruct (HX i Hi) as (A & B & C & D).
      split; [rewrite activate_elem; intros [->|H]; [lia|contradiction]|].
      split; [lia|]. split; [exact C|]. rewrite dict_get_set_ne by lia. exact D.
Qed.

Lemma step_departed (X : gset nat) s :
  positions_ok s ->
  (forall id, id ∈ exited_car_ids s -> left_lot s id) ->
  (forall id, id ∈ X -> left_lot s id) ->
  exists s', step s = Done s' /\ positions_ok s' /\ departed X s' /\
             exited_car_ids s ⊆ exited_car_ids s'.
Proof.
  intros Hok HE HX.
  destruct (step_positions_ok s Hok) as (s' & Hstep & Hok').
  exists s'. split; [exact Hstep|]. split; [exact Hok'|].
  destruct (step_ledger s s' Hstep) as (_ & Hsub & _). split; [|exact Hsub].
  revert Hstep. unfold step.
  destruct (cleanup_positions_ok s Hok) as (H1 & _).
  assert (D1 : departed X (_cleanup_exited_cars s)).
  { split.
    - intros id Hid. apply gone_left_lot, cleanup_gone, HE. exact Hid.
    - intros id Hid. apply cleanup_gone, HX, Hid. }
  destruct (process_waiting_positions_ok _ H1) as (H2 & _).
  destruct D1 as [D1 D1'].
  pose proof (process_waiting_gone X _ H1 D1 D1') as D2.
  destruct (advance_departed X _ H2 D2) as (s1 & -> & H3 & D3).
  intros [= <-]. apply (poisson_departed X) in D3. exact D3.
Qed.

Lemma steps_departed (X : gset nat) m : forall s,
  positions_ok s -> departed X s ->
  exists s', steps m s = Done s' /\ positions_ok s' /\ departed X s' /\
             exited_car_ids s ⊆ exited_car_ids s'.
Proof.
  induction m as [|m IH]; intros s Hok HD.
  - exists s. split; [reflexivity|]. auto.
  - destruct (IH s Hok HD) as (s1 & Hs1 & Hok1 & [HE1 HX1] & Hsub1).
    destruct (step_departed X s1 Hok1 HE1) as (s2 & Hs2 & Hok2 & HD2 & Hsub2).
    { intros id Hid. apply gone_left_lot, HX1, Hid. }
    exists s2. cbn [steps]. rewrite Hs1. split; [exact Hs2|]. split; [exact Hok2|].
    split; [exact HD2|]. set_solver.
Qed.

Lemma steps_add m n s :
  steps (m + n) s
  = match steps n s with
    | Done s' => steps m s'
    | KeyError => KeyError
    | OutOfFuel => OutOfFuel
    end.
Proof.
  induction m as [|m IH]; cbn [Nat.add steps].
  - destruct (steps n s); reflexivity.
  - rewrite IH. destruct (steps n s); reflexivity.
Qed.

Lemma new_simulation_exited g pm planner cfg r :
  exited_car_ids (new_simulation g pm planner cfg r) = ∅.
Proof.
  pose proof (new_simulation_ledger g pm planner cfg r) as L. unfold ledger in L.
  apply pair_equal_spec in L as [_ L]. exact L.
Qed.

(** X17: a car that has exited stays exited and is never active again; from
    the next step on it is in no list of the scheduler and the snapshot of
    positions no longer shows it. *)
Theorem exited_cars_never_return g pm planner cfg r n m :
  exists s s',
    steps n (new_simulation g pm planner cfg r) = Done s /\
    steps (S m + n) (new_simulation g pm planner cfg r) = Done s' /\
    forall id, id ∈ exited_car_ids s ->
      id ∉ active_cars s /\
      id ∈ exited_car_ids s' /\ id ∉ active_cars s' /\
      id ∉ waiting_active_cars s' /\ id ∉ cars_pending_removal s' /\
      dict_get (get_positions_snapshot s') id = None.
Proof.
  destruct (steps_departed ∅ n (new_simulation g pm planner cfg r))
    as (s & Hs & Hok & [HE _] & _).
  { apply new_simulation_positions_ok. }
  { split; [|set_solver]. intros id. rewrite new_simulation_exited. set_solver. }
  destruct (step_departed (exited_car_ids s) s Hok HE HE) as (s1 & Hs1 & Hok1 & HD1 & Hsub1).
  destruct (steps_departed (exited_car_ids s) m s1 Hok1 HD1)
    as (s' & Hs' & [Hso' _] & [_ HX'] & Hsub').
  exists s, s'. split; [exact Hs|]. split.
  - replace (S m + n)%nat with (m + S n)%nat by lia.
    rewrite steps_add. cbn [steps]. rewrite Hs, Hs1. exact Hs'.
  - intros id Hid. destruct (HE id Hid) as (A & _). destruct (HX' id Hid) as (A' & _ & C' & D').
    split; [exact A|]. split; [set_solver|]. split; [exact A'|].
    split; [|split; [exact C'|exact D']].
    intros Hw. apply A'. apply (so_waiting s' Hso' id Hw).
Qed.


(** ** Waking the initial active cars *)

Lemma random_below_one (r : RNG) (l : Q) :
  Qle 1 l -> Qltb (random_random r).1 l = true.
Proof.
  intros Hl. unfold Qle in Hl. cbn [Qnum Qden] in Hl.
  unfold random_random, next_draw, Qltb. cbn [fst Qnum Qden].
  apply Z.ltb_lt.
  assert (Hk : 0 <= Z.of_N (draws r (cursor r) mod 2 ^ 53) < Z.pos (2 ^ 53)).
  { split; [apply N2Z.is_nonneg|].
    change (Z.pos (2 ^ 53)) with (Z.of_N (2 ^ 53)). apply N2Z.inj_lt.
    apply N.mod_lt. discriminate. }
  pose proof (Pos2Z.is_pos (Qden l)). nia.
Qed.

Lemma random_above_zero (r : RNG) (l : Q) :
  Qle l 0 -> Qltb (random_random r).1 l = false.
Proof.
  intros Hl. unfold Qle in Hl. cbn [Qnum Qden] in Hl.
  unfold random_random, next_draw, Qltb. cbn [fst Qnum Qden].
  apply Z.ltb_ge.
  pose proof (N2Z.is_nonneg (draws r (cursor r) mod 2 ^ 53)).
  pose proof (Pos2Z.is_pos (Qden l)). nia.
Qed.

Lemma draw_wake_ups_all rate waiting : forall r,
  Qle 1 rate -> (draw_wake_ups rate waiting r).1 = waiting.
Proof.
  induction waiting as [|id rest IH]; intros r Hr; cbn [draw_wake_ups]; [reflexivity|].
  pose proof (random_below_one r rate Hr) as Hx.
  destruct (random_random r) as [x r1]. cbn [fst] in Hx.
  pose proof (IH r1 Hr) as IH'. destruct (draw_wake_ups rate rest r1) as [woke r2].
  cbn [fst] in *. rewrite Hx, IH'. reflexivity.
Qed.

Lemma draw_wake_ups_none rate waiting : forall r,
  Qle rate 0 -> (draw_wake_ups rate waiting r).1 = [].
Proof.
  induction waiting as [|id rest IH]; intros r Hr; cbn [draw_wake_ups]; [reflexivity|].
  pose proof (random_above_zero r rate Hr) as Hx.
  destruct (random_random r) as [x r1]. cbn [fst] in Hx.
  pose proof (IH r1 Hr) as IH'. destruct (draw_wake_ups rate rest r1) as [woke r2].
  cbn [fst] in *. rewrite Hx, IH'. reflexivity.
Qed.

Lemma wake_everyone ids : forall s,
  positions_ok s -> waiting_active_cars s = ids ->
  waiting_active_cars (fold_left wake_car ids s) = [].
Proof.
  induction ids as [|id ids IH]; intros s Hok Hw; cbn [fold_left]; [exact Hw|].
  pose proof Hok as [Hso _].
  assert (Hin : id ∈ waiting_active_cars s) by (rewrite Hw; left).
  destruct (so_waiting s Hso id Hin) as (Hact & _).
  destruct (wake_car_positions_ok s id Hok Hact) as (Hok1 & _).
  apply IH; [exact Hok1|].
  rewrite (wake_car_waiting_eq s id Hso Hin), Hw.
  pose proof (so_waiting_nodup s Hso) as Hnd. rewrite Hw in Hnd.
  apply NoDup_cons in Hnd as [Hnin _].
  unfold remove_id. cbn [filter list_filter]. rewrite decide_False by auto.
  apply remove_id_absent. exact Hnin.
Qed.

Lemma step_waiting s :
  positions_ok s ->
  exists s', step s = Done s' /\ positions_ok s' /\ config s' = config s /\
    waiting_active_cars s'
    = waiting_active_cars (_process_waiting_active_cars (_cleanup_exited_cars s)).
Proof.
  intros Hok.
  destruct (step_positions_ok s Hok) as (s' & Hstep & Hok').
  exists s'. split; [exact Hstep|]. split; [exact Hok'|].
  destruct (step_ledger s s' Hstep) as (F & _).
  apply pair_equal_spec in F as [F _]. apply pair_equal_spec in F as [F _].
  apply pair_equal_spec in F as [F _]. split; [exact F|].
  revert Hstep. unfold step.
  destruct (cleanup_positions_ok s Hok) as (H1 & _).
  destruct (process_waiting_positions_ok _ H1) as (H2 & _).
  destruct (advance_positions_ok _ H2) as (s1 & -> & _ & Hw & _).
  intros [= <-]. sim_simpl. rewrite poisson_waiting. exact Hw.
Qed.

(** X18: with [initial_active_exit_rate >= 1] every waiting car is woken
    at the first step, and nobody waits from then on. *)
Theorem exit_rate_one_wakes_everyone (s : SimulationCore) (n : nat) :
  positions_ok s ->
  Qle 1 (initial_active_exit_rate (config s)) ->
  exists s', steps (S n) s = Done s' /\ waiting_active_cars s' = [].
Proof.
  intros Hok Hrate.
  assert (H : exists s', steps (S n) s = Done s' /\ positions_ok s' /\
                         config s' = config s /\ waiting_active_cars s' = []).
  { induction n as [|n IH].
    - destruct (step_waiting s Hok) as (s' & Hs' & Hok' & Hcfg & Hw).
      exists s'. split; [exact Hs'|]. split; [exact Hok'|]. split; [exact Hcfg|].
      rewrite Hw. unfold _process_waiting_active_cars.
      destruct (cleanup_positions_ok s Hok) as (H1 & _).
      destruct (waiting_active_cars (_cleanup_exited_cars s)) as [|w ws] eqn:E; [exact E|].
      rewrite <- E.
      pose proof (draw_wake_ups_all (initial_active_exit_rate (config (_cleanup_exited_cars s)))
                    (waiting_active_cars (_cleanup_exited_cars s))
                    (rng (_cleanup_exited_cars s)) Hrate) as Hall.
      destruct (draw_wake_ups _ _ _) as [woke r]. cbn [fst] in Hall. subst woke.
      apply wake_everyone; [|reflexivity].
      destruct H1 as [H1 H1']. split; [|exact H1']. constructor; apply H1.
    - destruct IH as (s1 & Hs1 & Hok1 & Hcfg1 & Hw1).
      destruct (step_waiting s1 Hok1) as (s' & Hs' & Hok' & Hcfg & Hw).
      exists s'. split; [|split; [exact Hok'|split; [congruence|]]].
      + change (steps (S (S n)) s) with
          (match steps (S n) s with
           | Done s' => step s' | KeyError => KeyError | OutOfFuel => OutOfFuel end).
        rewrite Hs1. exact Hs'.
      + rewrite Hw. unfold _process_waiting_active_cars.
        change (waiting_active_cars (_cleanup_exited_cars s1)) with (waiting_active_cars s1).
        rewrite Hw1. exact Hw1. }
  destruct H as (s' & Hs' & _ & _ & Hw). exists s'. auto.
Qed.

Lemma exit_rate_one_wakes_everyone_witness :
  exists s', steps 1 (demo_sim demo_config_busy (constant_rng 0)) = Done s' /\
             waiting_active_cars s' = [].
Proof.
  apply (exit_rate_one_wakes_everyone (demo_sim demo_config_busy (constant_rng 0)) 0).
  - apply new_simulation_positions_ok.
  - vm_compute. discriminate.
Defined.

(** X19: with [initial_active_exit_rate <= 0] no waiting car is ever
    woken: the waiting list is the same after any number of steps. *)
Theorem exit_rate_zero_wakes_nobody (s : SimulationCore) (n : nat) :
  positions_ok s ->
  Qle (initial_active_exit_rate (config s)) 0 ->
  exists s', steps n s = Done s' /\ waiting_active_cars s' = waiting_active_cars s.
Proof.
  intros Hok Hrate.
  assert (H : exists s', steps n s = Done s' /\ positions_ok s' /\
                         config s' = config s /\
                         waiting_active_cars s' = waiting_active_cars s).
  { induction n as [|n IH].
    - exists s. auto.
    - destruct IH as (s1 & Hs1 & Hok1 & Hcfg1 & Hw1).
      destruct (step_waiting s1 Hok1) as (s' & Hs' & Hok' & Hcfg & Hw).
      exists s'. cbn [steps]. rewrite Hs1. split; [exact Hs'|]. split; [exact Hok'|].
      split; [congruence|]. rewrite Hw, <- Hw1. unfold _process_waiting_active_cars.
      change (waiting_active_cars (_cleanup_exited_cars s1)) with (waiting_active_cars s1).
      destruct (waiting_active_cars s1) as [|w ws] eqn:E; [exact E|]. rewrite <- E.
      change (config (_cleanup_exited_cars s1)) with (config s1). rewrite Hcfg1.
      pose proof (draw_wake_ups_none (initial_active_exit_rate (config s))
                    (waiting_active_cars s1) (rng (_cleanup_exited_cars s1)) Hrate) as Hnone.
      destruct (draw_wake_ups _ _ _) as [woke r]. cbn [fst] in Hnone. subst woke.
      reflexivity. }
  destruct H as (s' & Hs' & _ & _ & Hw). exists s'. auto.
Qed.

Lemma exit_rate_zero_wakes_nobody_witness :
  exists s', steps 3 (demo_sim demo_config_one_active (constant_rng 0)) = Done s' /\
             waiting_active_cars s'
             = waiting_active_cars (demo_sim demo_config_one_active (constant_rng 0)).
Proof.
  apply (exit_rate_zero_wakes_nobody (demo_sim demo_config_one_active (constant_rng 0)) 3).
  - apply new_simulation_positions_ok.
  - vm_compute. discriminate.
Defined.


(** ** What a planned path passes through *)

Section PlannerSafe.
Variable start : Position.
Variable start_time : Z.
Variable goal : Position.
Variable grid : Grid.
Variable rt : ReservationTable.
Variable max_time : Z.
Variable obstacles : gset Position.
Variable persistence : Z.

Local Notation "'adm'" := (admissible start start_time goal grid rt obstacles persistence).
Local Notation "'rlx'" := (relax start start_time goal grid rt obstacles persistence).
Local Notation "'loop'" :=
  (a_star_loop start start_time goal grid rt max_time obstacles persistence).
Local Notation "'inv'" := (search_inv start start_time grid).
Local Notation "'links'" :=
  (links_ok start start_time goal grid rt max_time obstacles persistence).
Local Notation "'safe'" :=
  (moves_ok start start_time goal grid rt max_time obstacles persistence).

Lemma moves_ok_snoc p x y t nx ny :
  safe p -> last p = Some (x, y, t) ->
  (x, y) <> goal -> t < max_time -> adm x y t nx ny = true ->
  safe (p ++ [(nx, ny, t + 1)]).
Proof.
  intros Hp Hl Hg Ht Ha i x1 y1 t1 x2 y2 t2 Hi HSi.
  rewrite last_lookup in Hl.
  assert (Hlen : (S i < length p + 1)%nat).
  { apply lookup_lt_Some in HSi. rewrite length_app in HSi. simpl in HSi. exact HSi. }
  destruct (decide (S i < length p)%nat) as [Hlt|Hge].
  - rewrite lookup_app_l in Hi by lia. rewrite lookup_app_l in HSi by lia.
    apply (Hp i); assumption.
  - assert (Ei : i = pred (length p)) by lia.
    rewrite lookup_app_l in Hi by lia. rewrite Ei, Hl in Hi. inversion Hi; subst x1 y1 t1.
    rewrite lookup_app_r in HSi by lia.
    replace (S i - length p)%nat with O in HSi by lia. cbn in HSi.
    inversion HSi; subst x2 y2 t2. auto.
Qed.

Lemma path_keys_head n cf : forall k keys,
  path_keys_from n cf k = Some keys -> exists rest, keys = k :: rest.
Proof.
  destruct n as [|n]; intros k keys; cbn [path_keys_from]; [discriminate|].
  destruct (cf !! k) as [pk|].
  - destruct (path_keys_from n cf pk) as [keys'|]; cbn; [|discriminate].
    intros [= <-]. eauto.
  - intros [= <-]. eauto.
Qed.

Lemma walk_links st : links st ->
  forall n k keys,
    path_keys_from n (came_from st) k = Some keys ->
    safe (unpack_key (area grid) (height grid) <$> reverse keys).
Proof.
  intros Hl. induction n as [|n IH]; intros k keys; cbn [path_keys_from]; [discriminate|].
  destruct (came_from st !! k) as [pk|] eqn:Hk.
  - destruct (path_keys_from n (came_from st) pk) as [keys'|] eqn:Hkeys; cbn; [|discriminate].
    intros [= <-].
    destruct (Hl k pk Hk) as (px & py & x & y & t & -> & -> & Hpb & Hpg & Ht & Ha).
    pose proof (admissible_true _ _ _ _ _ _ _ _ _ _ _ _ Ha) as (Hb & _).
    rewrite reverse_cons, fmap_app. cbn [fmap list_fmap].
    rewrite (unpack_pack grid x y (t + 1) Hb).
    apply (moves_ok_snoc _ px py t x y); auto.
    + apply (IH _ _ Hkeys).
    + destruct (path_keys_head _ _ _ _ Hkeys) as [rest ->].
      rewrite reverse_cons, fmap_app. cbn [fmap list_fmap].
      rewrite last_snoc, (unpack_pack grid px py t Hpb). reflexivity.
  - intros [= <-]. intros i x1 y1 t1 x2 y2 t2 _ H. destruct i; discriminate H.
Qed.

Lemma relax_links x y t g st d :
  links st -> in_bounds grid x y = true -> (x, y) <> goal -> t < max_time ->
  links (rlx x y t g (pack_key grid x y t) st d).
Proof.
  intros Hl Hb Hg Ht. unfold relax.
  destruct (adm x y t (x + d.1) (y + d.2)) eqn:Eadm; [|exact Hl].
  destruct (match g_score st !! _ with Some prev_g => g + 1 >=? prev_g | None => false end);
    [exact Hl|].
  intros k pk. cbn [came_from]. rewrite lookup_insert.
  destruct (decide ((t + 1) * area grid + ((x + d.1) * height grid + (y + d.2)) = k))
    as [<- |Hne].
  - intros [= <-]. exists x, y, (x + d.1), (y + d.2), t. repeat split; auto.
  - apply Hl.
Qed.

Lemma relax_links_fold x y t g ds : forall st,
  links st -> in_bounds grid x y = true -> (x, y) <> goal -> t < max_time ->
  links (fold_left (rlx x y t g (pack_key grid x y t)) ds st).
Proof.
  induction ds as [|d ds IH]; intros st Hl Hb Hg Ht; cbn [fold_left]; [exact Hl|].
  apply IH; auto. apply relax_links; auto.
Qed.

Lemma a_star_loop_moves fuel path : forall st,
  inv st -> links st ->
  loop fuel st = Done (Some path) ->
  safe path /\ head path = Some (start.1, start.2, start_time).
Proof.
  induction fuel as [|fuel IH]; intros st Hinv Hl; [discriminate|].
  cbn [a_star_loop]. destruct (heappop (open_set st)) as [[[[f g] key] rest]|]; [|discriminate].
  set (st1 := {| open_set := rest; g_score := g_score st; came_from := came_from st |}).
  assert (Hinv1 : inv st1) by exact Hinv.
  assert (Hl1 : links st1) by exact Hl.
  case_bool_decide as Hg; [|apply IH; assumption].
  destruct (Hinv _ _ Hg) as (x & y & t & Hb & Hk & Hst & Hgt & _). subst key.
  rewrite unpack_pack by exact Hb.
  case_bool_decide as Hgoal.
  - destruct (walk_back start start_time grid st1 Hinv1 (Z.to_nat (t - start_time)) x y t g Hb Hg)
      as (keys & Hkeys & Hhead & _); [lia|].
    unfold _reconstruct_path_packed.
    change (came_from st) with (came_from st1). rewrite Hkeys.
    intros [= <-]. split; [|exact Hhead].
    apply (walk_links st1 Hl1 _ _ _ Hkeys).
  - destruct (t >=? max_time) eqn:Et; [apply IH; assumption|].
    assert (Hlt : t < max_time) by (rewrite Z.geb_leb in Et; apply Z.leb_gt in Et; lia).
    destruct (relax_fold start start_time goal grid rt max_time obstacles persistence
                x y t g moves st1 Hinv1 Hb Hg Hlt) as [Hinv2 _]; [auto|].
    apply IH; [exact Hinv2|].
    apply relax_links_fold; auto.
Qed.

End PlannerSafe.

Lemma a_star_moves start start_time goal grid rt max_time obstacles persistence fuel path :
  single_agent_a_star start start_time goal grid rt max_time obstacles persistence fuel
    = Done (Some path) ->
  moves_ok start start_time goal grid rt max_time obstacles persistence path /\
  head path = Some (start.1, start.2, start_time).
Proof.
  unfold single_agent_a_star. destruct start as [sx sy], goal as [gx gy].
  destruct (in_bounds grid sx sy) eqn:Hs; cbn [negb]; [|discriminate].
  destruct (in_bounds grid gx gy); cbn [negb]; [|discriminate].
  destruct (is_drivable (cell_type grid sx sy)); cbn [negb]; [|discriminate].
  destruct (is_drivable (cell_type grid gx gy)); cbn [negb]; [|discriminate].
  case_bool_decide; [discriminate|].
  apply a_star_loop_moves.
  - apply initial_search_inv. exact Hs.
  - intros k pk. cbn [came_from]. rewrite lookup_empty. discriminate.
Qed.


(** X20: every move of a path the planner returns passed the planner's
    guards: the cell it enters is in bounds and not a wall, is free in the
    reservation table at the tick of arrival, the move crosses no reserved
    edge in either direction, the cell is not an ephemeral obstacle that
    still persists, and it is an EXIT only if it is the goal. *)
Theorem planned_path_respects_reservations
    (start : Position) (start_time : Z) (goal : Position) (grid : Grid)
    (rt : ReservationTable) (max_time : Z) (obstacles : gset Position)
    (persistence : Z) (fuel : nat) (path : list TimedPosition) :
  single_agent_a_star start start_time goal grid rt max_time obstacles persistence fuel
    = Done (Some path) ->
  forall i x y t nx ny nt,
    path !! i = Some (x, y, t) -> path !! S i = Some (nx, ny, nt) ->
    nt = t + 1 /\
    in_bounds grid nx ny = true /\ cell_type grid nx ny <> WALL /\
    is_cell_free rt nx ny nt = true /\
    is_edge_free rt x y nx ny t = true /\
    ((nx, ny) ∈ obstacles -> start_time + persistence <= nt) /\
    (cell_type grid nx ny = EXIT -> (nx, ny) = goal).
Proof.
  intros Hres i x y t nx ny nt Hi HSi.
  destruct (a_star_moves _ _ _ _ _ _ _ _ _ _ Hres) as [Hsafe _].
  destruct (Hsafe i x y t nx ny nt Hi HSi) as (_ & _ & -> & Ha).
  apply admissible_true in Ha as (Hb & Hw & He & _ & Ho & Hs & Hv & He1 & He2).
  split; [reflexivity|]. split; [exact Hb|]. split; [exact Hw|].
  split; [unfold is_cell_free; rewrite !bool_decide_eq_true_2 by assumption; reflexivity|].
  split; [unfold is_edge_free; rewrite !bool_decide_eq_true_2 by assumption; reflexivity|].
  split; [|exact He].
  intros Hin. destruct (Z_lt_le_dec (t + 1) (start_time + persistence)) as [Hlt|Hle]; [|exact Hle].
  assert (Hblock : obstacle_blocks start_time obstacles persistence nx ny (t + 1) = true).
  { apply obstacle_blocks_iff. auto. }
  congruence.
Qed.

Lemma planned_path_respects_reservations_witness :
  1 = 0 + 1 /\
  in_bounds lane3 1 0 = true /\ cell_type lane3 1 0 <> WALL /\
  is_cell_free empty_table 1 0 1 = true /\
  is_edge_free empty_table 0 0 1 0 0 = true /\
  ((1, 0) ∈ (∅ : gset Position) -> 0 + 20 <= 1) /\
  (cell_type lane3 1 0 = EXIT -> (1, 0) = (2, 0)).
Proof.
  apply (fun H => planned_path_respects_reservations (0, 0) 0 (2, 0) lane3 empty_table 5 ∅ 20
                    (search_fuel 0 lane3 5) [(0, 0, 0); (1, 0, 1); (2, 0, 2)] H
                    0%nat 0 0 0 1 0 1 eq_refl eq_refl).
  vm_compute. reflexivity.
Defined.

(** X21: in a path the planner returns the [i]-th entry is at tick
    [start_time + i]; no entry but the last is on the goal cell; and every
    entry after the first is at a tick no later than [max_time]. *)
Theorem planned_path_timing
    (start : Position) (start_time : Z) (goal : Position) (grid : Grid)
    (rt : ReservationTable) (max_time : Z) (obstacles : gset Position)
    (persistence : Z) (fuel : nat) (path : list TimedPosition) :
  single_agent_a_star start start_time goal grid rt max_time obstacles persistence fuel
    = Done (Some path) ->
  forall i x y t,
    path !! i = Some (x, y, t) ->
    t = start_time + Z.of_nat i /\
    ((S i < length path)%nat -> (x, y) <> goal) /\
    ((0 < i)%nat -> t <= max_time).
Proof.
  intros Hres.
  destruct (a_star_moves _ _ _ _ _ _ _ _ _ _ Hres) as [Hsafe Hhead].
  assert (Htime : forall i x y t, path !! i = Some (x, y, t) -> t = start_time + Z.of_nat i).
  { induction i as [|i IH]; intros x y t Hi.
    - rewrite <- head_lookup, Hhead in Hi. inversion Hi. lia.
    - destruct (lookup_lt_is_Some_2 path i) as [[[px py] pt] Hp].
      { apply lookup_lt_Some in Hi. lia. }
      destruct (Hsafe i px py pt x y t Hp Hi) as (_ & _ & -> & _).
      rewrite (IH px py pt Hp). lia. }
  intros i x y t Hi. split; [apply (Htime i x y t Hi)|]. split.
  - intros Hlt. destruct (lookup_lt_is_Some_2 path (S i) Hlt) as [[[nx ny] nt] Hn].
    destruct (Hsafe i x y t nx ny nt Hi Hn) as (Hg & _). exact Hg.
  - intros Hpos. destruct i as [|i]; [lia|].
    destruct (lookup_lt_is_Some_2 path i) as [[[px py] pt] Hp].
    { apply lookup_lt_Some in Hi. lia. }
    destruct (Hsafe i px py pt x y t Hp Hi) as (_ & Hlt & -> & _). lia.
Qed.

Lemma planned_path_timing_witness :
  1 = 0 + Z.of_nat 1 /\
  ((2 < length [(0, 0, 0); (1, 0, 1); (2, 0, 2)])%nat -> (1, 0) <> (2, 0)) /\
  ((0 < 1)%nat -> 1 <= 5).
Proof.
  apply (fun H => planned_path_timing (0, 0) 0 (2, 0) lane3 empty_table 5 ∅ 20
                    (search_fuel 0 lane3 5) [(0, 0, 0); (1, 0, 1); (2, 0, 2)] H
                    1%nat 1 0 1 eq_refl).
  vm_compute. reflexivity.
Defined.

(** ** planning/priority_planner.py *)

Lemma plan_for_car_success grid rt h car t obs p car' rt' :
  plan_for_car grid rt h car t obs p = (true, car', rt') ->
  exists g,
    goal car = Some g /\
    single_agent_a_star (current_position car) t g grid rt (t + h) obs p
      (search_fuel t grid (t + h)) = Done (Some (path car')) /\
    car' = set_path car (path car') /\ rt' = reserve_path (path car') rt.
Proof.
  unfold plan_for_car. destruct (goal car) as [g|]; [|discriminate].
  destruct (single_agent_a_star _ _ _ _ _ _ _ _ _) as [[pth|]| |] eqn:E; try discriminate.
  intros [= <- <-]. exists g. split; [reflexivity|]. auto.
Qed.

(** X22: when two cars are planned one after the other, the second path
    never enters a cell at a tick at which the first path holds it, and
    never swaps cells with the first car. *)
Theorem later_plan_avoids_earlier_path
    (grid : Grid) (rt : ReservationTable) (h : Z)
    (car1 car2 : Car) (t1 t2 : Z) (obs1 obs2 : gset Position) (p1 p2 : Z)
    (car1' car2' : Car) (rt1 rt2 : ReservationTable) :
  plan_for_car grid rt h car1 t1 obs1 p1 = (true, car1', rt1) ->
  plan_for_car grid rt1 h car2 t2 obs2 p2 = (true, car2', rt2) ->
  forall i x y t nx ny nt,
    path car2' !! i = Some (x, y, t) -> path car2' !! S i = Some (nx, ny, nt) ->
    (nx, ny, nt) ∉ path car1' /\
    forall j mt,
      ~ (path car1' !! j = Some (nx, ny, t) /\ path car1' !! S j = Some (x, y, mt)).
Proof.
  intros H1 H2 i x y t nx ny nt Hi HSi.
  apply plan_for_car_success in H1 as (g1 & _ & _ & _ & ->).
  apply plan_for_car_success in H2 as (g2 & _ & Hres & _ & _).
  destruct (a_star_moves _ _ _ _ _ _ _ _ _ _ Hres) as [Hsafe _].
  destruct (Hsafe i x y t nx ny nt Hi HSi) as (_ & _ & -> & Ha).
  apply admissible_true in Ha as (_ & _ & _ & _ & _ & _ & Hv & _ & He).
  destruct (reserve_path_from_fields None (path car1') rt) as (Ev & Ee & _).
  unfold reserve_path in Hv, He. rewrite Ev in Hv. rewrite Ee in He.
  split.
  - intros Hin. apply Hv, elem_of_union_l, path_vertices_elem, Hin.
  - intros j mt [Hj HSj]. apply He, elem_of_union_l.
    apply (path_edges_from_lookup (path car1') None j nx ny t x y mt Hj HSj).
Qed.

Lemma later_plan_avoids_earlier_path_witness :
  (2, 0, 1) ∉ [(0, 0, 0); (1, 0, 1); (2, 0, 2)] /\
  forall j mt,
    ~ ([(0, 0, 0); (1, 0, 1); (2, 0, 2)] !! j = Some (2, 0, 0) /\
       [(0, 0, 0); (1, 0, 1); (2, 0, 2)] !! S j = Some (1, 0, mt)).
Proof.
  refine (later_plan_avoids_earlier_path lane3 empty_table 5 lane_car_a lane_car_b 0 0 ∅ ∅ 20 20
             (set_path lane_car_a [(0, 0, 0); (1, 0, 1); (2, 0, 2)])
             (set_path lane_car_b [(1, 0, 0); (2, 0, 1)])
             (reserve_path [(0, 0, 0); (1, 0, 1); (2, 0, 2)] empty_table)
             (reserve_path [(1, 0, 0); (2, 0, 1)]
                (reserve_path [(0, 0, 0); (1, 0, 1); (2, 0, 2)] empty_table))
             _ _ 0%nat 1 0 0 2 0 1 eq_refl eq_refl).
  - vm_compute. reflexivity.
  - vm_compute. reflexivity.
Defined.


(** ** agents/car.py *)

(** X23: [step] goes where [peek_at_next_step] says.  When the peek names
    a cell, [step] returns that cell and the car is on it afterwards; when
    the peek returns [None], the car stays where it is, and [step] returns
    [None] if the car has a path and the car's cell otherwise. *)
Theorem step_goes_where_peek_says (c : Car) (current_time : Z) :
  (forall q, peek_at_next_step c current_time = Some q ->
     (car_step c current_time).1 = Some q /\
     current_position (car_step c current_time).2 = q) /\
  (peek_at_next_step c current_time = None ->
     current_position (car_step c current_time).2 = current_position c /\
     (car_step c current_time).1
     = if has_path c then None else Some (current_position c)).
Proof.
  unfold peek_at_next_step, car_step. cbv zeta.
  set (idx := fast_forward (drop (current_step c) (path c)) (current_step c) (current_time + 1)).
  unfold has_path, current_position. sim_simpl.
  destruct (path c !! idx) as [[[x y] t]|] eqn:Hp; cbv beta iota.
  - assert (Hlen : (idx < length (path c))%nat) by (apply lookup_lt_Some in Hp; exact Hp).
    destruct (t =? current_time + 1) eqn:E1.
    + split; [|discriminate]. intros q [= <-]. sim_simpl. auto.
    + split; [|discriminate]. intros q [= <-].
      destruct (t >? current_time + 1); sim_simpl; [auto|].
      replace (length (path c) <=? idx)%nat with false
        by (symmetry; apply Nat.leb_gt; exact Hlen).
      rewrite andb_false_r. sim_simpl. auto.
  - split; [discriminate|]. intros _.
    assert (Hlen : (length (path c) <= idx)%nat) by (apply lookup_ge_None in Hp; exact Hp).
    replace (length (path c) <=? idx)%nat with true by (symmetry; apply Nat.leb_le; exact Hlen).
    rewrite andb_true_r. destruct (0 <? length (path c))%nat; sim_simpl; auto.
Qed.

Lemma find_tick (p : list TimedPosition) t0 : forall k x y,
  (forall i x y t, p !! i = Some (x, y, t) -> t = t0 + Z.of_nat i) ->
  p !! k = Some (x, y, t0 + Z.of_nat k) ->
  List.find (fun e : TimedPosition => e.2 =? t0 + Z.of_nat k) p = Some (x, y, t0 + Z.of_nat k).
Proof.
  revert t0. induction p as [|[[x0 y0] t1] p IH]; intros t0 k x y Hp Hk; [discriminate|].
  cbn [List.find snd].
  pose proof (Hp 0%nat x0 y0 t1 eq_refl) as H0. cbn in H0.
  destruct k as [|k].
  - cbn in Hk. inversion Hk; subst. rewrite Z.eqb_refl. reflexivity.
  - replace (t1 =? t0 + Z.of_nat (S k)) with false by (symmetry; apply Z.eqb_neq; lia).
    cbn in Hk.
    replace (t0 + Z.of_nat (S k)) with ((t0 + 1) + Z.of_nat k) in * by lia.
    apply (IH (t0 + 1)); [|exact Hk].
    intros i x' y' t' Hi. rewrite (Hp (S i) x' y' t' Hi). lia.
Qed.

Lemma drive_step (c : Car) (p : list TimedPosition) (t0 : Z) :
  (forall i x y t, p !! i = Some (x, y, t) -> t = t0 + Z.of_nat i) ->
  forall k x y,
    p !! S k = Some (x, y, t0 + Z.of_nat (S k)) ->
    path (drive (set_path c p) t0 (S k)) = p /\
    current_step (drive (set_path c p) t0 (S k)) = S (S k) /\
    _position (drive (set_path c p) t0 (S k)) = (x, y) /\
    (car_step (drive (set_path c p) t0 k) (t0 + Z.of_nat k)).1 = Some (x, y).
Proof.
  intros Hp. induction k as [|k IH]; intros x y Hk.
  - cbn [drive]. unfold car_step, set_path. cbv zeta. sim_simpl.
    rewrite drop_0.
    destruct p as [|[[x0 y0] t1] rest]; [discriminate|].
    pose proof (Hp 0%nat x0 y0 t1 eq_refl) as H0. cbn in H0.
    cbn [fast_forward].
    replace (t1 <? t0 + Z.of_nat 0 + 1) with true by (symmetry; apply Z.ltb_lt; lia).
    cbn in Hk. destruct rest as [|[[x1 y1] t2] rest]; [discriminate|].
    cbn in Hk. inversion Hk; subst x1 y1 t2. cbn [fast_forward].
    replace (t0 + Z.of_nat 1 <? t0 + Z.of_nat 0 + 1) with false
      by (symmetry; apply Z.ltb_ge; lia).
    cbn [lookup list_lookup].
    replace (t0 + Z.of_nat 1 =? t0 + Z.of_nat 0 + 1) with true
      by (symmetry; apply Z.eqb_eq; lia).
    sim_simpl. auto.
  - destruct (lookup_lt_is_Some_2 p (S k)) as [[[px py] pt] Hprev].
    { apply lookup_lt_Some in Hk. lia. }
    pose proof (Hp _ _ _ _ Hprev) as Hpt. subst pt.
    destruct (IH px py Hprev) as (Epath & Estep & _ & _).
    change (drive (set_path c p) t0 (S (S k)))
      with (car_step (drive (set_path c p) t0 (S k)) (t0 + Z.of_nat (S k))).2.
    set (c1 := drive (set_path c p) t0 (S k)) in *.
    unfold car_step. cbv zeta. rewrite Epath, Estep.
    rewrite (drop_S _ _ _ Hk). cbn [fast_forward].
    replace (t0 + Z.of_nat (S (S k)) <? t0 + Z.of_nat (S k) + 1) with false
      by (symmetry; apply Z.ltb_ge; lia).
    rewrite Hk.
    replace (t0 + Z.of_nat (S (S k)) =? t0 + Z.of_nat (S k) + 1) with true
      by (symmetry; apply Z.eqb_eq; lia).
    sim_simpl. auto.
Qed.

(** X24: a car follows its path.  For a path whose [i]-th entry is at tick
    [t0 + i] (as the planner's are), after [k] calls of [step], one per
    tick from [t0] on, the car stands on the cell of the [k]-th entry, the
    last call returned that cell, [get_position_at_time] names the same
    cell for tick [t0 + k], and the car is finished exactly when the entry
    is the last one. *)
Theorem car_follows_its_path (c : Car) (p : list TimedPosition) (t0 : Z) (k : nat)
    (x y : Z) :
  (forall i x y t, p !! i = Some (x, y, t) -> t = t0 + Z.of_nat i) ->
  p !! S k = Some (x, y, t0 + Z.of_nat (S k)) ->
  current_position (drive (set_path c p) t0 (S k)) = (x, y) /\
  (car_step (drive (set_path c p) t0 k) (t0 + Z.of_nat k)).1 = Some (x, y) /\
  get_position_at_time (set_path c p) (t0 + Z.of_nat (S k)) = Some (x, y) /\
  is_finished (drive (set_path c p) t0 (S k)) = bool_decide (length p = S (S k)).
Proof.
  intros Hp Hk.
  destruct (drive_step c p t0 Hp k x y Hk) as (Epath & Estep & Epos & Eret).
  split; [exact Epos|]. split; [exact Eret|]. split.
  - unfold get_position_at_time, set_path. sim_simpl.
    rewrite (find_tick p t0 (S k) x y Hp Hk).
    destruct p; [discriminate|reflexivity].
  - unfold is_finished. rewrite Epath, Estep.
    apply lookup_lt_Some in Hk.
    case_bool_decide; [apply Nat.leb_le; lia|apply Nat.leb_gt; lia].
Qed.

Lemma car_follows_its_path_witness :
  current_position (drive (set_path lane_car_a [(0, 0, 0); (1, 0, 1); (2, 0, 2)]) 0 2) = (2, 0) /\
  (car_step (drive (set_path lane_car_a [(0, 0, 0); (1, 0, 1); (2, 0, 2)]) 0 1)
     (0 + Z.of_nat 1)).1 = Some (2, 0) /\
  get_position_at_time (set_path lane_car_a [(0, 0, 0); (1, 0, 1); (2, 0, 2)])
    (0 + Z.of_nat 2) = Some (2, 0) /\
  is_finished (drive (set_path lane_car_a [(0, 0, 0); (1, 0, 1); (2, 0, 2)]) 0 2)
  = bool_decide (length [(0, 0, 0); (1, 0, 1); (2, 0, 2)] = 3%nat).
Proof.
  refine (car_follows_its_path lane_car_a [(0, 0, 0); (1, 0, 1); (2, 0, 2)] 0 1 2 0 _ eq_refl).
  intros i x y t Hi.
  destruct i as [|[|[|i]]]; cbn in Hi; inversion Hi; reflexivity.
Defined.


(** ** Where a new car may appear *)

Lemma swap_entries_elem {A : Type} (l : list A) (i j : nat) (x : A) :
  x ∈ swap_entries l i j <-> x ∈ l.
Proof.
  unfold swap_entries.
  destruct (l !! i) as [a|] eqn:Hi; [|reflexivity].
  destruct (l !! j) as [b|] eqn:Hj; [|reflexivity].
  pose proof (lookup_lt_Some _ _ _ Hi) as Li. pose proof (lookup_lt_Some _ _ _ Hj) as Lj.
  rewrite !list_elem_of_lookup. split.
  - intros [k Hk]. apply list_lookup_insert_Some in Hk as [(<- & <- & _)|[Hne Hk]]; [eauto|].
    apply list_lookup_insert_Some in Hk as [(<- & <- & _)|[Hne' Hk]]; eauto.
  - intros [k Hk]. destruct (decide (k = i)) as [->|Hki].
    + rewrite Hi in Hk. inversion Hk; subst x. destruct (decide (i = j)) as [->|Hij].
      * exists j. rewrite Hj in Hi. inversion Hi; subst b.
        apply list_lookup_insert_Some. left. rewrite length_insert. auto.
      * exists j. apply list_lookup_insert_Some. right. split; [exact Hij|].
        apply list_lookup_insert_Some. left. auto.
    + destruct (decide (k = j)) as [->|Hkj].
      * rewrite Hj in Hk. inversion Hk; subst x. exists i.
        apply list_lookup_insert_Some. left. rewrite length_insert. auto.
      * exists k. apply list_lookup_insert_Some. right. split; [auto|].
        apply list_lookup_insert_Some. right. auto.
Qed.

Lemma shuffle_from_elem {A : Type} (i : nat) : forall (l : list A) r x,
  x ∈ (shuffle_from i l r).1 <-> x ∈ l.
Proof.
  induction i as [|i IH]; intros l r x; cbn [shuffle_from]; [reflexivity|].
  destruct (next_draw r) as [n r']. rewrite IH. apply swap_entries_elem.
Qed.

Lemma random_shuffle_elem {A : Type} (l : list A) r x :
  x ∈ (random_shuffle l r).1 <-> x ∈ l.
Proof. apply shuffle_from_elem. Qed.

Lemma entry_is_free_true s e :
  entry_is_free s e = true <->
  e ∉ dict_values (car_positions s) /\
  forall k, 0 <= k < 20 -> is_cell_free (table s) e.1 e.2 (time s + k) = true.
Proof.
  unfold entry_is_free. rewrite andb_true_iff, negb_true_iff, bool_decide_eq_false.
  rewrite forallb_forall. split; intros [H1 H2]; (split; [exact H1|]).
  - intros k Hk. apply H2. apply list_elem_of_In, elem_of_seqZ. lia.
  - intros k Hk. apply list_elem_of_In, elem_of_seqZ in Hk. apply H2. lia.
Qed.

(** X25: [_get_free_entry] returns an entry cell on which no car stands
    and which is free in the reservation table for the next 20 ticks; it
    returns [None] only when no entry cell passes these checks. *)
Theorem free_entry_is_free (s : SimulationCore) :
  match (_get_free_entry s).1 with
  | Some e =>
      e ∈ entry_cells (parking_manager s) /\
      e ∉ dict_values (car_positions s) /\
      forall k, 0 <= k < 20 -> is_cell_free (table s) e.1 e.2 (time s + k) = true
  | None =>
      forall e, e ∈ entry_cells (parking_manager s) ->
        e ∈ dict_values (car_positions s) \/
        exists k, 0 <= k < 20 /\ is_cell_free (table s) e.1 e.2 (time s + k) = false
  end.
Proof.
  unfold _get_free_entry.
  pose proof (random_shuffle_elem (elements (entry_cells (parking_manager s))) (rng s)) as Hsh.
  destruct (random_shuffle _ _) as [entries r]. cbn [fst] in *.
  destruct (List.find (entry_is_free s) entries) as [e|] eqn:Hfind.
  - apply List.find_some in Hfind as [Hin Hfree].
    apply list_elem_of_In, Hsh, elem_of_elements in Hin.
    apply entry_is_free_true in Hfree. tauto.
  - intros e He.
    assert (Hin : In e entries) by (apply list_elem_of_In, Hsh, elem_of_elements, He).
    pose proof (List.find_none _ _ Hfind e Hin) as Hno.
    unfold entry_is_free in Hno. apply andb_false_iff in Hno as [Hno|Hno].
    + left. apply negb_false_iff, bool_decide_eq_true in Hno. exact Hno.
    + right. apply not_true_iff_false in Hno.
      destruct (forallb_forall (fun t_offset => is_cell_free (table s) e.1 e.2 (time s + t_offset))
                  (seqZ 0 20)) as [_ Hall].
      destruct (List.existsb (fun t_offset =>
                  negb (is_cell_free (table s) e.1 e.2 (time s + t_offset))) (seqZ 0 20)) eqn:Hex.
      * apply existsb_exists in Hex as (k & Hk & Hfalse).
        apply list_elem_of_In, elem_of_seqZ in Hk. apply negb_true_iff in Hfalse.
        exists k. split; [lia|exact Hfalse].
      * exfalso. apply Hno, Hall. intros k Hk.
        destruct (is_cell_free (table s) e.1 e.2 (time s + k)) eqn:E; [reflexivity|].
        assert (Htrue : List.existsb (fun t_offset =>
                  negb (is_cell_free (table s) e.1 e.2 (time s + t_offset))) (seqZ 0 20) = true).
        { apply existsb_exists. exists k. split; [exact Hk|]. rewrite E. reflexivity. }
        congruence.
Qed.

Lemma free_road_cells_elem s p :
  p ∈ free_road_cells s <->
  in_bounds (grid s) p.1 p.2 = true /\ cell_type (grid s) p.1 p.2 = ROAD /\
  entry_is_free s p = true.
Proof.
  unfold free_road_cells. rewrite in_bounds_true. split.
  - intros H. apply list_elem_of_bind in H as (x & H & Hx).
    apply list_elem_of_bind in H as (y & H & Hy).
    apply elem_of_seqZ in Hx, Hy.
    destruct (bool_decide (cell_type (grid s) x y = ROAD) && entry_is_free s (x, y)) eqn:E;
      [|inversion H].
    apply list_elem_of_singleton in H. subst p. cbn [fst snd].
    apply andb_true_iff in E as [E1 E2]. apply bool_decide_eq_true in E1.
    repeat split; auto; lia.
  - destruct p as [x y]. cbn [fst snd]. intros ((Hx & Hy) & Hroad & Hfree).
    apply list_elem_of_bind. exists x. split; [|apply elem_of_seqZ; lia].
    apply list_elem_of_bind. exists y. split; [|apply elem_of_seqZ; lia].
    rewrite bool_decide_eq_true_2 by exact Hroad. rewrite Hfree. cbn [andb].
    apply list_elem_of_singleton. reflexivity.
Qed.

(** X26: [_get_free_road_cell] returns an in-bounds ROAD cell on which no
    car stands and which is free in the reservation table for the next 20
    ticks; it returns [None] exactly when the grid has no such cell. *)
Theorem free_road_cell_is_free (s : SimulationCore) :
  match (_get_free_road_cell s).1 with
  | Some p =>
      in_bounds (grid s) p.1 p.2 = true /\ cell_type (grid s) p.1 p.2 = ROAD /\
      p ∉ dict_values (car_positions s) /\
      forall k, 0 <= k < 20 -> is_cell_free (table s) p.1 p.2 (time s + k) = true
  | None =>
      forall x y, in_bounds (grid s) x y = true -> cell_type (grid s) x y = ROAD ->
        entry_is_free s (x, y) = false
  end.
Proof.
  unfold _get_free_road_cell.
  destruct (free_road_cells s) as [|c cs] eqn:Hc.
  - cbn [fst]. intros x y Hb Hroad.
    destruct (entry_is_free s (x, y)) eqn:E; [|reflexivity].
    assert (Hin : (x, y) ∈ free_road_cells s) by (apply free_road_cells_elem; auto).
    rewrite Hc in Hin. inversion Hin.
  - pose proof (random_choice_elem c cs (rng s)) as Hin.
    destruct (random_choice c cs (rng s)) as [p r]. cbn [fst] in *.
    rewrite <- Hc in Hin. apply free_road_cells_elem in Hin as (Hb & Hroad & Hfree).
    apply entry_is_free_true in Hfree. tauto.
Qed.
